(** * Spellcaster: reactive signals, verified against the source

    Two implementations of the signal engine live in the repository:

    - the observer-based one ([signal], [reductions], [sample], [setCancel],
      the throttling scheduler), embedded in module [Observed];
    - the tracking-based one ([useSignal], [useComputed], [useEffect],
      [useStore], [takeValues]), embedded in module [Tracked].

    JavaScript closures are the objects of the engine.  Every closure the
    library itself creates is represented by the record of the variables it
    captures, kept in a table of the world and named by its index there;
    functions handed in by the caller are either pure Rocq functions
    (reducers, stepping functions) or, for tracked functions, terms of the
    small command type [Comp] whose only commands are the calls a tracked
    function can make into the library.  The microtask queue of the event
    loop is a list of pending jobs, run from the front.

    The helpers around the engines that do not touch signals ([index],
    [insertElementAt], [children], [cid]) are in module [Collections].
    Programs over the observer-based engine, as the sequences of calls a
    caller can make, and what these programs maintain, are in module
    [ObservedReach]. *)

From stdpp Require Import base list sets strings pretty.
From Stdlib Require Import ZArith Lia.

Set Default Proof Using "Type".
Set Warnings "-clear-no-such-hyp".
Open Scope Z_scope.
Open Scope nat_scope.

(** ** JavaScript values *)

(** Numbers are restricted to the integers, plus [NaN], the one value that
    is not strictly equal to itself.  Objects are known by their identity. *)
Inductive Value : Type :=
| VUndefined
| VNull
| VBool (b : bool)
| VNum (z : Z)
| VNaN
| VStr (s : string)
| VObj (o : nat).

#[global] Instance Value_eq_dec : EqDecision Value.
Proof. solve_decision. Defined.

(** [a === b] *)
Definition strict_eq (a b : Value) : bool :=
  match a, b with
  | VNaN, _ | _, VNaN => false
  | _, _ => bool_decide (a = b)
  end.

(** [a !== b] *)
Definition strict_neq (a b : Value) : bool := negb (strict_eq a b).

(** [v == null], true of [null] and [undefined] only. *)
Definition nullish (v : Value) : bool :=
  match v with
  | VUndefined | VNull => true
  | _ => false
  end.

(** A JavaScript [Set] of identities iterates in insertion order and
    ignores the insertion of a member. *)
Definition set_add `{EqDecision A} (x : A) (s : list A) : list A :=
  if bool_decide (x ∈ s) then s else s ++ [x].

Definition set_delete `{EqDecision A} (x : A) (s : list A) : list A :=
  filter (λ y, y ≠ x) s.

(** ** The tracking-based engine *)

Module Tracked.

(** A throttled function ([throttled(job)]) is known by the index of its
    closure record. *)
Abbreviation Lid := nat (only parsing).

(** Something a tracked function can read: the [read] of a [useSignal] or of
    a [useComputed]. *)
Inductive Src : Type :=
| Sig (i : nat)
| Cmp (i : nat).

#[global] Instance Src_eq_dec : EqDecision Src.
Proof. solve_decision. Defined.

(** The body of a function of the caller, as the sequence of calls it makes
    into the library: [Read s k] calls the read function [s()] and goes on
    with its result, [Send i v k] calls the send function of signal [i]. *)
Inductive Comp (A : Type) : Type :=
| Ret (a : A)
| Read (s : Src) (k : Value → Comp A)
| Send (i : nat) (v : Value) (k : Comp A).
Arguments Ret {A} a.
Arguments Read {A} s k.
Arguments Send {A} i v k.

(** [state] and [didChange] of a [useSignal] or [useComputed] closure; the
    transaction is the [Set] of listeners of [transaction()]. *)
Record Cell : Type := mkCell {
  state : Value;
  transaction : list Lid
}.

(** The function a computed signal evaluates: one of the caller, or the
    closure [takeValues] builds over the record [t] of its variables. *)
Inductive Compute : Type :=
| CUser (p : Comp Value)
| CTakeValues (t : nat).

Record Computed : Type := mkComputed {
  c_cell : Cell;
  compute : Compute
}.

(** The job of a throttled function: the recompute of computed signal [c],
    or the re-run of an effect. *)
Inductive Job : Type :=
| JRecompute (c : nat)
| JEffect (perform : Comp unit).

Record Throttle : Type := mkThrottle {
  isScheduled : bool;
  job : Job
}.

(** Variables captured by the closure of [takeValues]. *)
Record Taker : Type := mkTaker {
  tk_signal : Src;
  tk_state : Value;
  tk_isComplete : bool
}.

(** What a store effect (a promise) settles to. *)
Inductive Outcome : Type :=
| Resolves (msg : Value)
| Rejects.

(** [{state, effects}] *)
Record Transaction : Type := mkTransaction {
  t_state : Value;
  t_effects : list Outcome
}.

(** Variables captured by the closures of [useStore]; [st_pending] are the
    calls of [runEffect] suspended at their [await]. *)
Record Store : Type := mkStore {
  st_signal : nat;
  st_update : Value → Value → Transaction;
  st_debug : bool;
  st_pending : list Outcome
}.

(** The trace of the run: which tracked function was entered, what each
    read returned and to whom it was attributed, which messages were sent
    to a store, and what was written to the console. *)
Inductive Event : Type :=
| EvTracked (l : Lid)
| EvRead (tracker : option Lid) (s : Src) (v : Value)
| EvStoreSend (st : nat) (msg : Value)
| EvDebug (label : string) (v : Value).

#[global] Instance Event_eq_dec : EqDecision Event.
Proof. solve_decision. Defined.

Record World : Type := mkWorld {
  scopes : list Lid;
  signals : list Cell;
  computeds : list Computed;
  throttles : list Throttle;
  takers : list Taker;
  stores : list Store;
  microtasks : list Lid;
  log : list Event
}.

Definition empty : World := mkWorld [] [] [] [] [] [] [] [].

Definition M (A : Type) : Type := World → A * World.

Definition with_scopes (x : list Lid) (w : World) : World :=
  mkWorld x (signals w) (computeds w) (throttles w) (takers w) (stores w)
    (microtasks w) (log w).
Definition with_signals (x : list Cell) (w : World) : World :=
  mkWorld (scopes w) x (computeds w) (throttles w) (takers w) (stores w)
    (microtasks w) (log w).
Definition with_computeds (x : list Computed) (w : World) : World :=
  mkWorld (scopes w) (signals w) x (throttles w) (takers w) (stores w)
    (microtasks w) (log w).
Definition with_throttles (x : list Throttle) (w : World) : World :=
  mkWorld (scopes w) (signals w) (computeds w) x (takers w) (stores w)
    (microtasks w) (log w).
Definition with_takers (x : list Taker) (w : World) : World :=
  mkWorld (scopes w) (signals w) (computeds w) (throttles w) x (stores w)
    (microtasks w) (log w).
Definition with_stores (x : list Store) (w : World) : World :=
  mkWorld (scopes w) (signals w) (computeds w) (throttles w) (takers w) x
    (microtasks w) (log w).
Definition with_microtasks (x : list Lid) (w : World) : World :=
  mkWorld (scopes w) (signals w) (computeds w) (throttles w) (takers w)
    (stores w) x (log w).
Definition record (e : Event) (w : World) : World :=
  mkWorld (scopes w) (signals w) (computeds w) (throttles w) (takers w)
    (stores w) (microtasks w) (log w ++ [e]).

Definition cell_at (w : World) (s : Src) : option Cell :=
  match s with
  | Sig i => signals w !! i
  | Cmp i => c_cell <$> computeds w !! i
  end.

Definition set_cell (s : Src) (c : Cell) (w : World) : World :=
  match s with
  | Sig i => with_signals (<[i := c]> (signals w)) w
  | Cmp i =>
      with_computeds
        (alter (λ cp, mkComputed c (compute cp)) i (computeds w)) w
  end.

(** *** [dependencyTracker] *)

(** [scopes.at(-1)] *)
Definition getTracked (w : World) : option Lid := last (scopes w).

Definition withTracking {A} (onChange : Lid) (perform : M A) : M A :=
  λ w,
    let w1 := record (EvTracked onChange)
                (with_scopes (scopes w ++ [onChange]) w) in
    let '(value, w2) := perform w1 in
    (value, with_scopes (removelast (scopes w2)) w2).

(** *** [throttled] *)

Definition set_scheduled (l : Lid) (b : bool) (w : World) : World :=
  with_throttles (alter (λ t, mkThrottle b (job t)) l (throttles w)) w.

(** [queueMicrotask(perform)] *)
Definition queueMicrotask (l : Lid) (w : World) : World :=
  with_microtasks (microtasks w ++ [l]) w.

Definition schedule (l : Lid) (w : World) : World :=
  match throttles w !! l with
  | Some t =>
      if isScheduled t then w
      else queueMicrotask l (set_scheduled l true w)
  | None => w
  end.

(** *** [transaction] *)

(** Only functions are added: outside every tracking scope [getTracked()]
    is [undefined]. *)
Definition withTransaction (s : Src) (listener : option Lid) (w : World)
  : World :=
  match listener, cell_at w s with
  | Some l, Some c =>
      set_cell s (mkCell (state c) (set_add l (transaction c))) w
  | _, _ => w
  end.

Definition transact (s : Src) (w : World) : World :=
  match cell_at w s with
  | Some c =>
      let listeners := transaction c in
      foldl (λ w' l, schedule l w') (set_cell s (mkCell (state c) []) w)
        listeners
  | None => w
  end.

(** *** [useSignal], [useComputed]: the closures [read] and [send] *)

Definition read (s : Src) : M Value :=
  λ w,
    match cell_at w s with
    | Some c =>
        (state c,
         record (EvRead (getTracked w) s (state c))
           (withTransaction s (getTracked w) w))
    | None => (VUndefined, w)
    end.

Definition send (i : nat) (value : Value) (w : World) : World :=
  match signals w !! i with
  | Some c =>
      if strict_neq (state c) value
      then transact (Sig i) (set_cell (Sig i) (mkCell value (transaction c)) w)
      else w
  | None => w
  end.

Fixpoint interp {A} (p : Comp A) (w : World) {struct p} : A * World :=
  match p with
  | Ret a => (a, w)
  | Read s k => let '(v, w1) := read s w in interp (k v) w1
  | Send i v k => interp k (send i v w)
  end.

(** *** [takeValues]: the function it hands to [useComputed] *)

Definition set_taker (t : nat) (tk : Taker) (w : World) : World :=
  with_takers (<[t := tk]> (takers w)) w.

Definition takeValues_compute (t : nat) : M Value :=
  λ w,
    match takers w !! t with
    | Some tk =>
        if tk_isComplete tk then (tk_state tk, w)
        else
          let '(next, w1) := read (tk_signal tk) w in
          if negb (nullish next)
          then (next, set_taker t (mkTaker (tk_signal tk) next false) w1)
          else (tk_state tk,
                set_taker t (mkTaker (tk_signal tk) (tk_state tk) true) w1)
    | None => (VUndefined, w)
    end.

Definition run_compute (c : Compute) : M Value :=
  match c with
  | CUser p => interp p
  | CTakeValues t => takeValues_compute t
  end.

(** *** The jobs handed to [throttled] *)

Definition recompute_job (l : Lid) (c : nat) (w : World) : World :=
  match computeds w !! c with
  | Some cp =>
      let '(value, w1) := withTracking l (run_compute (compute cp)) w in
      match cell_at w1 (Cmp c) with
      | Some cell =>
          if strict_neq (state cell) value
          then transact (Cmp c)
                 (set_cell (Cmp c) (mkCell value (transaction cell)) w1)
          else w1
      | None => w1
      end
  | None => w
  end.

Definition run_job (l : Lid) (j : Job) (w : World) : World :=
  match j with
  | JRecompute c => recompute_job l c w
  | JEffect perform => snd (withTracking l (interp perform) w)
  end.

(** The [perform] closure of a throttled function, run as a microtask. *)
Definition perform (l : Lid) (w : World) : World :=
  match throttles w !! l with
  | Some t => set_scheduled l false (run_job l (job t) w)
  | None => w
  end.

(** One turn of the microtask queue. *)
Definition tick (w : World) : World :=
  match microtasks w with
  | [] => w
  | l :: rest => perform l (with_microtasks rest w)
  end.

Fixpoint flush (fuel : nat) (w : World) : World :=
  match fuel with
  | 0 => w
  | S n => flush n (tick w)
  end.

(** *** Constructors *)

Definition useSignal (initial : Value) : M nat :=
  λ w, (length (signals w),
        with_signals (signals w ++ [mkCell initial []]) w).

(** [throttled(job)]: a new closure record, not scheduled. *)
Definition throttled (j : Job) : M Lid :=
  λ w, (length (throttles w),
        with_throttles (throttles w ++ [mkThrottle false j]) w).

(** [useComputed], for either kind of function.  The record of the new
    computed signal is complete once the first evaluation has given its
    [state]. *)
Definition useComputedWith (f : Compute) : M nat :=
  λ w,
    let c := length (computeds w) in
    let '(recompute, w1) := throttled (JRecompute c) w in
    let '(value, w2) := withTracking recompute (run_compute f) w1 in
    (c, with_computeds (computeds w2 ++ [mkComputed (mkCell value []) f]) w2).

Definition useComputed (compute : Comp Value) : M nat :=
  useComputedWith (CUser compute).

Definition useEffect (perform : Comp unit) (w : World) : World :=
  let '(performEffect, w1) := throttled (JEffect perform) w in
  snd (withTracking performEffect (interp perform) w1).

Definition takeValues (signal : Src) : M nat :=
  λ w,
    let '(state, w1) := read signal w in
    let t := length (takers w1) in
    useComputedWith (CTakeValues t)
      (with_takers (takers w1 ++ [mkTaker signal state false]) w1).

(** *** [useStore] *)

Definition next (state : Value) (effects : list Outcome) : Transaction :=
  mkTransaction state effects.

Definition console_debug (debug : bool) (label : string) (v : Value)
    (w : World) : World :=
  if debug then record (EvDebug label v) w else w.

Definition effects_length (effects : list Outcome) : Value :=
  VNum (Z.of_nat (length effects)).

Definition set_pending (st : nat) (pending : list Outcome) (w : World)
  : World :=
  with_stores
    (alter (λ s, mkStore (st_signal s) (st_update s) (st_debug s) pending)
       st (stores w)) w.

(** [effects.forEach(runEffect)]: every call of the async [runEffect] stops
    at its [await] and is resumed once its promise has settled. *)
Definition runEffects (st : nat) (effects : list Outcome) (w : World)
  : World :=
  match stores w !! st with
  | Some s => set_pending st (st_pending s ++ effects) w
  | None => w
  end.

(** The [send] closure of store [st]. *)
Definition store_send (st : nat) (msg : Value) (w : World) : World :=
  match stores w !! st with
  | Some s =>
      let w0 := record (EvStoreSend st msg) w in
      let '(current, w1) := read (Sig (st_signal s)) w0 in
      let t := st_update s current msg in
      let w2 := console_debug (st_debug s) "useStore.msg" msg w1 in
      let w3 := console_debug (st_debug s) "useStore.state" (t_state t) w2 in
      let w4 := console_debug (st_debug s) "useStore.effects"
                  (effects_length (t_effects t)) w3 in
      runEffects st (t_effects t) (send (st_signal s) (t_state t) w4)
  | None => w
  end.

(** [runEffect] after its [await]: [if (msg != null) send(msg)].  A rejected
    promise makes the [await] throw, and the call ends there. *)
Definition runEffect_resume (st : nat) (o : Outcome) (w : World) : World :=
  match o with
  | Resolves msg => if negb (nullish msg) then store_send st msg w else w
  | Rejects => w
  end.

(** The promise of the [k]-th suspended call settles. *)
Definition settle (st : nat) (k : nat) (w : World) : World :=
  match stores w !! st with
  | Some s =>
      match st_pending s !! k with
      | Some o => runEffect_resume st o (set_pending st (delete k (st_pending s)) w)
      | None => w
      end
  | None => w
  end.

(** [init] takes no argument and is called once: it is given by its
    result.  Returns the index of the store; its state signal is
    [st_signal]. *)
Definition useStore (init : Transaction) (update : Value → Value → Transaction)
    (debug : bool) : M nat :=
  λ w,
    let initial := init in
    let w1 := console_debug debug "useStore.state" (t_state initial) w in
    let w2 := console_debug debug "useStore.effects"
                (effects_length (t_effects initial)) w1 in
    let '(state, w3) := useSignal (t_state initial) w2 in
    let st := length (stores w3) in
    let w4 := with_stores (stores w3 ++ [mkStore state update debug []]) w3 in
    (st, runEffects st (t_effects initial) w4).

End Tracked.

(** ** The observer-based engine *)

Module Observed.

Inductive Exn : Type :=
| TypeError (message : string)
| ReferenceError (message : string).

(** What a stepping function returns: the next state, or [new Reduced(value)]. *)
Inductive StepResult : Type :=
| Plain (state : Value)
| Reduced (value : Value).

Definition Step : Type := Value → Value → StepResult.

(** A closure [() => Value] of the caller that reads signals, as a function
    of the reading [getValue] of every signal. *)
Definition Resample : Type := (nat → Value) → Value.

(** Cancel functions: [() => observers.delete(observer)] of signal [i], or a
    function of the caller, known by the calls made to it. *)
Inductive Cancel : Type :=
| Unobserve (i : nat) (observer : nat)
| CallerCancel (k : nat).

#[global] Instance Cancel_eq_dec : EqDecision Cancel.
Proof. solve_decision. Defined.

(** Functions the engine calls without argument: a cancel function, or the
    closure of [batchCancels] over its set [b]. *)
Inductive Fn : Type :=
| FCancel (c : Cancel)
| FBatch (b : nat).

(** Anything that can be passed where a cancel function is expected. *)
Inductive Any : Type :=
| AFn (f : Fn)
| AValue (v : Value).

(** Objects that can carry the [__cancel__] property: the [getValue]
    function of a signal, or any other object of the caller. *)
Inductive Obj : Type :=
| OSignal (i : nat)
| OOther (n : nat).

#[global] Instance Obj_eq_dec : EqDecision Obj.
Proof. solve_decision. Defined.

Inductive Thunk : Type :=
| Dispatch (i : nat).

(** Variables of a [createThrottlingScheduler] closure. *)
Record Scheduler : Type := mkScheduler {
  perform : option Thunk;
  isUpdateScheduled : bool
}.

(** Variables of a [signal] closure; [throttle] names its scheduler. *)
Record Signal : Type := mkSignal {
  value : Value;
  observers : list nat;
  throttle : nat
}.

(** The functions given to [observe]: the closure of [reductions] over the
    record [r], the closure [() => setDownstream(resample())] of [sample],
    or a function of the caller. *)
Inductive Observer : Type :=
| OReduction (r : nat)
| OSample (setDownstream : nat) (resample : Resample)
| OCaller (k : nat).

(** Variables of a [reductions] call; [r_cancel] is [None] as long as the
    [const cancel] has not been initialised. *)
Record Reduction : Type := mkReduction {
  r_step : Step;
  r_state : nat;
  r_cancel : option Fn
}.

Inductive Outcome : Type :=
| Resolves (msg : Value)
| Rejects.

Record Transaction : Type := mkTransaction {
  t_state : Value;
  t_effects : list Outcome
}.

Record Store : Type := mkStore {
  st_signal : nat;
  st_update : Value → Value → Transaction;
  st_debug : bool;
  st_pending : list Outcome
}.

Inductive Event : Type :=
| EvObserved (k : nat) (v : Value)
| EvCalled (k : nat)
| EvResample (downstream : nat)
| EvStoreSend (st : nat) (msg : Value)
| EvDebug (label : string) (v : Value).

#[global] Instance Event_eq_dec : EqDecision Event.
Proof. solve_decision. Defined.

Record World : Type := mkWorld {
  schedulers : list Scheduler;
  signals : list Signal;
  observerTable : list Observer;
  reductionTable : list Reduction;
  batches : list (list Cancel);
  cancelOf : Obj → option Fn;
  stores : list Store;
  microtasks : list nat;
  log : list Event
}.

Definition empty : World := mkWorld [] [] [] [] [] (λ _, None) [] [] [].

Definition with_schedulers (x : list Scheduler) (w : World) : World :=
  mkWorld x (signals w) (observerTable w) (reductionTable w) (batches w)
    (cancelOf w) (stores w) (microtasks w) (log w).
Definition with_signals (x : list Signal) (w : World) : World :=
  mkWorld (schedulers w) x (observerTable w) (reductionTable w) (batches w)
    (cancelOf w) (stores w) (microtasks w) (log w).
Definition with_observerTable (x : list Observer) (w : World) : World :=
  mkWorld (schedulers w) (signals w) x (reductionTable w) (batches w)
    (cancelOf w) (stores w) (microtasks w) (log w).
Definition with_reductionTable (x : list Reduction) (w : World) : World :=
  mkWorld (schedulers w) (signals w) (observerTable w) x (batches w)
    (cancelOf w) (stores w) (microtasks w) (log w).
Definition with_batches (x : list (list Cancel)) (w : World) : World :=
  mkWorld (schedulers w) (signals w) (observerTable w) (reductionTable w) x
    (cancelOf w) (stores w) (microtasks w) (log w).
Definition with_cancelOf (x : Obj → option Fn) (w : World) : World :=
  mkWorld (schedulers w) (signals w) (observerTable w) (reductionTable w)
    (batches w) x (stores w) (microtasks w) (log w).
Definition with_stores (x : list Store) (w : World) : World :=
  mkWorld (schedulers w) (signals w) (observerTable w) (reductionTable w)
    (batches w) (cancelOf w) x (microtasks w) (log w).
Definition with_microtasks (x : list nat) (w : World) : World :=
  mkWorld (schedulers w) (signals w) (observerTable w) (reductionTable w)
    (batches w) (cancelOf w) (stores w) x (log w).
Definition record (e : Event) (w : World) : World :=
  mkWorld (schedulers w) (signals w) (observerTable w) (reductionTable w)
    (batches w) (cancelOf w) (stores w) (microtasks w) (log w ++ [e]).

(** Computations that may throw; what was done before the throw stays. *)
Definition M (A : Type) : Type := World → (Exn + A) * World.

Definition ret {A} (a : A) : M A := λ w, (inr a, w).
Definition throw {A} (e : Exn) : M A := λ w, (inl e, w).
Definition bind {A B} (m : M A) (f : A → M B) : M B :=
  λ w, match m w with
       | (inl e, w') => (inl e, w')
       | (inr a, w') => f a w'
       end.
Definition modify (f : World → World) : M unit := λ w, (inr tt, f w).

Notation "'let*' x ':=' m 'in' k" := (bind m (λ x, k))
  (at level 10, x name, m at level 100, k at level 200, only parsing).
Notation "m '>>' k" := (bind m (λ _, k))
  (at level 100, k at level 200, right associativity, only parsing).

(** *** [createThrottlingScheduler] *)

(** The scheduler of the model is always built on [queueMicrotask]; the
    animation-frame scheduler of [animate] is not part of it. *)
Definition createThrottlingScheduler (w : World) : nat * World :=
  (length (schedulers w),
   with_schedulers (schedulers w ++ [mkScheduler None false]) w).

(** The closure [thunk => ...] that [createThrottlingScheduler] returns. *)
Definition throttle_call (sch : nat) (thunk : Thunk) (w : World) : World :=
  match schedulers w !! sch with
  | Some s =>
      let w1 := with_schedulers
                  (<[sch := mkScheduler (Some thunk) (isUpdateScheduled s)]>
                     (schedulers w)) w in
      if isUpdateScheduled s then w1
      else with_microtasks (microtasks w1 ++ [sch])
             (with_schedulers
                (<[sch := mkScheduler (Some thunk) true]> (schedulers w1)) w1)
  | None => w
  end.

(** *** [signal] *)

Definition signal (initial : Value) (w : World) : nat * World :=
  let '(throttle, w1) := createThrottlingScheduler w in
  (length (signals w1),
   with_signals (signals w1 ++ [mkSignal initial [] throttle]) w1).

Definition useSignal := signal.

Definition getValue (i : nat) (w : World) : Value :=
  match signals w !! i with
  | Some s => value s
  | None => VUndefined
  end.

Definition setValue (i : nat) (next : Value) (w : World) : World :=
  match signals w !! i with
  | Some s =>
      if strict_neq (value s) next
      then throttle_call (throttle s) (Dispatch i)
             (with_signals
                (<[i := mkSignal next (observers s) (throttle s)]> (signals w))
                w)
      else w
  | None => w
  end.

Definition set_observers (i : nat) (os : list nat) (w : World) : World :=
  with_signals
    (alter (λ s, mkSignal (value s) os (throttle s)) i (signals w)) w.

Definition observers_of (i : nat) (w : World) : list nat :=
  match signals w !! i with
  | Some s => observers s
  | None => []
  end.

(** *** Cancel functions *)

Definition call_cancel (c : Cancel) (w : World) : World :=
  match c with
  | Unobserve i o => set_observers i (set_delete o (observers_of i w)) w
  | CallerCancel k => record (EvCalled k) w
  end.

(** A batch holds cancel functions proper; a batch inside a batch is not
    represented. *)
Definition call (f : Fn) (w : World) : World :=
  match f with
  | FCancel c => call_cancel c w
  | FBatch b =>
      match batches w !! b with
      | Some batch =>
          let w1 := foldl (λ w' c, call_cancel c w') w batch in
          with_batches (<[b := []]> (batches w1)) w1
      | None => w
      end
  end.

Definition setCancel (object : Obj) (cancel : Any) : M Obj :=
  match cancel with
  | AFn f =>
      λ w, (inr object,
            with_cancelOf
              (λ o, if bool_decide (o = object) then Some f else cancelOf w o)
              w)
  | AValue _ => throw (TypeError "cancel must be a function")
  end.

Definition cancel (cancellable : Obj) (w : World) : World :=
  match cancelOf w cancellable with
  | Some f => call f w
  | None => w
  end.

Definition batchCancels (cancels : list Cancel) (w : World) : Fn * World :=
  (FBatch (length (batches w)),
   with_batches (batches w ++ [foldl (λ s c, set_add c s) [] cancels]) w).

(** *** Observers *)

Definition new_observer (ob : Observer) (w : World) : nat * World :=
  (length (observerTable w), with_observerTable (observerTable w ++ [ob]) w).

(** Calling the observer closure [o] with [v]. *)
Definition run_observer (o : nat) (v : Value) : M unit :=
  λ w,
    match observerTable w !! o with
    | Some (OReduction r) =>
        match reductionTable w !! r with
        | Some red =>
            match r_step red (getValue (r_state red) w) v with
            | Reduced final =>
                match r_cancel red with
                | Some f => (inr tt, setValue (r_state red) final (call f w))
                | None =>
                    (inl (ReferenceError
                            "Cannot access 'cancel' before initialization"),
                     w)
                end
            | Plain next => (inr tt, setValue (r_state red) next w)
            end
        | None => (inr tt, w)
        end
    | Some (OSample setDownstream resample) =>
        let w1 := record (EvResample setDownstream) w in
        (inr tt, setValue setDownstream (resample (λ i, getValue i w1)) w1)
    | Some (OCaller k) => (inr tt, record (EvObserved k v) w)
    | None => (inr tt, w)
    end.

(** [for (let observer of observers) observer(value)]: a member deleted
    while the loop runs is not visited; no observer of the model adds one. *)
Fixpoint dispatch_loop (i : nat) (os : list nat) : M unit :=
  match os with
  | [] => ret tt
  | o :: rest =>
      λ w,
        if bool_decide (o ∈ observers_of i w)
        then (run_observer o (getValue i w) >> dispatch_loop i rest) w
        else dispatch_loop i rest w
  end.

Definition dispatch (i : nat) : M unit :=
  λ w, dispatch_loop i (observers_of i w) w.

Definition observe (i : nat) (observer : nat) : M Cancel :=
  λ w,
    (run_observer observer (getValue i w) >>
     modify (λ w', set_observers i (set_add observer (observers_of i w')) w') >>
     ret (Unobserve i observer)) w.

(** *** Microtasks: the closure [performUpdate] of a scheduler *)

Definition run_thunk (t : Thunk) : M unit :=
  match t with
  | Dispatch i => dispatch i
  end.

Definition performUpdate (sch : nat) : M unit :=
  λ w,
    match schedulers w !! sch with
    | Some s =>
        ((match perform s with
          | Some t => run_thunk t
          | None => ret tt
          end) >>
         modify (λ w',
           with_schedulers
             (alter (λ s', mkScheduler (perform s') false) sch (schedulers w'))
             w')) w
    | None => (inr tt, w)
    end.

(** One turn of the microtask queue; an exception thrown by a microtask is
    reported by the host and the queue goes on. *)
Definition tick (w : World) : World :=
  match microtasks w with
  | [] => w
  | sch :: rest => snd (performUpdate sch (with_microtasks rest w))
  end.

Fixpoint flush (fuel : nat) (w : World) : World :=
  match fuel with
  | 0 => w
  | S n => flush n (tick w)
  end.

(** *** [reductions] and the transducers *)

Definition set_reduction_cancel (r : nat) (f : Fn) (w : World) : World :=
  with_reductionTable
    (alter (λ red, mkReduction (r_step red) (r_state red) (Some f)) r
       (reductionTable w)) w.

Definition reductions (step : Step) (upstream : nat) (initial : Value)
  : M nat :=
  λ w,
    let '(state, w1) := useSignal initial w in
    let r := length (reductionTable w1) in
    let w2 := with_reductionTable
                (reductionTable w1 ++ [mkReduction step state None]) w1 in
    let '(observer, w3) := new_observer (OReduction r) w2 in
    (let* cancel := observe upstream observer in
     modify (set_reduction_cancel r (FCancel cancel)) >>
     setCancel (OSignal state) (AFn (FCancel cancel)) >>
     ret state) w3.

Definition transductions (xf : Step → Step) (step : Step) (subscribable : nat)
    (initial : Value) : M nat :=
  reductions (xf step) subscribable initial.

Definition mapping (transform : Value → Value) (step : Step) : Step :=
  λ state value, step state (transform value).

Definition filtering (predicate : Value → bool) (step : Step) : Step :=
  λ state value, if predicate value then step state value else Plain state.

Definition takingWhile (predicate : Value → bool) (step : Step) : Step :=
  λ state value, if predicate value then step state value else Reduced state.

Definition stepForward : Step := λ _ value, Plain value.

(** [map] calls [transform] for the initial value, and the subscription
    that [transductions] makes calls it again on the same value.
    [transform] is a function of its argument here, so that both calls
    give the same value: a transform that makes a new object on every call
    is not represented. *)
Definition map (upstream : nat) (transform : Value → Value) : M nat :=
  λ w,
    let xf := mapping transform in
    let initial := transform (getValue upstream w) in
    transductions xf stepForward upstream initial w.

(** *** [sample] *)

(** [triggers.map(upstream => upstream.observe(() => setDownstream(resample())))] *)
Fixpoint observe_triggers (triggers : list nat) (setDownstream : nat)
    (resample : Resample) : M (list Cancel) :=
  match triggers with
  | [] => ret []
  | upstream :: rest =>
      λ w,
        let '(observer, w1) := new_observer (OSample setDownstream resample) w in
        (let* c := observe upstream observer in
         let* cs := observe_triggers rest setDownstream resample in
         ret (c :: cs)) w1
  end.

Definition sample (triggers : list nat) (resample : Resample) : M nat :=
  λ w,
    let w0 := record (EvResample (length (signals w))) w in
    let '(downstream, w1) := useSignal (resample (λ i, getValue i w0)) w0 in
    (let* cancels := observe_triggers triggers downstream resample in
     λ w2,
       let '(cancel, w3) := batchCancels cancels w2 in
       (setCancel (OSignal downstream) (AFn cancel) >> ret downstream) w3) w1.

(** *** [useStore] *)

Definition next (state : Value) (effects : list Outcome) : Transaction :=
  mkTransaction state effects.

Definition console_debug (debug : bool) (label : string) (v : Value)
    (w : World) : World :=
  if debug then record (EvDebug label v) w else w.

Definition set_pending (st : nat) (pending : list Outcome) (w : World)
  : World :=
  with_stores
    (alter (λ s, mkStore (st_signal s) (st_update s) (st_debug s) pending)
       st (stores w)) w.

(** The [send] closure of store [st]; every [run(effect)] stops at its
    [await]. *)
Definition store_send (st : nat) (msg : Value) (w : World) : World :=
  match stores w !! st with
  | Some s =>
      let w0 := record (EvStoreSend st msg) w in
      let w1 := console_debug (st_debug s) "store.msg" msg w0 in
      let t := st_update s (getValue (st_signal s) w1) msg in
      let w2 := setValue (st_signal s) (t_state t) w1 in
      let w3 := console_debug (st_debug s) "store.state" (t_state t) w2 in
      let w4 := console_debug (st_debug s) "store.effects"
                  (VNum (Z.of_nat (length (t_effects t)))) w3 in
      set_pending st (st_pending s ++ t_effects t) w4
  | None => w
  end.

(** [run] after its [await]: [send(await effect)], whatever the message. *)
Definition run_resume (st : nat) (o : Outcome) (w : World) : World :=
  match o with
  | Resolves msg => store_send st msg w
  | Rejects => w
  end.

Definition settle (st : nat) (k : nat) (w : World) : World :=
  match stores w !! st with
  | Some s =>
      match st_pending s !! k with
      | Some o => run_resume st o (set_pending st (delete k (st_pending s)) w)
      | None => w
      end
  | None => w
  end.

(** The effects of [init()] are read and left alone. *)
Definition useStore (init : Transaction) (update : Value → Value → Transaction)
    (debug : bool) (w : World) : nat * World :=
  let initial := t_state init in
  let '(state, w1) := useSignal initial w in
  (length (stores w1),
   with_stores (stores w1 ++ [mkStore state update debug []]) w1).

End Observed.

(** ** Vocabulary for the laws of the tracking-based engine *)

Module TrackedSpec.
Import Tracked.

(** The value a read of [s] returns, with no tracking and no trace. *)
Definition peek (w : World) (s : Src) : Value :=
  match cell_at w s with
  | Some c => state c
  | None => VUndefined
  end.

(** The listeners waiting for the next change of [s]. *)
Definition listeners (w : World) (s : Src) : list Lid :=
  match cell_at w s with
  | Some c => transaction c
  | None => []
  end.

(** [isScheduled] of the throttled function [l]. *)
Definition scheduled (w : World) (l : Lid) : bool :=
  match throttles w !! l with
  | Some t => isScheduled t
  | None => false
  end.

(** The job of the throttled function [l], the function of computed [c]. *)
Definition job_of (w : World) (l : Lid) : option Job :=
  job <$> throttles w !! l.

Definition compute_of (w : World) (c : nat) : option Compute :=
  compute <$> computeds w !! c.

(** [transaction.add(listener)] when [listener] is a function. *)
Definition tx_add (listener : option Lid) (tx : list Lid) : list Lid :=
  match listener with
  | Some l => set_add l tx
  | None => tx
  end.

(** How many signals, computed signals and throttled functions exist. *)
Definition sizes (w : World) : nat * nat * nat :=
  (length (signals w), length (computeds w), length (throttles w)).

Definition occurrences `{EqDecision A} (x : A) (xs : list A) : nat :=
  length (filter (λ y, y = x) xs).

(** How many times the tracked function of [l] was entered. *)
Definition runs (l : Lid) (evs : list Event) : nat :=
  occurrences (EvTracked l) evs.

(** Notifying the listeners of a transaction, one after the other. *)
Definition notify (ls : list Lid) (w : World) : World :=
  foldl (λ w' l, schedule l w') w ls.

(** Storing a value and telling the listeners, the way both [send] and the
    recompute job of a computed signal do it. *)
Definition publish (s : Src) (v : Value) (w : World) : World :=
  match cell_at w s with
  | Some c =>
      if strict_neq (state c) v
      then transact s (set_cell s (mkCell v (transaction c)) w)
      else w
  | None => w
  end.

(** How many times [send] of store [st] was called. *)
Definition is_store_send (st : nat) (e : Event) : bool :=
  match e with
  | EvStoreSend st' _ => bool_decide (st' = st)
  | _ => false
  end.

Definition store_sends (st : nat) (evs : list Event) : nat :=
  length (List.filter (is_store_send st) evs).

(** The calls of [runEffect] of store [st] waiting for their promise. *)
Definition pending (w : World) (st : nat) : list Outcome :=
  match stores w !! st with
  | Some s => st_pending s
  | None => []
  end.

(** Writing a sequence of values to signal [i], one after the other. *)
Definition sends (i : nat) (vs : list Value) (w : World) : World :=
  foldl (λ w' v, send i v w') w vs.

(** A function that writes no signal. *)
Fixpoint no_send {A} (p : Comp A) : Prop :=
  match p with
  | Ret _ => True
  | Read _ k => ∀ v, no_send (k v)
  | Send _ _ _ => False
  end.

(** A function that writes no signal and reads plain signals only. *)
Fixpoint signals_only {A} (p : Comp A) : Prop :=
  match p with
  | Ret _ => True
  | Read s k => (∃ i, s = Sig i) ∧ ∀ v, signals_only (k v)
  | Send _ _ _ => False
  end.

(** The result of a function against the current values, and the signals
    it reads on the way. *)
Fixpoint eval {A} (p : Comp A) (w : World) : A :=
  match p with
  | Ret a => a
  | Read s k => eval (k (peek w s)) w
  | Send _ _ k => eval k w
  end.

Fixpoint deps {A} (p : Comp A) (w : World) : list Src :=
  match p with
  | Ret _ => []
  | Read s k => s :: deps (k (peek w s)) w
  | Send _ _ k => deps k w
  end.

(** The trace a function without writes leaves when it runs with
    [tracker] on top of the tracking stack. *)
Fixpoint read_trace {A} (tracker : option Lid) (p : Comp A) (w : World)
  : list Event :=
  match p with
  | Ret _ => []
  | Read s k =>
      (if decide (is_Some (cell_at w s))
       then [EvRead tracker s (peek w s)] else [])
      ++ read_trace tracker (k (peek w s)) w
  | Send _ _ k => read_trace tracker k w
  end.


(** What a run that writes no signal may do: add the tracker to listeners
    and leave reads in the trace. *)
Definition quiet_run (o : option Lid) (pre : list Event) (w w' : World)
  : Prop :=
  (∀ s, peek w' s = peek w s)
  ∧ sizes w' = sizes w
  ∧ scopes w' = scopes w
  ∧ throttles w' = throttles w
  ∧ stores w' = stores w
  ∧ microtasks w' = microtasks w
  ∧ (∀ j, compute_of w' j = compute_of w j)
  ∧ (∃ evs, log w' = log w ++ pre ++ evs
            ∧ ∀ e, e ∈ evs → ∃ s, e = EvRead o s (peek w s))
  ∧ (∀ s x, x ∈ listeners w' s → x ∈ listeners w s ∨ o = Some x)
  ∧ (∀ s x, x ∈ listeners w s → x ∈ listeners w' s).

(** A job whose function writes no signal. *)
Definition quiet_compute (f : Compute) : Prop :=
  match f with
  | CUser p => no_send p
  | CTakeValues _ => True
  end.

Definition quiet_job (w : World) (j : Job) : Prop :=
  match j with
  | JEffect p => no_send p
  | JRecompute c =>
      match compute_of w c with
      | Some f => quiet_compute f
      | None => True
      end
  end.

(** No tracked function of the world writes a signal. *)
Definition quiet_world (w : World) : Prop :=
  ∀ l j, job_of w l = Some j → quiet_job w j.

(** The throttled function [l] is in the queue at most once, and not at
    all unless its flag is up. *)
Definition queued_once (w : World) (l : Lid) : Prop :=
  occurrences l (microtasks w) ≤ 1
  ∧ (scheduled w l = false → occurrences l (microtasks w) = 0).

(** What holds of a world [w'] met while the queue runs after the writes of
    a tick, for an effect [e] that listens to plain signals only: [w0] is
    the world at the start of the tick, [w1] the world after the writes. *)
Definition batching_inv (w0 w1 : World) (e : Lid) (w' : World) : Prop :=
  (∀ l, job_of w' l = job_of w0 l)
  ∧ (∀ c, compute_of w' c = compute_of w0 c)
  ∧ (∀ j, peek w' (Sig j) = peek w1 (Sig j))
  ∧ (∀ c, e ∉ listeners w' (Cmp c))
  ∧ (∃ new, log w' = log w0 ++ new
            ∧ runs e new + occurrences e (microtasks w') ≤ 1
            ∧ ∀ o j v, EvRead o (Sig j) v ∈ new → v = peek w1 (Sig j)).

(** The batching law, as the specification words it, at one tick: the
    writes [vs] to signal [i], then the queue. *)
Definition batching_law_at (w : World) (l : Lid) (i : nat) (vs : list Value)
  : Prop :=
  ∀ fuel, runs l (log (flush fuel (sends i vs w))) ≤ S (runs l (log w)).


End TrackedSpec.

(** ** Small programs used as examples *)

Module TrackedExamples.
Import Tracked TrackedSpec.

Definition script (ops : list (World → World)) (w : World) : World :=
  foldl (λ w' op, op w') w ops.

Definition mk_signal (v : Value) (w : World) : World := snd (useSignal v w).
Definition mk_computed (p : Comp Value) (w : World) : World :=
  snd (useComputed p w).

(** [useComputed(() => flag() ? a() : b())] over [flag = true], [a = 1],
    [b = 2]; then [flag] is set to [false] and the queue is run. *)
Definition branch_fn : Comp Value :=
  Read (Sig 0)
    (λ flag, match flag with
             | VBool true => Read (Sig 1) Ret
             | _ => Read (Sig 2) Ret
             end).

Definition branch_start : World :=
  script [mk_signal (VBool true); mk_signal (VNum 1); mk_signal (VNum 2);
          mk_computed branch_fn] empty.

Definition branch_switched : World :=
  flush 1 (send 0 (VBool false) branch_start).

(** An effect that reads signal [0] and nothing else. *)
Definition watch_fn : Comp unit := Read (Sig 0) (λ _, Ret tt).

Definition watch_start : World :=
  script [mk_signal (VNum 0); useEffect watch_fn] empty.


(** [c = useComputed(() => s() * 2)] and an effect that reads [t], [s] and
    [c]; [s] is signal [0], [t] is signal [1]. *)
Definition double_fn : Comp Value :=
  Read (Sig 0)
    (λ v, match v with
          | VNum z => Ret (VNum (2 * z))
          | _ => Ret VNaN
          end).

Definition report_fn : Comp unit :=
  Read (Sig 1) (λ _, Read (Sig 0) (λ _, Read (Cmp 0) (λ _, Ret tt))).

Definition diamond_start : World :=
  script [mk_signal (VNum 0); mk_signal (VNum 0); mk_computed double_fn;
          useEffect report_fn] empty.

(** One tick in which [t] then [s] are written, run to the end. *)
Definition diamond_settled : World :=
  flush 3 (send 0 (VNum 1) (send 1 (VNum 1) diamond_start)).

(** JavaScript [+] on the numbers of the model. *)
Definition plus (a b : Value) : Value :=
  match a, b with
  | VNum x, VNum y => VNum (x + y)
  | _, _ => VNaN
  end.

(** A store that adds the messages up and asks for the effects given. *)
Definition adder (effects : list Outcome) : Value → Value → Transaction :=
  λ state msg, next (plus state msg) effects.

Definition adder_store (effects : list Outcome) : World :=
  snd (useStore (next (VNum 0) []) (adder effects) false empty).

(** The store has been sent 3; of the two effects of that transaction one
    will resolve to nothing and one to the message 4. *)
Definition adder_waiting : World :=
  store_send 0 (VNum 3) (adder_store [Resolves VUndefined; Resolves (VNum 4)]).

End TrackedExamples.

(** ** Programs over the tracking-based engine, and what they maintain *)

Module TrackedReach.
Import Tracked TrackedSpec.

(** A signal or computed signal made before there were [ns] signals and
    [nc] computed signals. *)
Definition src_below (ns nc : nat) (s : Src) : Prop :=
  match s with
  | Sig i => i < ns
  | Cmp j => j < nc
  end.

(** A function that mentions only signals below [ns] and computed signals
    below [nc]. *)
Fixpoint closed {A} (ns nc : nat) (p : Comp A) : Prop :=
  match p with
  | Ret _ => True
  | Read s k => src_below ns nc s ∧ ∀ v, closed ns nc (k v)
  | Send i _ k => i < ns ∧ closed ns nc k
  end.

(** What the caller can do at top level. *)
Inductive Op : Type :=
| OpSignal (initial : Value)
| OpComputed (compute : Comp Value)
| OpEffect (perform : Comp unit)
| OpTakeValues (signal : Src)
| OpSend (i : nat) (v : Value)
| OpTick.

Definition apply_op (op : Op) (w : World) : World :=
  match op with
  | OpSignal initial => snd (useSignal initial w)
  | OpComputed compute => snd (useComputed compute w)
  | OpEffect perform => useEffect perform w
  | OpTakeValues signal => snd (takeValues signal w)
  | OpSend i v => send i v w
  | OpTick => tick w
  end.

(** The function of a computed signal is pure and mentions what exists;
    [takeValues] is given something that exists. *)
Definition valid_op (w : World) (op : Op) : Prop :=
  match op with
  | OpComputed compute =>
      no_send compute
      ∧ closed (length (signals w)) (length (computeds w)) compute
  | OpTakeValues signal =>
      src_below (length (signals w)) (length (computeds w)) signal
  | _ => True
  end.

Inductive Reachable : World → Prop :=
| reach_empty : Reachable empty
| reach_step (w : World) (op : Op) :
    Reachable w → valid_op w op → Reachable (apply_op op w).

Inductive Steps : World → World → Prop :=
| steps_refl (w : World) : Steps w w
| steps_step (w w' : World) (op : Op) :
    valid_op w op → Steps (apply_op op w) w' → Steps w w'.

(** What the function of a computed signal makes of the current values,
    and what it reads for that; nothing is expected of a [takeValues]
    closure that is complete. *)
Definition expected (w : World) (f : Compute) : option (Value * list Src) :=
  match f with
  | CUser p => Some (eval p w, deps p w)
  | CTakeValues t =>
      match takers w !! t with
      | Some tk =>
          if tk_isComplete tk then None
          else Some (peek w (tk_signal tk), [tk_signal tk])
      | None => None
      end
  end.

(** The invariant of reachable worlds.  [x] names a computed signal that
    is being made or recomputed, of which nothing is asked meanwhile. *)
Definition user_closed (w : World) : Prop :=
  ∀ c p, compute_of w c = Some (CUser p) →
         no_send p ∧ closed (length (signals w)) c p.

Definition takers_owned (w : World) : Prop :=
  ∀ c t, compute_of w c = Some (CTakeValues t) →
         (∃ tk, takers w !! t = Some tk
                ∧ src_below (length (signals w)) c (tk_signal tk))
         ∧ ∀ c', compute_of w c' = Some (CTakeValues t) → c' = c.

Definition takers_synced (x : option nat) (w : World) : Prop :=
  ∀ c t tk, x ≠ Some c → compute_of w c = Some (CTakeValues t) →
            takers w !! t = Some tk →
            peek w (Cmp c) = tk_state tk
            ∧ (tk_isComplete tk = false → nullish (tk_state tk) = false).

Definition jobs_unique (x : option nat) (w : World) : Prop :=
  ∀ l c, job_of w l = Some (JRecompute c) →
         (c < length (computeds w) ∨ x = Some c)
         ∧ ∀ l', job_of w l' = Some (JRecompute c) → l' = l.

Definition coherent (x : option nat) (w : World) : Prop :=
  ∀ l c f v ds, x ≠ Some c → job_of w l = Some (JRecompute c) →
                compute_of w c = Some f → scheduled w l = false →
                expected w f = Some (v, ds) →
                peek w (Cmp c) = v ∧ ∀ s, s ∈ ds → l ∈ listeners w s.

Definition sound_except (x : option nat) (w : World) : Prop :=
  user_closed w ∧ takers_owned w ∧ takers_synced x w ∧ jobs_unique x w
  ∧ coherent x w.

Definition sound (w : World) : Prop := sound_except None w.

(** A step that changes no value: listeners and flags may be added, and
    the variables of a [takeValues] closure may change if it belongs to
    nobody but [x]. *)
Definition evolves (x : option nat) (w w' : World) : Prop :=
  sizes w' = sizes w
  ∧ (∀ s, peek w' s = peek w s)
  ∧ (∀ j, compute_of w' j = compute_of w j)
  ∧ (∀ l, job_of w' l = job_of w l)
  ∧ (∀ l, scheduled w' l = false → scheduled w l = false)
  ∧ (∀ s y, y ∈ listeners w s → y ∈ listeners w' s)
  ∧ length (takers w') = length (takers w)
  ∧ (∀ t tk, takers w !! t = Some tk →
             ∃ tk', takers w' !! t = Some tk'
                    ∧ tk_signal tk' = tk_signal tk
                    ∧ (tk' = tk
                       ∨ ∀ c, compute_of w c = Some (CTakeValues t)
                              → x = Some c)).

(** A step that makes something new and leaves what exists as it was.
    The new thing may be a throttled function for the computed signal [x]
    that is about to be made. *)
Definition extends (x : option nat) (w w' : World) : Prop :=
  length (signals w) ≤ length (signals w')
  ∧ length (computeds w') = length (computeds w)
  ∧ (∀ s, is_Some (cell_at w s) → peek w' s = peek w s)
  ∧ (∀ j, compute_of w' j = compute_of w j)
  ∧ (∀ l j, job_of w' l = Some (JRecompute j) →
            job_of w l = Some (JRecompute j)
            ∨ (x = Some j ∧ j = length (computeds w)
               ∧ l = length (throttles w)))
  ∧ (∀ l j, job_of w l = Some j → job_of w' l = Some j)
  ∧ (∀ l, is_Some (throttles w !! l) → scheduled w' l = scheduled w l)
  ∧ (∀ s y, y ∈ listeners w s → y ∈ listeners w' s)
  ∧ (∀ t tk, takers w !! t = Some tk → takers w' !! t = Some tk).

(** The law of computed signals, as the specification words it, at one
    point: reading [c] gives what [compute()] gives there. *)
Definition computed_current_at (w : World) (c : nat) (p : Comp Value) : Prop :=
  fst (read (Cmp c) w) = fst (interp p w).

(** Programs as lists of operations. *)
Definition run_ops (ops : list Op) (w : World) : World :=
  foldl (λ w' op, apply_op op w') w ops.

(** [a = useSignal(0)], [b = useComputed(() => a() * 2)], and [a] is set
    to 5. *)
Definition doubling_ops : list Op :=
  [OpSignal (VNum 0); OpComputed TrackedExamples.double_fn; OpSend 0 (VNum 5)].

Definition doubling_written : World := run_ops doubling_ops empty.

(** The same once the queue has run. *)
Definition doubling_settled : World := apply_op OpTick doubling_written.

(** Between two worlds: the functions of the computed signals stay, and
    a [takeValues] closure that is complete keeps its variables. *)
Definition keeps (w w' : World) : Prop :=
  (∀ c f, compute_of w c = Some f → compute_of w' c = Some f)
  ∧ (∀ t tk, takers w !! t = Some tk → tk_isComplete tk = true →
             takers w' !! t = Some tk).

(** Between two worlds: nothing was made, and the throttled functions
    have the jobs they had. *)
Definition same_shape (w w' : World) : Prop :=
  sizes w' = sizes w ∧ ∀ l, job_of w' l = job_of w l.

(** Every computed signal has a throttled recompute. *)
Definition has_jobs (w : World) : Prop :=
  ∀ c, c < length (computeds w) → ∃ l, job_of w l = Some (JRecompute c).

(** What one run of the function of [takeValues] leaves in its
    variables when [signal()] gives [nx]. *)
Definition taken (tk : Taker) (nx : Value) : Taker :=
  if tk_isComplete tk then tk
  else mkTaker (tk_signal tk) (if nullish nx then tk_state tk else nx)
         (nullish nx).

(** The law of [takeValues] at one point, read literally: while [s] is
    not null, [c] reads as [s] does. *)
Definition takes_value_at (w : World) (c : nat) (s : Src) : Prop :=
  nullish (peek w s) = false → fst (read (Cmp c) w) = peek w s.

(** [s = useSignal(1)], [t = takeValues(s)]. *)
Definition taking_ops : list Op := [OpSignal (VNum 1); OpTakeValues (Sig 0)].

Definition taking_live : World := run_ops taking_ops empty.

(** [s] has been set to 2 and the recompute of [t] is queued. *)
Definition taking_written : World := apply_op (OpSend 0 (VNum 2)) taking_live.

(** [s] has been set to [null] and the recompute of [t] is queued. *)
Definition taking_nulled : World :=
  run_ops (taking_ops ++ [OpSend 0 VNull]) empty.

(** The recompute has seen [null]; later [s] is set to 2 and the queue is
    run again. *)
Definition taking_complete : World := apply_op OpTick taking_nulled.

Definition taking_later : World :=
  apply_op OpTick (apply_op (OpSend 0 (VNum 2)) taking_complete).

End TrackedReach.

(** ** The microtask queue and the tracking stack between operations *)

Module TrackedQueue.
Import Tracked TrackedSpec TrackedReach.

(** The queue and the [isScheduled] flags agree: a throttled function is
    in the queue when its flag is up, and once.  While the job of [x] runs,
    [x] has left the queue and its flag is still up. *)
Definition queue_ok (x : option Lid) (w : World) : Prop :=
  NoDup (microtasks w)
  ∧ (∀ l, x ≠ Some l → (l ∈ microtasks w ↔ scheduled w l = true))
  ∧ (∀ l, x = Some l → (l ∉ microtasks w) ∧ scheduled w l = true).


(** No signal lists the same listener twice. *)
Definition listed_once (w : World) : Prop :=
  ∀ s, NoDup (listeners w s).

(** [s = useSignal(null)], [t = takeValues(s)]. *)
Definition taking_null : World :=
  run_ops [OpSignal VNull; OpTakeValues (Sig 0)] empty.

(** An effect that reads [s] twice, and a computed signal of [s]. *)
Definition diamond_reads : World :=
  run_ops [OpSignal (VNum 0);
           OpEffect (Read (Sig 0) (λ _, Read (Sig 0) (λ _, Ret tt)));
           OpComputed TrackedExamples.double_fn] empty.

End TrackedQueue.

(** ** Vocabulary and examples for the observer-based engine *)

Module ObservedSpec.
Import Observed.

Definition occurrences `{EqDecision A} (x : A) (xs : list A) : nat :=
  length (filter (λ y, y = x) xs).

(** How many times the closure [resample] of the sampled signal
    [downstream] was called. *)
Definition resamples (downstream : nat) (evs : list Event) : nat :=
  occurrences (EvResample downstream) evs.

(** How many times [send] of store [st] was called. *)
Definition is_store_send (st : nat) (e : Event) : bool :=
  match e with
  | EvStoreSend st' _ => bool_decide (st' = st)
  | _ => false
  end.

Definition store_sends (st : nat) (evs : list Event) : nat :=
  length (List.filter (is_store_send st) evs).

Definition pending (w : World) (st : nat) : list Outcome :=
  match stores w !! st with
  | Some s => st_pending s
  | None => []
  end.

(** What the specification says of a settled effect: one more [send] if
    it resolved to a message, none if it resolved to nothing. *)
Definition settle_law_at (w : World) (st k : nat) : Prop :=
  ∀ o, pending w st !! k = Some o →
       store_sends st (log (settle st k w))
       = store_sends st (log w)
         + match o with
           | Resolves msg => if nullish msg then 0 else 1
           | Rejects => 0
           end.

(** JavaScript [+] on the numbers of the model. *)
Definition plus (a b : Value) : Value :=
  match a, b with
  | VNum x, VNum y => VNum (x + y)
  | _, _ => VNaN
  end.

(** [x = signal(1)], [y = signal(2)],
    [sum = sample([x, y], () => x() + y())]: [x] is signal 0, [y] is
    signal 1, [sum] is signal 2. *)
Definition sum_fn : Resample := λ get, plus (get 0) (get 1).

Definition sum_start : World :=
  let '(_, w1) := signal (VNum 1) empty in
  let '(_, w2) := signal (VNum 2) w1 in
  snd (sample [0; 1] sum_fn w2).

(** [x] is set to 10 and [y] to 20 in the same tick. *)
Definition sum_written : World :=
  setValue 1 (VNum 20) (setValue 0 (VNum 10) sum_start).

(** The scenario of the specification, as it words it: after the flush
    the sum is 30 and the closure was computed once. *)
Definition sum_scenario_claim : Prop :=
  getValue 2 (flush 3 sum_written) = VNum 30
  ∧ resamples 2 (log (flush 3 sum_written)) = resamples 2 (log sum_start) + 1.

(** [v > 0] *)
Definition positive (v : Value) : bool :=
  match v with
  | VNum z => (0 <? z)%Z
  | _ => false
  end.

(** A signal holding 0, and one holding 1. *)
Definition zero_source : World := snd (signal (VNum 0) empty).
Definition one_source : World := snd (signal (VNum 1) empty).

(** [reductions(takingWhile(v => v > 0)(stepForward), source, 7)] over the
    source holding 1, which then emits 3 and 0. *)
Definition taking_start : World :=
  snd (reductions (takingWhile positive stepForward) 0 (VNum 7) one_source).

(** A store that adds the messages up and asks for the effects given. *)
Definition adder (effects : list Outcome) : Value → Value → Transaction :=
  λ state msg, next (plus state msg) effects.

Definition adder_store (effects : list Outcome) : World :=
  snd (useStore (next (VNum 0) []) (adder effects) false empty).

(** The store has been sent 3, and the effect of that transaction will
    resolve to nothing. *)
Definition adder_waiting : World :=
  store_send 0 (VNum 3) (adder_store [Resolves VUndefined]).

End ObservedSpec.

(** ** More of the observer-based engine *)

Module ObservedMore.
Import Observed.

(** *** [useReducer] *)

(** The closure [advanceState] captures [step] and the signal, and nothing
    that changes: it is given by these two. *)
Definition advanceState (step : Value → Value → Value) (state : nat)
    (value : Value) (w : World) : World :=
  setValue state (step (getValue state w) value) w.

Definition useReducer (step : Value → Value → Value) (initial : Value)
    (w : World) : (nat * (Value → World → World)) * World :=
  let '(state, w1) := useSignal initial w in
  ((state, advanceState step state), w1).

(** *** Vocabulary *)

(** Writing a sequence of values to signal [i], one after the other. *)
Definition setValues (i : nat) (vs : list Value) (w : World) : World :=
  foldl (λ w' v, setValue i v w') w vs.

(** Whether one of the writes [vs], made in turn to a signal that holds
    [cur], finds [value !== next]. *)
Fixpoint changes (cur : Value) (vs : list Value) : bool :=
  match vs with
  | [] => false
  | v :: rest => strict_neq cur v || changes v rest
  end.

(** The world once signal [i], whose record was [s], has been written to
    with a change: it holds [v], its scheduler remembers the dispatch and
    is scheduled; [was] tells whether it was scheduled before. *)
Definition written (i : nat) (s : Signal) (v : Value) (was : bool)
    (w : World) : World :=
  mkWorld
    (<[throttle s := mkScheduler (Some (Dispatch i)) true]> (schedulers w))
    (<[i := mkSignal v (observers s) (throttle s)]> (signals w))
    (observerTable w) (reductionTable w) (batches w) (cancelOf w) (stores w)
    (microtasks w ++ (if was then [] else [throttle s])) (log w).

(** The observers [os] are functions of the caller, [ks] in this order. *)
Definition callers (w : World) (os ks : list nat) : Prop :=
  Forall2 (λ o k, observerTable w !! o = Some (OCaller k)) os ks.

(** Every observer that a signal lists has its closure in the table. *)
Definition wf_observers (w : World) : Prop :=
  ∀ t o, o ∈ observers_of t w → o < length (observerTable w).

(** How many times the cancel function [k] of the caller was called. *)
Definition cancel_calls (k : nat) (evs : list Event) : nat :=
  length (filter (λ e, e = EvCalled k) evs).

(** The world in which [reductions] subscribes: the signal of the state,
    the record of the call and the observer closure have been made. *)
Definition subscribing (step : Step) (initial : Value) (w : World) : World :=
  mkWorld (schedulers w ++ [mkScheduler None false])
    (signals w ++ [mkSignal initial [] (length (schedulers w))])
    (observerTable w ++ [OReduction (length (reductionTable w))])
    (reductionTable w ++ [mkReduction step (length (signals w)) None])
    (batches w) (cancelOf w) (stores w) (microtasks w) (log w).

(** [x = signal(1)] with two observers of the caller. *)
Definition watched : World :=
  let '(x, w1) := signal (VNum 1) empty in
  let '(a, w2) := new_observer (OCaller 0) w1 in
  let '(b, w3) := new_observer (OCaller 1) w2 in
  snd (observe x b (snd (observe x a w3))).


End ObservedMore.

(** ** Indexing, the children of an element, client ids *)

Module Collections.

(** *** [index] *)

(** A plain object, by its own properties; reading a property it does
    not have gives [undefined]. *)
Definition Props : Type := list (string * Value).

Fixpoint prop (name : string) (x : Props) : Value :=
  match x with
  | [] => VUndefined
  | (n, v) :: rest => if decide (n = name) then v else prop name rest
  end.

(** [x => x.id] *)
Definition getId (x : Props) : Value := prop "id" x.

(** A JavaScript [Map]: its entries in insertion order, no key twice.
    Keys are compared as [Map] does, which on the values of the model, where
    [NaN] is one value, is equality. *)
Definition JsMap (V : Type) : Type := list (Value * V).

(** [map.set(key, value)]: the value of a key that is there is replaced
    where it stands, a new key goes to the end. *)
Fixpoint map_set {V} (key : Value) (value : V) (m : JsMap V) : JsMap V :=
  match m with
  | [] => [(key, value)]
  | (k, v) :: rest =>
      if decide (k = key) then (key, value) :: rest
      else (k, v) :: map_set key value rest
  end.

(** [map.get(key)], [None] for [undefined]. *)
Fixpoint map_get {V} (key : Value) (m : JsMap V) : option V :=
  match m with
  | [] => None
  | (k, v) :: rest => if decide (k = key) then Some v else map_get key rest
  end.

Definition map_has {V} (key : Value) (m : JsMap V) : bool :=
  bool_decide (is_Some (map_get key m)).

(** [map.keys()] and [map.values()], in iteration order. *)
Definition map_keys {V} (m : JsMap V) : list Value := fst <$> m.
Definition map_values {V} (m : JsMap V) : list V := snd <$> m.

(** [index(values, getKey = getId)] of the observer-based library. *)
Definition index (values : list Props) (getKey : option (Props → Value))
  : JsMap Props :=
  let getKey := default getId getKey in
  foldl (λ indexed value, map_set (getKey value) value indexed) [] values.

(** [index(iter, getKey = getId)] of [hyperscript.js]: the loop calls
    [getId], not [getKey]. *)
Definition hyperscript_index (iter : list Props)
    (getKey : option (Props → Value)) : JsMap Props :=
  foldl (λ indexed item, map_set (getId item) item indexed) [] iter.

(** The items with key [k], in the order of the array. *)
Definition keyed (getKey : Props → Value) (k : Value) (values : list Props)
  : list Props :=
  filter (λ v, getKey v = k) values.

(** *** [insertElementAt] *)

(** A parent element: its children in document order, each known by its
    identity and none twice, and the elements that were handed to
    [insertBefore], in the order of the calls. *)
Record Parent : Type := mkParent {
  children : list nat;
  inserted : list nat
}.

(** [list] with [element] taken out. *)
Definition without (element : nat) (l : list nat) : list nat :=
  filter (λ x, x ≠ element) l.

(** [list] with [element] put in front of [reference]. *)
Fixpoint before (reference element : nat) (l : list nat) : list nat :=
  match l with
  | [] => []
  | x :: rest =>
      if decide (x = reference) then element :: x :: rest
      else x :: before reference element rest
  end.

(** [parent.insertBefore(element, reference)] as the host does it: an
    element that is a child already leaves its place first; without a
    reference the element goes to the end; a reference that is not a
    child is an error; an element is not moved before itself. *)
Definition insertBefore (element : nat) (reference : option nat)
    (p : Parent) : option Parent :=
  match reference with
  | None =>
      Some (mkParent (without element (children p) ++ [element])
              (inserted p ++ [element]))
  | Some r =>
      if decide (r ∈ children p)
      then Some (mkParent
                   (if decide (r = element) then children p
                    else before r element (without element (children p)))
                   (inserted p ++ [element]))
      else None
  end.

Definition insertElementAt (p : Parent) (element : nat) (index : nat)
  : option Parent :=
  let elementAtIndex := children p !! index in
  if decide (elementAtIndex = Some element) then Some p
  else insertBefore element elementAtIndex p.

(** [insertElementAt(parent, element, i)] for the elements of a list and
    the indices [from], [from + 1], ... in turn, the way both render loops
    call it. *)
Fixpoint placeFrom (from : nat) (elements : list nat) (p : Parent)
  : option Parent :=
  match elements with
  | [] => Some p
  | element :: rest =>
      match insertElementAt p element from with
      | Some p' => placeFrom (S from) rest p'
      | None => None
      end
  end.

(** [children(...children)(parent)] of [hyperscript.js]:
    [parent.append(child)] for each in turn, which for an element is
    [insertBefore] without a reference. *)
Definition appendChildren (cs : list nat) (p : Parent) : Parent :=
  foldl (λ p' child,
           mkParent (without child (children p') ++ [child])
             (inserted p' ++ [child])) p cs.

(** *** [cid] *)

(** The counter [_cid] is a JavaScript number: it counts exactly up to
    [2^53], where adding one gives the same number again. *)
Definition cid_limit : N := (2 ^ 53)%N.

Definition increment (counter : N) : N :=
  if (counter <? cid_limit)%N then (counter + 1)%N else counter.

(** [cid()]: the id, and the counter after the call. *)
Definition cid (counter : N) : string * N :=
  ("cid" +:+ pretty counter, increment counter).

(** The ids of [k] calls in a row. *)
Fixpoint cids (k : nat) (counter : N) : list string :=
  match k with
  | 0 => []
  | S k' => fst (cid counter) :: cids k' (snd (cid counter))
  end.

End Collections.

(** ** Programs over the observer-based engine, and what they maintain *)

Module ObservedReach.
Import Observed.

(** What the caller can do at top level.  [OpObserve i k] subscribes a new
    function [k] of the caller to signal [i], [OpObserveAgain i o]
    subscribes a function of the caller that was subscribed before;
    [OpCall c] calls a cancel function; [OpSettle st k] lets the [k]-th
    pending effect of store [st] settle; [OpTick] is one turn of the
    microtask queue.  As everywhere in the model, a function of the caller
    given to [observe] writes no signal. *)
Inductive Op : Type :=
| OpSignal (initial : Value)
| OpSetValue (i : nat) (v : Value)
| OpObserve (i : nat) (k : nat)
| OpObserveAgain (i : nat) (o : nat)
| OpReductions (step : Step) (i : nat) (initial : Value)
| OpMap (i : nat) (transform : Value → Value)
| OpSample (triggers : list nat) (resample : Resample)
| OpSetCancel (object : Obj) (cancel : Any)
| OpCancel (cancellable : Obj)
| OpCall (c : Cancel)
| OpUseStore (init : Transaction) (update : Value → Value → Transaction)
    (debug : bool)
| OpSend (st : nat) (msg : Value)
| OpSettle (st : nat) (k : nat)
| OpTick.

Definition apply_op (op : Op) (w : World) : World :=
  match op with
  | OpSignal initial => snd (signal initial w)
  | OpSetValue i v => setValue i v w
  | OpObserve i k =>
      let '(o, w1) := new_observer (OCaller k) w in snd (observe i o w1)
  | OpObserveAgain i o => snd (observe i o w)
  | OpReductions step i initial => snd (reductions step i initial w)
  | OpMap i transform => snd (map i transform w)
  | OpSample triggers resample => snd (sample triggers resample w)
  | OpSetCancel object c => snd (setCancel object c w)
  | OpCancel cancellable => cancel cancellable w
  | OpCall c => call_cancel c w
  | OpUseStore init update debug => snd (useStore init update debug w)
  | OpSend st msg => store_send st msg w
  | OpSettle st k => settle st k w
  | OpTick => tick w
  end.

Definition is_signal (w : World) (i : nat) : bool :=
  bool_decide (i < length (signals w)).

(** Signal [i] is the state of a [reductions] call. *)
Definition is_state (w : World) (i : nat) : bool :=
  existsb (λ red, bool_decide (r_state red = i)) (reductionTable w).

(** Signal [i] is the signal of a [sample] call that has subscribed to a
    trigger. *)
Definition is_sampled (w : World) (i : nat) : bool :=
  existsb (λ ob, match ob with
                 | OSample d _ => bool_decide (d = i)
                 | _ => false
                 end) (observerTable w).

Definition is_object (w : World) (object : Obj) : bool :=
  match object with
  | OSignal i => is_signal w i
  | OOther _ => true
  end.

(** The operation names signals, stores and functions that exist, and
    [OpSetValue i v] calls a setter that the caller holds: [reductions] and
    [sample] return their signal without the setter.  ([useStore] keeps
    its setter too, and a [sample] without triggers leaves no trace in the
    world; the programs here may write these signals, which makes them
    more, not fewer.) *)
Definition valid_op (op : Op) (w : World) : bool :=
  match op with
  | OpSignal _ | OpUseStore _ _ _ | OpTick => true
  | OpSetValue i _ =>
      is_signal w i && negb (is_state w i) && negb (is_sampled w i)
  | OpObserve i _ | OpReductions _ i _ | OpMap i _ => is_signal w i
  | OpObserveAgain i o =>
      is_signal w i
      && match observerTable w !! o with
         | Some (OCaller _) => true
         | _ => false
         end
  | OpSample triggers _ => forallb (is_signal w) triggers
  | OpSetCancel object _ | OpCancel object => is_object w object
  | OpCall (Unobserve i _) => is_signal w i
  | OpCall (CallerCancel _) => true
  | OpSend st _ | OpSettle st _ => bool_decide (st < length (stores w))
  end.

Inductive Reachable : World → Prop :=
| reach_empty : Reachable empty
| reach_step (w : World) (op : Op) :
    Reachable w → valid_op op w = true → Reachable (apply_op op w).

Definition run_ops (ops : list Op) (w : World) : World :=
  foldl (λ w' op, apply_op op w') w ops.

Fixpoint valid_ops (ops : list Op) (w : World) : bool :=
  match ops with
  | [] => true
  | op :: rest => valid_op op w && valid_ops rest (apply_op op w)
  end.

(** [isUpdateScheduled] of scheduler [sch]. *)
Definition flag (w : World) (sch : nat) : bool :=
  match schedulers w !! sch with
  | Some s => isUpdateScheduled s
  | None => false
  end.

(** The queue and the flags of the schedulers agree; while the update of
    [x] runs, [x] has left the queue and its flag is still up. *)
Definition sched_ok (x : option nat) (w : World) : Prop :=
  NoDup (microtasks w)
  ∧ (∀ sch, x ≠ Some sch → (sch ∈ microtasks w ↔ flag w sch = true))
  ∧ (∀ sch, x = Some sch → (sch ∉ microtasks w) ∧ flag w sch = true).

(** Every signal has a scheduler of its own, with the same index, and the
    thunk that this scheduler remembers is the [dispatch] of the signal. *)
Definition own_schedulers (w : World) : Prop :=
  length (schedulers w) = length (signals w)
  ∧ (∀ i s, signals w !! i = Some s → throttle s = i)
  ∧ (∀ sch s t, schedulers w !! sch = Some s → perform s = Some t →
                t = Dispatch sch).

(** What the observer [o] of signal [i] may be: the closure of a
    [reductions] call whose [cancel] is initialised and whose state is a
    later signal, the closure of a [sample] call whose signal is a later
    one, or a function of the caller. *)
Definition downstream_of (w : World) (i o : nat) : Prop :=
  match observerTable w !! o with
  | Some (OReduction r) =>
      ∃ red, reductionTable w !! r = Some red
             ∧ i < r_state red ∧ is_Some (r_cancel red)
  | Some (OSample d _) => i < d
  | Some (OCaller _) => True
  | None => False
  end.

Definition wired (w : World) : Prop :=
  ∀ i o, o ∈ observers_of i w → downstream_of w i o.

(** The tables only grow: a closure stays what it is, and a [cancel] that
    is initialised stays so. *)
Definition grows (w w' : World) : Prop :=
  (∀ o ob, observerTable w !! o = Some ob → observerTable w' !! o = Some ob)
  ∧ (∀ r red, reductionTable w !! r = Some red →
              ∃ red', reductionTable w' !! r = Some red'
                      ∧ r_state red' = r_state red
                      ∧ (is_Some (r_cancel red) → is_Some (r_cancel red'))).

(** What running observers of signal [i] can do to the world: closures
    stay, subscriptions are at most cancelled, signals up to [i] and the
    flags of their schedulers are left alone, and no flag goes down. *)
Record quiet (i : nat) (w w' : World) : Prop := mkQuiet {
  quiet_observerTable : observerTable w' = observerTable w;
  quiet_reductionTable : reductionTable w' = reductionTable w;
  quiet_observers : ∀ t o, o ∈ observers_of t w' → o ∈ observers_of t w;
  quiet_signals : length (signals w') = length (signals w);
  quiet_own : own_schedulers w → own_schedulers w';
  quiet_schedulers : length (schedulers w') = length (schedulers w);
  quiet_value : ∀ t, t ≤ i → getValue t w' = getValue t w;
  quiet_flag_below : ∀ t, t ≤ i → flag w' t = flag w t;
  quiet_flag_up : ∀ t, flag w t = true → flag w' t = true;
  quiet_sched : ∀ x, sched_ok x w → sched_ok x w'
}.

(** The last statement of [performUpdate]: [isUpdateScheduled = false]. *)
Definition lower_flag (sch : nat) (w : World) : World :=
  with_schedulers
    (alter (λ s, mkScheduler (perform s) false) sch (schedulers w)) w.

(** What programs maintain between two operations. *)
Definition settled_between (w : World) : Prop :=
  sched_ok None w ∧ wired w ∧ own_schedulers w.

(** What calling cancel functions and the functions of the caller can do:
    subscriptions are cancelled, nothing else that the engine reads
    changes. *)
Record unlisting (w w' : World) : Prop := mkUnlisting {
  unl_schedulers : schedulers w' = schedulers w;
  unl_microtasks : microtasks w' = microtasks w;
  unl_observerTable : observerTable w' = observerTable w;
  unl_reductionTable : reductionTable w' = reductionTable w;
  unl_stores : stores w' = stores w;
  unl_signals : length (signals w') = length (signals w);
  unl_value : ∀ j, getValue j w' = getValue j w;
  unl_observers : ∀ t o, o ∈ observers_of t w' → o ∈ observers_of t w;
  unl_own : own_schedulers w → own_schedulers w'
}.

(** The signal that the observer [o] writes, if it writes one. *)
Definition target (w : World) (o : nat) : option nat :=
  match observerTable w !! o with
  | Some (OReduction r) => r_state <$> reductionTable w !! r
  | Some (OSample d _) => Some d
  | _ => None
  end.

(** A closure that writes signal [s] is among the observers of a signal. *)
Definition written_by_observer (w : World) (s : nat) : Prop :=
  ∃ t o, o ∈ observers_of t w ∧ target w o = Some s.

(** Signal [s] is a [map] of signal [i] by [f] that is still subscribed:
    the closure of the [reductions] call that [map] makes, with the
    stepping function [mapping(f)(stepForward)] and the state [s], is an
    observer of [i]. *)
Definition maps (w : World) (i : nat) (f : Value → Value) (s : nat) : Prop :=
  ∃ o r red,
    o ∈ observers_of i w
    ∧ observerTable w !! o = Some (OReduction r)
    ∧ reductionTable w !! r = Some red
    ∧ r_step red = mapping f stepForward
    ∧ r_state red = s.

(** Every map holds the transform of its upstream, unless the upstream
    has an update scheduled; [x] is the signal whose update is running. *)
Definition follows_at (x : option nat) (w : World) : Prop :=
  ∀ i f s, maps w i f s → x ≠ Some i →
           flag w i = true ∨ getValue s w = f (getValue i w).

(** While the observers of [x] run: the maps of [x] that are not among
    the observers [os] still to run hold the transform already. *)
Definition caught_up (x : nat) (os : list nat) (w : World) : Prop :=
  ∀ o r red f,
    o ∈ observers_of x w →
    observerTable w !! o = Some (OReduction r) →
    reductionTable w !! r = Some red →
    r_step red = mapping f stepForward →
    o ∈ os ∨ getValue (r_state red) w = f (getValue x w).

(** How the tables hang together: every [reductions] call has a signal of
    its own as state and one closure, which observes one signal; the
    signals of [sample] calls and of stores are no such states; a scheduler
    that is scheduled remembers a thunk. *)
Record shaped (w : World) : Prop := mkShaped {
  shaped_states :
    ∀ r red, reductionTable w !! r = Some red →
             r_state red < length (signals w);
  shaped_states_inj :
    ∀ r r' red red',
      reductionTable w !! r = Some red → reductionTable w !! r' = Some red' →
      r_state red = r_state red' → r = r';
  shaped_reductions :
    ∀ o r, observerTable w !! o = Some (OReduction r) →
           r < length (reductionTable w);
  shaped_observers :
    ∀ o o' r, observerTable w !! o = Some (OReduction r) →
              observerTable w !! o' = Some (OReduction r) → o = o';
  shaped_samples :
    ∀ o d f, observerTable w !! o = Some (OSample d f) →
             d < length (signals w) ∧ is_state w d = false;
  shaped_stores :
    ∀ st s, stores w !! st = Some s →
            st_signal s < length (signals w) ∧ is_state w (st_signal s) = false;
  shaped_upstream :
    ∀ i i' o r, o ∈ observers_of i w → o ∈ observers_of i' w →
                observerTable w !! o = Some (OReduction r) → i = i';
  shaped_armed :
    ∀ sch s, schedulers w !! sch = Some s → isUpdateScheduled s = true →
             is_Some (perform s)
}.

Definition mapped (w : World) : Prop := shaped w ∧ follows_at None w.

(** The closure [resample] reads the signals [ts] and no other. *)
Definition reads_only (ts : list nat) (resample : Resample) : Prop :=
  ∀ g g' : nat → Value, (∀ t, t ∈ ts → g t = g' t) → resample g = resample g'.

(** Signal [d] is a [sample] of the triggers [ts] by [resample] whose
    subscriptions are all still there: every trigger has the closure
    [() => setDownstream(resample())] of the call among its observers. *)
Definition samples (w : World) (ts : list nat) (resample : Resample)
    (d : nat) : Prop :=
  ts ≠ []
  ∧ ∀ t, t ∈ ts →
         ∃ o, o ∈ observers_of t w
              ∧ observerTable w !! o = Some (OSample d resample).

(** [d] holds what [resample] gives now, unless a trigger other than [x]
    has an update scheduled. *)
Definition current_at (x : option nat) (w : World) (ts : list nat)
    (resample : Resample) (d : nat) : Prop :=
  (∃ t, t ∈ ts ∧ x ≠ Some t ∧ flag w t = true)
  ∨ getValue d w = resample (λ i, getValue i w).

(** Every sample is current; while the update of [x] runs, every sample
    that [x] does not trigger. *)
Definition sampled_at (x : option nat) (w : World) : Prop :=
  ∀ ts resample d,
    samples w ts resample d → reads_only ts resample →
    (∀ t, x = Some t → t ∉ ts) →
    current_at x w ts resample d.

(** While the observers of [x] run: the samples that [x] triggers and
    whose closure is not among the observers [os] still to run are
    current already. *)
Definition resampled (x : nat) (os : list nat) (w : World) : Prop :=
  ∀ ts resample d o,
    samples w ts resample d → reads_only ts resample → x ∈ ts →
    o ∈ observers_of x w →
    observerTable w !! o = Some (OSample d resample) →
    o ∈ os ∨ current_at (Some x) w ts resample d.

(** The closures of one [sample] call share the [resample] of the call,
    and no store has the signal of a [sample] call. *)
Record sample_shaped (w : World) : Prop := mkSampleShaped {
  ss_resample :
    ∀ o o' d f f',
      observerTable w !! o = Some (OSample d f) →
      observerTable w !! o' = Some (OSample d f') → f = f';
  ss_stores :
    ∀ st s, stores w !! st = Some s → is_sampled w (st_signal s) = false
}.

Definition sampled (w : World) : Prop := sample_shaped w ∧ sampled_at None w.

(** Changes that leave the samples as they are: the closures of [sample]
    calls and their subscriptions, the flags, and the values of the
    signals there were. *)
Record sample_same (w w' : World) : Prop := mkSampleSame {
  same_closures :
    ∀ o d f, observerTable w' !! o = Some (OSample d f)
             ↔ observerTable w !! o = Some (OSample d f);
  same_listed :
    ∀ t o d f, observerTable w !! o = Some (OSample d f) →
               (o ∈ observers_of t w' ↔ o ∈ observers_of t w);
  same_flag : ∀ j, flag w' j = flag w j;
  same_value : ∀ j, j < length (signals w) → getValue j w' = getValue j w;
  same_stores :
    ∀ st, st_signal <$> stores w' !! st = st_signal <$> stores w !! st
}.

(** The flags of the schedulers read as a binary number, the first
    scheduler at the highest bit. *)
Fixpoint weight (flags : list bool) : nat :=
  match flags with
  | [] => 0
  | b :: rest => (if b then 2 ^ length rest else 0) + weight rest
  end.

Definition pending_weight (w : World) : nat :=
  weight (isUpdateScheduled <$> schedulers w).

(** [x = signal(0)], [y = reductions(takingWhile(positive)(stepForward), x, 7)]
    fails at subscription; [x] is then set to 1. *)
Definition failed_reduction_ops : list Op :=
  [OpSignal (VNum 0);
   OpReductions (takingWhile ObservedSpec.positive stepForward) 0 (VNum 7);
   OpSetValue 0 (VNum 1)].

Definition failed_reduction : World := run_ops failed_reduction_ops empty.

(** [a = signal(1)], [b = map(a, double)], [c = map(a, double)],
    [d = sample([b, c], () => b() + c())], then [a] is set to 2. *)
Definition double (v : Value) : Value :=
  match v with
  | VNum n => VNum (2 * n)
  | _ => VNaN
  end.

Definition sum_bc : Resample := λ get, ObservedSpec.plus (get 1) (get 2).

Definition diamond_ops : list Op :=
  [OpSignal (VNum 1);
   OpMap 0 double;
   OpMap 0 double;
   OpSample [1; 2] sum_bc;
   OpSetValue 0 (VNum 2)].

Definition diamond : World := run_ops diamond_ops empty.

(** The microtask of [a] has run. *)
Definition diamond_ticked : World := run_ops (diamond_ops ++ [OpTick]) empty.

(** The microtasks of [a], [b] and [c] have run. *)
Definition diamond_settled : World :=
  run_ops (diamond_ops ++ [OpTick; OpTick; OpTick]) empty.

(** [a = signal(1)], [b = map(a, double)], [cancel(b)], then [a] is set
    to 5. *)
Definition map_cancelled_ops : list Op :=
  [OpSignal (VNum 1); OpMap 0 double; OpCancel (OSignal 1);
   OpSetValue 0 (VNum 5)].

Definition map_cancelled : World := run_ops map_cancelled_ops empty.

End ObservedReach.

(** ** Facts about the tracking-based engine *)

Module TrackedFacts.
Import Tracked TrackedSpec TrackedExamples.

Lemma strict_neq_false (a b : Value) : strict_neq a b = false → a = b.
Proof.
  unfold strict_neq, strict_eq.
  destruct a, b; simpl; intros H; try discriminate; try reflexivity;
    apply negb_false_iff, bool_decide_eq_true in H; exact H.
Qed.

Lemma elem_of_set_add `{EqDecision A} (x y : A) (s : list A) :
  x ∈ set_add y s ↔ x = y ∨ x ∈ s.
Proof.
  unfold set_add. case_bool_decide; set_solver.
Qed.

(** *** Cells *)

Lemma cell_at_set_cell (w : World) (s s' : Src) (c : Cell) :
  cell_at (set_cell s c w) s'
  = if decide (s = s') then (λ _, c) <$> cell_at w s else cell_at w s'.
Proof.
  destruct s as [i|i], s' as [j|j]; simpl; try case_decide as Heq;
    try congruence; try reflexivity.
  - injection Heq as ->. rewrite list_lookup_insert.
    case_decide as Hn.
    + destruct Hn as [_ Hlt].
      apply lookup_lt_is_Some_2 in Hlt. by destruct Hlt as [x ->].
    + rewrite (lookup_ge_None_2 (signals w) j); [done|]. lia.
  - rewrite list_lookup_insert_ne; [done|]. congruence.
  - injection Heq as ->. rewrite list_lookup_alter_eq.
    by destruct (computeds w !! j).
  - rewrite list_lookup_alter_ne; [done|]. congruence.
Qed.

Lemma peek_set_cell (w : World) (s s' : Src) (c : Cell) :
  peek (set_cell s c w) s'
  = if decide (s = s' ∧ is_Some (cell_at w s)) then state c else peek w s'.
Proof.
  unfold peek. rewrite cell_at_set_cell.
  destruct (decide (s = s')) as [->|Hne].
  - destruct (cell_at w s') eqn:E; simpl.
    + rewrite decide_True; [done|]. split; [done|]. by eexists.
    + rewrite decide_False; [done|]. intros [_ [? ?]]. congruence.
  - rewrite decide_False; [done|]. by intros [? _].
Qed.

Lemma listeners_set_cell (w : World) (s s' : Src) (c : Cell) :
  listeners (set_cell s c w) s'
  = if decide (s = s' ∧ is_Some (cell_at w s)) then transaction c
    else listeners w s'.
Proof.
  unfold listeners. rewrite cell_at_set_cell.
  destruct (decide (s = s')) as [->|Hne].
  - destruct (cell_at w s') eqn:E; simpl.
    + rewrite decide_True; [done|]. split; [done|]. by eexists.
    + rewrite decide_False; [done|]. intros [_ [? ?]]. congruence.
  - rewrite decide_False; [done|]. by intros [? _].
Qed.

Lemma set_cell_frame (w : World) (s : Src) (c : Cell) :
  scopes (set_cell s c w) = scopes w
  ∧ throttles (set_cell s c w) = throttles w
  ∧ takers (set_cell s c w) = takers w
  ∧ stores (set_cell s c w) = stores w
  ∧ microtasks (set_cell s c w) = microtasks w
  ∧ log (set_cell s c w) = log w.
Proof. by destruct s. Qed.

(** *** Scheduling *)

Lemma scheduled_set_scheduled (w : World) (l l' : Lid) (b : bool) :
  scheduled (set_scheduled l b w) l'
  = if decide (l = l' ∧ is_Some (throttles w !! l)) then b else scheduled w l'.
Proof.
  unfold scheduled, set_scheduled; simpl. rewrite list_lookup_alter.
  repeat case_decide; subst; destruct (throttles w !! l') eqn:E; simpl;
    try done; exfalso; naive_solver.
Qed.

Lemma job_set_scheduled (w : World) (l l' : Lid) (b : bool) :
  job <$> throttles (set_scheduled l b w) !! l' = job <$> throttles w !! l'.
Proof.
  unfold set_scheduled; simpl. rewrite list_lookup_alter.
  case_decide as H; [subst|done]. by destruct (throttles w !! l').
Qed.

(** What [schedule l] does: nothing if [l] is already scheduled, else it
    raises the flag and queues one microtask. *)
Lemma schedule_spec (w : World) (l : Lid) :
  schedule l w
  = if decide (is_Some (throttles w !! l) ∧ scheduled w l = false)
    then queueMicrotask l (set_scheduled l true w) else w.
Proof.
  unfold schedule, scheduled. destruct (throttles w !! l) as [t|] eqn:E.
  - destruct (isScheduled t) eqn:E2.
    + rewrite decide_False; [done|]. by intros [_ ?].
    + rewrite decide_True; [done|]. split; [by eexists|done].
  - rewrite decide_False; [done|]. intros [[? ?] _]. congruence.
Qed.

Lemma schedule_frame (w : World) (l : Lid) :
  scopes (schedule l w) = scopes w
  ∧ signals (schedule l w) = signals w
  ∧ computeds (schedule l w) = computeds w
  ∧ takers (schedule l w) = takers w
  ∧ stores (schedule l w) = stores w
  ∧ log (schedule l w) = log w.
Proof. rewrite schedule_spec. by case_decide. Qed.

Lemma schedule_job (w : World) (l l' : Lid) :
  job <$> throttles (schedule l w) !! l' = job <$> throttles w !! l'.
Proof.
  rewrite schedule_spec. case_decide; [|done].
  apply (job_set_scheduled w l l' true).
Qed.

Lemma scheduled_schedule (w : World) (l l' : Lid) :
  scheduled (schedule l w) l'
  = if decide (l = l' ∧ is_Some (throttles w !! l)) then true
    else scheduled w l'.
Proof.
  rewrite schedule_spec. case_decide as H.
  - change (scheduled (queueMicrotask l (set_scheduled l true w)) l')
      with (scheduled (set_scheduled l true w) l').
    apply scheduled_set_scheduled.
  - case_decide as H2; [|done]. destruct H2 as [-> Hs].
    destruct (scheduled w l') eqn:E; [done|]. by destruct H.
Qed.

Lemma microtasks_schedule (w : World) (l : Lid) :
  microtasks (schedule l w)
  = microtasks w
    ++ (if decide (is_Some (throttles w !! l) ∧ scheduled w l = false)
        then [l] else []).
Proof.
  rewrite schedule_spec. case_decide; simpl; [done|].
  by rewrite app_nil_r.
Qed.

Lemma notify_frame (ls : list Lid) (w : World) :
  scopes (notify ls w) = scopes w
  ∧ signals (notify ls w) = signals w
  ∧ computeds (notify ls w) = computeds w
  ∧ takers (notify ls w) = takers w
  ∧ stores (notify ls w) = stores w
  ∧ log (notify ls w) = log w.
Proof.
  revert w. induction ls as [|l ls IH]; intros w; [done|].
  simpl. destruct (IH (schedule l w)) as (-> & -> & -> & -> & -> & ->).
  apply schedule_frame.
Qed.

Lemma notify_job (ls : list Lid) (w : World) (l' : Lid) :
  job <$> throttles (notify ls w) !! l' = job <$> throttles w !! l'.
Proof.
  revert w. induction ls as [|l ls IH]; intros w; [done|].
  simpl. fold (notify ls (schedule l w)). rewrite IH. apply schedule_job.
Qed.

Lemma throttle_is_Some_job (w w' : World) (l : Lid) :
  job <$> throttles w' !! l = job <$> throttles w !! l →
  is_Some (throttles w' !! l) ↔ is_Some (throttles w !! l).
Proof.
  destruct (throttles w' !! l), (throttles w !! l); simpl; intros H;
    try discriminate; split; intros [? ?]; try discriminate; by eexists.
Qed.

Lemma scheduled_notify (ls : list Lid) (w : World) (l' : Lid) :
  scheduled (notify ls w) l'
  = if decide (l' ∈ ls ∧ is_Some (throttles w !! l')) then true
    else scheduled w l'.
Proof.
  revert w. induction ls as [|l ls IH]; intros w.
  - case_decide as H; [|done]. destruct H as [H _]. by inversion H.
  - change (notify (l :: ls) w) with (notify ls (schedule l w)).
    rewrite IH, scheduled_schedule.
    pose proof (throttle_is_Some_job w (schedule l w) l' (schedule_job w l l'))
      as Hs.
    repeat case_decide; try done; exfalso; set_solver.
Qed.

Lemma microtasks_notify (ls : list Lid) (w : World) :
  ∃ new, microtasks (notify ls w) = microtasks w ++ new
         ∧ ∀ l, l ∈ new → l ∈ ls.
Proof.
  revert w. induction ls as [|l ls IH]; intros w.
  - exists []. split; [by rewrite app_nil_r|]. intros ? H. by inversion H.
  - change (notify (l :: ls) w) with (notify ls (schedule l w)).
    destruct (IH (schedule l w)) as (new & -> & Hnew).
    rewrite microtasks_schedule. case_decide.
    + exists (l :: new). split; [by rewrite <- app_assoc|]. set_solver.
    + exists new. split; [by rewrite app_nil_r|]. set_solver.
Qed.

Lemma notify_queues (ls : list Lid) (w : World) (l : Lid) :
  l ∈ ls → is_Some (throttles w !! l) → scheduled w l = false →
  l ∈ microtasks (notify ls w).
Proof.
  revert w. induction ls as [|l0 ls IH]; intros w Hin Hs Hf.
  - by inversion Hin.
  - change (notify (l0 :: ls) w) with (notify ls (schedule l0 w)).
    destruct (decide (l0 = l)) as [->|Hne].
    + destruct (microtasks_notify ls (schedule l w)) as (new & -> & _).
      rewrite microtasks_schedule, decide_True by done. set_solver.
    + apply IH.
      * set_solver.
      * by apply (throttle_is_Some_job w _ l (schedule_job w l0 l)).
      * rewrite scheduled_schedule. case_decide; [naive_solver|done].
Qed.

(** *** Transactions *)

Lemma transact_spec (w : World) (s : Src) :
  transact s w
  = if decide (is_Some (cell_at w s))
    then notify (listeners w s) (set_cell s (mkCell (peek w s) []) w)
    else w.
Proof.
  unfold transact, listeners, peek, notify.
  destruct (cell_at w s) eqn:E.
  - by rewrite decide_True by by eexists.
  - rewrite decide_False; [done|]. by intros [? ?].
Qed.

Lemma compute_of_set_cell (w : World) (s : Src) (c : Cell) (j : nat) :
  compute_of (set_cell s c w) j = compute_of w j.
Proof.
  unfold compute_of. destruct s as [i|i]; simpl; [done|].
  rewrite list_lookup_alter. case_decide; [subst|done].
  by destruct (computeds w !! j).
Qed.

Lemma transact_frame (w : World) (s : Src) :
  scopes (transact s w) = scopes w
  ∧ takers (transact s w) = takers w
  ∧ stores (transact s w) = stores w
  ∧ log (transact s w) = log w
  ∧ (∀ s', peek (transact s w) s' = peek w s')
  ∧ (∀ j, compute_of (transact s w) j = compute_of w j)
  ∧ (∀ l, job_of (transact s w) l = job_of w l).
Proof.
  rewrite transact_spec. case_decide as Hs; [|done].
  set (w1 := set_cell s _ w).
  destruct (notify_frame (listeners w s) w1) as (E1 & E2 & E3 & E4 & E5 & E6).
  destruct (set_cell_frame w s (mkCell (peek w s) [])) as (F1 & F2 & F3 & F4 & F5 & F6).
  repeat split.
  - by rewrite E1.
  - by rewrite E4.
  - by rewrite E5.
  - by rewrite E6.
  - intros s'. unfold peek at 1, cell_at. rewrite E2, E3.
    fold (cell_at w1 s'). fold (peek w1 s'). unfold w1.
    rewrite peek_set_cell. case_decide as H; [|done]. by destruct H as [-> _].
  - intros j. unfold compute_of. rewrite E3. apply compute_of_set_cell.
  - intros l. unfold job_of. rewrite notify_job. unfold w1. by rewrite F2.
Qed.

Lemma listeners_transact (w : World) (s s' : Src) :
  listeners (transact s w) s' = if decide (s = s') then [] else listeners w s'.
Proof.
  rewrite transact_spec. case_decide as Hs.
  - set (w1 := set_cell s _ w).
    destruct (notify_frame (listeners w s) w1) as (_ & E2 & E3 & _).
    unfold listeners at 1, cell_at. rewrite E2, E3.
    fold (cell_at w1 s'). fold (listeners w1 s'). unfold w1.
    rewrite listeners_set_cell. repeat case_decide; naive_solver.
  - case_decide; [subst|done]. unfold listeners.
    destruct (cell_at w s') eqn:E; [|done]. exfalso. apply Hs. by eexists.
Qed.

Lemma scheduled_transact (w : World) (s : Src) (l : Lid) :
  scheduled (transact s w) l
  = if decide (l ∈ listeners w s ∧ is_Some (throttles w !! l)) then true
    else scheduled w l.
Proof.
  rewrite transact_spec. case_decide as Hs.
  - rewrite scheduled_notify.
    destruct (set_cell_frame w s (mkCell (peek w s) [])) as (_ & F2 & _).
    unfold scheduled. rewrite F2. done.
  - case_decide as H; [|done]. destruct H as [H _]. unfold listeners in H.
    destruct (cell_at w s) eqn:E; [|by inversion H]. exfalso. apply Hs.
    by eexists.
Qed.

Lemma microtasks_transact (w : World) (s : Src) :
  ∃ new, microtasks (transact s w) = microtasks w ++ new
         ∧ ∀ l, l ∈ new → l ∈ listeners w s.
Proof.
  rewrite transact_spec. case_decide as Hs.
  - destruct (microtasks_notify (listeners w s)
                (set_cell s (mkCell (peek w s) []) w)) as (new & -> & Hn).
    exists new. split; [|done].
    by destruct (set_cell_frame w s (mkCell (peek w s) []))
      as (_ & _ & _ & _ & -> & _).
  - exists []. split; [by rewrite app_nil_r|]. intros ? H. by inversion H.
Qed.

Lemma transact_queues (w : World) (s : Src) (l : Lid) :
  l ∈ listeners w s → is_Some (throttles w !! l) → scheduled w l = false →
  l ∈ microtasks (transact s w).
Proof.
  intros Hin Hs Hf. rewrite transact_spec. case_decide as Hc.
  - destruct (set_cell_frame w s (mkCell (peek w s) [])) as (_ & F2 & _).
    apply notify_queues; [done| |].
    + by rewrite F2.
    + unfold scheduled. by rewrite F2.
  - unfold listeners in Hin. destruct (cell_at w s) eqn:E; [|by inversion Hin].
    exfalso. apply Hc. by eexists.
Qed.

(** *** Reading *)

Lemma withTransaction_spec (w : World) (s : Src) (listener : option Lid) :
  withTransaction s listener w
  = if decide (is_Some (cell_at w s) ∧ is_Some listener)
    then set_cell s (mkCell (peek w s) (tx_add listener (listeners w s))) w
    else w.
Proof.
  unfold withTransaction, peek, listeners.
  destruct listener as [l|], (cell_at w s) eqn:E;
    case_decide as H; simpl; try done; exfalso.
  - apply H. split; by eexists.
  - destruct H as [[? ?] _]. congruence.
  - destruct H as [_ [? ?]]. congruence.
  - destruct H as [_ [? ?]]. congruence.
Qed.

Lemma read_value (w : World) (s : Src) : fst (read s w) = peek w s.
Proof. unfold read, peek. by destruct (cell_at w s). Qed.

Lemma read_world (w : World) (s : Src) :
  snd (read s w)
  = if decide (is_Some (cell_at w s))
    then record (EvRead (getTracked w) s (peek w s))
           (withTransaction s (getTracked w) w)
    else w.
Proof.
  unfold read, peek. destruct (cell_at w s) eqn:E; case_decide as H; simpl;
    try done; exfalso; naive_solver.
Qed.

Lemma withTransaction_frame (w : World) (s : Src) (o : option Lid) :
  scopes (withTransaction s o w) = scopes w
  ∧ throttles (withTransaction s o w) = throttles w
  ∧ takers (withTransaction s o w) = takers w
  ∧ stores (withTransaction s o w) = stores w
  ∧ microtasks (withTransaction s o w) = microtasks w
  ∧ log (withTransaction s o w) = log w
  ∧ (∀ s', peek (withTransaction s o w) s' = peek w s')
  ∧ (∀ j, compute_of (withTransaction s o w) j = compute_of w j).
Proof.
  rewrite withTransaction_spec. case_decide as H; [|done].
  destruct (set_cell_frame w s (mkCell (peek w s) (tx_add o (listeners w s))))
    as (-> & -> & -> & -> & -> & ->).
  repeat split; [|apply compute_of_set_cell].
  intros s'. rewrite peek_set_cell. case_decide as H2; [|done].
  by destruct H2 as [-> _].
Qed.

Lemma listeners_withTransaction (w : World) (s s' : Src) (o : option Lid) :
  listeners (withTransaction s o w) s'
  = if decide (s = s' ∧ is_Some (cell_at w s))
    then tx_add o (listeners w s) else listeners w s'.
Proof.
  rewrite withTransaction_spec. case_decide as H.
  - rewrite listeners_set_cell. repeat case_decide; naive_solver.
  - case_decide as H2; [|done]. destruct H2 as [-> Hs].
    destruct o as [l|]; [|done]. exfalso. apply H. split; [done|by eexists].
Qed.

Lemma read_frame (w : World) (s : Src) :
  scopes (snd (read s w)) = scopes w
  ∧ throttles (snd (read s w)) = throttles w
  ∧ takers (snd (read s w)) = takers w
  ∧ stores (snd (read s w)) = stores w
  ∧ microtasks (snd (read s w)) = microtasks w
  ∧ (∀ s', peek (snd (read s w)) s' = peek w s')
  ∧ (∀ j, compute_of (snd (read s w)) j = compute_of w j).
Proof.
  rewrite read_world. case_decide as H; [|done].
  destruct (withTransaction_frame w s (getTracked w))
    as (E1 & E2 & E3 & E4 & E5 & E6 & E7 & E8).
  repeat split; done.
Qed.

Lemma listeners_read (w : World) (s s' : Src) :
  listeners (snd (read s w)) s'
  = if decide (s = s' ∧ is_Some (cell_at w s))
    then tx_add (getTracked w) (listeners w s) else listeners w s'.
Proof.
  rewrite read_world. case_decide as H.
  - apply listeners_withTransaction.
  - case_decide as H2; [|done]. by destruct H2 as [-> Hs].
Qed.

Lemma log_read (w : World) (s : Src) :
  log (snd (read s w))
  = log w ++ (if decide (is_Some (cell_at w s))
              then [EvRead (getTracked w) s (peek w s)] else []).
Proof.
  rewrite read_world. case_decide as H; simpl.
  - by destruct (withTransaction_frame w s (getTracked w))
      as (_ & _ & _ & _ & _ & -> & _).
  - by rewrite app_nil_r.
Qed.

(** *** Writing *)

Lemma send_publish (w : World) (i : nat) (v : Value) :
  send i v w = publish (Sig i) v w.
Proof. reflexivity. Qed.

Lemma publish_spec (w : World) (s : Src) (v : Value) :
  publish s v w
  = if decide (is_Some (cell_at w s) ∧ strict_neq (peek w s) v = true)
    then transact s (set_cell s (mkCell v (listeners w s)) w)
    else w.
Proof.
  unfold publish, peek, listeners.
  destruct (cell_at w s) as [c|] eqn:E.
  - destruct (strict_neq (state c) v) eqn:E2; case_decide as H; try done;
      exfalso.
    + apply H. split; [by eexists|done].
    + by destruct H.
  - case_decide as H; [|done]. by destruct H as [[? ?] _].
Qed.

Lemma peek_publish (w : World) (s : Src) (v : Value) (s' : Src) :
  peek (publish s v w) s'
  = if decide (s' = s ∧ is_Some (cell_at w s)) then v else peek w s'.
Proof.
  rewrite publish_spec. case_decide as H.
  - destruct (transact_frame (set_cell s (mkCell v (listeners w s)) w) s)
      as (_ & _ & _ & _ & -> & _).
    rewrite peek_set_cell. destruct H as [Hs _].
    repeat case_decide; naive_solver.
  - case_decide as H2; [|done]. destruct H2 as [-> Hs].
    destruct (strict_neq (peek w s) v) eqn:E.
    + exfalso. by apply H.
    + by apply strict_neq_false in E.
Qed.

Lemma publish_frame (w : World) (s : Src) (v : Value) :
  scopes (publish s v w) = scopes w
  ∧ takers (publish s v w) = takers w
  ∧ stores (publish s v w) = stores w
  ∧ log (publish s v w) = log w
  ∧ (∀ j, compute_of (publish s v w) j = compute_of w j)
  ∧ (∀ l, job_of (publish s v w) l = job_of w l).
Proof.
  rewrite publish_spec. case_decide as H; [|done].
  set (w1 := set_cell _ _ w).
  destruct (transact_frame w1 s) as (-> & -> & -> & -> & _ & E & F).
  destruct (set_cell_frame w s (mkCell v (listeners w s)))
    as (F1 & F2 & F3 & F4 & F5 & F6).
  repeat split; try done.
  - intros j. rewrite E. apply compute_of_set_cell.
  - intros l. rewrite F. unfold job_of, w1. by rewrite F2.
Qed.

Lemma listeners_publish (w : World) (s : Src) (v : Value) (s' : Src) :
  listeners (publish s v w) s'
  = if decide (s' = s ∧ strict_neq (peek w s) v = true) then []
    else listeners w s'.
Proof.
  rewrite publish_spec. case_decide as H.
  - rewrite listeners_transact. destruct H as [Hs Hv].
    case_decide as H1; subst.
    + by rewrite decide_True.
    + rewrite decide_False by naive_solver.
      rewrite listeners_set_cell. case_decide; naive_solver.
  - case_decide as H2; [|done]. destruct H2 as [-> Hv].
    unfold listeners. destruct (cell_at w s) eqn:E; [|done].
    exfalso. apply H. split; [by eexists|done].
Qed.

Lemma scheduled_publish (w : World) (s : Src) (v : Value) (l : Lid) :
  scheduled (publish s v w) l
  = if decide (l ∈ listeners w s ∧ is_Some (throttles w !! l)
               ∧ strict_neq (peek w s) v = true)
    then true else scheduled w l.
Proof.
  rewrite publish_spec. case_decide as H.
  - destruct H as [Hs Hv]. rewrite scheduled_transact, listeners_set_cell.
    destruct (set_cell_frame w s (mkCell v (listeners w s))) as (_ & F2 & _).
    unfold scheduled at 1. rewrite F2. fold (scheduled w l).
    repeat case_decide; naive_solver.
  - case_decide as H2; [|done]. destruct H2 as (Hin & _ & Hv).
    exfalso. apply H. split; [|done]. unfold listeners in Hin.
    destruct (cell_at w s); [by eexists|by inversion Hin].
Qed.

Lemma microtasks_publish (w : World) (s : Src) (v : Value) :
  ∃ new, microtasks (publish s v w) = microtasks w ++ new
         ∧ ∀ l, l ∈ new → l ∈ listeners w s.
Proof.
  rewrite publish_spec. case_decide as H.
  - destruct (microtasks_transact (set_cell s (mkCell v (listeners w s)) w) s)
      as (new & E & Hn).
    destruct (set_cell_frame w s (mkCell v (listeners w s)))
      as (_ & F2 & _ & _ & F5 & _).
    rewrite F5 in E. rewrite E.
    exists new. split; [done|]. intros l Hl. pose proof (Hn l Hl) as Hl'.
    rewrite listeners_set_cell in Hl'. by case_decide.
  - exists []. split; [by rewrite app_nil_r|]. intros ? H1. by inversion H1.
Qed.

Lemma publish_queues (w : World) (s : Src) (v : Value) (l : Lid) :
  l ∈ listeners w s → is_Some (throttles w !! l) →
  scheduled w l = false → strict_neq (peek w s) v = true →
  l ∈ microtasks (publish s v w).
Proof.
  intros Hin Hs Hf Hv. rewrite publish_spec.
  assert (is_Some (cell_at w s)) as Hi.
  { unfold listeners in Hin.
    destruct (cell_at w s); [by eexists|by inversion Hin]. }
  rewrite decide_True by done.
  destruct (set_cell_frame w s (mkCell v (listeners w s))) as (_ & F2 & _).
  apply transact_queues.
  - rewrite listeners_set_cell. by rewrite decide_True.
  - by rewrite F2.
  - unfold scheduled. by rewrite F2.
Qed.

(** *** Sizes *)

Lemma cell_exists (w : World) (s : Src) :
  is_Some (cell_at w s)
  ↔ match s with
    | Sig i => i < length (signals w)
    | Cmp i => i < length (computeds w)
    end.
Proof.
  destruct s as [i|i]; simpl.
  - apply lookup_lt_is_Some.
  - rewrite fmap_is_Some. apply lookup_lt_is_Some.
Qed.

Lemma cell_exists_sizes (w w' : World) (s : Src) :
  sizes w' = sizes w → is_Some (cell_at w' s) ↔ is_Some (cell_at w s).
Proof.
  unfold sizes. intros [= E1 E2 E3]. rewrite !cell_exists.
  destruct s; by rewrite ?E1, ?E2.
Qed.

Lemma throttle_exists_sizes (w w' : World) (l : Lid) :
  sizes w' = sizes w → is_Some (throttles w' !! l) ↔ is_Some (throttles w !! l).
Proof.
  unfold sizes. intros [= E1 E2 E3]. by rewrite !lookup_lt_is_Some, E3.
Qed.

Lemma set_cell_sizes (w : World) (s : Src) (c : Cell) :
  sizes (set_cell s c w) = sizes w.
Proof.
  unfold sizes. destruct s; simpl; by rewrite ?length_insert, ?length_alter.
Qed.

Lemma set_scheduled_sizes (w : World) (l : Lid) (b : bool) :
  sizes (set_scheduled l b w) = sizes w.
Proof. unfold sizes; simpl. by rewrite length_alter. Qed.

Lemma schedule_sizes (w : World) (l : Lid) : sizes (schedule l w) = sizes w.
Proof.
  rewrite schedule_spec. case_decide; [|done]. apply set_scheduled_sizes.
Qed.

Lemma notify_sizes (ls : list Lid) (w : World) : sizes (notify ls w) = sizes w.
Proof.
  revert w. induction ls as [|l ls IH]; intros w; [done|].
  change (notify (l :: ls) w) with (notify ls (schedule l w)).
  by rewrite IH, schedule_sizes.
Qed.

Lemma transact_sizes (w : World) (s : Src) : sizes (transact s w) = sizes w.
Proof.
  rewrite transact_spec. case_decide; [|done].
  by rewrite notify_sizes, set_cell_sizes.
Qed.

Lemma withTransaction_sizes (w : World) (s : Src) (o : option Lid) :
  sizes (withTransaction s o w) = sizes w.
Proof.
  rewrite withTransaction_spec. case_decide; [|done]. apply set_cell_sizes.
Qed.

Lemma read_sizes (w : World) (s : Src) : sizes (snd (read s w)) = sizes w.
Proof.
  rewrite read_world. case_decide; [|done].
  apply (withTransaction_sizes w s (getTracked w)).
Qed.

Lemma publish_sizes (w : World) (s : Src) (v : Value) :
  sizes (publish s v w) = sizes w.
Proof.
  rewrite publish_spec. case_decide; [|done].
  by rewrite transact_sizes, set_cell_sizes.
Qed.

(** *** Functions that write no signal *)

Lemma eval_deps_ext {A} (p : Comp A) (w w' : World) :
  (∀ s, s ∈ deps p w → peek w' s = peek w s) →
  eval p w' = eval p w ∧ deps p w' = deps p w.
Proof.
  induction p as [a|s k IH|i v k IH]; simpl; intros H; [done| |by apply IH].
  assert (peek w' s = peek w s) as E by (apply H; set_solver).
  rewrite E. destruct (IH (peek w s)) as [-> ->]; [|done].
  intros s' Hs'. apply H. set_solver.
Qed.

Lemma read_trace_ext {A} (o : option Lid) (p : Comp A) (w w' : World) :
  (∀ s, peek w' s = peek w s) → sizes w' = sizes w →
  read_trace o p w' = read_trace o p w.
Proof.
  intros Hp Hs.
  induction p as [a|s k IH|i v k IH]; simpl; [done| |done].
  rewrite Hp, IH. f_equal.
  pose proof (cell_exists_sizes w w' s Hs). repeat case_decide; naive_solver.
Qed.

Lemma interp_read_unfold {A} (s : Src) (k : Value → Comp A) (w : World) :
  interp (Read s k) w = interp (k (peek w s)) (snd (read s w)).
Proof.
  simpl. rewrite <- read_value. by destruct (read s w).
Qed.

(** A function that only reads returns its value against the current
    state, changes no value, no throttled function and no queue, leaves in
    the trace the reads it made, and adds the tracker to the listeners of
    what it read. *)
Lemma interp_no_send {A} (p : Comp A) (w : World) :
  no_send p →
  fst (interp p w) = eval p w
  ∧ (∀ s, peek (snd (interp p w)) s = peek w s)
  ∧ sizes (snd (interp p w)) = sizes w
  ∧ scopes (snd (interp p w)) = scopes w
  ∧ throttles (snd (interp p w)) = throttles w
  ∧ takers (snd (interp p w)) = takers w
  ∧ stores (snd (interp p w)) = stores w
  ∧ microtasks (snd (interp p w)) = microtasks w
  ∧ (∀ j, compute_of (snd (interp p w)) j = compute_of w j)
  ∧ log (snd (interp p w)) = log w ++ read_trace (getTracked w) p w
  ∧ (∀ s x, x ∈ listeners (snd (interp p w)) s
            ↔ x ∈ listeners w s
              ∨ (getTracked w = Some x ∧ s ∈ deps p w ∧ is_Some (cell_at w s))).
Proof.
  revert w. induction p as [a|s k IH|i v k IH]; intros w Hp.
  - simpl. repeat split; try done.
    + by rewrite app_nil_r.
    + by left.
    + intros [?|(_ & H & _)]; [done|by inversion H].
  - rewrite interp_read_unfold. simpl in Hp.
    set (w1 := snd (read s w)).
    destruct (read_frame w s) as (R1 & R2 & R3 & R4 & R5 & R6 & R7).
    fold w1 in R1, R2, R3, R4, R5, R6, R7.
    pose proof (read_sizes w s) as Rs. fold w1 in Rs.
    assert (getTracked w1 = getTracked w) as Rt by (unfold getTracked; by rewrite R1).
    destruct (IH (peek w s) w1 (Hp _))
      as (I1 & I2 & I3 & I4 & I5 & I6 & I7 & I8 & I9 & I10 & I11).
    destruct (eval_deps_ext (k (peek w s)) w w1) as [Ee Ed]; [by intros; apply R6|].
    repeat split.
    + by rewrite I1, Ee.
    + intros s'. by rewrite I2, R6.
    + by rewrite I3.
    + by rewrite I4.
    + by rewrite I5.
    + by rewrite I6.
    + by rewrite I7.
    + by rewrite I8.
    + intros j. by rewrite I9, R7.
    + rewrite I10, Rt.
      rewrite (read_trace_ext _ _ w w1) by done.
      unfold w1. rewrite log_read. by rewrite <- app_assoc.
    + rewrite I11, Rt, Ed. unfold w1 at 1. rewrite listeners_read.
      rewrite (cell_exists_sizes w w1 s0 Rs).
      case_decide as Hd.
      * destruct Hd as [-> Hs]. intros [Hx|Hx]; [|set_solver].
        destruct (getTracked w) as [l|] eqn:Et; simpl in Hx; [|by left].
        unfold set_add in Hx. case_decide; [by left|].
        apply elem_of_app in Hx as [Hx|Hx]; [by left|].
        apply list_elem_of_singleton in Hx as ->. right. set_solver.
      * intros [Hx|(Ht & Hx & Hs)]; [by left|]. right. set_solver.
    + rewrite I11, Rt, Ed. unfold w1 at 1. rewrite listeners_read.
      rewrite (cell_exists_sizes w w1 s0 Rs).
      intros [Hx|(Ht & Hx & Hs)].
      * left. case_decide as Hd; [|done]. destruct Hd as [-> Hs].
        destruct (getTracked w) as [l|]; simpl; [|done].
        unfold set_add. case_decide; [done|]. set_solver.
      * apply elem_of_cons in Hx as [->|Hx]; [|by right].
        left. rewrite decide_True by done. rewrite Ht. simpl.
        unfold set_add. case_decide; set_solver.
  - by simpl in Hp.
Qed.

(** *** Tracked runs *)

Lemma getTracked_push (w : World) (l : Lid) (e : Event) :
  getTracked (record e (with_scopes (scopes w ++ [l]) w)) = Some l.
Proof. unfold getTracked; simpl. apply last_snoc. Qed.

(** A tracked run of a function that only reads. *)
Lemma withTracking_no_send {A} (p : Comp A) (l : Lid) (w : World) :
  no_send p →
  let r := withTracking l (interp p) w in
  fst r = eval p w
  ∧ (∀ s, peek (snd r) s = peek w s)
  ∧ sizes (snd r) = sizes w
  ∧ scopes (snd r) = scopes w
  ∧ throttles (snd r) = throttles w
  ∧ takers (snd r) = takers w
  ∧ stores (snd r) = stores w
  ∧ microtasks (snd r) = microtasks w
  ∧ (∀ j, compute_of (snd r) j = compute_of w j)
  ∧ log (snd r) = log w ++ EvTracked l :: read_trace (Some l) p w
  ∧ (∀ s x, x ∈ listeners (snd r) s
            ↔ x ∈ listeners w s
              ∨ (x = l ∧ s ∈ deps p w ∧ is_Some (cell_at w s))).
Proof.
  intros Hp. unfold withTracking.
  set (w1 := record (EvTracked l) (with_scopes (scopes w ++ [l]) w)).
  destruct (interp_no_send p w1 Hp)
    as (I1 & I2 & I3 & I4 & I5 & I6 & I7 & I8 & I9 & I10 & I11).
  destruct (interp p w1) as [a w2]. simpl in *.
  assert (∀ s, peek w1 s = peek w s) as Hpk by done.
  destruct (eval_deps_ext p w w1) as [Ee Ed]; [by intros; apply Hpk|].
  repeat split; try done.
  - by rewrite I1.
  - by rewrite I4, removelast_last.
  - rewrite I10. unfold w1 at 1; simpl. rewrite <- app_assoc. simpl.
    do 2 f_equal. unfold w1. rewrite getTracked_push.
    by apply read_trace_ext.
  - intros Hx. apply I11 in Hx as [Hx|(Ht & Hx & Hs)]; [by left|].
    unfold w1 in Ht. rewrite getTracked_push in Ht. injection Ht as <-.
    right. by rewrite <- Ed.
  - intros Hx. apply I11. destruct Hx as [Hx|(-> & Hx & Hs)]; [by left|].
    right. unfold w1 at 1. rewrite getTracked_push. by rewrite Ed.
Qed.

Lemma perform_spec (w : World) (l : Lid) :
  perform l w
  = match job_of w l with
    | Some j => set_scheduled l false (run_job l j w)
    | None => w
    end.
Proof. unfold perform, job_of. by destruct (throttles w !! l). Qed.

Lemma recompute_job_spec (w : World) (l : Lid) (c : nat) :
  recompute_job l c w
  = match compute_of w c with
    | Some f =>
        let r := withTracking l (run_compute f) w in
        publish (Cmp c) (fst r) (snd r)
    | None => w
    end.
Proof.
  unfold recompute_job, compute_of. destruct (computeds w !! c); simpl; [|done].
  by destruct (withTracking l (run_compute (compute c0)) w).
Qed.

(** The effect of [perform] for an effect whose function only reads. *)
Lemma perform_effect_no_send (w : World) (l : Lid) (p : Comp unit) :
  job_of w l = Some (JEffect p) → no_send p →
  let w' := perform l w in
  (∀ s, peek w' s = peek w s)
  ∧ sizes w' = sizes w
  ∧ scopes w' = scopes w
  ∧ takers w' = takers w
  ∧ stores w' = stores w
  ∧ microtasks w' = microtasks w
  ∧ (∀ j, compute_of w' j = compute_of w j)
  ∧ (∀ l', job_of w' l' = job_of w l')
  ∧ (∀ l', scheduled w' l' = if decide (l' = l) then false else scheduled w l')
  ∧ log w' = log w ++ EvTracked l :: read_trace (Some l) p w
  ∧ (∀ s x, x ∈ listeners w' s
            ↔ x ∈ listeners w s
              ∨ (x = l ∧ s ∈ deps p w ∧ is_Some (cell_at w s))).
Proof.
  intros Hj Hp. rewrite perform_spec, Hj. simpl.
  destruct (withTracking_no_send p l w Hp)
    as (I1 & I2 & I3 & I4 & I5 & I6 & I7 & I8 & I9 & I10 & I11).
  set (w2 := snd (withTracking l (interp p) w)) in *.
  repeat split; try done.
  - by rewrite set_scheduled_sizes.
  - intros l'. unfold job_of. rewrite job_set_scheduled. by rewrite I5.
  - intros l'. rewrite scheduled_set_scheduled. unfold scheduled. rewrite I5.
    assert (is_Some (throttles w !! l)) as Hs.
    { unfold job_of in Hj. destruct (throttles w !! l); [by eexists|done]. }
    repeat case_decide; naive_solver.
  - apply I11.
  - apply I11.
Qed.

(** *** Counting *)

Lemma occurrences_app `{EqDecision A} (x : A) (xs ys : list A) :
  occurrences x (xs ++ ys) = occurrences x xs + occurrences x ys.
Proof. unfold occurrences. by rewrite filter_app, length_app. Qed.

Lemma occurrences_notin `{EqDecision A} (x : A) (xs : list A) :
  x ∉ xs → occurrences x xs = 0.
Proof.
  unfold occurrences. induction xs as [|y xs IH]; intros H; [done|].
  rewrite filter_cons. case_decide; [set_solver|]. apply IH. set_solver.
Qed.

Lemma occurrences_cons `{EqDecision A} (x y : A) (xs : list A) :
  occurrences x (y :: xs)
  = (if decide (y = x) then 1 else 0) + occurrences x xs.
Proof. unfold occurrences. rewrite filter_cons. by case_decide. Qed.

(** *** The write is synchronous, the propagation is not *)

(** C7.  A write to a signal enters no tracked function and makes no read:
    the trace is the one before the write.  It changes no computed signal
    and no variable of a [takeValues] closure.  All it does beyond storing
    the value is to queue microtasks, each of them the throttled function of
    a listener of the signal; and every listener that was not yet scheduled
    is in the queue once a value-changing write returns. *)
Theorem send_defers_recomputation (w : World) (i : nat) (v : Value) :
  log (send i v w) = log w
  ∧ (∀ c, peek (send i v w) (Cmp c) = peek w (Cmp c))
  ∧ takers (send i v w) = takers w
  ∧ (∃ new, microtasks (send i v w) = microtasks w ++ new
            ∧ ∀ l, l ∈ new → l ∈ listeners w (Sig i))
  ∧ (∀ l, l ∈ listeners w (Sig i) → is_Some (throttles w !! l) →
          scheduled w l = false → strict_neq (peek w (Sig i)) v = true →
          l ∈ microtasks (send i v w)).
Proof.
  rewrite send_publish.
  destruct (publish_frame w (Sig i) v) as (_ & Ft & _ & Fl & _).
  repeat split; try done.
  - intros c. rewrite peek_publish. case_decide as H; [|done]. by destruct H.
  - apply microtasks_publish.
  - intros l. apply publish_queues.
Qed.

Lemma send_defers_recomputation_witness :
  log (send 0 (VNum 1) watch_start) = log watch_start
  ∧ 0 ∈ microtasks (send 0 (VNum 1) watch_start).
Proof.
  destruct (send_defers_recomputation watch_start 0 (VNum 1))
    as (H1 & _ & _ & _ & H5).
  split; [exact H1|]. apply H5.
  - apply list_elem_of_here.
  - by eexists.
  - reflexivity.
  - reflexivity.
Defined.

(** *** Dependencies are registered for one change *)







(** In the branch scenario, with the queue run after each write: the
    first write to [a] after the switch runs the recompute once more, the
    second runs nothing. *)
Example second_write_triggers_no_rerun :
  runs 0 (log (flush 3 (send 1 (VNum 5) branch_switched)))
  = runs 0 (log branch_switched) + 1
  ∧ log (flush 3 (send 1 (VNum 6) (flush 3 (send 1 (VNum 5) branch_switched))))
    = log (flush 3 (send 1 (VNum 5) branch_switched)).
Proof. split; by vm_compute. Qed.

(** *** Runs that write no signal *)

Lemma quiet_run_refl (o : option Lid) (w : World) : quiet_run o [] w w.
Proof.
  repeat split; try done.
  - exists []. split; [by rewrite app_nil_r|]. intros ? H. by inversion H.
  - by left.
Qed.

Lemma interp_quiet {A} (p : Comp A) (w : World) :
  no_send p → quiet_run (getTracked w) [] w (snd (interp p w)).
Proof.
  intros Hp.
  destruct (interp_no_send p w Hp)
    as (I1 & I2 & I3 & I4 & I5 & I6 & I7 & I8 & I9 & I10 & I11).
  repeat split; try done.
  - exists (read_trace (getTracked w) p w). split; [done|].
    clear. induction p as [a|s k IH|i v k IH]; simpl; intros e He.
    + by inversion He.
    + apply elem_of_app in He as [He|He]; [|by apply IH in He].
      case_decide; [|by inversion He].
      apply list_elem_of_singleton in He as ->. by eexists.
    + by apply IH in He.
  - intros s x Hx. apply I11 in Hx as [Hx|(Ht & _)]; [by left|by right].
  - intros s x Hx. apply I11. by left.
Qed.

Lemma read_quiet (s : Src) (w : World) :
  quiet_run (getTracked w) [] w (snd (read s w)).
Proof.
  replace (snd (read s w)) with (snd (interp (Read s Ret) w))
    by (simpl; by destruct (read s w)).
  apply interp_quiet. intros v. exact I.
Qed.

Lemma takeValues_compute_quiet (t : nat) (w : World) :
  quiet_run (getTracked w) [] w (snd (takeValues_compute t w)).
Proof.
  unfold takeValues_compute.
  destruct (takers w !! t) as [tk|]; [|apply quiet_run_refl].
  destruct (tk_isComplete tk); [apply quiet_run_refl|].
  pose proof (read_quiet (tk_signal tk) w) as H.
  destruct (read (tk_signal tk) w) as [nx w1]. simpl in H.
  destruct (negb (nullish nx)); exact H.
Qed.

Lemma run_compute_quiet (f : Compute) (w : World) :
  quiet_compute f → quiet_run (getTracked w) [] w (snd (run_compute f w)).
Proof.
  destruct f as [p|t]; simpl; intros H.
  - by apply interp_quiet.
  - apply takeValues_compute_quiet.
Qed.

(** A tracked run of anything that writes no signal. *)
Lemma withTracking_quiet {A} (m : M A) (l : Lid) (w : World) :
  (∀ w0, quiet_run (getTracked w0) [] w0 (snd (m w0))) →
  quiet_run (Some l) [EvTracked l] w (snd (withTracking l m w)).
Proof.
  intros Hm. unfold withTracking.
  set (w1 := record (EvTracked l) (with_scopes (scopes w ++ [l]) w)).
  specialize (Hm w1). unfold w1 at 1 in Hm. rewrite getTracked_push in Hm.
  destruct Hm as (I1 & I2 & I3 & I4 & I5 & I6 & I7 & (evs & I8 & I9) & I10 & I11).
  destruct (m w1) as [a w2]. simpl in *.
  repeat split; try done.
  - by rewrite I3, removelast_last.
  - exists evs. split; [|done]. simpl. rewrite I8. unfold w1; simpl.
    by rewrite <- app_assoc.
Qed.

(** One microtask of a throttled function whose job writes no signal. *)
Lemma perform_quiet (w : World) (l : Lid) :
  (∀ j, job_of w l = Some j → quiet_job w j) →
  let w' := perform l w in
  (∀ i, peek w' (Sig i) = peek w (Sig i))
  ∧ sizes w' = sizes w
  ∧ (∀ l', job_of w' l' = job_of w l')
  ∧ (∀ j, compute_of w' j = compute_of w j)
  ∧ (∃ evs, log w' = log w ++ evs
            ∧ ∀ e, e ∈ evs →
                   e = EvTracked l ∨ ∃ s, e = EvRead (Some l) s (peek w s))
  ∧ (∀ s x, x ∈ listeners w' s → x ∈ listeners w s ∨ x = l)
  ∧ (∃ new, microtasks w' = microtasks w ++ new
            ∧ ∀ x, x ∈ new → x = l ∨ ∃ c, x ∈ listeners w (Cmp c)).
Proof.
  intros Hq. rewrite perform_spec.
  destruct (job_of w l) as [j|] eqn:Ej; simpl.
  2:{ repeat split; try done.
      - exists []. split; [by rewrite app_nil_r|]. intros ? H. by inversion H.
      - by left.
      - exists []. split; [by rewrite app_nil_r|]. intros ? H. by inversion H. }
  specialize (Hq j eq_refl).
  assert (∃ w2 v (c : option nat),
            run_job l j w = match c with
                            | Some c => publish (Cmp c) v w2
                            | None => w2
                            end
            ∧ (quiet_run (Some l) [EvTracked l] w w2 ∨ w2 = w))
    as (w2 & v & oc & Erun & Hw2).
  { destruct j as [c|p]; simpl.
    - rewrite recompute_job_spec. simpl in Hq.
      destruct (compute_of w c) as [f|] eqn:Ef.
      + exists (snd (withTracking l (run_compute f) w)),
               (fst (withTracking l (run_compute f) w)), (Some c).
        split; [done|]. left. apply withTracking_quiet.
        intros w0. by apply run_compute_quiet.
      + exists w, VUndefined, None. split; [done|]. by right.
    - exists (snd (withTracking l (interp p) w)), VUndefined, None.
      split; [done|]. left. apply withTracking_quiet.
      intros w0. by apply interp_quiet. }
  rewrite Erun. clear Erun.
  assert ((∀ s, peek w2 s = peek w s)
          ∧ sizes w2 = sizes w
          ∧ throttles w2 = throttles w
          ∧ microtasks w2 = microtasks w
          ∧ (∀ j, compute_of w2 j = compute_of w j)
          ∧ (∃ evs, log w2 = log w ++ evs
               ∧ ∀ e, e ∈ evs →
                      e = EvTracked l ∨ ∃ s, e = EvRead (Some l) s (peek w s))
          ∧ (∀ s x, x ∈ listeners w2 s → x ∈ listeners w s ∨ x = l))
    as (Q1 & Q2 & Q3 & Q4 & Q5 & (evs & Q6 & Q7) & Q8).
  { destruct Hw2 as [(I1 & I2 & I3 & I4 & I5 & I6 & I7 & (evs & I8 & I9)
                      & I10 & I11)| ->].
    - repeat split; try done.
      + exists ([EvTracked l] ++ evs). split; [done|]. intros e He.
        apply elem_of_app in He as [He|He].
        * left. by apply list_elem_of_singleton in He.
        * right. by apply I9.
      + intros s x Hx. apply I10 in Hx as [Hx|[= ->]]; [by left|by right].
    - repeat split; try done.
      + exists []. split; [by rewrite app_nil_r|]. intros ? H. by inversion H.
      + by left. }
  set (w3 := match oc with Some c => publish (Cmp c) v w2 | None => w2 end).
  assert ((∀ i, peek w3 (Sig i) = peek w (Sig i))
          ∧ sizes w3 = sizes w
          ∧ (∀ l', job_of w3 l' = job_of w l')
          ∧ (∀ j, compute_of w3 j = compute_of w j)
          ∧ log w3 = log w2
          ∧ (∀ s x, x ∈ listeners w3 s → x ∈ listeners w2 s)
          ∧ (∃ new, microtasks w3 = microtasks w ++ new
               ∧ ∀ x, x ∈ new → ∃ c, x ∈ listeners w2 (Cmp c)))
    as (P1 & P2 & P3 & P4 & P5 & P6 & (new & P7 & P8)).
  { unfold w3. destruct oc as [c|].
    - destruct (publish_frame w2 (Cmp c) v) as (F1 & F2 & F3 & F4 & F5 & F6).
      repeat split.
      + intros i. rewrite peek_publish. case_decide as H; [by destruct H|done].
      + by rewrite publish_sizes.
      + intros l'. rewrite F6. unfold job_of. by rewrite Q3.
      + intros j'. by rewrite F5.
      + done.
      + intros s x. rewrite listeners_publish. case_decide; [|done].
        intros Hnil. by inversion Hnil.
      + destruct (microtasks_publish w2 (Cmp c) v) as (new & E & Hn).
        exists new. rewrite E, Q4. split; [done|]. intros x Hx. exists c. auto.
    - repeat split; try done.
      + intros l'. unfold job_of. by rewrite Q3.
      + exists []. split; [by rewrite app_nil_r|]. intros ? H. by inversion H. }
  clearbody w3. repeat split.
  - done.
  - by rewrite set_scheduled_sizes.
  - intros l'. unfold job_of. rewrite job_set_scheduled. apply P3.
  - done.
  - exists evs. split; [|done]. simpl. by rewrite P5.
  - intros s x Hx. apply Q8. by apply P6.
  - exists new. split; [done|]. intros x Hx.
    destruct (P8 x Hx) as (c & Hc). apply Q8 in Hc as [Hc| ->]; [|by left].
    right. by exists c.
Qed.

(** *** A throttled function is queued once *)

Lemma schedule_queued_once (w : World) (l e : Lid) :
  queued_once w e → queued_once (schedule l w) e.
Proof.
  intros [H1 H2]. unfold queued_once.
  rewrite microtasks_schedule, scheduled_schedule, occurrences_app.
  case_decide as Hd.
  - rewrite occurrences_cons. change (occurrences e []) with 0.
    destruct Hd as [Hs Hf]. case_decide as He.
    + subst. rewrite decide_True by done. rewrite (H2 Hf).
      split; [simpl; lia|done].
    + rewrite decide_False by naive_solver. split; [lia|].
      intros Hf'. rewrite (H2 Hf'). lia.
  - change (occurrences e []) with 0. split; [lia|].
    case_decide as Hd2; [done|]. intros Hf'. rewrite (H2 Hf'). lia.
Qed.

Lemma notify_queued_once (ls : list Lid) (w : World) (e : Lid) :
  queued_once w e → queued_once (notify ls w) e.
Proof.
  revert w. induction ls as [|l ls IH]; intros w H; [done|].
  change (notify (l :: ls) w) with (notify ls (schedule l w)).
  by apply IH, schedule_queued_once.
Qed.

Lemma publish_queued_once (w : World) (s : Src) (v : Value) (e : Lid) :
  queued_once w e → queued_once (publish s v w) e.
Proof.
  intros H. rewrite publish_spec. case_decide; [|done].
  rewrite transact_spec. case_decide; [|by destruct s].
  apply notify_queued_once.
  destruct (set_cell_frame w s (mkCell v (listeners w s)))
    as (_ & F2 & _ & _ & F5 & _).
  set (w1 := set_cell s (mkCell v (listeners w s)) w) in *.
  assert (queued_once w1 e) as Hq1.
  { unfold queued_once, scheduled. by rewrite F2, F5. }
  destruct (set_cell_frame w1 s (mkCell (peek w1 s) []))
    as (_ & G2 & _ & _ & G5 & _).
  unfold queued_once, scheduled. by rewrite G2, G5.
Qed.

Lemma sends_queued_once (w : World) (i : nat) (vs : list Value) (e : Lid) :
  queued_once w e → queued_once (sends i vs w) e.
Proof.
  revert w. induction vs as [|v vs IH]; intros w H; [done|].
  change (sends i (v :: vs) w) with (sends i vs (send i v w)).
  apply IH. rewrite send_publish. by apply publish_queued_once.
Qed.

(** *** One tick: writes to a signal, then the queue *)

Lemma no_send_signals_only {A} (p : Comp A) : signals_only p → no_send p.
Proof.
  induction p as [a|s k IH|i v k IH]; simpl; [done| |done].
  intros [_ H] v. apply IH, H.
Qed.

Lemma deps_signals_only {A} (p : Comp A) (w : World) (s : Src) :
  signals_only p → s ∈ deps p w → ∃ i, s = Sig i.
Proof.
  induction p as [a|s' k IH|i v k IH]; simpl; intros Hp Hs.
  - by inversion Hs.
  - destruct Hp as [Hs' Hk].
    apply elem_of_cons in Hs as [->|Hs]; [done|].
    by apply (IH (peek w s') (Hk _)).
  - done.
Qed.

Lemma read_trace_events {A} (o : option Lid) (p : Comp A) (w : World)
    (e : Event) :
  e ∈ read_trace o p w → ∃ s, e = EvRead o s (peek w s).
Proof.
  induction p as [a|s k IH|i v k IH]; simpl; intros He.
  - by inversion He.
  - apply elem_of_app in He as [He|He]; [|by apply IH in He].
    case_decide; [|by inversion He].
    apply list_elem_of_singleton in He as ->. by eexists.
  - by apply IH in He.
Qed.

Lemma runs_app (l : Lid) (xs ys : list Event) :
  runs l (xs ++ ys) = runs l xs + runs l ys.
Proof. apply occurrences_app. Qed.

Lemma peek_sends (w : World) (i : nat) (vs : list Value) :
  is_Some (signals w !! i) →
  peek (sends i vs w) (Sig i) = default (peek w (Sig i)) (last vs).
Proof.
  revert w. induction vs as [|v vs IH]; intros w Hs; [done|].
  change (sends i (v :: vs) w) with (sends i vs (send i v w)).
  assert (sizes (send i v w) = sizes w) as Hz
    by (rewrite send_publish; apply publish_sizes).
  rewrite IH.
  - rewrite send_publish, peek_publish, decide_True by done.
    destruct vs as [|v' vs]; [done|]. rewrite ?last_cons_cons.
    destruct (last (v' :: vs)) eqn:E; [done|]. by apply last_None in E.
  - apply (cell_exists_sizes w (send i v w) (Sig i) Hz). done.
Qed.

Lemma sends_frame (w : World) (i : nat) (vs : list Value) :
  log (sends i vs w) = log w
  ∧ (∀ l, job_of (sends i vs w) l = job_of w l)
  ∧ (∀ c, compute_of (sends i vs w) c = compute_of w c)
  ∧ (∀ c, listeners (sends i vs w) (Cmp c) = listeners w (Cmp c)).
Proof.
  revert w. induction vs as [|v vs IH]; intros w; [done|].
  change (sends i (v :: vs) w) with (sends i vs (send i v w)).
  destruct (IH (send i v w)) as (-> & E2 & E3 & E4).
  rewrite send_publish.
  destruct (publish_frame w (Sig i) v) as (_ & _ & _ & F4 & F5 & F6).
  repeat split; try done.
  - intros l. by rewrite E2, send_publish.
  - intros c. by rewrite E3, send_publish.
  - intros c. rewrite E4, send_publish, listeners_publish.
    case_decide as H; [by destruct H|done].
Qed.

Lemma tick_batching_inv (w0 w1 w' : World) (e : Lid) (p : Comp unit) :
  quiet_world w0 → job_of w0 e = Some (JEffect p) → signals_only p →
  batching_inv w0 w1 e w' → batching_inv w0 w1 e (tick w').
Proof.
  intros Hq He Hp (B1 & B2 & B3 & B4 & (new & B5 & B6 & B7)).
  unfold tick. destruct (microtasks w') as [|l rest] eqn:Em.
  { repeat split; try done. exists new. by rewrite Em. }
  set (w2 := with_microtasks rest w').
  destruct (decide (l = e)) as [->|Hne].
  - assert (job_of w2 e = Some (JEffect p)) as Hj by (by rewrite <- He, <- B1).
    destruct (perform_effect_no_send w2 e p Hj (no_send_signals_only p Hp))
      as (I1 & I2 & I3 & I4 & I5 & I6 & I7 & I8 & I9 & I10 & I11).
    repeat split.
    + intros l. by rewrite I8, <- B1.
    + intros c. by rewrite I7, <- B2.
    + intros j. by rewrite I1, <- B3.
    + intros c Hc. apply I11 in Hc as [Hc|(_ & Hc & _)].
      * by apply (B4 c).
      * by destruct (deps_signals_only p w2 _ Hp Hc).
    + exists (new ++ EvTracked e :: read_trace (Some e) p w2).
      rewrite I10, I6. unfold w2 at 1 3; simpl. rewrite B5.
      split; [by rewrite <- app_assoc|]. split.
      * rewrite occurrences_cons, decide_True in B6 by done.
        rewrite runs_app. unfold runs at 2.
        rewrite occurrences_cons, decide_True by done.
        rewrite (occurrences_notin (EvTracked e)); [lia|].
        intros Hr. by apply read_trace_events in Hr as (s & Hr).
      * intros o j v Hin. apply elem_of_app in Hin as [Hin|Hin].
        { by apply (B7 o). }
        apply elem_of_cons in Hin as [Hin|Hin]; [done|].
        apply read_trace_events in Hin as (s & Heq).
        injection Heq as Ho Hs Hv. subst. by rewrite <- B3.
  - assert (∀ j, job_of w2 l = Some j → quiet_job w2 j) as Hq2.
    { intros j Hj. change (job_of w2 l) with (job_of w' l) in Hj.
      rewrite B1 in Hj. apply Hq in Hj. destruct j as [c|q]; [|done].
      simpl in *. change (compute_of w2 c) with (compute_of w' c).
      by rewrite B2. }
    destruct (perform_quiet w2 l Hq2)
      as (P1 & P2 & P3 & P4 & (evs & P5 & P6) & P7 & (nw & P8 & P9)).
    repeat split.
    + intros l'. by rewrite P3, <- B1.
    + intros c. by rewrite P4, <- B2.
    + intros j. by rewrite P1, <- B3.
    + intros c Hc. apply P7 in Hc as [Hc|Hc]; [by apply (B4 c)|done].
    + exists (new ++ evs). rewrite P5, P8. unfold w2 at 1 2; simpl.
      rewrite B5. split; [by rewrite <- app_assoc|]. split.
      * rewrite occurrences_cons, decide_False in B6 by done.
        rewrite runs_app, occurrences_app.
        unfold runs at 2. rewrite (occurrences_notin (EvTracked e) evs).
        { rewrite (occurrences_notin e nw); [lia|].
          intros Hin. apply P9 in Hin as [Hin|(c & Hin)]; [done|].
          by apply (B4 c). }
        intros Hin. apply P6 in Hin as [[= Hin]|(s & Hin)]; done.
      * intros o j v Hin. apply elem_of_app in Hin as [Hin|Hin].
        { by apply (B7 o). }
        apply P6 in Hin as [Hin|(s & Heq)]; [done|].
        injection Heq as Ho Hs Hv. subst. by rewrite <- B3.
Qed.

Lemma flush_batching_inv (w0 w1 w' : World) (e : Lid) (p : Comp unit)
    (fuel : nat) :
  quiet_world w0 → job_of w0 e = Some (JEffect p) → signals_only p →
  batching_inv w0 w1 e w' → batching_inv w0 w1 e (flush fuel w').
Proof.
  intros Hq He Hp. revert w'. induction fuel as [|n IH]; intros w' H; [done|].
  simpl. apply IH. by apply (tick_batching_inv w0 w1 w' e p).
Qed.

(** C1, where the code fails: the effect [report_fn] reads the signal [s]
    and the computed signal [c] made from [s].  In the settled world the
    queue is empty and the effect comes before the recompute of [c] among
    the listeners of [s].  One write to [s] then runs the effect twice in
    one turn of the queue: first against the old value 2 of [c], then,
    queued again by the recompute, against 10. *)
Theorem batching_law_fails_through_computed :
  ¬ batching_law_at diamond_settled 1 0 [VNum 5]
  ∧ microtasks diamond_settled = []
  ∧ listeners diamond_settled (Sig 0) = [1; 0]
  ∧ log (flush 3 (send 0 (VNum 5) diamond_settled))
    = log diamond_settled
      ++ [EvTracked 1; EvRead (Some 1) (Sig 1) (VNum 1);
          EvRead (Some 1) (Sig 0) (VNum 5); EvRead (Some 1) (Cmp 0) (VNum 2);
          EvTracked 0; EvRead (Some 0) (Sig 0) (VNum 5);
          EvTracked 1; EvRead (Some 1) (Sig 1) (VNum 1);
          EvRead (Some 1) (Sig 0) (VNum 5); EvRead (Some 1) (Cmp 0) (VNum 10)]
  ∧ runs 1 (log (flush 3 (send 0 (VNum 5) diamond_settled)))
    = runs 1 (log diamond_settled) + 2.
Proof.
  split; [|by vm_compute].
  intros H. specialize (H 3). vm_compute in H. lia.
Qed.

(** Where the batching holds.  Take a world with an empty queue in which
    no tracked function writes a signal, and an effect that is not
    scheduled, reads plain signals only and listens to no computed signal.
    Whatever values are written to a signal in one go, and however far the
    queue is then run, the effect is entered at most once, and every read
    of that signal made meanwhile returns the last value written. *)
Theorem effect_batching_per_tick (w : World) (e : Lid) (p : Comp unit)
    (i : nat) (vs : list Value) (fuel : nat) :
  microtasks w = [] →
  throttles w !! e = Some (mkThrottle false (JEffect p)) →
  signals_only p →
  quiet_world w →
  (∀ c, e ∉ listeners w (Cmp c)) →
  is_Some (signals w !! i) →
  ∃ new, log (flush fuel (sends i vs w)) = log w ++ new
         ∧ runs e new ≤ 1
         ∧ ∀ o v, EvRead o (Sig i) v ∈ new
                  → v = default (peek w (Sig i)) (last vs).
Proof.
  intros Hm He Hp Hq Hc Hi.
  assert (job_of w e = Some (JEffect p)) as Hj by (unfold job_of; by rewrite He).
  assert (queued_once w e) as Hk.
  { unfold queued_once. rewrite Hm. change (occurrences e []) with 0.
    split; [lia|done]. }
  apply (sends_queued_once w i vs) in Hk as [Hk _].
  destruct (sends_frame w i vs) as (S1 & S2 & S3 & S4).
  assert (batching_inv w (sends i vs w) e (sends i vs w)) as Hinv.
  { repeat split; try done.
    - intros c. rewrite S4. apply Hc.
    - exists []. rewrite S1, app_nil_r. split; [done|].
      change (runs e []) with 0. split; [lia|].
      intros o j v Hin. by inversion Hin. }
  apply (flush_batching_inv w _ _ e p fuel Hq Hj Hp) in Hinv
    as (_ & _ & _ & _ & (new & B5 & B6 & B7)).
  exists new. split; [done|]. split; [lia|].
  intros o v Hin. rewrite (B7 o i v Hin). by apply peek_sends.
Qed.

Lemma effect_batching_per_tick_witness :
  ∃ new, log (flush 3 (sends 0 [VNum 1; VNum 2; VNum 3] watch_start))
         = log watch_start ++ new
         ∧ runs 0 new ≤ 1
         ∧ ∀ o v, EvRead o (Sig 0) v ∈ new → v = VNum 3.
Proof.
  apply (effect_batching_per_tick watch_start 0 watch_fn 0
           [VNum 1; VNum 2; VNum 3] 3).
  - reflexivity.
  - reflexivity.
  - split; [by exists 0|]. intros v. exact I.
  - intros l j Hj. destruct l as [|l]; [|destruct l; discriminate].
    injection Hj as <-. intros v. exact I.
  - intros c Hin. destruct c; by inversion Hin.
  - by eexists.
Defined.

(** In that run the effect is indeed entered again, once, and reads 3. *)
Example watch_reruns_once :
  log (flush 3 (sends 0 [VNum 1; VNum 2; VNum 3] watch_start))
  = log watch_start ++ [EvTracked 0; EvRead (Some 0) (Sig 0) (VNum 3)].
Proof. reflexivity. Qed.


(** *** The store *)

Lemma store_sends_app (st : nat) (xs ys : list Event) :
  store_sends st (xs ++ ys) = store_sends st xs + store_sends st ys.
Proof. unfold store_sends. by rewrite List.filter_app, length_app. Qed.

Lemma console_debug_frame (b : bool) (label : string) (v : Value) (w : World) :
  (∀ s, peek (console_debug b label v w) s = peek w s)
  ∧ stores (console_debug b label v w) = stores w
  ∧ sizes (console_debug b label v w) = sizes w
  ∧ ∃ evs, log (console_debug b label v w) = log w ++ evs
           ∧ ∀ st, store_sends st evs = 0.
Proof.
  destruct b; simpl; repeat split.
  - by exists [EvDebug label v].
  - exists []. by rewrite app_nil_r.
Qed.

(** What [send] of a store does, step by step. *)
Lemma store_send_spec (w : World) (st : nat) (s : Store) (msg : Value) :
  stores w !! st = Some s →
  let t := st_update s (peek w (Sig (st_signal s))) msg in
  (is_Some (signals w !! st_signal s) →
   peek (store_send st msg w) (Sig (st_signal s)) = t_state t)
  ∧ stores (store_send st msg w) !! st
    = Some (mkStore (st_signal s) (st_update s) (st_debug s)
              (st_pending s ++ t_effects t))
  ∧ ∃ evs, log (store_send st msg w) = log w ++ EvStoreSend st msg :: evs
           ∧ ∀ st', store_sends st' evs = 0.
Proof.
  intros Hs. unfold store_send. rewrite Hs.
  set (w0 := record (EvStoreSend st msg) w).
  pose proof (read_value w0 (Sig (st_signal s))) as Rv.
  destruct (read_frame w0 (Sig (st_signal s))) as (_ & _ & _ & R4 & _ & R6 & _).
  pose proof (read_sizes w0 (Sig (st_signal s))) as Rz.
  pose proof (log_read w0 (Sig (st_signal s))) as Rl.
  destruct (read (Sig (st_signal s)) w0) as [current w1]. simpl in *.
  change (peek w0 (Sig (st_signal s))) with (peek w (Sig (st_signal s))) in *.
  subst current. set (t := st_update s (peek w (Sig (st_signal s))) msg).
  set (d := st_debug s).
  destruct (console_debug_frame d "useStore.msg" msg w1)
    as (A1 & A2 & A3 & (e1 & A4 & A5)).
  set (w2 := console_debug d "useStore.msg" msg w1) in *.
  destruct (console_debug_frame d "useStore.state" (t_state t) w2)
    as (B1 & B2 & B3 & (e2 & B4 & B5)).
  set (w3 := console_debug d "useStore.state" (t_state t) w2) in *.
  destruct (console_debug_frame d "useStore.effects"
              (effects_length (t_effects t)) w3)
    as (C1 & C2 & C3 & (e3 & C4 & C5)).
  set (w4 := console_debug d "useStore.effects" _ w3) in *.
  rewrite send_publish.
  destruct (publish_frame w4 (Sig (st_signal s)) (t_state t))
    as (_ & _ & P3 & P4 & _).
  set (w5 := publish (Sig (st_signal s)) (t_state t) w4) in *.
  assert (stores w5 !! st = Some s) as Hs5.
  { by rewrite P3, C2, B2, A2, R4. }
  unfold runEffects. rewrite Hs5.
  repeat split.
  - intros Hi.
    change (peek (set_pending st ?x w5) ?y) with (peek w5 y).
    unfold w5. rewrite peek_publish, decide_True; [done|]. split; [done|].
    apply (cell_exists_sizes w1 w4 (Sig (st_signal s))).
    { by rewrite C3, B3, A3. }
    by apply (cell_exists_sizes w0 w1 (Sig (st_signal s))).
  - simpl. rewrite list_lookup_alter_eq, Hs5. done.
  - exists ((if decide (is_Some (cell_at w0 (Sig (st_signal s))))
             then [EvRead (getTracked w0) (Sig (st_signal s))
                     (peek w (Sig (st_signal s)))] else [])
            ++ e1 ++ e2 ++ e3).
    split.
    + simpl. rewrite P4, C4, B4, A4, Rl. unfold w0 at 1; simpl.
      by rewrite <- !app_assoc.
    + intros st'. rewrite !store_sends_app, A5, B5, C5.
      match goal with |- context [decide ?P] => destruct (decide P) end;
        reflexivity.
Qed.

Lemma store_sends_store_send (w : World) (st : nat) (msg : Value) :
  is_Some (stores w !! st) →
  store_sends st (log (store_send st msg w)) = S (store_sends st (log w)).
Proof.
  intros [s Hs].
  destruct (store_send_spec w st s msg Hs) as (_ & _ & (evs & -> & He)).
  rewrite store_sends_app.
  change (EvStoreSend st msg :: evs) with ([EvStoreSend st msg] ++ evs).
  rewrite store_sends_app, He. unfold store_sends at 2; simpl.
  rewrite bool_decide_eq_true_2 by done. simpl. lia.
Qed.

(** What happens when the promise of a suspended [runEffect] settles. *)
Lemma settle_spec (w : World) (st k : nat) (o : Outcome) :
  pending w st !! k = Some o →
  settle st k w
  = runEffect_resume st o (set_pending st (delete k (pending w st)) w).
Proof.
  unfold pending, settle. destruct (stores w !! st) as [s|]; [|done].
  by intros ->.
Qed.

Lemma pending_is_Some (w : World) (st k : nat) (o : Outcome) :
  pending w st !! k = Some o → is_Some (stores w !! st).
Proof.
  unfold pending. destruct (stores w !! st); [by eexists|]. by destruct k.
Qed.

(** *** The invariant of reachable worlds *)

Import TrackedReach.

Lemma deps_closed {A} (p : Comp A) (ns nc : nat) (w : World) (s : Src) :
  closed ns nc p → s ∈ deps p w → src_below ns nc s.
Proof.
  induction p as [a|s' k IH|i v k IH]; simpl; intros Hp Hs.
  - by inversion Hs.
  - destruct Hp as [Hs' Hk].
    apply elem_of_cons in Hs as [->|Hs]; [done|].
    by apply (IH (peek w s') (Hk _)).
  - destruct Hp as [_ Hk]. by apply IH.
Qed.

Lemma closed_mono {A} (p : Comp A) (ns nc ns' nc' : nat) :
  ns ≤ ns' → nc ≤ nc' → closed ns nc p → closed ns' nc' p.
Proof.
  intros Hs Hc. induction p as [a|s k IH|i v k IH]; simpl; [done| |].
  - intros [H1 H2]. split; [destruct s; simpl in *; lia|].
    intros v. apply IH, H2.
  - intros [H1 H2]. split; [lia|]. by apply IH.
Qed.

Lemma src_below_exists (w : World) (s : Src) (nc : nat) :
  src_below (length (signals w)) nc s → nc ≤ length (computeds w) →
  is_Some (cell_at w s).
Proof. intros H Hn. apply cell_exists. destruct s; simpl in *; lia. Qed.

Lemma src_below_not_self (ns c : nat) (s : Src) :
  src_below ns c s → s ≠ Cmp c.
Proof. intros H ->. simpl in H. lia. Qed.

(** What is expected depends on the values read and on the variables of
    the closure only. *)
Lemma expected_frame (w w' : World) (f : Compute) (v : Value) (ds : list Src) :
  expected w f = Some (v, ds) →
  (∀ s, s ∈ ds → peek w' s = peek w s) →
  (∀ t, f = CTakeValues t → takers w' !! t = takers w !! t) →
  expected w' f = Some (v, ds).
Proof.
  destruct f as [p|t]; simpl.
  - intros [= <- <-] Hp _.
    destruct (eval_deps_ext p w w' Hp) as [-> ->]. done.
  - intros H Hp Ht. rewrite (Ht t eq_refl).
    destruct (takers w !! t) as [tk|]; [|done].
    destruct (tk_isComplete tk); [done|].
    injection H as <- <-. rewrite Hp; [done|]. apply list_elem_of_here.
Qed.

Lemma expected_is_Some (w w' : World) (f : Compute) :
  (∀ t, f = CTakeValues t → takers w' !! t = takers w !! t) →
  is_Some (expected w' f) → is_Some (expected w f).
Proof.
  destruct f as [p|t]; simpl; intros Ht; [by eexists|].
  rewrite (Ht t eq_refl). destruct (takers w !! t) as [tk|]; [|done].
  destruct (tk_isComplete tk); [done|]. by eexists.
Qed.

Lemma sound_weaken (x : option nat) (w : World) :
  sound w → sound_except x w.
Proof.
  intros (H1 & H2 & H3 & H4 & H5).
  split; [done|]. split; [done|]. split; [|split].
  - intros c t tk _. by apply H3.
  - intros l c Hj. destruct (H4 l c Hj) as [[Hc|Hc] Hu]; [|done].
    split; [by left|done].
  - intros l c f v ds _. by apply H5.
Qed.

(** A taker that belongs to a computed signal other than [x] is left as
    it was by a step that evolves the world. *)
Lemma evolves_taker (x : option nat) (w w' : World) (c t : nat) :
  takers_owned w → evolves x w w' → x ≠ Some c →
  compute_of w c = Some (CTakeValues t) →
  takers w' !! t = takers w !! t.
Proof.
  intros Ho (_ & _ & _ & _ & _ & _ & _ & Et) Hx Hc.
  destruct (Ho c t Hc) as [(tk & Htk & _) _].
  destruct (Et t tk Htk) as (tk' & -> & _ & [->|Hown]); [done|].
  by destruct Hx; apply Hown.
Qed.

Lemma sound_evolves (x : option nat) (w w' : World) :
  sound_except x w → evolves x w w' → sound_except x w'.
Proof.
  intros (H1 & H2 & H3 & H4 & H5) He.
  pose proof He as (Ez & Ep & Ec & Ej & Es & El & Etl & Et).
  assert (length (signals w') = length (signals w)
          ∧ length (computeds w') = length (computeds w)) as [Ens Enc].
  { unfold sizes in Ez. by injection Ez as -> -> _. }
  split; [|split; [|split; [|split]]].
  - intros c p Hc. rewrite Ens. apply (H1 c). by rewrite <- Ec.
  - intros c t Hc. rewrite Ec in Hc.
    destruct (H2 c t Hc) as [(tk & Htk & Hb) Hu]. split.
    + destruct (Et t tk Htk) as (tk' & Htk' & Hsg & _).
      exists tk'. split; [done|]. by rewrite Ens, Hsg.
    + intros c' Hc'. rewrite Ec in Hc'. by apply Hu.
  - intros c t tk Hx Hc Htk. rewrite Ec in Hc.
    rewrite (evolves_taker x w w' c t H2 He Hx Hc) in Htk.
    rewrite Ep. by apply (H3 c t tk).
  - intros l c Hj. rewrite Ej in Hj. rewrite Enc.
    destruct (H4 l c Hj) as [Hb Hu]. split; [done|].
    intros l' Hl'. rewrite Ej in Hl'. by apply Hu.
  - intros l c f v ds Hx Hj Hc Hs He'.
    rewrite Ej in Hj. rewrite Ec in Hc. apply Es in Hs.
    assert (expected w f = Some (v, ds)) as Hexp.
    { apply (expected_frame w' w f v ds He'); [by intros; rewrite Ep|].
      intros t ->. symmetry. by apply (evolves_taker x w w' c t). }
    destruct (H5 l c f v ds Hx Hj Hc Hs Hexp) as [Hv Hl].
    split; [by rewrite Ep|]. intros s Hin. by apply El, Hl.
Qed.

Lemma job_of_is_Some (w : World) (l : Lid) (j : Job) :
  job_of w l = Some j → is_Some (throttles w !! l).
Proof. unfold job_of. destruct (throttles w !! l); [by eexists|done]. Qed.

(** Storing a value keeps the invariant: a computed signal that stays
    unscheduled was not a listener, so it did not read what changed. *)
Lemma sound_publish (x : option nat) (s : Src) (v : Value) (w : World) :
  sound_except x w → (∀ c, s = Cmp c → x = Some c) →
  sound_except x (publish s v w).
Proof.
  intros (H1 & H2 & H3 & H4 & H5) Hx.
  destruct (publish_frame w s v) as (_ & Ft & _ & _ & Fc & Fj).
  pose proof (publish_sizes w s v) as Fz.
  assert (length (signals (publish s v w)) = length (signals w)
          ∧ length (computeds (publish s v w)) = length (computeds w))
    as [Ens Enc].
  { unfold sizes in Fz. by injection Fz as -> -> _. }
  assert (∀ c, x ≠ Some c → peek (publish s v w) (Cmp c) = peek w (Cmp c))
    as Hpk.
  { intros c Hc. rewrite peek_publish. case_decide as Hd; [|done].
    destruct Hd as [<- _]. by destruct Hc; apply Hx. }
  split; [|split; [|split; [|split]]].
  - intros c p Hc. rewrite Ens. apply (H1 c). by rewrite <- Fc.
  - intros c t Hc. rewrite Fc in Hc. rewrite Ft, Ens.
    destruct (H2 c t Hc) as [Hb Hu]. split; [done|].
    intros c' Hc'. rewrite Fc in Hc'. by apply Hu.
  - intros c t tk Hc Hf Htk. rewrite Fc in Hf. rewrite Ft in Htk.
    rewrite (Hpk c Hc). by apply (H3 c t tk).
  - intros l c Hj. rewrite Fj in Hj. rewrite Enc.
    destruct (H4 l c Hj) as [Hb Hu]. split; [done|].
    intros l' Hl'. rewrite Fj in Hl'. by apply Hu.
  - intros l c f v' ds Hc Hj Hf Hs He.
    rewrite Fj in Hj. rewrite Fc in Hf.
    destruct (decide (is_Some (cell_at w s) ∧ strict_neq (peek w s) v = true))
      as [Hch|Hch].
    2:{ rewrite publish_spec, decide_False in Hs, He |- * by done.
        by apply (H5 l c f v' ds). }
    rewrite scheduled_publish in Hs. case_decide as Hd; [done|].
    assert (l ∉ listeners w s) as Hnl.
    { intros Hin. apply Hd. split; [done|]. split; [|by destruct Hch].
      by apply (job_of_is_Some w l (JRecompute c)). }
    assert (∀ t, f = CTakeValues t
                 → takers (publish s v w) !! t = takers w !! t) as Htk
      by (intros; by rewrite Ft).
    destruct (expected_is_Some w (publish s v w) f Htk) as [[v0 ds0] He0];
      [by eexists|].
    destruct (H5 l c f v0 ds0 Hc Hj Hf Hs He0) as [Hv Hl].
    assert (s ∉ ds0) as Hns by (intros Hin; by apply Hnl, Hl).
    assert (expected (publish s v w) f = Some (v0, ds0)) as He1.
    { apply (expected_frame w _ f v0 ds0 He0); [|done].
      intros s' Hs'. rewrite peek_publish. case_decide as Hd'; [|done].
      destruct Hd' as [-> _]. done. }
    rewrite He1 in He. injection He as <- <-.
    split; [by rewrite Hpk|].
    intros s' Hs'. rewrite listeners_publish. case_decide as Hd'.
    + destruct Hd' as [-> _]. done.
    + by apply Hl.
Qed.

(** Clearing or raising the flag of a throttled function is harmless when
    nothing is asked of its computed signal, if it has one. *)
Lemma sound_set_scheduled (x : option nat) (l : Lid) (b : bool) (w : World) :
  sound_except x w →
  (∀ c, job_of w l = Some (JRecompute c) → x = Some c) →
  sound_except x (set_scheduled l b w).
Proof.
  intros (H1 & H2 & H3 & H4 & H5) Hx.
  assert (∀ l', job_of (set_scheduled l b w) l' = job_of w l') as Fj
    by (intros; apply job_set_scheduled).
  split; [done|]. split; [done|]. split; [done|]. split.
  - intros l0 c Hj. rewrite Fj in Hj.
    destruct (H4 l0 c Hj) as [Hb Hu]. split; [done|].
    intros l' Hl'. rewrite Fj in Hl'. by apply Hu.
  - intros l0 c f v ds Hc Hj Hf Hs He. rewrite Fj in Hj.
    rewrite scheduled_set_scheduled in Hs. case_decide as Hd.
    + destruct Hd as [<- _]. by destruct Hc; apply Hx.
    + change (compute_of w c = Some f) in Hf.
      change (peek w (Cmp c) = v ∧ ∀ s, s ∈ ds → l0 ∈ listeners w s).
      apply (H5 l0 c f v ds); try done.
      by apply (expected_frame (set_scheduled l b w) w f v ds He).
Qed.

(** Once what is asked of [c] holds again, the whole invariant holds. *)
Lemma sound_restore (c : nat) (w : World) :
  sound_except (Some c) w → c < length (computeds w) →
  (∀ t tk, compute_of w c = Some (CTakeValues t) → takers w !! t = Some tk →
           peek w (Cmp c) = tk_state tk
           ∧ (tk_isComplete tk = false → nullish (tk_state tk) = false)) →
  (∀ l f v ds, job_of w l = Some (JRecompute c) → compute_of w c = Some f →
               scheduled w l = false → expected w f = Some (v, ds) →
               peek w (Cmp c) = v ∧ ∀ s, s ∈ ds → l ∈ listeners w s) →
  sound w.
Proof.
  intros (H1 & H2 & H3 & H4 & H5) Hc Ht Hco.
  split; [done|]. split; [done|]. split; [|split].
  - intros c' t tk _ Hf Htk. destruct (decide (c' = c)) as [->|Hne].
    + by apply (Ht t tk).
    + apply (H3 c' t tk); [congruence|done|done].
  - intros l c' Hj. destruct (H4 l c' Hj) as [[Hb|[= ->]] Hu].
    + split; [by left|done].
    + split; [by left|done].
  - intros l c' f v ds _ Hj Hf Hs He. destruct (decide (c' = c)) as [->|Hne].
    + by apply (Hco l f v ds).
    + apply (H5 l c' f v ds); [congruence|done..].
Qed.

Lemma evolves_refl (x : option nat) (w : World) : evolves x w w.
Proof.
  repeat split; try done. intros t tk Htk. exists tk. repeat split; try done.
  by left.
Qed.

Lemma quiet_run_evolves (x o : option nat) (pre : list Event) (w w' : World) :
  quiet_run o pre w w' → takers w' = takers w → evolves x w w'.
Proof.
  intros (I1 & I2 & I3 & I4 & I5 & I6 & I7 & I8 & I9 & I10) Ht.
  repeat split; try done.
  - intros l. unfold job_of. by rewrite I4.
  - intros l. unfold scheduled. by rewrite I4.
  - by rewrite Ht.
  - intros t tk Htk. exists tk. rewrite Ht. repeat split; try done. by left.
Qed.

Lemma interp_takers {A} (p : Comp A) (w : World) :
  takers (snd (interp p w)) = takers w.
Proof.
  revert w. induction p as [a|s k IH|i v k IH]; intros w; [done| |].
  - rewrite interp_read_unfold, IH.
    by destruct (read_frame w s) as (_ & _ & -> & _).
  - simpl. rewrite IH, send_publish.
    by destruct (publish_frame w (Sig i) v) as (_ & -> & _).
Qed.

(** Any function of the caller, whatever it reads and writes, keeps the
    invariant. *)
Lemma interp_sound {A} (p : Comp A) (w : World) :
  sound w → sound (snd (interp p w)).
Proof.
  revert w. induction p as [a|s k IH|i v k IH]; intros w Hw; [done| |].
  - rewrite interp_read_unfold. apply IH.
    apply (sound_evolves None w); [done|].
    apply (quiet_run_evolves None (getTracked w) [] w); [apply read_quiet|].
    by destruct (read_frame w s) as (_ & _ & -> & _).
  - simpl. apply IH. rewrite send_publish.
    by apply sound_publish.
Qed.

(** The closure of [takeValues], run once. *)
Lemma takeValues_compute_spec (t : nat) (w : World) (tk : Taker) :
  takers w !! t = Some tk →
  let r := takeValues_compute t w in
  let nx := peek w (tk_signal tk) in
  let tk' := if tk_isComplete tk then tk
             else mkTaker (tk_signal tk)
                    (if nullish nx then tk_state tk else nx) (nullish nx) in
  fst r = tk_state tk'
  ∧ takers (snd r) = <[t := tk']> (takers w)
  ∧ quiet_run (getTracked w) [] w (snd r)
  ∧ (∀ x, tk_isComplete tk = false → getTracked w = Some x →
          is_Some (cell_at w (tk_signal tk)) →
          x ∈ listeners (snd r) (tk_signal tk)).
Proof.
  intros Htk. pose proof (takeValues_compute_quiet t w) as Hq. revert Hq.
  unfold takeValues_compute. rewrite Htk.
  destruct (tk_isComplete tk) eqn:Ec; simpl.
  { intros Hq. split; [done|]. split; [by rewrite list_insert_id|].
    split; [done|]. intros x Hx. discriminate. }
  pose proof (read_value w (tk_signal tk)) as Rv.
  pose proof (listeners_read w (tk_signal tk) (tk_signal tk)) as Rl.
  destruct (read_frame w (tk_signal tk)) as (_ & _ & Rt & _).
  destruct (read (tk_signal tk) w) as [nx w1]. simpl in *. subst nx.
  assert (∀ x, getTracked w = Some x → is_Some (cell_at w (tk_signal tk)) →
               x ∈ listeners w1 (tk_signal tk)) as Hreg.
  { intros x Hx Hs. rewrite Rl, decide_True by done. rewrite Hx. simpl.
    apply elem_of_set_add. by left. }
  destruct (nullish (peek w (tk_signal tk))) eqn:En; simpl; intros Hq.
  - split; [done|]. split; [by rewrite Rt|]. split; [done|].
    intros x _. apply Hreg.
  - split; [done|]. split; [by rewrite Rt|]. split; [done|].
    intros x _. apply Hreg.
Qed.

Lemma evolves_same (x : option nat) (w w' : World) :
  signals w' = signals w → computeds w' = computeds w →
  throttles w' = throttles w → takers w' = takers w → evolves x w w'.
Proof.
  intros E1 E2 E3 E4.
  assert (∀ s, cell_at w' s = cell_at w s) as Ec.
  { intros [i|i]; simpl; by rewrite ?E1, ?E2. }
  repeat split.
  - unfold sizes. by rewrite E1, E2, E3.
  - intros s. unfold peek. by rewrite Ec.
  - intros j. unfold compute_of. by rewrite E2.
  - intros l. unfold job_of. by rewrite E3.
  - intros l. unfold scheduled. by rewrite E3.
  - intros s y. unfold listeners. by rewrite Ec.
  - by rewrite E4.
  - intros t tk Htk. exists tk. rewrite E4. repeat split; try done. by left.
Qed.

(** The first evaluation and every recompute of a computed signal: a
    tracked run of its function.  [c] is the computed signal, [l] its
    throttled function.  The last part says what will be expected of [c]
    in any later world that agrees with this one on everything but [c]. *)
Lemma tracked_compute_post (w : World) (l c : nat) (f : Compute) :
  (∀ p, f = CUser p → no_send p ∧ closed (length (signals w)) c p) →
  (∀ t, f = CTakeValues t →
        ∃ tk, takers w !! t = Some tk
              ∧ src_below (length (signals w)) c (tk_signal tk)) →
  c ≤ length (computeds w) →
  let r := withTracking l (run_compute f) w in
  quiet_run (Some l) [EvTracked l] w (snd r)
  ∧ length (takers (snd r)) = length (takers w)
  ∧ (∀ t tk, takers w !! t = Some tk →
             ∃ tk', takers (snd r) !! t = Some tk'
                    ∧ tk_signal tk' = tk_signal tk
                    ∧ (tk' = tk ∨ f = CTakeValues t))
  ∧ (∀ t tk, f = CTakeValues t → takers (snd r) !! t = Some tk →
             fst r = tk_state tk
             ∧ (tk_isComplete tk = false → nullish (tk_state tk) = false))
  ∧ (∀ w', (∀ s, s ≠ Cmp c → peek w' s = peek w s) →
           takers w' = takers (snd r) →
           (∀ s y, s ≠ Cmp c → y ∈ listeners (snd r) s → y ∈ listeners w' s) →
           ∀ v ds, expected w' f = Some (v, ds) →
                   v = fst r ∧ ∀ s, s ∈ ds → l ∈ listeners w' s).
Proof.
  intros Hu Ht Hc. destruct f as [p|t].
  - destruct (Hu p eq_refl) as [Hns Hcl]. simpl.
    destruct (withTracking_no_send p l w Hns)
      as (I1 & I2 & I3 & I4 & I5 & I6 & I7 & I8 & I9 & I10 & I11).
    pose proof (withTracking_quiet (interp p) l w
                  (λ w0, interp_quiet p w0 Hns)) as Hq.
    set (r := withTracking l (interp p) w) in *.
    split; [done|]. split; [by rewrite I6|]. split; [|split].
    + intros t tk Htk. exists tk. rewrite I6. repeat split; try done. by left.
    + intros t tk Hf. discriminate.
    + intros w' Hp Htk Hl v ds [= <- <-].
      assert (∀ s, s ∈ deps p w → s ≠ Cmp c) as Hnc.
      { intros s Hs. apply (src_below_not_self (length (signals w))).
        by apply (deps_closed p _ _ w). }
      destruct (eval_deps_ext p w w') as [-> ->].
      { intros s Hs. by apply Hp, Hnc. }
      split; [done|]. intros s Hs. apply Hl; [by apply Hnc|].
      apply I11. right. split; [done|]. split; [done|].
      apply (src_below_exists w s c); [|done].
      by apply (deps_closed p _ _ w).
  - destruct (Ht t eq_refl) as (tk & Htk & Hb). simpl.
    unfold withTracking.
    set (w1 := record (EvTracked l) (with_scopes (scopes w ++ [l]) w)).
    assert (takers w1 !! t = Some tk) as Htk1 by done.
    destruct (takeValues_compute_spec t w1 tk Htk1) as (S1 & S2 & S3 & S4).
    pose proof (withTracking_quiet (takeValues_compute t) l w
                  (takeValues_compute_quiet t)) as Hq.
    unfold withTracking in Hq. fold w1 in Hq.
    destruct (takeValues_compute t w1) as [v w2]. simpl in *.
    change (peek w1 (tk_signal tk)) with (peek w (tk_signal tk)) in *.
    change (takers w1) with (takers w) in S2.
    set (nx := peek w (tk_signal tk)) in *.
    set (tk' := if tk_isComplete tk then tk
                else mkTaker (tk_signal tk)
                       (if nullish nx then tk_state tk else nx) (nullish nx))
      in *.
    assert (tk_signal tk' = tk_signal tk) as Hsg.
    { unfold tk'. by destruct (tk_isComplete tk). }
    assert (t < length (takers w)) as Hlt by (by apply lookup_lt_Some in Htk).
    split; [done|]. split; [by rewrite S2, length_insert|].
    split; [|split].
    + intros t0 tk0 Htk0. rewrite S2. destruct (decide (t0 = t)) as [->|Hne].
      * exists tk'. rewrite list_lookup_insert_eq by done.
        rewrite Htk in Htk0. injection Htk0 as <-. repeat split; try done.
        by right.
      * exists tk0. rewrite list_lookup_insert_ne by done.
        repeat split; try done. by left.
    + intros t0 tk0 [= <-]. rewrite S2, list_lookup_insert_eq by done.
      intros [= <-]. split; [done|]. unfold tk'.
      destruct (tk_isComplete tk) eqn:Ec; [by rewrite Ec|]. simpl.
      by destruct (nullish nx) eqn:En.
    + intros w' Hp Htk' Hl v0 ds. rewrite Htk', S2.
      rewrite list_lookup_insert_eq by done. rewrite Hsg. unfold tk'.
      destruct (tk_isComplete tk) eqn:Ec; [by rewrite Ec|]. simpl.
      destruct (nullish nx) eqn:En; [done|]. intros [= <- <-].
      pose proof (src_below_not_self _ _ _ Hb) as Hne.
      split.
      * by rewrite S1, Hp.
      * intros s Hs. apply list_elem_of_singleton in Hs as ->.
        apply Hl; [done|]. apply S4; [done|apply getTracked_push|].
        by apply (src_below_exists w _ c).
Qed.

Lemma interp_jobs {A} (p : Comp A) (w : World) (l : Lid) :
  job_of (snd (interp p w)) l = job_of w l.
Proof.
  revert w. induction p as [a|s k IH|i v k IH]; intros w; [done| |].
  - rewrite interp_read_unfold, IH. unfold job_of.
    by destruct (read_frame w s) as (_ & -> & _).
  - simpl. rewrite IH, send_publish.
    by destruct (publish_frame w (Sig i) v) as (_ & _ & _ & _ & _ & ->).
Qed.

Lemma withTracking_interp_sound {A} (p : Comp A) (l : Lid) (w : World) :
  sound w →
  sound (snd (withTracking l (interp p) w))
  ∧ ∀ l', job_of (snd (withTracking l (interp p) w)) l' = job_of w l'.
Proof.
  intros Hw. unfold withTracking.
  set (w1 := record (EvTracked l) (with_scopes (scopes w ++ [l]) w)).
  assert (sound w1) as H1.
  { apply (sound_evolves None w); [done|]. by apply evolves_same. }
  pose proof (interp_sound p w1 H1) as H2.
  pose proof (interp_jobs p w1) as Hj.
  destruct (interp p w1) as [a w2]. simpl in *. split.
  - apply (sound_evolves None w2); [done|]. by apply evolves_same.
  - intros l'. apply Hj.
Qed.

Lemma compute_of_is_Some (w : World) (c : nat) :
  c < length (computeds w) → is_Some (compute_of w c).
Proof.
  intros H. unfold compute_of. apply lookup_lt_is_Some_2 in H as [x ->].
  by eexists.
Qed.

(** One microtask keeps the invariant. *)
Lemma perform_sound (w : World) (l : Lid) : sound w → sound (perform l w).
Proof.
  intros Hw. rewrite perform_spec.
  destruct (job_of w l) as [[c|q]|] eqn:Ej; [| |done].
  2:{ simpl. destruct (withTracking_interp_sound q l w Hw) as [H2 Hj].
      apply sound_set_scheduled; [done|].
      intros c Hc. rewrite Hj, Ej in Hc. discriminate. }
  simpl. rewrite recompute_job_spec.
  pose proof Hw as (H1 & H2 & H3 & H4 & H5).
  destruct (H4 l c Ej) as [[Hlt|Hlt] Huniq]; [|done].
  destruct (compute_of_is_Some w c Hlt) as [f Ef]. rewrite Ef. simpl.
  destruct (tracked_compute_post w l c f) as (Q & T1 & T2 & Ta & Post).
  { intros p ->. by apply H1. }
  { intros t ->. by apply (H2 c t Ef). }
  { lia. }
  set (r := withTracking l (run_compute f) w) in *.
  set (w2 := snd r) in *. set (v := fst r) in *.
  pose proof Q as (Q1 & Q2 & Q3 & Q4 & Q5 & Q6 & Q7 & Q8 & Q9 & Q10).
  assert (evolves (Some c) w w2) as Hev.
  { repeat split; try done.
    - intros l'. unfold job_of. by rewrite Q4.
    - intros l'. unfold scheduled. by rewrite Q4.
    - intros t tk Htk. destruct (T2 t tk Htk) as (tk' & E1 & E2 & E3).
      exists tk'. repeat split; try done. destruct E3 as [->| ->]; [by left|].
      right. intros c' Hc'. f_equal. symmetry.
      by apply (proj2 (H2 c t Ef)). }
  pose proof (sound_evolves (Some c) w w2 (sound_weaken _ w Hw) Hev) as S2.
  assert (sound_except (Some c) (publish (Cmp c) v w2)) as S3.
  { apply sound_publish; [done|]. by intros c' [= ->]. }
  destruct (publish_frame w2 (Cmp c) v) as (_ & Ft & _ & _ & Fc & Fj).
  pose proof (publish_sizes w2 (Cmp c) v) as Fz.
  set (w3 := publish (Cmp c) v w2) in *.
  assert (∀ l', job_of w3 l' = job_of w l') as Hj3.
  { intros l'. rewrite Fj. unfold job_of. by rewrite Q4. }
  assert (sound_except (Some c) (set_scheduled l false w3)) as S4.
  { apply sound_set_scheduled; [done|].
    intros c' Hc'. rewrite Hj3, Ej in Hc'. by injection Hc' as ->. }
  assert (c < length (computeds w3)) as Hlt3.
  { unfold sizes in Fz, Q2. injection Fz as _ -> _. by injection Q2 as _ -> _. }
  assert (is_Some (cell_at w2 (Cmp c))) as Hex.
  { apply cell_exists. unfold sizes in Q2. by injection Q2 as _ -> _. }
  assert (peek w3 (Cmp c) = v) as Hpv.
  { unfold w3. by rewrite peek_publish, decide_True. }
  apply (sound_restore c); [done|done| |].
  - intros t tk Hf Htk.
    change (compute_of w3 c = Some (CTakeValues t)) in Hf.
    change (takers w3 !! t = Some tk) in Htk.
    change (peek w3 (Cmp c) = tk_state tk
            ∧ (tk_isComplete tk = false → nullish (tk_state tk) = false)).
    rewrite Fc, Q7, Ef in Hf. injection Hf as ->. rewrite Ft in Htk.
    rewrite Hpv. by apply (Ta t tk).
  - intros l' f' v' ds Hj' Hf' _ He.
    change (compute_of w3 c = Some f') in Hf'.
    unfold job_of in Hj'. rewrite job_set_scheduled in Hj'.
    fold (job_of w3 l') in Hj'.
    change (peek w3 (Cmp c) = v'
            ∧ ∀ s, s ∈ ds → l' ∈ listeners w3 s).
    rewrite Hj3 in Hj'. apply Huniq in Hj' as ->.
    rewrite Fc, Q7, Ef in Hf'. injection Hf' as <-.
    destruct (Post (set_scheduled l false w3)) with (v := v') (ds := ds)
      as [-> Hreg]; try done.
    + intros s Hs. change (peek w3 s = peek w s). unfold w3.
      rewrite peek_publish, decide_False by (by intros [? _]). apply Q1.
    + intros s y Hs Hy. change (y ∈ listeners w3 s). unfold w3.
      rewrite listeners_publish, decide_False by (by intros [? _]). done.
Qed.

Lemma tick_sound (w : World) : sound w → sound (tick w).
Proof.
  intros Hw. unfold tick. destruct (microtasks w) as [|l rest]; [done|].
  apply perform_sound. apply (sound_evolves None w); [done|].
  by apply evolves_same.
Qed.

Lemma send_sound (w : World) (i : nat) (v : Value) :
  sound w → sound (send i v w).
Proof. intros Hw. rewrite send_publish. by apply sound_publish. Qed.

(** *** Making signals, effects and computed signals *)

(** What is expected of a computed signal is read from what existed when
    it was made. *)
Lemma expected_below (w w' : World) (c : nat) (f : Compute) (v : Value)
    (ds : list Src) :
  user_closed w → takers_owned w → compute_of w c = Some f →
  (∀ t tk, f = CTakeValues t → takers w' !! t = Some tk →
           takers w !! t = Some tk) →
  expected w' f = Some (v, ds) →
  ∀ s, s ∈ ds → src_below (length (signals w)) c s.
Proof.
  intros H1 H2 Hf Ht He s Hs. destruct f as [p|t]; simpl in He.
  - injection He as <- <-. destruct (H1 c p Hf) as [_ Hcl].
    by apply (deps_closed p _ _ w').
  - destruct (takers w' !! t) as [tk|] eqn:Etk; [|done].
    destruct (tk_isComplete tk); [done|]. injection He as <- <-.
    apply list_elem_of_singleton in Hs as ->.
    destruct (H2 c t Hf) as [(tk0 & Htk0 & Hb) _].
    rewrite (Ht t tk eq_refl Etk) in Htk0. by injection Htk0 as <-.
Qed.

Lemma sound_extends (x : option nat) (w w' : World) :
  sound w → extends x w w' → sound_except x w'.
Proof.
  intros (H1 & H2 & H3 & H4 & H5)
    (E1 & E2 & E3 & E4 & E5 & E6 & E7 & E8 & E9).
  assert (∀ c, is_Some (compute_of w c) → is_Some (cell_at w (Cmp c))) as Hex.
  { intros c [f Hf]. simpl. unfold compute_of in Hf.
    destruct (computeds w !! c); [by eexists|done]. }
  assert (∀ c t tk, compute_of w c = Some (CTakeValues t) →
                    takers w' !! t = Some tk → takers w !! t = Some tk) as Htk.
  { intros c t tk Hc Ht. destruct (H2 c t Hc) as [(tk0 & Htk0 & _) _].
    rewrite (E9 t tk0 Htk0) in Ht. by injection Ht as <-. }
  split; [|split; [|split; [|split]]].
  - intros c p Hc. rewrite E4 in Hc. destruct (H1 c p Hc) as [Hn Hcl].
    split; [done|]. by apply (closed_mono p (length (signals w)) c).
  - intros c t Hc. rewrite E4 in Hc.
    destruct (H2 c t Hc) as [(tk & Htk0 & Hb) Hu]. split.
    + exists tk. split; [by apply E9|]. destruct (tk_signal tk); simpl in *; lia.
    + intros c' Hc'. rewrite E4 in Hc'. by apply Hu.
  - intros c t tk _ Hc Ht. rewrite E4 in Hc.
    rewrite E3 by (apply Hex; by eexists).
    apply (H3 c t tk); [done|done|]. by apply (Htk c).
  - intros l c Hj. destruct (E5 l c Hj) as [Hold|(-> & -> & ->)].
    + destruct (H4 l c Hold) as [[Hb|Hb] Hu]; [|done]. split; [left; lia|].
      intros l' Hl'. destruct (E5 l' c Hl') as [Hold'|(_ & -> & _)].
      * by apply Hu.
      * lia.
    + split; [by right|]. intros l' Hl'.
      destruct (E5 l' _ Hl') as [Hold'|(_ & _ & ->)]; [|done].
      destruct (H4 l' _ Hold') as [[Hb|Hb] _]; [lia|done].
  - intros l c f v ds Hx Hj Hc Hs He. rewrite E4 in Hc.
    destruct (E5 l c Hj) as [Hold|(-> & _)]; [|done].
    rewrite E7 in Hs by (by apply (job_of_is_Some w l (JRecompute c))).
    assert (∀ s, s ∈ ds → is_Some (cell_at w s)) as Hds.
    { intros s Hin. apply (src_below_exists w s c).
      - apply (expected_below w w' c f v ds H1 H2 Hc); [|done..].
        intros t tk -> Ht. by apply (Htk c).
      - destruct (H4 l c Hold) as [[Hb|Hb] _]; [lia|done]. }
    assert (expected w f = Some (v, ds)) as He0.
    { apply (expected_frame w' w f v ds He).
      - intros s Hin. symmetry. by apply E3, Hds.
      - intros t ->. destruct (H2 c t Hc) as [(tk0 & Htk0 & _) _].
        by rewrite Htk0, (E9 t tk0 Htk0). }
    destruct (H5 l c f v ds) as [Hv Hl]; try done.
    split.
    + rewrite E3; [done|]. apply Hex. by eexists.
    + intros s Hin. by apply E8, Hl.
Qed.

Lemma useSignal_extends (w : World) (v : Value) :
  extends None w (snd (useSignal v w)).
Proof.
  simpl. repeat split; try done.
  - simpl. rewrite length_app. lia.
  - intros [i|i] Hs; unfold peek; simpl in *; [|done].
    apply lookup_lt_is_Some in Hs. by rewrite lookup_app_l.
  - intros l j Hj. by left.
  - intros [i|i] y; unfold listeners; simpl; [|done].
    destruct (signals w !! i) eqn:E; [|by intros H; inversion H].
    by rewrite (lookup_app_l_Some _ _ _ _ E).
Qed.

Lemma throttled_extends (w : World) (j : Job) (x : option nat) :
  (∀ c, j = JRecompute c → x = Some c ∧ c = length (computeds w)) →
  extends x w (snd (throttled j w)).
Proof.
  intros Hj. simpl. repeat split; try done.
  - intros l j0. unfold job_of; simpl. intros Hl.
    destruct (decide (l < length (throttles w))) as [Hlt|Hge].
    + rewrite lookup_app_l in Hl by done. by left.
    + rewrite lookup_app_r in Hl by lia.
      destruct (l - length (throttles w)) as [|n] eqn:En; [|by destruct n].
      simpl in Hl. injection Hl as ->. destruct (Hj j0 eq_refl) as [-> ->].
      right. repeat split; try done. lia.
  - intros l j0. unfold job_of; simpl.
    destruct (throttles w !! l) eqn:E; [|done].
    by rewrite (lookup_app_l_Some _ _ _ _ E).
  - intros l [t Ht]. unfold scheduled; simpl.
    by rewrite (lookup_app_l_Some _ _ _ _ Ht), Ht.
Qed.

Lemma new_taker_extends (w : World) (tk : Taker) :
  extends None w (with_takers (takers w ++ [tk]) w).
Proof.
  repeat split; try done.
  - intros l j Hj. by left.
  - intros t tk0 Ht. simpl. by apply lookup_app_l_Some.
Qed.

Lemma useSignal_sound (w : World) (v : Value) :
  sound w → sound (snd (useSignal v w)).
Proof. intros Hw. apply (sound_extends None w); [done|]. apply useSignal_extends. Qed.

Lemma useEffect_sound (w : World) (q : Comp unit) :
  sound w → sound (useEffect q w).
Proof.
  intros Hw. unfold useEffect.
  assert (extends None w (snd (throttled (JEffect q) w))) as He
    by (apply throttled_extends; intros c Hc; discriminate).
  pose proof (sound_extends None w _ Hw He) as H1.
  destruct (throttled (JEffect q) w) as [l w1]. simpl in H1.
  by apply withTracking_interp_sound.
Qed.

Lemma append_computed_obs (w : World) (cp : Computed) :
  let w' := with_computeds (computeds w ++ [cp]) w in
  let c := length (computeds w) in
  (∀ s, s ≠ Cmp c → peek w' s = peek w s ∧ listeners w' s = listeners w s)
  ∧ peek w' (Cmp c) = state (c_cell cp)
  ∧ (∀ c', compute_of w' c'
           = if decide (c' = c) then Some (compute cp) else compute_of w c')
  ∧ length (computeds w') = S c.
Proof.
  simpl. assert (∀ c', c' ≠ length (computeds w) →
                       (computeds w ++ [cp]) !! c' = computeds w !! c') as Hl.
  { intros c' Hne. destruct (decide (c' < length (computeds w))).
    - by rewrite lookup_app_l.
    - rewrite !lookup_ge_None_2; [done|lia|]. rewrite length_app. simpl. lia. }
  repeat split.
  - destruct s as [i|i]; [done|]. unfold peek; simpl. rewrite Hl; [done|].
    congruence.
  - destruct s as [i|i]; [done|]. unfold listeners; simpl. rewrite Hl; [done|].
    congruence.
  - unfold peek; simpl. by rewrite list_lookup_middle.
  - intros c'. unfold compute_of; simpl. case_decide as Hd.
    + subst. by rewrite list_lookup_middle.
    + by rewrite Hl.
  - rewrite length_app. simpl. lia.
Qed.

(** Making a computed signal, of either kind, keeps the invariant. *)
Lemma useComputedWith_sound (w : World) (f : Compute) :
  sound w →
  (∀ p, f = CUser p →
        no_send p ∧ closed (length (signals w)) (length (computeds w)) p) →
  (∀ t, f = CTakeValues t →
        (∃ tk, takers w !! t = Some tk
               ∧ src_below (length (signals w)) (length (computeds w))
                   (tk_signal tk))
        ∧ ∀ c', compute_of w c' ≠ Some (CTakeValues t)) →
  sound (snd (useComputedWith f w)).
Proof.
  intros Hw Hu Ht. unfold useComputedWith.
  set (c := length (computeds w)) in *.
  assert (extends (Some c) w (snd (throttled (JRecompute c) w))) as Hext.
  { apply throttled_extends. by intros c' [= <-]. }
  pose proof (sound_extends (Some c) w _ Hw Hext) as S1.
  assert (job_of (snd (throttled (JRecompute c) w)) (length (throttles w))
          = Some (JRecompute c)) as Hjl.
  { unfold job_of; simpl. by rewrite list_lookup_middle. }
  simpl in *.
  set (l := length (throttles w)) in *.
  set (w1 := with_throttles (throttles w ++ [mkThrottle false (JRecompute c)]) w)
    in *.
  destruct (tracked_compute_post w1 l c f) as (Q & T1 & T2 & Ta & Post).
  { intros p Hp. by apply Hu. }
  { intros t Hf. by apply (Ht t Hf). }
  { done. }
  set (r := withTracking l (run_compute f) w1) in *.
  destruct r as [v w2] eqn:Er. simpl in *.
  pose proof Q as (Q1 & Q2 & Q3 & Q4 & Q5 & Q6 & Q7 & Q8 & Q9 & Q10).
  assert (evolves (Some c) w1 w2) as Hev.
  { repeat split; try done.
    - intros l'. unfold job_of. by rewrite Q4.
    - intros l'. unfold scheduled. by rewrite Q4.
    - intros t tk Htk. destruct (T2 t tk Htk) as (tk' & E1 & E2 & E3).
      exists tk'. repeat split; try done. destruct E3 as [->| ->]; [by left|].
      right. intros c' Hc'. by destruct (proj2 (Ht t eq_refl) c'). }
  pose proof (sound_evolves (Some c) w1 w2 S1 Hev)
    as (A1 & A2 & A3 & A4 & A5).
  assert (length (computeds w2) = c ∧ length (signals w2) = length (signals w))
    as [Hc2 Hs2].
  { unfold sizes in Q2. by injection Q2 as -> -> _. }
  destruct (append_computed_obs w2 (mkComputed (mkCell v []) f))
    as (O1 & O2 & O3 & O4).
  rewrite Hc2 in O1, O2, O3, O4. simpl in O2.
  set (w3 := with_computeds (computeds w2 ++ [mkComputed (mkCell v []) f]) w2)
    in *.
  assert (∀ c', is_Some (compute_of w2 c') → c' ≠ c) as Hold.
  { intros c' [f' Hf'] ->. unfold compute_of in Hf'.
    rewrite lookup_ge_None_2 in Hf' by lia. done. }
  assert (job_of w2 l = Some (JRecompute c)) as Hjl2.
  { unfold job_of. by rewrite Q4. }
  split; [|split; [|split; [|split]]].
  - intros c' p Hc'. rewrite O3 in Hc'. case_decide as Hd.
    + subst c'. injection Hc' as ->. change (length (signals w3)) with
        (length (signals w2)). rewrite Hs2. by apply Hu.
    + by apply A1.
  - intros c' t Hc'. rewrite O3 in Hc'.
    change (takers w3) with (takers w2).
    change (length (signals w3)) with (length (signals w2)).
    case_decide as Hd.
    + subst c'. injection Hc' as ->.
      destruct (Ht t eq_refl) as [(tk & Htk & Hb) Hfresh]. split.
      * destruct (T2 t tk Htk) as (tk' & E1 & E2 & _). exists tk'.
        split; [done|]. by rewrite Hs2, E2.
      * intros c'' Hc''. rewrite O3 in Hc''. case_decide; [done|].
        rewrite Q7 in Hc''. by destruct (Hfresh c'').
    + destruct (A2 c' t Hc') as [Hb Hun]. split; [done|].
      intros c'' Hc''. rewrite O3 in Hc''. case_decide as Hd'; [|by apply Hun].
      subst c''. injection Hc'' as ->. rewrite Q7 in Hc'.
      by destruct (proj2 (Ht t eq_refl) c').
  - intros c' t tk _ Hc' Htk. rewrite O3 in Hc'.
    change (takers w3) with (takers w2) in Htk. case_decide as Hd.
    + subst c'. injection Hc' as ->. rewrite O2. by apply (Ta t tk).
    + rewrite (proj1 (O1 (Cmp c') ltac:(congruence))).
      apply (A3 c' t tk); [congruence|done|done].
  - intros l' c' Hj. change (job_of w2 l' = Some (JRecompute c')) in Hj.
    destruct (A4 l' c' Hj) as [Hb Hun]. split.
    + left. rewrite O4. destruct Hb as [Hb|[= ->]]; lia.
    + intros l'' Hl''. by apply Hun.
  - intros l' c' f' v' ds _ Hj Hc' Hs He.
    change (job_of w2 l' = Some (JRecompute c')) in Hj.
    change (scheduled w2 l' = false) in Hs.
    rewrite O3 in Hc'. case_decide as Hd.
    + subst c'. injection Hc' as <-.
      assert (l' = l) as -> by (symmetry; by apply (proj2 (A4 l' c Hj))).
      destruct (Post w3) with (v := v') (ds := ds) as [-> Hreg]; try done.
      * intros s Hs'. rewrite (proj1 (O1 s Hs')). apply Q1.
      * intros s y Hs' Hy. by rewrite (proj2 (O1 s Hs')).
    + assert (∀ s, s ∈ ds → s ≠ Cmp c) as Hds.
      { intros s Hin.
        assert (src_below (length (signals w2)) c' s) as Hb.
        { apply (expected_below w2 w3 c' f' v' ds A1 A2 Hc'); [|done..].
          by intros t tk _ Htk. }
        assert (c' < c).
        { destruct (A4 l' c' Hj) as [[Hb'|[= ->]] _]; [lia|done]. }
        intros ->. simpl in Hb. lia. }
      assert (expected w2 f' = Some (v', ds)) as He2.
      { apply (expected_frame w3 w2 f' v' ds He); [|done].
        intros s Hin. symmetry. by apply O1, Hds. }
      destruct (A5 l' c' f' v' ds) as [Hv Hl]; try done; [congruence|].
      split.
      * by rewrite (proj1 (O1 (Cmp c') ltac:(congruence))).
      * intros s Hin. rewrite (proj2 (O1 s (Hds s Hin))). by apply Hl.
Qed.

Lemma read_sound (w : World) (s : Src) : sound w → sound (snd (read s w)).
Proof.
  intros Hw. apply (sound_evolves None w); [done|].
  apply (quiet_run_evolves None (getTracked w) [] w); [apply read_quiet|].
  by destruct (read_frame w s) as (_ & _ & -> & _).
Qed.

Lemma takeValues_sound (w : World) (s : Src) :
  sound w → src_below (length (signals w)) (length (computeds w)) s →
  sound (snd (takeValues s w)).
Proof.
  intros Hw Hs. unfold takeValues.
  pose proof (read_sound w s Hw) as H1.
  pose proof (read_sizes w s) as Hz.
  destruct (read s w) as [v w1]. simpl in *.
  assert (length (signals w1) = length (signals w)
          ∧ length (computeds w1) = length (computeds w)) as [Ens Enc].
  { unfold sizes in Hz. by injection Hz as -> -> _. }
  set (tk := mkTaker s v false).
  pose proof (sound_extends None w1 _ H1 (new_taker_extends w1 tk)) as H2.
  apply useComputedWith_sound; [done| |].
  - intros p Hp. discriminate.
  - intros t [= <-]. split.
    + exists tk. simpl. split; [by rewrite list_lookup_middle|].
      by rewrite Ens, Enc.
    + intros c' Hc'.
      change (compute_of w1 c' = Some (CTakeValues (length (takers w1)))) in Hc'.
      destruct H1 as (_ & Ho & _).
      destruct (Ho c' _ Hc') as [(tk0 & Htk0 & _) _].
      apply lookup_lt_Some in Htk0. lia.
Qed.

Lemma empty_sound : sound empty.
Proof.
  split; [|split; [|split; [|split]]].
  - intros c p H. by destruct c.
  - intros c t H. by destruct c.
  - intros c t tk _ H. by destruct c.
  - intros l c H. by destruct l.
  - intros l c f v ds _ H. by destruct l.
Qed.

Lemma apply_op_sound (w : World) (op : Op) :
  sound w → valid_op w op → sound (apply_op op w).
Proof.
  intros Hw Hv. destruct op as [v|p|q|s|i v|]; simpl in *.
  - by apply useSignal_sound.
  - apply useComputedWith_sound; [done| |].
    + by intros p' [= <-].
    + intros t Ht. discriminate.
  - by apply useEffect_sound.
  - by apply takeValues_sound.
  - by apply send_sound.
  - by apply tick_sound.
Qed.

Lemma reachable_sound (w : World) : Reachable w → sound w.
Proof.
  induction 1 as [|w op Hr IH Hv]; [apply empty_sound|].
  by apply apply_op_sound.
Qed.

Lemma steps_reachable (w w' : World) :
  Reachable w → Steps w w' → Reachable w'.
Proof.
  intros Hr Hs. induction Hs as [w|w w' op Hv Hs IH]; [done|].
  apply IH. by apply reach_step.
Qed.

Lemma run_ops_reachable (ops : list Op) (w : World) :
  Reachable w →
  (∀ k op, ops !! k = Some op → valid_op (run_ops (take k ops) w) op) →
  Reachable (run_ops ops w).
Proof.
  revert w. induction ops as [|op ops IH] using rev_ind; intros w Hr Hv.
  - done.
  - unfold run_ops. rewrite foldl_snoc. apply reach_step.
    + apply IH; [done|]. intros k op' Hk.
      pose proof (lookup_lt_Some _ _ _ Hk) as Hlt.
      specialize (Hv k op'). rewrite lookup_app_l in Hv by done.
      rewrite take_app_le in Hv by lia. by apply Hv.
    + specialize (Hv (length ops) op).
      rewrite list_lookup_middle in Hv by done.
      rewrite take_app_length in Hv. by apply Hv.
Qed.

(** *** Every computed signal has its recompute *)

Lemma same_shape_refl (w : World) : same_shape w w.
Proof. by split. Qed.

Lemma same_shape_trans (w1 w2 w3 : World) :
  same_shape w1 w2 → same_shape w2 w3 → same_shape w1 w3.
Proof.
  intros [A1 A2] [B1 B2]. split; [by rewrite B1|].
  intros l. by rewrite B2.
Qed.

Lemma publish_shape (w : World) (s : Src) (v : Value) :
  same_shape w (publish s v w).
Proof.
  split; [apply publish_sizes|].
  by destruct (publish_frame w s v) as (_ & _ & _ & _ & _ & Hj).
Qed.

Lemma interp_shape {A} (p : Comp A) (w : World) :
  same_shape w (snd (interp p w)).
Proof.
  split; [|intros l; apply interp_jobs].
  revert w. induction p as [a|s k IH|i v k IH]; intros w; [done| |].
  - by rewrite interp_read_unfold, IH, read_sizes.
  - simpl. by rewrite IH, send_publish, publish_sizes.
Qed.

Lemma run_compute_shape (f : Compute) (w : World) :
  same_shape w (snd (run_compute f w)).
Proof.
  destruct f as [p|t]; [apply interp_shape|]. simpl.
  destruct (takeValues_compute_quiet t w) as (_ & Qz & _ & Qt & _).
  split; [done|]. intros l. unfold job_of. by rewrite Qt.
Qed.

Lemma withTracking_shape {A} (m : M A) (l : Lid) (w : World) :
  (∀ w0, same_shape w0 (snd (m w0))) →
  same_shape w (snd (withTracking l m w)).
Proof.
  intros Hm. unfold withTracking.
  set (w1 := record (EvTracked l) (with_scopes (scopes w ++ [l]) w)).
  specialize (Hm w1). destruct (m w1) as [a w2]. exact Hm.
Qed.

Lemma set_scheduled_shape (w : World) (l : Lid) (b : bool) :
  same_shape w (set_scheduled l b w).
Proof.
  split; [apply set_scheduled_sizes|]. intros l'. apply job_set_scheduled.
Qed.

Lemma perform_shape (w : World) (l : Lid) : same_shape w (perform l w).
Proof.
  rewrite perform_spec.
  destruct (job_of w l) as [[c|q]|]; [| |apply same_shape_refl].
  - eapply same_shape_trans; [|apply set_scheduled_shape]. simpl.
    rewrite recompute_job_spec.
    destruct (compute_of w c) as [f|]; [|apply same_shape_refl]. simpl.
    eapply same_shape_trans; [|apply publish_shape].
    apply withTracking_shape. apply run_compute_shape.
  - eapply same_shape_trans; [|apply set_scheduled_shape]. simpl.
    apply withTracking_shape. intros w0. apply interp_shape.
Qed.

Lemma tick_shape (w : World) : same_shape w (tick w).
Proof.
  unfold tick. destruct (microtasks w) as [|l rest]; [apply same_shape_refl|].
  apply (perform_shape (with_microtasks rest w)).
Qed.

Lemma same_shape_has_jobs (w w' : World) :
  same_shape w w' → has_jobs w → has_jobs w'.
Proof.
  intros [Hz Hj] H c Hc. unfold sizes in Hz. injection Hz as _ Ec _.
  rewrite Ec in Hc. destruct (H c Hc) as [l Hl]. exists l. by rewrite Hj.
Qed.

Lemma useComputedWith_has_jobs (f : Compute) (w : World) :
  has_jobs w → has_jobs (snd (useComputedWith f w)).
Proof.
  intros H. unfold useComputedWith. simpl.
  set (w1 := with_throttles _ w).
  destruct (withTracking_shape (run_compute f) (length (throttles w)) w1
              (run_compute_shape f)) as [Hz Hj].
  destruct (withTracking (length (throttles w)) (run_compute f) w1)
    as [v w2]; simpl in *.
  unfold sizes in Hz. injection Hz as _ Ec _.
  intros c Hc. simpl in Hc. rewrite length_app, Ec in Hc. simpl in Hc.
  change (∃ l, job_of w2 l = Some (JRecompute c)).
  destruct (decide (c = length (computeds w))) as [->|Hne].
  - exists (length (throttles w)). rewrite Hj. unfold job_of. simpl.
    by rewrite list_lookup_middle.
  - destruct (H c) as [l Hl]; [lia|]. exists l. rewrite Hj.
    unfold job_of in *. simpl.
    destruct (throttles w !! l) as [th|] eqn:E; [|done].
    by rewrite (lookup_app_l_Some _ _ _ _ E).
Qed.

Lemma apply_op_has_jobs (w : World) (op : Op) :
  has_jobs w → has_jobs (apply_op op w).
Proof.
  intros H. destruct op as [v|p|q|s|i v|]; simpl.
  - exact H.
  - by apply useComputedWith_has_jobs.
  - unfold useEffect. simpl.
    set (w1 := with_throttles _ w).
    apply (same_shape_has_jobs w1).
    { apply withTracking_shape. intros w0. apply interp_shape. }
    intros c Hc. destruct (H c Hc) as [l Hl]. exists l.
    unfold job_of in *. simpl.
    destruct (throttles w !! l) as [th|] eqn:E; [|done].
    by rewrite (lookup_app_l_Some _ _ _ _ E).
  - unfold takeValues.
    pose proof (read_sizes w s) as Hz.
    destruct (read_frame w s) as (_ & Hth & _).
    destruct (read s w) as [v w1]; simpl in *.
    apply useComputedWith_has_jobs.
    apply (same_shape_has_jobs w); [|done]. split; [done|].
    intros l. unfold job_of. simpl. by rewrite Hth.
  - rewrite send_publish. apply (same_shape_has_jobs w); [|done].
    apply publish_shape.
  - apply (same_shape_has_jobs w); [apply tick_shape|done].
Qed.

Lemma reachable_has_jobs (w : World) : Reachable w → has_jobs w.
Proof.
  induction 1 as [|w op Hr IH Hv].
  - intros c Hc. simpl in Hc. lia.
  - by apply apply_op_has_jobs.
Qed.

Lemma recompute_exists (w : World) (c : nat) (f : Compute) :
  Reachable w → compute_of w c = Some f →
  ∃ l, job_of w l = Some (JRecompute c).
Proof.
  intros Hr Hc. apply (reachable_has_jobs w Hr).
  unfold compute_of in Hc. apply lookup_lt_is_Some.
  destruct (computeds w !! c); [by eexists|done].
Qed.

(** *** Computed signals *)

Ltac reach_ops :=
  apply run_ops_reachable; [apply reach_empty|];
  let k := fresh "k" in
  let op := fresh "op" in
  let Hk := fresh "Hk" in
  intros k op Hk; simpl in Hk;
  repeat (destruct k as [|k];
          [injection Hk as <-; simpl; try done; try lia|simpl in Hk]);
  try discriminate.

Lemma doubling_written_reachable : Reachable doubling_written.
Proof.
  unfold doubling_written, doubling_ops. reach_ops.
  split; [intros v; by destruct v|].
  split; [lia|]. intros v. by destruct v.
Qed.

(** C2, the statement that fails: [b] doubles [a]; right after [a] is set
    to 5 the recompute of [b] is queued and has not run, [b] still reads 0
    while [compute()] gives 10. *)
Lemma computed_stale_until_flush :
  Reachable doubling_written
  ∧ ¬ computed_current_at doubling_written 0 double_fn.
Proof.
  split; [apply doubling_written_reachable|].
  intros H. vm_compute in H. discriminate.
Qed.

(** C2, as the code has it.  In every world reached by making signals,
    computed signals of pure functions, effects and [takeValues] signals,
    by writing signals and by running microtasks: a computed signal has a
    throttled recompute, and whenever that is not scheduled the computed
    signal reads what its function gives against the current values, and
    the recompute is listed with every signal that this evaluation reads,
    so that the next change of any of them schedules it. *)
Theorem computed_current_when_settled (w : World) (c : nat)
    (p : Comp Value) :
  Reachable w →
  compute_of w c = Some (CUser p) →
  ∃ l, job_of w l = Some (JRecompute c)
       ∧ (scheduled w l = false →
          fst (read (Cmp c) w) = fst (interp p w)
          ∧ ∀ s, s ∈ deps p w → l ∈ listeners w s).
Proof.
  intros Hr Hc. destruct (recompute_exists w c _ Hr Hc) as [l Hj].
  exists l. split; [done|]. intros Hs.
  destruct (reachable_sound w Hr) as (H1 & _ & _ & _ & H5).
  destruct (H1 c p Hc) as [Hn _].
  destruct (interp_no_send p w Hn) as [-> _]. rewrite read_value.
  by apply (H5 l c (CUser p) (eval p w) (deps p w)).
Qed.

Lemma doubling_settled_reachable : Reachable doubling_settled.
Proof. apply reach_step; [apply doubling_written_reachable|done]. Qed.

Lemma computed_current_when_settled_witness :
  fst (read (Cmp 0) doubling_settled) = VNum 10.
Proof.
  destruct (computed_current_when_settled doubling_settled 0 double_fn
              doubling_settled_reachable eq_refl) as (l & Hj & H).
  destruct l as [|l]; [|discriminate Hj].
  exact (proj1 (H eq_refl)).
Defined.

(** *** What stays once a [takeValues] closure is complete *)

Lemma keeps_refl (w : World) : keeps w w.
Proof. by split. Qed.

Lemma keeps_trans (w1 w2 w3 : World) : keeps w1 w2 → keeps w2 w3 → keeps w1 w3.
Proof.
  intros [A1 A2] [B1 B2]. split.
  - intros c f H. by apply B1, A1.
  - intros t tk H Hc. by apply B2; [apply A2|].
Qed.

Lemma keeps_obs (w w' : World) :
  (∀ j, compute_of w' j = compute_of w j) → takers w' = takers w → keeps w w'.
Proof.
  intros Hc Ht. split.
  - intros c f H. by rewrite Hc.
  - intros t tk H _. by rewrite Ht.
Qed.

Lemma keeps_same (w w' : World) :
  computeds w' = computeds w → takers w' = takers w → keeps w w'.
Proof.
  intros Hc Ht. apply keeps_obs; [|done].
  intros j. unfold compute_of. by rewrite Hc.
Qed.

Lemma publish_keeps (w : World) (s : Src) (v : Value) : keeps w (publish s v w).
Proof.
  destruct (publish_frame w s v) as (_ & Ht & _ & _ & Hc & _).
  by apply keeps_obs.
Qed.

Lemma interp_compute_of {A} (p : Comp A) (w : World) (j : nat) :
  compute_of (snd (interp p w)) j = compute_of w j.
Proof.
  revert w. induction p as [a|s k IH|i v k IH]; intros w; [done| |].
  - rewrite interp_read_unfold, IH.
    by destruct (read_frame w s) as (_ & _ & _ & _ & _ & _ & ->).
  - simpl. rewrite IH, send_publish.
    by destruct (publish_frame w (Sig i) v) as (_ & _ & _ & _ & -> & _).
Qed.

Lemma interp_keeps {A} (p : Comp A) (w : World) : keeps w (snd (interp p w)).
Proof.
  apply keeps_obs; [intros j; apply interp_compute_of|apply interp_takers].
Qed.

Lemma takeValues_compute_keeps (t : nat) (w : World) :
  keeps w (snd (takeValues_compute t w)).
Proof.
  destruct (takers w !! t) as [tk|] eqn:Htk.
  2:{ unfold takeValues_compute. rewrite Htk. apply keeps_refl. }
  destruct (takeValues_compute_spec t w tk Htk) as (_ & S2 & S3 & _).
  destruct S3 as (_ & _ & _ & _ & _ & _ & Q7 & _).
  split.
  - intros c f H. by rewrite Q7.
  - intros t0 tk0 H0 Hc. rewrite S2.
    destruct (decide (t0 = t)) as [->|Hne].
    + rewrite Htk in H0. injection H0 as ->. rewrite Hc.
      by rewrite list_insert_id.
    + by rewrite list_lookup_insert_ne.
Qed.

Lemma run_compute_keeps (f : Compute) (w : World) :
  keeps w (snd (run_compute f w)).
Proof.
  destruct f as [p|t]; [apply interp_keeps|apply takeValues_compute_keeps].
Qed.

Lemma withTracking_keeps {A} (m : M A) (l : Lid) (w : World) :
  (∀ w0, keeps w0 (snd (m w0))) → keeps w (snd (withTracking l m w)).
Proof.
  intros Hm. unfold withTracking.
  set (w1 := record (EvTracked l) (with_scopes (scopes w ++ [l]) w)).
  specialize (Hm w1). destruct (m w1) as [a w2]. exact Hm.
Qed.

Lemma perform_keeps (w : World) (l : Lid) : keeps w (perform l w).
Proof.
  rewrite perform_spec. destruct (job_of w l) as [[c|q]|]; [| |apply keeps_refl].
  - apply (keeps_trans _ (recompute_job l c w)); [|by apply keeps_same].
    rewrite recompute_job_spec.
    destruct (compute_of w c) as [f|]; [|apply keeps_refl]. simpl.
    eapply keeps_trans; [|apply publish_keeps].
    apply withTracking_keeps. apply run_compute_keeps.
  - apply (keeps_trans _ (run_job l (JEffect q) w)); [|by apply keeps_same].
    simpl. apply withTracking_keeps. intros w0. apply interp_keeps.
Qed.

Lemma tick_keeps (w : World) : keeps w (tick w).
Proof.
  unfold tick. destruct (microtasks w) as [|l rest]; [apply keeps_refl|].
  apply (keeps_trans _ (with_microtasks rest w)); [by apply keeps_same|].
  apply perform_keeps.
Qed.

Lemma useComputedWith_keeps (f : Compute) (w : World) :
  keeps w (snd (useComputedWith f w)).
Proof.
  unfold useComputedWith. simpl.
  set (w1 := with_throttles _ w).
  pose proof (withTracking_keeps (run_compute f) (length (throttles w)) w1
                (run_compute_keeps f)) as H.
  destruct (withTracking (length (throttles w)) (run_compute f) w1)
    as [v w2]; simpl in *.
  apply (keeps_trans _ w2); [exact H|]. split.
  - intros c g Hc. unfold compute_of in *. simpl.
    destruct (computeds w2 !! c) as [cp|] eqn:E; [|done].
    by rewrite (lookup_app_l_Some _ _ _ _ E).
  - by intros t tk Ht _.
Qed.

Lemma takeValues_keeps (s : Src) (w : World) : keeps w (snd (takeValues s w)).
Proof.
  unfold takeValues.
  destruct (read_frame w s) as (_ & _ & Ht & _ & _ & _ & Hc).
  destruct (read s w) as [v w1]; simpl in *.
  apply (keeps_trans _ w1); [by apply keeps_obs|].
  eapply keeps_trans; [|apply useComputedWith_keeps]. split.
  - by intros c f H.
  - intros t tk H _. simpl. by apply lookup_app_l_Some.
Qed.

Lemma apply_op_keeps (w : World) (op : Op) : keeps w (apply_op op w).
Proof.
  destruct op as [v|p|q|s|i v|]; simpl.
  - by apply keeps_same.
  - apply useComputedWith_keeps.
  - unfold useEffect. simpl.
    apply (keeps_trans _ (with_throttles
                            (throttles w ++ [mkThrottle false (JEffect q)]) w));
      [by apply keeps_same|].
    apply withTracking_keeps. intros w0. apply interp_keeps.
  - apply takeValues_keeps.
  - rewrite send_publish. apply publish_keeps.
  - apply tick_keeps.
Qed.

Lemma steps_keeps (w w' : World) : Steps w w' → keeps w w'.
Proof.
  induction 1 as [w|w w' op Hv Hs IH]; [apply keeps_refl|].
  by apply (keeps_trans _ (apply_op op w)); [apply apply_op_keeps|].
Qed.

(** *** [takeValues] *)

(** One tracked run of the function of [takeValues]. *)
Lemma withTracking_takeValues (w : World) (l : Lid) (t : nat) (tk : Taker) :
  takers w !! t = Some tk →
  let r := withTracking l (takeValues_compute t) w in
  let tk' := taken tk (peek w (tk_signal tk)) in
  fst r = tk_state tk'
  ∧ takers (snd r) = <[t := tk']> (takers w)
  ∧ quiet_run (Some l) [EvTracked l] w (snd r).
Proof.
  intros Htk. simpl.
  pose proof (withTracking_quiet (takeValues_compute t) l w
                (takeValues_compute_quiet t)) as Hq.
  revert Hq. unfold withTracking.
  set (w1 := record (EvTracked l) (with_scopes (scopes w ++ [l]) w)).
  assert (takers w1 !! t = Some tk) as Htk1 by done.
  destruct (takeValues_compute_spec t w1 tk Htk1) as (S1 & S2 & _).
  destruct (takeValues_compute t w1) as [v w2]. simpl in *.
  intros Hq. split; [exact S1|]. split; [exact S2|exact Hq].
Qed.

(** The recompute of a [takeValues] signal, run as a microtask. *)
Lemma perform_takeValues (w : World) (l : Lid) (c t : nat) (tk : Taker) :
  job_of w l = Some (JRecompute c) →
  compute_of w c = Some (CTakeValues t) →
  takers w !! t = Some tk →
  let tk' := taken tk (peek w (tk_signal tk)) in
  takers (perform l w) = <[t := tk']> (takers w)
  ∧ peek (perform l w) (Cmp c) = tk_state tk'.
Proof.
  intros Hj Hc Htk. simpl. rewrite perform_spec, Hj. simpl.
  rewrite recompute_job_spec, Hc. simpl.
  destruct (withTracking_takeValues w l t tk Htk) as (R1 & R2 & Q).
  set (r := withTracking l (takeValues_compute t) w) in *.
  destruct Q as (_ & Qz & _).
  destruct (publish_frame (snd r) (Cmp c) (fst r)) as (_ & Ft & _).
  split.
  - change (takers (publish (Cmp c) (fst r) (snd r)) = <[t := taken tk (peek w (tk_signal tk))]> (takers w)).
    by rewrite Ft.
  - change (peek (publish (Cmp c) (fst r) (snd r)) (Cmp c) = tk_state (taken tk (peek w (tk_signal tk)))).
    rewrite peek_publish, decide_True; [done|]. split; [done|].
    apply (cell_exists_sizes _ w); [done|]. apply cell_exists.
    unfold compute_of in Hc. apply lookup_lt_is_Some.
    destruct (computeds w !! c); [by eexists|done].
Qed.

(** What [takeValues] makes: a computed signal whose function is the
    closure over the variables [state] and [isComplete], with its own
    throttled recompute. *)
Lemma takeValues_makes (s : Src) (w : World) :
  let r := takeValues s w in
  fst r = length (computeds w)
  ∧ compute_of (snd r) (fst r) = Some (CTakeValues (length (takers w)))
  ∧ job_of (snd r) (length (throttles w)) = Some (JRecompute (fst r))
  ∧ ∃ tk, takers (snd r) !! length (takers w) = Some tk ∧ tk_signal tk = s.
Proof.
  simpl. unfold takeValues.
  destruct (read_frame w s) as (_ & Hth & Ht & _).
  pose proof (read_sizes w s) as Hz.
  destruct (read s w) as [v w1]; simpl in *.
  assert (length (computeds w1) = length (computeds w)) as Enc.
  { unfold sizes in Hz. by injection Hz as _ -> _. }
  rewrite Ht. unfold useComputedWith. simpl.
  set (tk := mkTaker s v false).
  set (w2 := with_throttles _ _).
  assert (takers w2 !! length (takers w) = Some tk) as Htk.
  { simpl. by rewrite list_lookup_middle. }
  destruct (withTracking_takeValues w2 (length (throttles w1))
              (length (takers w)) tk Htk) as (R1 & R2 & Q).
  destruct Q as (_ & Qz & _ & Qt & _).
  destruct (withTracking (length (throttles w1))
              (takeValues_compute (length (takers w))) w2) as [v3 w3].
  simpl in *.
  assert (length (computeds w3) = length (computeds w)) as Enc3.
  { unfold sizes in Qz. injection Qz as _ -> _. done. }
  split; [done|]. split; [|split].
  - unfold compute_of. simpl. rewrite Enc, <- Enc3.
    by rewrite list_lookup_middle.
  - unfold job_of. simpl. rewrite Qt. simpl. rewrite <- Hth.
    by rewrite list_lookup_middle.
  - exists (taken tk (peek w2 s)). rewrite R2. split.
    + apply list_lookup_insert_eq. rewrite length_app. simpl. lia.
    + unfold taken. by destruct (tk_isComplete tk).
Qed.

Lemma taking_live_reachable : Reachable taking_live.
Proof. unfold taking_live, taking_ops. reach_ops. Qed.

Lemma taking_written_reachable : Reachable taking_written.
Proof. apply reach_step; [apply taking_live_reachable|done]. Qed.

Lemma taking_nulled_reachable : Reachable taking_nulled.
Proof. unfold taking_nulled, taking_ops. reach_ops. Qed.

Lemma taking_complete_reachable : Reachable taking_complete.
Proof. apply reach_step; [apply taking_nulled_reachable|done]. Qed.

Lemma taking_later_steps : Steps taking_complete taking_later.
Proof.
  apply (steps_step _ _ (OpSend 0 (VNum 2))); [done|].
  apply (steps_step _ _ OpTick); [done|]. apply steps_refl.
Qed.

(** C10, the statement that fails: [s] is 1 and [t = takeValues(s)];
    right after [s] is set to 2 the recompute of [t] is queued and has not
    run, so [s] is 2, not null, and [t] still reads 1. *)
Lemma takeValues_stale_until_flush :
  Reachable taking_written ∧ ¬ takes_value_at taking_written 0 (Sig 0).
Proof.
  split; [apply taking_written_reachable|].
  intros H. specialize (H eq_refl). vm_compute in H. discriminate.
Qed.

(** C10, as the code has it.  In every world reached by the operations of
    the library, for the computed signal [c] that [takeValues(s)] returned,
    with [tk] the variables [state] and [isComplete] of its closure, there
    is its throttled recompute [l], and:
    - while the closure is not complete and the recompute is not scheduled,
      [s] is not null, [c] reads as [s] does, and the recompute is listed
      with [s];
    - when the closure is not complete and the recompute runs with [s]
      null, the closure becomes complete with [state] unchanged, and [c]
      reads after it what it read before, which is not null;
    - once the closure is complete, [c] reads the same after any further
      operations, writes to [s] and recomputes included. *)
Theorem takeValues_follows_until_null (w : World) (c t : nat) (tk : Taker) :
  Reachable w →
  compute_of w c = Some (CTakeValues t) →
  takers w !! t = Some tk →
  ∃ l, job_of w l = Some (JRecompute c)
  ∧ (tk_isComplete tk = false → scheduled w l = false →
     nullish (peek w (tk_signal tk)) = false
     ∧ fst (read (Cmp c) w) = peek w (tk_signal tk)
     ∧ l ∈ listeners w (tk_signal tk))
  ∧ (tk_isComplete tk = false → nullish (peek w (tk_signal tk)) = true →
     ∀ rest, microtasks w = l :: rest →
     takers (tick w) !! t = Some (mkTaker (tk_signal tk) (tk_state tk) true)
     ∧ fst (read (Cmp c) (tick w)) = fst (read (Cmp c) w)
     ∧ nullish (fst (read (Cmp c) w)) = false)
  ∧ (tk_isComplete tk = true →
     ∀ w', Steps w w' → fst (read (Cmp c) w') = fst (read (Cmp c) w)).
Proof.
  intros Hr Hc Htk. destruct (recompute_exists w c _ Hr Hc) as [l Hj].
  exists l. split; [done|].
  pose proof (reachable_sound w Hr) as (H1 & H2 & H3 & H4 & H5).
  destruct (H3 c t tk) as [Hpk Hnn]; [done|done|done|].
  split; [|split].
  - intros Hic Hs.
    destruct (H5 l c (CTakeValues t) (peek w (tk_signal tk)) [tk_signal tk])
      as [Hv Hl]; try done.
    { simpl. by rewrite Htk, Hic. }
    rewrite read_value. split; [|split; [done|]].
    + rewrite <- Hv, Hpk. by apply Hnn.
    + apply Hl. by apply list_elem_of_singleton.
  - intros Hic Hn rest Hm. unfold tick. rewrite Hm.
    destruct (perform_takeValues (with_microtasks rest w) l c t tk Hj Hc Htk)
      as [P1 P2].
    change (peek (with_microtasks rest w) (tk_signal tk))
      with (peek w (tk_signal tk)) in *.
    change (takers (with_microtasks rest w)) with (takers w) in *.
    unfold taken in P1, P2. rewrite Hic, Hn in P1, P2. simpl in P2.
    rewrite !read_value. split; [|split].
    + rewrite P1. apply list_lookup_insert_eq. by apply lookup_lt_Some in Htk.
    + by rewrite P2, Hpk.
    + rewrite Hpk. by apply Hnn.
  - intros Hic w' Hs. destruct (steps_keeps w w' Hs) as [K1 K2].
    pose proof (reachable_sound w' (steps_reachable w w' Hr Hs))
      as (_ & _ & H3' & _).
    destruct (H3' c t tk) as [Hpk' _]; [done|by apply K1|by apply K2|].
    by rewrite !read_value, Hpk, Hpk'.
Qed.

Lemma takeValues_follows_until_null_witness :
  fst (read (Cmp 0) taking_live) = VNum 1
  ∧ fst (read (Cmp 0) (tick taking_nulled)) = VNum 1
  ∧ fst (read (Cmp 0) taking_later) = VNum 1.
Proof.
  split; [|split].
  - destruct (takeValues_follows_until_null taking_live 0 0
                (mkTaker (Sig 0) (VNum 1) false)
                taking_live_reachable eq_refl eq_refl) as (l & Hj & H & _).
    destruct l as [|l]; [|discriminate Hj].
    exact (proj1 (proj2 (H eq_refl eq_refl))).
  - destruct (takeValues_follows_until_null taking_nulled 0 0
                (mkTaker (Sig 0) (VNum 1) false)
                taking_nulled_reachable eq_refl eq_refl)
      as (l & Hj & _ & H & _).
    destruct l as [|l]; [|discriminate Hj].
    exact (proj1 (proj2 (H eq_refl eq_refl [] eq_refl))).
  - destruct (takeValues_follows_until_null taking_complete 0 0
                (mkTaker (Sig 0) (VNum 1) true)
                taking_complete_reachable eq_refl eq_refl)
      as (l & Hj & _ & _ & H).
    exact (H eq_refl taking_later taking_later_steps).
Defined.

End TrackedFacts.

(** ** Facts about the observer-based engine *)

Module ObservedFacts.
Import Observed ObservedSpec.

(** *** Cancellation *)

(** C9.  [setCancel] throws a [TypeError] at once, and touches nothing, when
    what it is given is not a function; given a function it stores it on
    the object, leaves every other object alone and returns the object.
    [cancel] calls the function stored on the object, and does nothing when
    there is none. *)
Theorem setCancel_cancel_contract :
  (∀ (w : World) (object : Obj) (v : Value),
     setCancel object (AValue v) w
     = (inl (TypeError "cancel must be a function"), w))
  ∧ (∀ (w : World) (object : Obj) (f : Fn),
       fst (setCancel object (AFn f) w) = inr object
       ∧ cancelOf (snd (setCancel object (AFn f) w)) object = Some f
       ∧ ∀ o, o ≠ object →
              cancelOf (snd (setCancel object (AFn f) w)) o = cancelOf w o)
  ∧ (∀ (w : World) (object : Obj) (f : Fn),
       cancelOf w object = Some f → cancel object w = call f w)
  ∧ (∀ (w : World) (object : Obj),
       cancelOf w object = None → cancel object w = w).
Proof.
  repeat split.
  - simpl. by rewrite bool_decide_eq_true_2.
  - intros o Ho. simpl. by rewrite bool_decide_eq_false_2.
  - intros w object f H. unfold cancel. by rewrite H.
  - intros w object H. unfold cancel. by rewrite H.
Qed.

Lemma setCancel_cancel_contract_witness :
  cancel (OOther 0)
    (snd (setCancel (OOther 0) (AFn (FCancel (CallerCancel 5))) empty))
  = call (FCancel (CallerCancel 5))
      (snd (setCancel (OOther 0) (AFn (FCancel (CallerCancel 5))) empty))
  ∧ cancel (OOther 1) empty = empty.
Proof.
  destruct setCancel_cancel_contract as (_ & _ & H3 & H4).
  split.
  - apply H3. reflexivity.
  - apply H4. reflexivity.
Defined.

(** The function stored by the caller is indeed called, once. *)
Example cancel_calls_the_function :
  log (cancel (OOther 0)
         (snd (setCancel (OOther 0) (AFn (FCancel (CallerCancel 5))) empty)))
  = [EvCalled 5].
Proof. reflexivity. Qed.

(** *** Writing the value a signal holds *)

Lemma setValue_same (w : World) (i : nat) (v : Value) :
  strict_neq (getValue i w) v = false → setValue i v w = w.
Proof.
  unfold setValue, getValue. destruct (signals w !! i) as [s|]; [|done].
  by intros ->.
Qed.

Lemma setValue_changes (w : World) (i : nat) (v : Value) :
  setValue i v w ≠ w → strict_neq (getValue i w) v = true.
Proof.
  intros H. destruct (strict_neq (getValue i w) v) eqn:E; [done|].
  by apply setValue_same in E.
Qed.

(** *** Sampling *)

(** C8, the statement that fails: the sum is 30, but the closure ran once
    for the emission of [x] and once for the emission of [y]. *)
Lemma sum_scenario_resamples_twice : ¬ sum_scenario_claim.
Proof.
  intros [_ H]. vm_compute in H. discriminate.
Qed.

(** C8, as the code has it.  After the writes two microtasks are queued,
    the dispatch of [x] and the dispatch of [y].  The first calls the
    closure, which sees 10 and 20 and gives 30: the sum is written and its
    own dispatch is queued.  The second calls the closure again and writes
    the same 30, which changes nothing.  After the third microtask the queue
    is empty: the closure has run twice, the sum has been written once, and
    its value is 30. *)
Theorem sum_scenario :
  microtasks sum_written = [0; 1]
  ∧ getValue 2 sum_written = VNum 3
  ∧ getValue 2 (flush 1 sum_written) = VNum 30
  ∧ microtasks (flush 1 sum_written) = [1; 2]
  ∧ microtasks (flush 2 sum_written) = [2]
  ∧ microtasks (flush 3 sum_written) = []
  ∧ getValue 2 (flush 3 sum_written) = VNum 30
  ∧ resamples 2 (log (flush 3 sum_written))
    = resamples 2 (log sum_start) + 2.
Proof. repeat split; reflexivity. Qed.

(** *** Reductions *)

(** C5, where the code fails: the source holds 0, the first call of the
    observer, made by [observe] itself, gets [Reduced] from the step, and
    [cancel] is not initialised yet. *)
Theorem reductions_reduced_at_subscription :
  fst (reductions (takingWhile positive stepForward) 0 (VNum 7) zero_source)
  = inl (ReferenceError "Cannot access 'cancel' before initialization").
Proof. reflexivity. Qed.

(** The state signal was made and still holds the initial value, nobody
    observes the source, and no cancel function was stored. *)
Example reductions_reduced_at_subscription_state :
  let w := snd (reductions (takingWhile positive stepForward) 0 (VNum 7)
                  zero_source) in
  getValue 1 w = VNum 7 ∧ observers_of 0 w = [] ∧ cancelOf w (OSignal 1) = None.
Proof. repeat split; reflexivity. Qed.

(** When [Reduced] comes with a later emission the reduction behaves as
    documented: the source emits 3, then 0 (which ends the reduction with
    the state 3), then 9. *)
Example reductions_reduced_later :
  let w1 := flush 2 (setValue 0 (VNum 3) taking_start) in
  let w2 := flush 2 (setValue 0 (VNum 0) w1) in
  let w3 := flush 2 (setValue 0 (VNum 9) w2) in
  getValue 1 taking_start = VNum 1
  ∧ getValue 1 w1 = VNum 3
  ∧ getValue 1 w2 = VNum 3 ∧ observers_of 0 w2 = []
  ∧ getValue 1 w3 = VNum 3.
Proof. repeat split; reflexivity. Qed.

(** *** The store *)

Lemma throttle_call_frame (w : World) (sch : nat) (t : Thunk) :
  signals (throttle_call sch t w) = signals w
  ∧ stores (throttle_call sch t w) = stores w
  ∧ log (throttle_call sch t w) = log w.
Proof.
  unfold throttle_call. destruct (schedulers w !! sch) as [s|]; [|done].
  by destruct (isUpdateScheduled s).
Qed.

Lemma setValue_frame (w : World) (i : nat) (v : Value) :
  stores (setValue i v w) = stores w ∧ log (setValue i v w) = log w.
Proof.
  unfold setValue. destruct (signals w !! i) as [s|]; [|done].
  destruct (strict_neq (value s) v); [|done].
  by destruct (throttle_call_frame
                 (with_signals (<[i:=mkSignal v (observers s) (throttle s)]>
                                  (signals w)) w)
                 (throttle s) (Dispatch i)) as (_ & -> & ->).
Qed.

Lemma getValue_setValue (w : World) (i : nat) (v : Value) :
  is_Some (signals w !! i) → getValue i (setValue i v w) = v.
Proof.
  intros [s Hs]. unfold setValue. rewrite Hs.
  destruct (strict_neq (value s) v) eqn:E.
  - unfold getValue.
    destruct (throttle_call_frame
                (with_signals (<[i:=mkSignal v (observers s) (throttle s)]>
                                 (signals w)) w)
                (throttle s) (Dispatch i)) as (-> & _).
    simpl. rewrite list_lookup_insert_eq; [done|].
    by apply lookup_lt_Some in Hs.
  - unfold getValue. rewrite Hs. unfold strict_neq, strict_eq in E.
    destruct (value s), v; simpl in E; try discriminate; try reflexivity;
      apply negb_false_iff, bool_decide_eq_true in E; exact E.
Qed.

Lemma observed_store_sends_app (st : nat) (xs ys : list Event) :
  store_sends st (xs ++ ys) = store_sends st xs + store_sends st ys.
Proof. unfold store_sends. by rewrite List.filter_app, length_app. Qed.

Lemma observed_console_debug_frame (b : bool) (label : string) (v : Value) (w : World) :
  signals (console_debug b label v w) = signals w
  ∧ stores (console_debug b label v w) = stores w
  ∧ ∃ evs, log (console_debug b label v w) = log w ++ evs
           ∧ ∀ st, store_sends st evs = 0.
Proof.
  destruct b; simpl; repeat split.
  - by exists [EvDebug label v].
  - exists []. by rewrite app_nil_r.
Qed.

Lemma observed_store_send_spec (w : World) (st : nat) (s : Store) (msg : Value) :
  stores w !! st = Some s →
  let t := st_update s (getValue (st_signal s) w) msg in
  (is_Some (signals w !! st_signal s) →
   getValue (st_signal s) (store_send st msg w) = t_state t)
  ∧ stores (store_send st msg w) !! st
    = Some (mkStore (st_signal s) (st_update s) (st_debug s)
              (st_pending s ++ t_effects t))
  ∧ store_sends st (log (store_send st msg w)) = S (store_sends st (log w)).
Proof.
  intros Hs. unfold store_send. rewrite Hs.
  set (w0 := record (EvStoreSend st msg) w).
  set (d := st_debug s).
  destruct (observed_console_debug_frame d "store.msg" msg w0)
    as (A1 & A2 & (e1 & A4 & A5)).
  set (w1 := console_debug d "store.msg" msg w0) in *.
  assert (getValue (st_signal s) w1 = getValue (st_signal s) w) as Eg.
  { unfold getValue. by rewrite A1. }
  rewrite Eg. set (t := st_update s (getValue (st_signal s) w) msg).
  destruct (setValue_frame w1 (st_signal s) (t_state t)) as (S1 & S2).
  set (w2 := setValue (st_signal s) (t_state t) w1) in *.
  destruct (observed_console_debug_frame d "store.state" (t_state t) w2)
    as (B1 & B2 & (e2 & B4 & B5)).
  set (w3 := console_debug d "store.state" (t_state t) w2) in *.
  destruct (observed_console_debug_frame d "store.effects"
              (VNum (Z.of_nat (length (t_effects t)))) w3)
    as (C1 & C2 & (e3 & C4 & C5)).
  set (w4 := console_debug d "store.effects" _ w3) in *.
  repeat split.
  - intros Hi. unfold getValue; simpl. rewrite C1, B1.
    fold (getValue (st_signal s) w2). unfold w2.
    apply getValue_setValue. by rewrite A1.
  - simpl. rewrite list_lookup_alter_eq, C2, B2, S1, A2. simpl.
    by rewrite Hs.
  - simpl. rewrite C4, B4, S2, A4. unfold w0; simpl.
    rewrite !observed_store_sends_app, A5, B5, C5. unfold store_sends at 2; simpl.
    rewrite bool_decide_eq_true_2 by done. simpl. lia.
Qed.

Lemma observed_settle_spec (w : World) (st k : nat) (o : Outcome) :
  pending w st !! k = Some o →
  settle st k w = run_resume st o (set_pending st (delete k (pending w st)) w).
Proof.
  unfold pending, settle. destruct (stores w !! st) as [s|]; [|done].
  by intros ->.
Qed.

Lemma observed_pending_is_Some (w : World) (st k : nat) (o : Outcome) :
  pending w st !! k = Some o → is_Some (stores w !! st).
Proof.
  unfold pending. destruct (stores w !! st); [by eexists|]. by destruct k.
Qed.

End ObservedFacts.

(** ** Further properties of the tracking-based engine *)

Module TrackedMore.
Import Tracked TrackedSpec TrackedExamples TrackedReach TrackedQueue.
Import TrackedFacts.

(** *** The queue and the flags *)

Lemma queue_ok_same (x : option Lid) (w w' : World) :
  throttles w' = throttles w → microtasks w' = microtasks w →
  queue_ok x w → queue_ok x w'.
Proof.
  intros Et Em (H1 & H2 & H3). unfold queue_ok, scheduled. rewrite Et, Em.
  done.
Qed.

Lemma schedule_queue_ok (x : option Lid) (l : Lid) (w : World) :
  queue_ok x w → queue_ok x (schedule l w).
Proof.
  intros (H1 & H2 & H3). rewrite schedule_spec.
  case_decide as Hd; [|done]. destruct Hd as [Hex Hs].
  assert (x ≠ Some l) as Hx.
  { intros ->. destruct (H3 l eq_refl) as [_ H]. congruence. }
  assert (l ∉ microtasks w) as Hnin.
  { intros Hin. apply (H2 l Hx) in Hin. congruence. }
  assert (∀ l', scheduled (queueMicrotask l (set_scheduled l true w)) l'
                = if decide (l = l') then true else scheduled w l') as Hsch.
  { intros l'.
    change (scheduled (set_scheduled l true w) l'
            = if decide (l = l') then true else scheduled w l').
    rewrite scheduled_set_scheduled. repeat case_decide; naive_solver. }
  split; [|split].
  - simpl. apply NoDup_app. split; [done|]. split; [|apply NoDup_singleton].
    intros y Hy Hy'. apply list_elem_of_singleton in Hy' as ->. done.
  - intros l' Hl'. rewrite Hsch. simpl. rewrite elem_of_app.
    rewrite list_elem_of_singleton. case_decide as Hd; [subst; naive_solver|].
    rewrite <- (H2 l' Hl'). naive_solver.
  - intros l' ->. destruct (H3 l' eq_refl) as [Ha Hb].
    rewrite Hsch. simpl. rewrite elem_of_app, list_elem_of_singleton.
    split; [|by case_decide]. intros [?| ->]; [done|]. congruence.
Qed.

Lemma notify_queue_ok (x : option Lid) (ls : list Lid) (w : World) :
  queue_ok x w → queue_ok x (notify ls w).
Proof.
  revert w. induction ls as [|l ls IH]; intros w H; [done|].
  simpl. apply IH. by apply schedule_queue_ok.
Qed.

Lemma publish_queue_ok (x : option Lid) (s : Src) (v : Value) (w : World) :
  queue_ok x w → queue_ok x (publish s v w).
Proof.
  intros H. rewrite publish_spec. case_decide; [|done].
  destruct (set_cell_frame w s (mkCell v (listeners w s)))
    as (_ & E1 & _ & _ & E2 & _).
  set (w1 := set_cell s (mkCell v (listeners w s)) w) in *.
  assert (queue_ok x w1) as H1 by (by apply (queue_ok_same x w)).
  rewrite transact_spec. case_decide; [|done].
  apply notify_queue_ok.
  destruct (set_cell_frame w1 s (mkCell (peek w1 s) []))
    as (_ & E3 & _ & _ & E4 & _).
  by apply (queue_ok_same x w1).
Qed.

Lemma read_queue_ok (x : option Lid) (s : Src) (w : World) :
  queue_ok x w → queue_ok x (snd (read s w)).
Proof.
  destruct (read_frame w s) as (_ & Et & _ & _ & Em & _).
  by apply queue_ok_same.
Qed.

Lemma interp_queue_ok {A} (x : option Lid) (p : Comp A) (w : World) :
  queue_ok x w → queue_ok x (snd (interp p w)).
Proof.
  revert w. induction p as [a|s k IH|i v k IH]; intros w H; [done| |].
  - rewrite interp_read_unfold. apply IH. by apply read_queue_ok.
  - simpl. apply IH. rewrite send_publish. by apply publish_queue_ok.
Qed.

Lemma run_compute_queue_ok (x : option Lid) (f : Compute) (w : World) :
  queue_ok x w → queue_ok x (snd (run_compute f w)).
Proof.
  destruct f as [p|t]; [apply interp_queue_ok|]. simpl.
  destruct (takeValues_compute_quiet t w) as (_ & _ & _ & Qt & _ & Qm & _).
  by apply queue_ok_same.
Qed.

Lemma withTracking_queue_ok {A} (x : option Lid) (m : M A) (l : Lid)
    (w : World) :
  (∀ w0, queue_ok x w0 → queue_ok x (snd (m w0))) →
  queue_ok x w → queue_ok x (snd (withTracking l m w)).
Proof.
  intros Hm H. unfold withTracking.
  set (w1 := record (EvTracked l) (with_scopes (scopes w ++ [l]) w)).
  specialize (Hm w1 H). destruct (m w1) as [a w2]. exact Hm.
Qed.

Lemma run_job_queue_ok (x : option Lid) (l : Lid) (j : Job) (w : World) :
  queue_ok x w → queue_ok x (run_job l j w).
Proof.
  intros H. destruct j as [c|q]; simpl.
  - rewrite recompute_job_spec. destruct (compute_of w c) as [f|]; [|done].
    simpl. apply publish_queue_ok. apply withTracking_queue_ok; [|done].
    intros w0. apply run_compute_queue_ok.
  - apply withTracking_queue_ok; [|done]. intros w0. apply interp_queue_ok.
Qed.

Lemma tick_queue_ok (w : World) : queue_ok None w → queue_ok None (tick w).
Proof.
  intros H. unfold tick.
  destruct (microtasks w) as [|l rest] eqn:Em; [done|].
  destruct H as (H1 & H2 & _). rewrite Em in H1, H2.
  apply NoDup_cons in H1 as [Hl Hrest].
  assert (scheduled w l = true) as Hs by (apply H2; [done|set_solver]).
  set (w0 := with_microtasks rest w).
  assert (queue_ok (Some l) w0) as H0.
  { split; [done|]. split.
    - intros l' Hl'. change (l' ∈ rest ↔ scheduled w l' = true).
      rewrite <- (H2 l') by done. set_solver.
    - intros l' [= <-]. by split. }
  rewrite perform_spec. change (job_of w0 l) with (job_of w l).
  destruct (job_of w l) as [j|] eqn:Ej.
  2:{ unfold job_of, scheduled in *. by destruct (throttles w !! l). }
  destruct (run_job_queue_ok (Some l) l j w0 H0) as (R1 & R2 & R3).
  destruct (R3 l eq_refl) as [R4 R5].
  split; [done|]. split; [|done].
  intros l' _. change (l' ∈ microtasks (run_job l j w0)
                       ↔ scheduled (set_scheduled l false (run_job l j w0)) l'
                         = true).
  rewrite scheduled_set_scheduled. case_decide as Hd.
  - destruct Hd as [<- _]. naive_solver.
  - destruct (decide (l = l')) as [<-|Hne].
    + unfold scheduled in R5.
      destruct (throttles (run_job l j w0) !! l) eqn:E; [|done].
      exfalso. apply Hd. split; [done|by eexists].
    + apply R2. congruence.
Qed.

Lemma throttled_queue_ok (j : Job) (w : World) :
  queue_ok None w → queue_ok None (snd (throttled j w)).
Proof.
  intros (H1 & H2 & _). split; [done|]. split; [|done].
  intros l _. simpl. rewrite (H2 l) by done. unfold scheduled. simpl.
  destruct (throttles w !! l) as [th|] eqn:E.
  - by rewrite (lookup_app_l_Some _ _ _ _ E).
  - apply lookup_ge_None in E. rewrite lookup_app_r by done.
    destruct (l - length (throttles w)) as [|n]; [done|]. by destruct n.
Qed.

Lemma useComputedWith_queue_ok (f : Compute) (w : World) :
  queue_ok None w → queue_ok None (snd (useComputedWith f w)).
Proof.
  intros H. unfold useComputedWith.
  pose proof (throttled_queue_ok (JRecompute (length (computeds w))) w H)
    as H1.
  destruct (throttled (JRecompute (length (computeds w))) w) as [l w1].
  simpl in H1.
  pose proof (withTracking_queue_ok None (run_compute f) l w1
                (λ w0, run_compute_queue_ok None f w0) H1) as H2.
  destruct (withTracking l (run_compute f) w1) as [v w2]. exact H2.
Qed.

Lemma apply_op_queue_ok (w : World) (op : Op) :
  queue_ok None w → queue_ok None (apply_op op w).
Proof.
  intros H. destruct op as [v|p|q|s|i v|]; simpl.
  - exact H.
  - by apply useComputedWith_queue_ok.
  - unfold useEffect.
    pose proof (throttled_queue_ok (JEffect q) w H) as H1.
    destruct (throttled (JEffect q) w) as [l w1]. simpl in H1.
    apply withTracking_queue_ok; [|done]. intros w0. apply interp_queue_ok.
  - unfold takeValues. pose proof (read_queue_ok None s w H) as H1.
    destruct (read s w) as [v w1]. simpl in H1.
    by apply useComputedWith_queue_ok.
  - rewrite send_publish. by apply publish_queue_ok.
  - by apply tick_queue_ok.
Qed.

Lemma reachable_queue_ok (w : World) : Reachable w → queue_ok None w.
Proof.
  induction 1 as [|w op Hr IH Hv]; [|by apply apply_op_queue_ok].
  split; [apply NoDup_nil_2|]. split; [|done].
  intros l _. simpl. split; [by intros ?%elem_of_nil|].
  unfold scheduled. simpl. by destruct l.
Qed.



(** *** What a microtask leaves in the queue *)





(** X3.  When the microtask queue is empty, every computed signal of a
    pure function reads what its function gives against the current
    values, and its recompute is listed with every signal that this
    evaluation reads. *)
Theorem settled_computeds_current (w : World) (c : nat) (p : Comp Value) :
  Reachable w →
  microtasks w = [] →
  compute_of w c = Some (CUser p) →
  fst (read (Cmp c) w) = fst (interp p w)
  ∧ ∃ l, job_of w l = Some (JRecompute c)
         ∧ ∀ s, s ∈ deps p w → l ∈ listeners w s.
Proof.
  intros Hr Hm Hc. destruct (recompute_exists w c _ Hr Hc) as [l Hj].
  destruct (reachable_queue_ok w Hr) as (_ & Q2 & _).
  assert (scheduled w l = false) as Hs.
  { destruct (scheduled w l) eqn:E; [|done].
    apply Q2 in E; [|done]. rewrite Hm in E. by apply elem_of_nil in E. }
  destruct (reachable_sound w Hr) as (H1 & _ & _ & _ & H5).
  destruct (H1 c p Hc) as [Hn _].
  destruct (interp_no_send p w Hn) as [-> _]. rewrite read_value.
  destruct (H5 l c (CUser p) (eval p w) (deps p w)) as [Hv Hl]; try done.
  split; [done|]. by exists l.
Qed.

Lemma settled_computeds_current_witness :
  fst (read (Cmp 0) doubling_settled) = VNum 10.
Proof.
  refine (proj1 (settled_computeds_current doubling_settled 0 double_fn
                   doubling_settled_reachable eq_refl eq_refl)).
Defined.

(** *** One microtask, one run *)

Lemma interp_runs {A} (p : Comp A) (w : World) (l : Lid) :
  runs l (log (snd (interp p w))) = runs l (log w).
Proof.
  revert w. induction p as [a|s k IH|i v k IH]; intros w; [done| |].
  - rewrite interp_read_unfold, IH, log_read, runs_app.
    match goal with |- _ + ?x = _ => assert (x = 0) as ->; [|lia] end.
    apply occurrences_notin. case_decide; set_solver.
  - simpl. rewrite IH, send_publish.
    by destruct (publish_frame w (Sig i) v) as (_ & _ & _ & -> & _).
Qed.

Lemma run_compute_runs (f : Compute) (w : World) (l : Lid) :
  runs l (log (snd (run_compute f w))) = runs l (log w).
Proof.
  destruct f as [p|t]; [apply interp_runs|]. simpl.
  destruct (takeValues_compute_quiet t w)
    as (_ & _ & _ & _ & _ & _ & _ & (evs & -> & Hevs) & _).
  simpl. rewrite runs_app.
  assert (runs l evs = 0) as ->; [|lia].
  apply occurrences_notin. intros Hin.
  destruct (Hevs _ Hin) as [s Hs]. discriminate.
Qed.

Lemma withTracking_runs {A} (m : M A) (l l' : Lid) (w : World) :
  (∀ w0, runs l' (log (snd (m w0))) = runs l' (log w0)) →
  runs l' (log (snd (withTracking l m w)))
  = runs l' (log w) + (if decide (l' = l) then 1 else 0).
Proof.
  intros Hm. unfold withTracking.
  set (w1 := record (EvTracked l) (with_scopes (scopes w ++ [l]) w)).
  specialize (Hm w1). destruct (m w1) as [a w2]. simpl in *.
  rewrite Hm. unfold w1. simpl. rewrite runs_app. f_equal.
  unfold runs. rewrite occurrences_cons.
  change (occurrences (EvTracked l') []) with 0.
  repeat case_decide; naive_solver lia.
Qed.

(** X4.  A microtask runs the tracked function of the throttled function
    at the head of the queue, once, and runs no other tracked function. *)
Theorem tick_runs_head_once (w : World) (l : Lid) (rest : list Lid) :
  Reachable w →
  microtasks w = l :: rest →
  ∀ l', runs l' (log (tick w))
        = runs l' (log w) + (if decide (l' = l) then 1 else 0).
Proof.
  intros Hr Hm l'.
  destruct (reachable_queue_ok w Hr) as (_ & Q2 & _).
  assert (scheduled w l = true) as Hs.
  { apply Q2; [done|]. rewrite Hm. set_solver. }
  assert (∃ j, job_of w l = Some j) as [j Hj].
  { unfold scheduled in Hs. unfold job_of.
    destruct (throttles w !! l); [by eexists|done]. }
  unfold tick. rewrite Hm, perform_spec.
  change (job_of (with_microtasks rest w) l) with (job_of w l). rewrite Hj.
  change (runs l' (log (run_job l j (with_microtasks rest w)))
          = runs l' (log w) + (if decide (l' = l) then 1 else 0)).
  destruct j as [c|q]; simpl.
  - destruct (reachable_sound w Hr) as (_ & _ & _ & H4 & _).
    destruct (H4 l c Hj) as [[Hlt|Hlt] _]; [|done].
    destruct (compute_of_is_Some w c Hlt) as [f Ef].
    rewrite recompute_job_spec.
    change (compute_of (with_microtasks rest w) c) with (compute_of w c).
    rewrite Ef. simpl.
    set (r := withTracking l (run_compute f) (with_microtasks rest w)).
    destruct (publish_frame (snd r) (Cmp c) (fst r)) as (_ & _ & _ & -> & _).
    apply (withTracking_runs (run_compute f) l l' (with_microtasks rest w)).
    intros w0. apply run_compute_runs.
  - apply (withTracking_runs (interp q) l l' (with_microtasks rest w)).
    intros w0. apply interp_runs.
Qed.

Lemma tick_runs_head_once_witness :
  runs 0 (log (tick doubling_written)) = runs 0 (log doubling_written) + 1.
Proof.
  exact (tick_runs_head_once doubling_written 0 []
           doubling_written_reachable eq_refl 0).
Defined.

(** X5.  [useEffect] and [useComputed] run the function they are given
    once, at once, under a throttled function of its own, and run no
    other; the computed signal of a pure function then reads what the
    function gave. *)
Theorem constructors_run_once (w : World) :
  (∀ q l', runs l' (log (useEffect q w))
           = runs l' (log w)
             + (if decide (l' = length (throttles w)) then 1 else 0))
  ∧ (∀ p l', runs l' (log (snd (useComputed p w)))
             = runs l' (log w)
               + (if decide (l' = length (throttles w)) then 1 else 0))
  ∧ (∀ p, no_send p →
          fst (useComputed p w) = length (computeds w)
          ∧ fst (read (Cmp (length (computeds w))) (snd (useComputed p w)))
            = eval p w).
Proof.
  split; [|split].
  - intros q l'. unfold useEffect. simpl. set (w1 := with_throttles _ w).
    apply (withTracking_runs (interp q) (length (throttles w)) l' w1).
    intros w0. apply interp_runs.
  - intros p l'. unfold useComputed, useComputedWith. simpl.
    set (w1 := with_throttles _ w).
    pose proof (withTracking_runs (interp p) (length (throttles w)) l' w1
                  (λ w0, interp_runs p w0 l')) as H.
    destruct (withTracking (length (throttles w)) (interp p) w1) as [v w2].
    exact H.
  - intros p Hp. unfold useComputed, useComputedWith. simpl.
    set (w1 := with_throttles _ w).
    destruct (withTracking_no_send p (length (throttles w)) w1 Hp)
      as (I1 & _ & I3 & _).
    destruct (withTracking (length (throttles w)) (interp p) w1) as [v w2].
    simpl in *. split; [done|]. rewrite read_value.
    assert (length (computeds w2) = length (computeds w)) as E.
    { unfold sizes in I3. by injection I3 as _ -> _. }
    unfold peek. simpl. rewrite <- E, list_lookup_middle by done. simpl.
    rewrite I1. by apply eval_deps_ext.
Qed.

(** *** The tracking stack *)










(** *** Listeners are listed once *)

Lemma NoDup_set_add `{EqDecision A} (x : A) (s : list A) :
  NoDup s → NoDup (set_add x s).
Proof.
  intros H. unfold set_add. case_bool_decide as Hin; [done|].
  apply NoDup_app. split; [done|]. split; [|apply NoDup_singleton].
  intros y Hy Hy'. apply list_elem_of_singleton in Hy' as ->. done.
Qed.

Lemma listed_once_obs (w w' : World) :
  (∀ s, listeners w' s = listeners w s ∨ listeners w' s = []) →
  listed_once w → listed_once w'.
Proof.
  intros H Hw s. destruct (H s) as [-> | ->]; [apply Hw|apply NoDup_nil_2].
Qed.

Lemma read_listed_once (s : Src) (w : World) :
  listed_once w → listed_once (snd (read s w)).
Proof.
  intros H s'. rewrite listeners_read. case_decide; [|apply H].
  unfold tx_add. destruct (getTracked w); [|apply H].
  apply NoDup_set_add, H.
Qed.

Lemma publish_listed_once (s : Src) (v : Value) (w : World) :
  listed_once w → listed_once (publish s v w).
Proof.
  apply listed_once_obs. intros s'. rewrite listeners_publish.
  case_decide; [by right|by left].
Qed.

Lemma interp_listed_once {A} (p : Comp A) (w : World) :
  listed_once w → listed_once (snd (interp p w)).
Proof.
  revert w. induction p as [a|s k IH|i v k IH]; intros w H; [done| |].
  - rewrite interp_read_unfold. by apply IH, read_listed_once.
  - simpl. apply IH. rewrite send_publish. by apply publish_listed_once.
Qed.

Lemma run_compute_listed_once (f : Compute) (w : World) :
  listed_once w → listed_once (snd (run_compute f w)).
Proof.
  destruct f as [p|t]; [apply interp_listed_once|]. intros H. simpl.
  unfold takeValues_compute. destruct (takers w !! t) as [tk|]; [|done].
  destruct (tk_isComplete tk); [done|].
  pose proof (read_listed_once (tk_signal tk) w H) as H1.
  destruct (read (tk_signal tk) w) as [nx w1]. simpl in H1.
  by destruct (negb (nullish nx)).
Qed.

Lemma withTracking_listed_once {A} (m : M A) (l : Lid) (w : World) :
  (∀ w0, listed_once w0 → listed_once (snd (m w0))) →
  listed_once w → listed_once (snd (withTracking l m w)).
Proof.
  intros Hm H. unfold withTracking.
  set (w1 := record (EvTracked l) (with_scopes (scopes w ++ [l]) w)).
  specialize (Hm w1 H). destruct (m w1) as [a w2]. exact Hm.
Qed.

Lemma run_job_listed_once (l : Lid) (j : Job) (w : World) :
  listed_once w → listed_once (run_job l j w).
Proof.
  intros H. destruct j as [c|q]; simpl.
  - rewrite recompute_job_spec. destruct (compute_of w c) as [f|]; [|done].
    simpl. apply publish_listed_once. apply withTracking_listed_once; [|done].
    intros w0. apply run_compute_listed_once.
  - apply withTracking_listed_once; [|done].
    intros w0. apply interp_listed_once.
Qed.

Lemma useComputedWith_listed_once (f : Compute) (w : World) :
  listed_once w → listed_once (snd (useComputedWith f w)).
Proof.
  intros H. unfold useComputedWith. simpl.
  set (w1 := with_throttles _ w).
  pose proof (withTracking_listed_once (run_compute f) (length (throttles w))
                w1 (λ w0, run_compute_listed_once f w0) H) as H2.
  destruct (withTracking (length (throttles w)) (run_compute f) w1)
    as [v w2]. simpl in *.
  revert H2. apply listed_once_obs. intros [i|i]; [by left|].
  unfold listeners. simpl.
  destruct (computeds w2 !! i) as [cp|] eqn:E.
  - left. by rewrite (lookup_app_l_Some _ _ _ _ E).
  - right. apply lookup_ge_None in E. rewrite lookup_app_r by done.
    destruct (i - length (computeds w2)) as [|n]; [done|]. by destruct n.
Qed.

Lemma apply_op_listed_once (w : World) (op : Op) :
  listed_once w → listed_once (apply_op op w).
Proof.
  intros H. destruct op as [v|p|q|s|i v|]; simpl.
  - revert H. apply listed_once_obs. intros [i|i]; [|by left].
    unfold listeners. simpl.
    destruct (signals w !! i) as [c|] eqn:E.
    + left. by rewrite (lookup_app_l_Some _ _ _ _ E).
    + right. apply lookup_ge_None in E. rewrite lookup_app_r by done.
      destruct (i - length (signals w)) as [|n]; [done|]. by destruct n.
  - by apply useComputedWith_listed_once.
  - unfold useEffect. simpl. apply withTracking_listed_once; [|done].
    intros w0. apply interp_listed_once.
  - unfold takeValues. pose proof (read_listed_once s w H) as H1.
    destruct (read s w) as [v w1]. simpl in H1.
    by apply useComputedWith_listed_once.
  - rewrite send_publish. by apply publish_listed_once.
  - unfold tick. destruct (microtasks w) as [|l rest]; [done|].
    rewrite perform_spec.
    destruct (job_of (with_microtasks rest w) l) as [j|]; [|done].
    apply (run_job_listed_once l j (with_microtasks rest w)), H.
Qed.

(** X7.  Listeners are deduplicated: in every world reached by the
    operations of the library no signal and no computed signal lists a
    throttled function twice, however often a tracked function read it. *)
Theorem listeners_listed_once (w : World) (s : Src) :
  Reachable w → NoDup (listeners w s).
Proof.
  intros Hr. revert s. change (listed_once w).
  induction Hr as [|w op Hr IH Hv]; [|by apply apply_op_listed_once].
  intros [i|i]; unfold listeners; simpl; destruct i; apply NoDup_nil_2.
Qed.

Lemma listeners_listed_once_witness :
  NoDup (listeners diamond_reads (Sig 0)).
Proof.
  apply listeners_listed_once. unfold diamond_reads. reach_ops.
  split; [intros v; by destruct v|].
  split; [lia|]. intros v. by destruct v.
Defined.

(** *** [takeValues] of a signal that is null from the start *)

Lemma takeValues_null_makes (w : World) (s : Src) :
  nullish (peek w s) = true →
  let r := takeValues s w in
  takers (snd r) !! length (takers w) = Some (mkTaker s (peek w s) true)
  ∧ compute_of (snd r) (fst r) = Some (CTakeValues (length (takers w)))
  ∧ fst (read (Cmp (fst r)) (snd r)) = peek w s.
Proof.
  intros Hn. simpl. rewrite read_value. unfold takeValues.
  destruct (read_frame w s) as (_ & Hth & Ht & _ & _ & Hp & _).
  pose proof (read_sizes w s) as Hz. pose proof (read_value w s) as Hv.
  destruct (read s w) as [v w1]; simpl in *. subst v.
  assert (length (computeds w1) = length (computeds w)) as Enc.
  { unfold sizes in Hz. by injection Hz as _ -> _. }
  rewrite Ht. unfold useComputedWith. simpl.
  set (tk := mkTaker s (peek w s) false).
  set (w2 := with_throttles _ _).
  assert (takers w2 !! length (takers w) = Some tk) as Htk.
  { simpl. by rewrite list_lookup_middle. }
  destruct (withTracking_takeValues w2 (length (throttles w1))
              (length (takers w)) tk Htk) as (R1 & R2 & Q).
  destruct Q as (_ & Qz & _).
  change (peek w2 (tk_signal tk)) with (peek w1 s) in R1, R2.
  rewrite Hp in R1, R2. unfold taken in R1, R2. simpl in R1, R2.
  rewrite Hn in R1, R2.
  destruct (withTracking (length (throttles w1))
              (takeValues_compute (length (takers w))) w2) as [v3 w3].
  simpl in *.
  assert (length (computeds w3) = length (computeds w1)) as Enc3.
  { unfold sizes in Qz. by injection Qz as _ -> _. }
  split; [|split].
  - rewrite R2. apply list_lookup_insert_eq. rewrite length_app. simpl. lia.
  - unfold compute_of. simpl. rewrite <- Enc3.
    by rewrite list_lookup_middle.
  - unfold peek. simpl. rewrite <- Enc3.
    rewrite list_lookup_middle by done. simpl. exact R1.
Qed.

(** X8.  [takeValues(s)] called while [s()] is [null] or [undefined]
    returns a computed signal that is complete from its first evaluation:
    it holds that value and reads the same after any further operations,
    so it never takes a value of [s]. *)
Theorem takeValues_of_null_is_complete (w : World) (s : Src) :
  Reachable w →
  src_below (length (signals w)) (length (computeds w)) s →
  nullish (peek w s) = true →
  let r := takeValues s w in
  takers (snd r) !! length (takers w) = Some (mkTaker s (peek w s) true)
  ∧ ∀ w', Steps (snd r) w' → fst (read (Cmp (fst r)) w') = peek w s.
Proof.
  intros Hr Hb Hn. simpl.
  destruct (takeValues_null_makes w s Hn) as (H1 & H2 & _).
  split; [done|]. intros w' Hs.
  assert (Reachable (snd (takeValues s w))) as Hr1.
  { by apply (reach_step w (OpTakeValues s)). }
  destruct (steps_keeps _ _ Hs) as [K1 K2].
  destruct (reachable_sound w' (steps_reachable _ _ Hr1 Hs))
    as (_ & _ & H3 & _).
  destruct (H3 (fst (takeValues s w)) (length (takers w))
              (mkTaker s (peek w s) true)) as [Hpk _];
    [done|by apply K1|by apply K2|].
  by rewrite read_value.
Qed.

Lemma takeValues_of_null_is_complete_witness :
  takers taking_null !! 0 = Some (mkTaker (Sig 0) VNull true)
  ∧ fst (read (Cmp 0) (tick (send 0 (VNum 3) taking_null))) = VNull.
Proof.
  assert (Reachable (apply_op (OpSignal VNull) empty)) as Hr.
  { apply reach_step; [apply reach_empty|exact I]. }
  destruct (takeValues_of_null_is_complete
              (apply_op (OpSignal VNull) empty) (Sig 0) Hr
              (le_n 1) eq_refl) as [H1 H2].
  split; [exact H1|].
  apply (H2 (tick (send 0 (VNum 3) taking_null))).
  apply (steps_step _ _ (OpSend 0 (VNum 3))); [exact I|].
  apply (steps_step _ _ OpTick); [exact I|]. apply steps_refl.
Defined.

End TrackedMore.

(** ** Further properties of the observer-based engine *)

Module ObservedMoreFacts.
Import Observed ObservedSpec ObservedMore.
Import ObservedFacts.

(** *** Writes *)

Lemma setValue_exists (w : World) (i j : nat) (v : Value) :
  is_Some (signals (setValue i v w) !! j) ↔ is_Some (signals w !! j).
Proof.
  unfold setValue. destruct (signals w !! i) as [s|] eqn:E; [|done].
  destruct (strict_neq (value s) v); [|done].
  destruct (throttle_call_frame
              (with_signals
                 (<[i := mkSignal v (observers s) (throttle s)]> (signals w)) w)
              (throttle s) (Dispatch i)) as (-> & _).
  simpl. rewrite !lookup_lt_is_Some. by rewrite length_insert.
Qed.

Lemma advanceState_value (step : Value → Value → Value) (i : nat) (v : Value)
    (w : World) :
  is_Some (signals w !! i) →
  getValue i (advanceState step i v w) = step (getValue i w) v.
Proof. intros H. unfold advanceState. by apply getValue_setValue. Qed.

(** X9.  A reducer signal folds: after the values [vs] have been sent to
    the setter that [useReducer] returned, in any number of ticks, the
    signal holds [step] folded over them from [initial]; the state a
    [step] sees is the one the previous call left, without waiting for a
    dispatch. *)
Theorem useReducer_folds (step : Value → Value → Value) (initial : Value)
    (vs : list Value) (w : World) :
  let r := useReducer step initial w in
  getValue (fst (fst r)) (snd r) = initial
  ∧ getValue (fst (fst r)) (foldl (λ w' v, snd (fst r) v w') (snd r) vs)
    = foldl step initial vs.
Proof.
  simpl. unfold useReducer, useSignal, signal. simpl.
  set (i := length (signals w)).
  set (w1 := with_signals _ _).
  assert (signals w1 !! i = Some (mkSignal initial [] (length (schedulers w))))
    as Hi by (simpl; by rewrite list_lookup_middle).
  assert (getValue i w1 = initial) as Hv by (unfold getValue; by rewrite Hi).
  split; [done|].
  assert (is_Some (signals w1 !! i)) as Hs by (by eexists).
  clear Hi. revert Hv Hs. generalize w1. generalize initial.
  induction vs as [|v vs IH]; intros init w' Hv Hs; [done|].
  simpl. apply IH.
  - rewrite advanceState_value by done. by rewrite Hv.
  - unfold advanceState. by apply setValue_exists.
Qed.

(** *** Writes within one tick *)

Lemma setValue_written (w : World) (i : nat) (s : Signal) (sch : Scheduler)
    (v : Value) :
  signals w !! i = Some s →
  schedulers w !! throttle s = Some sch →
  strict_neq (value s) v = true →
  setValue i v w = written i s v (isUpdateScheduled sch) w.
Proof.
  intros Hi Hs Hn. unfold setValue. rewrite Hi, Hn.
  unfold throttle_call. simpl. rewrite Hs. unfold written.
  destruct (isUpdateScheduled sch) eqn:Eb; simpl.
  - unfold with_schedulers. simpl. by rewrite app_nil_r.
  - unfold with_microtasks, with_schedulers. simpl.
    by rewrite list_insert_insert_eq.
Qed.

Lemma setValue_rewritten (w : World) (i : nat) (s : Signal) (sch : Scheduler)
    (v v' : Value) (was : bool) :
  signals w !! i = Some s →
  schedulers w !! throttle s = Some sch →
  setValue i v' (written i s v was w) = written i s v' was w.
Proof.
  intros Hi Hs.
  assert (i < length (signals w)) as Hlt by (by apply lookup_lt_Some in Hi).
  assert (throttle s < length (schedulers w)) as Hlt'
    by (by apply lookup_lt_Some in Hs).
  unfold setValue. simpl. rewrite list_lookup_insert_eq by done. simpl.
  destruct (strict_neq v v') eqn:En.
  - unfold throttle_call. simpl. rewrite list_lookup_insert_eq by done.
    simpl. unfold written, with_schedulers. simpl.
    by rewrite !list_insert_insert_eq.
  - by apply TrackedFacts.strict_neq_false in En as ->.
Qed.

Lemma default_last_cons {A} (v v' : A) (vs : list A) :
  default v (last (v' :: vs)) = default v' (last vs).
Proof. rewrite last_cons. by destruct (last vs). Qed.

Lemma setValues_rewritten (w : World) (i : nat) (s : Signal) (sch : Scheduler)
    (v : Value) (vs : list Value) (was : bool) :
  signals w !! i = Some s →
  schedulers w !! throttle s = Some sch →
  setValues i vs (written i s v was w)
  = written i s (default v (last vs)) was w.
Proof.
  intros Hi Hs. revert v. induction vs as [|v' vs IH]; intros v; [done|].
  unfold setValues. simpl. rewrite (setValue_rewritten w i s sch) by done.
  fold (setValues i vs (written i s v' was w)). rewrite IH.
  by rewrite default_last_cons.
Qed.

Lemma setValues_written (w : World) (i : nat) (s : Signal) (sch : Scheduler)
    (vs : list Value) :
  signals w !! i = Some s →
  schedulers w !! throttle s = Some sch →
  setValues i vs w
  = if changes (value s) vs
    then written i s (default (value s) (last vs)) (isUpdateScheduled sch) w
    else w.
Proof.
  intros Hi Hs. induction vs as [|v vs IH]; [done|].
  unfold setValues. simpl. destruct (strict_neq (value s) v) eqn:En; simpl.
  - rewrite (setValue_written w i s sch) by done.
    fold (setValues i vs (written i s v (isUpdateScheduled sch) w)).
    rewrite (setValues_rewritten w i s sch) by done.
    by rewrite default_last_cons.
  - rewrite setValue_same by (unfold getValue; by rewrite Hi).
    fold (setValues i vs w). rewrite IH.
    apply TrackedFacts.strict_neq_false in En as <-.
    destruct (changes (value s) vs) eqn:Ec; [|done].
    rewrite default_last_cons. destruct vs as [|v' vs]; [done|].
    by rewrite !default_last_cons.
Qed.

(** *** One dispatch *)

Lemma dispatch_loop_callers (i : nat) (os ks : list nat) (w : World) :
  (∀ o, o ∈ os → o ∈ observers_of i w) →
  callers w os ks →
  dispatch_loop i os w
  = (inr tt,
     mkWorld (schedulers w) (signals w) (observerTable w) (reductionTable w)
       (batches w) (cancelOf w) (stores w) (microtasks w)
       (log w ++ ((λ k, EvObserved k (getValue i w)) <$> ks))).
Proof.
  intros Hin Hc. revert w Hin Hc. revert ks.
  induction os as [|o os IH]; intros ks w Hin Hc.
  - apply Forall2_nil_inv_l in Hc as ->. simpl. rewrite app_nil_r.
    by destruct w.
  - apply Forall2_cons_inv_l in Hc as (k & ks' & Hk & Hc & ->).
    simpl. rewrite bool_decide_eq_true_2 by (apply Hin; set_solver).
    unfold bind, run_observer. rewrite Hk.
    rewrite (IH ks' (record (EvObserved k (getValue i w)) w)).
    + simpl. by rewrite <- app_assoc.
    + intros o' Ho'. apply (Hin o'). set_solver.
    + exact Hc.
Qed.

(** X10.  Writes are batched.  For a signal whose scheduler is idle and
    whose observers are functions of the caller, with nothing else in the
    queue: writes that never change the value do nothing at all; otherwise,
    however many writes there were, one microtask is queued and nobody is
    called before it runs, and when it runs every observer is called once,
    in the order of subscription, with the value written last, also when
    that is the value the signal held before the writes. *)
Theorem writes_batch_into_one_dispatch (w : World) (i : nat) (s : Signal)
    (p : option Thunk) (vs : list Value) (ks : list nat) :
  signals w !! i = Some s →
  schedulers w !! throttle s = Some (mkScheduler p false) →
  microtasks w = [] →
  callers w (observers s) ks →
  (changes (value s) vs = false → setValues i vs w = w)
  ∧ (changes (value s) vs = true →
     let w1 := setValues i vs w in
     let final := default (value s) (last vs) in
     microtasks w1 = [throttle s]
     ∧ log w1 = log w
     ∧ getValue i w1 = final
     ∧ log (tick w1) = log w ++ ((λ k, EvObserved k final) <$> ks)
     ∧ microtasks (tick w1) = []
     ∧ getValue i (tick w1) = final).
Proof.
  intros Hi Hs Hm Hc.
  rewrite (setValues_written w i s _ vs Hi Hs).
  split; [by intros ->|]. intros ->. simpl.
  assert (i < length (signals w)) as Hlt by (by apply lookup_lt_Some in Hi).
  assert (throttle s < length (schedulers w)) as Hlt'
    by (by apply lookup_lt_Some in Hs).
  set (final := default (value s) (last vs)).
  assert (getValue i (written i s final false w) = final) as Hg.
  { unfold getValue. simpl. by rewrite list_lookup_insert_eq. }
  split; [by rewrite Hm|]. split; [done|]. split; [done|].
  unfold tick. simpl. rewrite Hm. simpl.
  unfold performUpdate. simpl. rewrite list_lookup_insert_eq by done.
  simpl. unfold bind, dispatch.
  set (W := with_microtasks [] (written i s final false w)).
  assert (observers_of i W = observers s) as Ho.
  { unfold observers_of. simpl. by rewrite list_lookup_insert_eq. }
  rewrite Ho, (dispatch_loop_callers i (observers s) ks W).
  - simpl. unfold getValue. simpl.
    rewrite list_lookup_insert_eq by done. done.
  - intros o Hin. by rewrite Ho.
  - exact Hc.
Qed.

Lemma watched_callers : callers watched (observers_of 0 watched) [0; 1].
Proof. repeat constructor. Qed.

Lemma writes_batch_into_one_dispatch_witness :
  log (tick (setValues 0 [VNum 2; VNum 3; VNum 1] watched))
  = log watched ++ [EvObserved 0 (VNum 1); EvObserved 1 (VNum 1)].
Proof.
  refine (proj1 (proj2 (proj2 (proj2 (proj2
    (writes_batch_into_one_dispatch watched 0 (mkSignal (VNum 1) [0; 1] 0)
       None [VNum 2; VNum 3; VNum 1] [0; 1]
       eq_refl eq_refl eq_refl watched_callers) eq_refl))))).
Defined.

(** *** [batchCancels] *)

Lemma call_cancel_frame (c : Cancel) (w : World) :
  batches (call_cancel c w) = batches w
  ∧ log (call_cancel c w)
    = log w ++ match c with
               | CallerCancel k => [EvCalled k]
               | Unobserve _ _ => []
               end.
Proof. destruct c; simpl; by rewrite ?app_nil_r. Qed.

Lemma observers_of_set_observers (w : World) (i j : nat) (os : list nat) :
  observers_of j (set_observers i os w)
  = if decide (i = j ∧ is_Some (signals w !! i)) then os else observers_of j w.
Proof.
  unfold observers_of, set_observers. simpl. rewrite list_lookup_alter.
  case_decide as Hd.
  - subst. destruct (signals w !! j) eqn:E; simpl.
    + rewrite decide_True; [done|]. split; [done|by eexists].
    + rewrite decide_False; [done|]. by intros [_ [??]].
  - rewrite decide_False by naive_solver. done.
Qed.

Lemma call_cancel_absent (c : Cancel) (w : World) (i o : nat) :
  o ∉ observers_of i w ∨ c = Unobserve i o →
  o ∉ observers_of i (call_cancel c w).
Proof.
  intros H. destruct c as [j o'|k]; simpl.
  - rewrite observers_of_set_observers. case_decide as Hd.
    + destruct Hd as [-> _]. unfold set_delete.
      rewrite list_elem_of_filter. intros [Hne Hin].
      destruct H as [H|[= <-]]; naive_solver.
    + destruct H as [H|[= -> ->]]; [done|].
      unfold observers_of in *. destruct (signals w !! i) eqn:E.
      * exfalso. apply Hd. split; [done|by eexists].
      * apply not_elem_of_nil.
  - destruct H as [H|H]; [done|discriminate].
Qed.

Lemma cancel_calls_app (k : nat) (xs ys : list Event) :
  cancel_calls k (xs ++ ys) = cancel_calls k xs + cancel_calls k ys.
Proof. unfold cancel_calls. by rewrite filter_app, length_app. Qed.

Lemma run_cancels_spec (cs : list Cancel) (w : World) :
  let w' := foldl (λ w0 c, call_cancel c w0) w cs in
  batches w' = batches w
  ∧ (NoDup cs →
     ∀ k, cancel_calls k (log w')
          = cancel_calls k (log w)
            + (if decide (CallerCancel k ∈ cs) then 1 else 0))
  ∧ ∀ i o, o ∉ observers_of i w ∨ Unobserve i o ∈ cs →
           o ∉ observers_of i w'.
Proof.
  cbv zeta. revert w. induction cs as [|c cs IH]; intros w.
  - cbn [foldl]. split; [done|]. split.
    + intros _ k. rewrite decide_False by apply not_elem_of_nil. lia.
    + intros i o [H|H]; [done|]. by apply elem_of_nil in H.
  - cbn [foldl]. destruct (IH (call_cancel c w)) as (I1 & I2 & I3).
    destruct (call_cancel_frame c w) as [F1 F2].
    split; [by rewrite I1|]. split.
    + intros [Hc Hnd]%NoDup_cons k. rewrite (I2 Hnd), F2, cancel_calls_app.
      destruct c as [j o|k'].
      * change (cancel_calls k []) with 0.
        repeat case_decide; set_solver by lia.
      * destruct (decide (k' = k)) as [->|Hne].
        -- rewrite (decide_False (P := CallerCancel k ∈ cs)) by done.
           rewrite decide_True by set_solver.
           unfold cancel_calls at 2. rewrite filter_cons_True by done.
           simpl. lia.
        -- unfold cancel_calls at 2.
           rewrite filter_cons_False by congruence. simpl.
           repeat case_decide; set_solver by lia.
    + intros i o H. apply I3.
      destruct (decide (Unobserve i o ∈ cs)) as [Hin|Hnin]; [by right|].
      left. apply call_cancel_absent.
      destruct H as [H|H]; [by left|]. right. set_solver.
Qed.

Lemma set_adds_spec `{EqDecision A} (xs acc : list A) :
  let d := foldl (λ s c, set_add c s) acc xs in
  (NoDup acc → NoDup d) ∧ ∀ x, x ∈ d ↔ x ∈ acc ∨ x ∈ xs.
Proof.
  simpl. revert acc. induction xs as [|y xs IH]; intros acc.
  - simpl. split; [done|]. set_solver.
  - simpl. destruct (IH (set_add y acc)) as [I1 I2]. split.
    + intros H. apply I1. unfold set_add. case_bool_decide; [done|].
      apply NoDup_app. split; [done|]. split; [|apply NoDup_singleton].
      intros z Hz Hz'. apply list_elem_of_singleton in Hz' as ->. done.
    + intros x. rewrite I2. unfold set_add.
      case_bool_decide; set_solver.
Qed.

(** X11.  The function that [batchCancels] returns runs every cancel
    function of the batch once, however often it is listed and however
    often the returned function is called: a second call changes nothing.
    After it, no subscription of the batch is left with its signal. *)
Theorem batchCancels_runs_each_once (w : World) (cancels : list Cancel) :
  let r := batchCancels cancels w in
  let once := call (fst r) (snd r) in
  (∀ k, cancel_calls k (log once)
        = cancel_calls k (log w)
          + (if decide (CallerCancel k ∈ cancels) then 1 else 0))
  ∧ (∀ i o, Unobserve i o ∈ cancels → o ∉ observers_of i once)
  ∧ call (fst r) once = once.
Proof.
  simpl. unfold batchCancels. simpl.
  set (d := foldl (λ s c, set_add c s) [] cancels).
  destruct (set_adds_spec cancels []) as [D1 D2]. fold d in D1, D2.
  specialize (D1 (NoDup_nil_2)).
  rewrite list_lookup_middle by done.
  set (w0 := with_batches (batches w ++ [d]) w).
  destruct (run_cancels_spec d w0) as (R1 & R2 & R3).
  set (w1 := foldl (λ w' c, call_cancel c w') w0 d) in *.
  split; [|split].
  - intros k. simpl. rewrite (R2 D1 k). simpl. f_equal.
    repeat case_decide; try done; exfalso; set_solver.
  - intros i o Hin.
    change (o ∉ observers_of i w1). apply R3. right. apply D2. by right.
  - simpl. rewrite list_lookup_insert_eq.
    2:{ rewrite R1. simpl. rewrite length_app. simpl. lia. }
    simpl. unfold with_batches. simpl. by rewrite list_insert_insert_eq.
Qed.

(** *** [reductions] *)

Lemma observers_of_setValue (w : World) (i j : nat) (v : Value) :
  observers_of j (setValue i v w) = observers_of j w.
Proof.
  unfold setValue. destruct (signals w !! i) as [s|] eqn:E; [|done].
  destruct (strict_neq (value s) v); [|done].
  unfold observers_of.
  destruct (throttle_call_frame
              (with_signals
                 (<[i := mkSignal v (observers s) (throttle s)]> (signals w)) w)
              (throttle s) (Dispatch i)) as (-> & _).
  simpl. destruct (decide (i = j)) as [->|Hne].
  - rewrite list_lookup_insert_eq by (by apply lookup_lt_Some in E).
    by rewrite E.
  - by rewrite list_lookup_insert_ne.
Qed.

Lemma getValue_setValue_ne (w : World) (i j : nat) (v : Value) :
  i ≠ j → getValue j (setValue i v w) = getValue j w.
Proof.
  intros Hne. unfold setValue.
  destruct (signals w !! i) as [s|] eqn:E; [|done].
  destruct (strict_neq (value s) v); [|done].
  unfold getValue.
  destruct (throttle_call_frame
              (with_signals
                 (<[i := mkSignal v (observers s) (throttle s)]> (signals w)) w)
              (throttle s) (Dispatch i)) as (-> & _).
  simpl. by rewrite list_lookup_insert_ne.
Qed.

Lemma getValue_set_observers (w : World) (i j : nat) (os : list nat) :
  getValue j (set_observers i os w) = getValue j w.
Proof.
  unfold getValue, set_observers. simpl. rewrite list_lookup_alter.
  case_decide; [subst|done]. by destruct (signals w !! j).
Qed.

Lemma setValue_tables (w : World) (i : nat) (v : Value) :
  observerTable (setValue i v w) = observerTable w
  ∧ reductionTable (setValue i v w) = reductionTable w
  ∧ batches (setValue i v w) = batches w
  ∧ cancelOf (setValue i v w) = cancelOf w.
Proof.
  unfold setValue. destruct (signals w !! i) as [s|]; [|done].
  destruct (strict_neq (value s) v); [|done].
  unfold throttle_call. simpl.
  destruct (schedulers w !! throttle s) as [sch|]; [|done].
  by destruct (isUpdateScheduled sch).
Qed.

Lemma set_delete_fresh (o : nat) (os : list nat) :
  o ∉ os → set_delete o (os ++ [o]) = os.
Proof.
  intros H. unfold set_delete. rewrite filter_app.
  rewrite filter_cons_False by naive_solver. rewrite filter_nil, app_nil_r.
  induction os as [|x os IH]; [done|].
  rewrite filter_cons_True by set_solver. f_equal. apply IH. set_solver.
Qed.

Lemma set_add_fresh (o : nat) (os : list nat) :
  o ∉ os → set_add o os = os ++ [o].
Proof. intros H. unfold set_add. by rewrite bool_decide_eq_false_2. Qed.

Lemma run_observer_plain (w : World) (o r : nat) (red : Reduction)
    (x v : Value) :
  observerTable w !! o = Some (OReduction r) →
  reductionTable w !! r = Some red →
  r_step red (getValue (r_state red) w) x = Plain v →
  run_observer o x w = (inr tt, setValue (r_state red) v w).
Proof. intros Ho Hr Hs. unfold run_observer. by rewrite Ho, Hr, Hs. Qed.

Lemma reductions_plain (w : World) (step : Step) (i : nat) (init v : Value) :
  i < length (signals w) →
  step init (getValue i w) = Plain v →
  let d := length (signals w) in
  let o := length (observerTable w) in
  let w4 := setValue d v (subscribing step init w) in
  reductions step i init w
  = (inr d,
     with_cancelOf
       (λ ob, if bool_decide (ob = OSignal d)
              then Some (FCancel (Unobserve i o)) else cancelOf w4 ob)
       (set_reduction_cancel (length (reductionTable w))
          (FCancel (Unobserve i o))
          (set_observers i (set_add o (observers_of i w4)) w4))).
Proof.
  intros Hi Hstep. cbv zeta.
  change (reductions step i init w)
    with ((let* cancel := observe i (length (observerTable w)) in
           modify (set_reduction_cancel (length (reductionTable w))
                     (FCancel cancel)) >>
           setCancel (OSignal (length (signals w))) (AFn (FCancel cancel)) >>
           ret (length (signals w))) (subscribing step init w)).
  unfold bind at 1. unfold observe. unfold bind at 1. unfold bind at 1.
  rewrite (run_observer_plain (subscribing step init w) _
             (length (reductionTable w))
             (mkReduction step (length (signals w)) None) _ v).
  - reflexivity.
  - simpl. by rewrite list_lookup_middle.
  - simpl. by rewrite list_lookup_middle.
  - simpl. unfold getValue. simpl. rewrite list_lookup_middle by done.
    simpl. rewrite lookup_app_l by done. exact Hstep.
Qed.


Lemma reductions_plain_spec (w : World) (step : Step) (i : nat)
    (init v : Value) :
  i < length (signals w) →
  wf_observers w →
  step init (getValue i w) = Plain v →
  let r := reductions step i init w in
  let d := length (signals w) in
  let o := length (observerTable w) in
  fst r = inr d
  ∧ getValue d (snd r) = v
  ∧ observers_of i (snd r) = observers_of i w ++ [o]
  ∧ cancelOf (snd r) (OSignal d) = Some (FCancel (Unobserve i o))
  ∧ observers_of i (cancel (OSignal d) (snd r)) = observers_of i w
  ∧ log (snd r) = log w
  ∧ observerTable (snd r) !! o = Some (OReduction (length (reductionTable w)))
  ∧ reductionTable (snd r) !! length (reductionTable w)
    = Some (mkReduction step d (Some (FCancel (Unobserve i o))))
  ∧ is_Some (signals (snd r) !! d)
  ∧ (strict_neq init v = false → microtasks (snd r) = microtasks w)
  ∧ wf_observers (snd r).
Proof.
  intros Hi Hwf Hstep. cbv zeta.
  rewrite (reductions_plain w step i init v Hi Hstep). cbn [fst snd].
  set (d := length (signals w)). set (o := length (observerTable w)).
  set (W := subscribing step init w).
  set (w4 := setValue d v W).
  assert (is_Some (signals W !! d)) as Hd.
  { simpl. rewrite list_lookup_middle by done. by eexists. }
  assert (observers_of i w4 = observers_of i w) as Ho4.
  { unfold w4. rewrite observers_of_setValue. unfold observers_of. simpl.
    by rewrite lookup_app_l. }
  assert (o ∉ observers_of i w) as Hfresh.
  { intros Hin. apply Hwf in Hin. unfold o in Hin. lia. }
  assert (is_Some (signals w4 !! i)) as Hi4.
  { unfold w4. apply setValue_exists. simpl.
    apply lookup_lt_is_Some. rewrite length_app. lia. }
  set (w5 := set_observers i (set_add o (observers_of i w4)) w4).
  assert (observers_of i w5 = observers_of i w ++ [o]) as Ho5.
  { unfold w5. rewrite observers_of_set_observers, decide_True by done.
    rewrite Ho4. by apply set_add_fresh. }
  destruct (setValue_tables W d v) as (T1 & T2 & _).
  split; [done|].
  split;
    [|split; [|split; [|split; [|split; [|split; [|split; [|split;
       [|split]]]]]]]].
  - change (getValue d w5 = v). unfold w5.
    rewrite getValue_set_observers. unfold w4. by apply getValue_setValue.
  - exact Ho5.
  - simpl. by rewrite bool_decide_eq_true_2.
  - unfold cancel. simpl. rewrite bool_decide_eq_true_2 by done. simpl.
    set (w7 := with_cancelOf _ _).
    change (observers_of i w7) with (observers_of i w5).
    rewrite observers_of_set_observers.
    rewrite decide_True.
    + rewrite Ho5. by apply set_delete_fresh.
    + split; [done|]. change (is_Some (signals w5 !! i)).
      unfold w5, set_observers. simpl. apply lookup_lt_is_Some.
      rewrite length_alter. by apply lookup_lt_is_Some.
  - change (log w4 = log w). unfold w4.
    by destruct (setValue_frame W d v) as [_ ->].
  - change (observerTable w4 !! o = Some (OReduction (length (reductionTable w)))).
    fold w4 in T1. rewrite T1. simpl. by rewrite list_lookup_middle.
  - simpl. fold w4 in T2. change (reductionTable w5) with (reductionTable w4).
    rewrite T2. simpl. rewrite list_lookup_alter, decide_True by done.
    by rewrite list_lookup_middle.
  - change (is_Some (signals w5 !! d)). unfold w5, set_observers. simpl.
    apply lookup_lt_is_Some. rewrite length_alter. apply lookup_lt_is_Some.
    unfold w4. by apply setValue_exists.
  - intros Hsame. change (microtasks w4 = microtasks w). unfold w4.
    rewrite setValue_same; [done|].
    unfold getValue. simpl. by rewrite list_lookup_middle.
  - intros t o' Hin. change (o' ∈ observers_of t w5) in Hin.
    change (o' < length (observerTable w4)). fold w4 in T1. rewrite T1.
    simpl.
    rewrite length_app. simpl. fold o.
    assert (∀ t', observers_of t' w4 = observers_of t' w) as Hall.
    { intros t'. unfold w4. rewrite observers_of_setValue.
      unfold observers_of. simpl.
      destruct (signals w !! t') as [sg|] eqn:Et.
      - by rewrite (lookup_app_l_Some _ _ _ _ Et).
      - apply lookup_ge_None in Et. rewrite lookup_app_r by done.
        destruct (t' - length (signals w)) as [|k]; [done|]. by destruct k. }
    unfold w5 in Hin. rewrite observers_of_set_observers in Hin.
    case_decide as Hdec.
    + apply TrackedFacts.elem_of_set_add in Hin as [->|Hin]; [lia|].
      rewrite Hall in Hin. apply Hwf in Hin. fold o in Hin. lia.
    + rewrite Hall in Hin. apply Hwf in Hin. fold o in Hin. lia.
Qed.

Lemma empty_wf : wf_observers empty.
Proof. intros t o. unfold observers_of. simpl. by intros ?%elem_of_nil. Qed.

Lemma signal_wf (v : Value) (w : World) :
  wf_observers w → wf_observers (snd (signal v w)).
Proof.
  intros Hwf t o. unfold observers_of. simpl.
  destruct (signals w !! t) as [s|] eqn:Et.
  - rewrite (lookup_app_l_Some _ _ _ _ Et). intros Hin.
    apply (Hwf t o). unfold observers_of. by rewrite Et.
  - apply lookup_ge_None in Et. rewrite lookup_app_r by done.
    destruct (t - length (signals w)) as [|k];
      [by intros ?%elem_of_nil|].
    destruct k; by intros ?%elem_of_nil.
Qed.

Lemma watched_wf : wf_observers watched.
Proof.
  intros t o. destruct t as [|t]; simpl.
  - intros Hin. vm_compute in Hin.
    apply elem_of_cons in Hin as [->|Hin]; [lia|].
    apply elem_of_cons in Hin as [->|Hin]; [lia|].
    by apply elem_of_nil in Hin.
  - unfold observers_of. simpl. destruct t; by intros ?%elem_of_nil.
Qed.

(** X12.  [reductions(step, upstream, initial)] whose first step, made at
    once with the current value of [upstream], returns a plain state [v]:
    the call returns the new signal, which holds [v] and not [initial];
    the subscription is the last observer of [upstream]; nothing is
    logged; and [cancel] on the new signal takes exactly that subscription
    away, leaving the observers of [upstream] as they were.  The world
    that [reductions] leaves lists only observers that exist. *)
Theorem reductions_subscribes (w : World) (step : Step) (i : nat)
    (init v : Value) :
  i < length (signals w) →
  wf_observers w →
  step init (getValue i w) = Plain v →
  let r := reductions step i init w in
  let d := length (signals w) in
  let o := length (observerTable w) in
  fst r = inr d
  ∧ getValue d (snd r) = v
  ∧ observers_of i (snd r) = observers_of i w ++ [o]
  ∧ cancelOf (snd r) (OSignal d) = Some (FCancel (Unobserve i o))
  ∧ observers_of i (cancel (OSignal d) (snd r)) = observers_of i w
  ∧ log (snd r) = log w
  ∧ wf_observers (snd r).
Proof.
  intros Hi Hwf Hstep.
  destruct (reductions_plain_spec w step i init v Hi Hwf Hstep)
    as (H1 & H2 & H3 & H4 & H5 & H6 & _ & _ & _ & _ & H11).
  done.
Qed.

Lemma reductions_subscribes_witness :
  getValue 1 (snd (reductions stepForward 0 (VNum 7) watched)) = VNum 1
  ∧ observers_of 0 (snd (reductions stepForward 0 (VNum 7) watched))
    = [0; 1; 2]
  ∧ observers_of 0
      (cancel (OSignal 1) (snd (reductions stepForward 0 (VNum 7) watched)))
    = [0; 1].
Proof.
  destruct (reductions_subscribes watched stepForward 0 (VNum 7) (VNum 1)
              (le_n 1) watched_wf eq_refl)
    as (_ & H2 & H3 & _ & H5 & _).
  split; [exact H2|]. split; [exact H3|exact H5].
Defined.



(** X14.  A value that fails the predicate: through [filtering] it
    leaves the reduced signal and the whole world as they are; through
    [takingWhile] it ends the reduction, the signal keeps its state, the
    subscription is taken from [upstream] and nothing is queued.  Both for
    a reduction whose first value passed and whose state is not [NaN]. *)
Theorem rejected_values (w : World) (i : nat) (p : Value → bool)
    (step : Step) (init v x : Value) :
  i < length (signals w) →
  wf_observers w →
  p (getValue i w) = true →
  step init (getValue i w) = Plain v →
  v ≠ VNaN →
  p x = false →
  let d := length (signals w) in
  let o := length (observerTable w) in
  (let w1 := snd (reductions (filtering p step) i init w) in
   run_observer o x w1 = (inr tt, w1))
  ∧ (let w1 := snd (reductions (takingWhile p step) i init w) in
     fst (run_observer o x w1) = inr tt
     ∧ getValue d (snd (run_observer o x w1)) = v
     ∧ observers_of i (snd (run_observer o x w1)) = observers_of i w
     ∧ microtasks (snd (run_observer o x w1)) = microtasks w1).
Proof.
  intros Hi Hwf Hp Hstep Hv Hx. cbv zeta.
  assert (∀ u, u ≠ VNaN → strict_neq u u = false) as Hsame.
  { intros u Hu. unfold strict_neq, strict_eq.
    destruct u; try done; by rewrite bool_decide_eq_true_2. }
  split.
  - destruct (reductions_plain_spec w (filtering p step) i init v Hi Hwf)
      as (_ & H2 & _ & _ & _ & _ & H7 & H8 & _).
    { unfold filtering. by rewrite Hp. }
    set (w1 := snd (reductions (filtering p step) i init w)) in *.
    unfold run_observer. rewrite H7, H8. simpl. rewrite H2.
    assert (filtering p step v x = Plain v) as ->
      by (unfold filtering; by rewrite Hx).
    rewrite setValue_same; [done|]. rewrite H2. by apply Hsame.
  - destruct (reductions_plain_spec w (takingWhile p step) i init v Hi Hwf)
      as (_ & H2 & H3 & _ & _ & _ & H7 & H8 & H9 & _).
    { unfold takingWhile. by rewrite Hp. }
    set (w1 := snd (reductions (takingWhile p step) i init w)) in *.
    unfold run_observer. rewrite H7, H8. simpl. rewrite H2.
    assert (takingWhile p step v x = Reduced v) as ->
      by (unfold takingWhile; by rewrite Hx).
    simpl. set (w2 := set_observers i _ w1).
    assert (getValue (length (signals w)) w2 = v) as Hg.
    { unfold w2. by rewrite getValue_set_observers. }
    rewrite !setValue_same by (rewrite Hg; by apply Hsame).
    split; [done|]. split; [done|]. split; [|done].
    unfold w2. rewrite observers_of_set_observers, decide_True.
    + rewrite H3. apply set_delete_fresh.
      intros Hin. apply Hwf in Hin. lia.
    + split; [done|]. apply lookup_lt_is_Some.
      apply lookup_lt_is_Some in H9. lia.
Qed.

Lemma rejected_values_witness :
  let w1 := snd (reductions (takingWhile positive stepForward) 0 (VNum 7)
                   watched) in
  getValue 1 (snd (run_observer 2 (VNum 0) w1)) = VNum 1
  ∧ observers_of 0 (snd (run_observer 2 (VNum 0) w1)) = [0; 1].
Proof.
  destruct (rejected_values watched 0 positive stepForward (VNum 7) (VNum 1)
              (VNum 0) (le_n 1) watched_wf eq_refl eq_refl
              ltac:(discriminate) eq_refl)
    as (_ & _ & H2 & H3 & _).
  split; [exact H2|exact H3].
Defined.

(** *** [sample] *)

Lemma filter_ext_in {A} (P Q : A → Prop) `{∀ x, Decision (P x)}
    `{∀ x, Decision (Q x)} (l : list A) :
  (∀ x, x ∈ l → P x ↔ Q x) → filter P l = filter Q l.
Proof.
  induction l as [|x l IH]; intros H1; [done|].
  rewrite !filter_cons. rewrite IH by (intros y Hy; apply H1; set_solver).
  destruct (decide (P x)) as [HP|HP], (decide (Q x)) as [HQ|HQ]; try done.
  - exfalso. apply HQ, H1; [set_solver|done].
  - exfalso. apply HP, H1; [set_solver|done].
Qed.

Lemma filter_all {A} (P : A → Prop) `{∀ x, Decision (P x)} (l : list A) :
  (∀ x, x ∈ l → P x) → filter P l = l.
Proof.
  induction l as [|x l IH]; intros H1; [done|].
  rewrite filter_cons_True by (apply H1; set_solver).
  f_equal. apply IH. intros y Hy. apply H1. set_solver.
Qed.

Lemma observers_of_call_cancel (c : Cancel) (w : World) (t : nat) :
  observers_of t (call_cancel c w)
  = filter (λ o, c ≠ Unobserve t o) (observers_of t w).
Proof.
  destruct c as [j o|k]; simpl.
  - rewrite observers_of_set_observers. case_decide as Hd.
    + destruct Hd as [-> _]. unfold set_delete.
      apply filter_ext_in. intros x _. naive_solver.
    + symmetry. destruct (decide (j = t)) as [->|Hne].
      * unfold observers_of. destruct (signals w !! t) eqn:E; [|done].
        exfalso. apply Hd. split; [done|by eexists].
      * apply filter_all. intros x _. naive_solver.
  - symmetry. apply filter_all. by intros x _.
Qed.

Lemma observers_of_run_cancels (cs : list Cancel) (w : World) (t : nat) :
  observers_of t (foldl (λ w0 c, call_cancel c w0) w cs)
  = filter (λ o, Unobserve t o ∉ cs) (observers_of t w).
Proof.
  revert w. induction cs as [|c cs IH]; intros w.
  - simpl. symmetry. apply filter_all. intros x _. apply not_elem_of_nil.
  - cbn [foldl]. rewrite IH, observers_of_call_cancel, list_filter_filter.
    apply filter_ext_in. intros x _. rewrite not_elem_of_cons. naive_solver.
Qed.

(** One subscription of [sample]. *)
Lemma observe_sample (w : World) (t d : nat) (resample : Resample) :
  let o := length (observerTable w) in
  let w1 := with_observerTable (observerTable w ++ [OSample d resample]) w in
  let w2 := record (EvResample d) w1 in
  let w3 := setValue d (resample (λ i, getValue i w2)) w2 in
  observe t o w1
  = (inr (Unobserve t o),
     set_observers t (set_add o (observers_of t w3)) w3).
Proof.
  cbv zeta. unfold observe, bind, run_observer. simpl.
  by rewrite list_lookup_middle.
Qed.

Lemma filter_below_snoc (m n : nat) (xs : list nat) :
  m ≤ n → filter (λ o, o < m) (set_add n xs) = filter (λ o, o < m) xs.
Proof.
  intros H. unfold set_add. case_bool_decide; [done|].
  rewrite filter_app, filter_cons_False by lia. by rewrite filter_nil, app_nil_r.
Qed.

Lemma observe_triggers_spec (ts : list nat) (d : nat) (resample : Resample)
    (w : World) :
  ∃ cs w', observe_triggers ts d resample w = (inr cs, w')
    ∧ (∀ t o, Unobserve t o ∈ cs →
              length (observerTable w) ≤ o < length (observerTable w'))
    ∧ (∀ t o, o ∈ observers_of t w' →
              o ∈ observers_of t w ∨ Unobserve t o ∈ cs)
    ∧ (∀ m t, m ≤ length (observerTable w) →
              filter (λ o, o < m) (observers_of t w')
              = filter (λ o, o < m) (observers_of t w))
    ∧ log w' = log w ++ replicate (length ts) (EvResample d)
    ∧ batches w' = batches w
    ∧ length (observerTable w')
      = length (observerTable w) + length ts.
Proof.
  revert w. induction ts as [|t ts IH]; intros w.
  - exists [], w. simpl. rewrite app_nil_r.
    split; [done|]. split; [by intros t o ?%elem_of_nil|].
    split; [intros t o H; by left|]. split; [done|]. split; [done|].
    split; [done|lia].
  - cbn [observe_triggers]. unfold new_observer. cbv beta iota zeta.
    unfold bind at 1. rewrite (observe_sample w t d resample).
    set (n := length (observerTable w)).
    set (w1 := with_observerTable (observerTable w ++ [OSample d resample]) w).
    set (w2 := record (EvResample d) w1).
    set (w3 := setValue d (resample (λ i, getValue i w2)) w2).
    set (w4 := set_observers t (set_add n (observers_of t w3)) w3).
    destruct (setValue_tables w2 d (resample (λ i, getValue i w2)))
      as (T1 & _ & T3 & _).
    destruct (setValue_frame w2 d (resample (λ i, getValue i w2)))
      as [_ T5].
    fold w3 in T1, T3, T5.
    assert (∀ t', observers_of t' w3 = observers_of t' w) as Ho3.
    { intros t'. unfold w3. by rewrite observers_of_setValue. }
    assert (length (observerTable w4) = S n) as Hn4.
    { change (length (observerTable w3) = S n). rewrite T1. simpl.
      rewrite length_app. simpl. unfold n. lia. }
    destruct (IH w4) as (cs & w' & E & I2 & I3 & I4 & I5 & I6 & I7).
    rewrite Hn4 in I2, I4, I7.
    unfold bind. rewrite E.
    exists (Unobserve t n :: cs), w'. split; [done|].
    assert (∀ t' o, o ∈ observers_of t' w4 →
                    o ∈ observers_of t' w ∨ (t' = t ∧ o = n)) as Hin4.
    { intros t' o. unfold w4. rewrite observers_of_set_observers.
      case_decide as Hd.
      - destruct Hd as [-> _]. rewrite TrackedFacts.elem_of_set_add, Ho3. naive_solver.
      - rewrite Ho3. by left. }
    assert (∀ m t', m ≤ n → filter (λ o, o < m) (observers_of t' w4)
                             = filter (λ o, o < m) (observers_of t' w))
      as Hf4.
    { intros m t' Hm. unfold w4. rewrite observers_of_set_observers.
      case_decide as Hd.
      - destruct Hd as [-> _]. rewrite filter_below_snoc by done.
        by rewrite Ho3.
      - by rewrite Ho3. }
    split; [|split; [|split; [|split; [|split]]]].
    + intros t' o [Heq|Hin]%elem_of_cons.
      * injection Heq as -> ->. lia.
      * apply I2 in Hin. lia.
    + intros t' o Hin. destruct (I3 t' o Hin) as [H|H].
      * destruct (Hin4 t' o H) as [?|[-> ->]]; [by left|].
        right. set_solver.
      * right. set_solver.
    + intros m t' Hm. rewrite I4 by lia. by apply Hf4.
    + rewrite I5. change (log w4) with (log w3). rewrite T5. simpl.
      by rewrite <- app_assoc.
    + rewrite I6. change (batches w4) with (batches w3). by rewrite T3.
    + rewrite I7. simpl. lia.
Qed.

Lemma occurrences_replicate `{EqDecision A} (x : A) (n : nat) :
  occurrences x (replicate n x) = n.
Proof.
  unfold occurrences. induction n as [|n IH]; [done|].
  simpl. rewrite filter_cons_True by done. simpl. by rewrite IH.
Qed.

Lemma observed_occurrences_app `{EqDecision A} (x : A) (xs ys : list A) :
  occurrences x (xs ++ ys) = occurrences x xs + occurrences x ys.
Proof. unfold occurrences. by rewrite filter_app, length_app. Qed.

(** X15.  [sample(triggers, resample)] calls [resample] once for the
    first value and once more for every trigger as it subscribes; and
    [cancel] on the sampled signal takes all its subscriptions away:
    every signal is left with the observers it had before [sample].  The
    world that [sample] leaves lists only observers that exist. *)
Theorem sample_cancel_round_trip (w : World) (triggers : list nat)
    (resample : Resample) :
  wf_observers w →
  let r := sample triggers resample w in
  let d := length (signals w) in
  fst r = inr d
  ∧ resamples d (log (snd r))
    = resamples d (log w) + 1 + length triggers
  ∧ (∀ t, observers_of t (cancel (OSignal d) (snd r)) = observers_of t w)
  ∧ wf_observers (snd r).
Proof.
  intros Hwf. cbv zeta.
  set (d := length (signals w)).
  set (w0 := record (EvResample d) w).
  set (w1 := snd (useSignal (resample (λ i, getValue i w0)) w0)).
  destruct (observe_triggers_spec triggers d resample w1)
    as (cs & w2 & E & I2 & I3 & I4 & I5 & I6 & I7).
  set (dcs := foldl (λ s c, set_add c s) [] cs).
  destruct (set_adds_spec cs []) as [_ D2]. fold dcs in D2.
  set (w3 := with_batches (batches w2 ++ [dcs]) w2).
  assert (sample triggers resample w
          = (inr d,
             with_cancelOf
               (λ o, if bool_decide (o = OSignal d)
                     then Some (FBatch (length (batches w2)))
                     else cancelOf w3 o) w3)) as Es.
  { unfold sample. fold d. fold w0.
    change (useSignal (resample (λ i, getValue i w0)) w0) with (d, w1).
    cbv beta iota zeta. unfold bind at 1. rewrite E. reflexivity. }
  rewrite Es. cbn [fst snd].
  assert (∀ t', observers_of t' w1 = observers_of t' w) as Ho1.
  { intros t'. unfold observers_of. simpl.
    destruct (signals w !! t') as [s|] eqn:Et.
    - by rewrite (lookup_app_l_Some _ _ _ _ Et).
    - apply lookup_ge_None in Et. rewrite lookup_app_r by done.
      destruct (t' - length (signals w)) as [|k]; [done|]. by destruct k. }
  set (n := length (observerTable w)).
  change (length (observerTable w1)) with n in I2, I4, I7.
  split; [done|]. split; [|split].
  - simpl. rewrite I5. unfold resamples. simpl.
    rewrite !observed_occurrences_app, occurrences_replicate.
    unfold occurrences at 2. rewrite filter_cons_True by done. simpl. lia.
  - intros t. unfold cancel. simpl. rewrite bool_decide_eq_true_2 by done.
    simpl. rewrite list_lookup_middle by done.
    set (w4 := with_cancelOf _ _).
    change (observers_of t (foldl (λ w' c, call_cancel c w') w4 dcs)
            = observers_of t w).
    rewrite observers_of_run_cancels.
    change (observers_of t w4) with (observers_of t w2).
    rewrite (filter_ext_in _ (λ o, o < n)).
    + rewrite (I4 n t) by done. rewrite Ho1. apply filter_all.
      intros o Ho. by apply Hwf in Ho.
    + intros o Ho. rewrite D2. split.
      * intros Hnin. destruct (I3 t o Ho) as [H|H].
        -- rewrite Ho1 in H. by apply Hwf in H.
        -- exfalso. apply Hnin. by right.
      * intros Hlt [H|H]; [by apply elem_of_nil in H|].
        apply I2 in H. lia.
  - intros t o Ho. change (o ∈ observers_of t w2) in Ho.
    change (o < length (observerTable w2)).
    destruct (I3 t o Ho) as [H|H].
    + rewrite Ho1 in H. apply Hwf in H. fold n in H. lia.
    + apply I2 in H. lia.
Qed.

Lemma sample_cancel_round_trip_witness :
  resamples 1 (log (snd (sample [0; 0] (λ get, get 0) watched))) = 3
  ∧ observers_of 0 (snd (sample [0; 0] (λ get, get 0) watched))
    = [0; 1; 2; 3]
  ∧ observers_of 0
      (cancel (OSignal 1) (snd (sample [0; 0] (λ get, get 0) watched)))
    = [0; 1].
Proof.
  destruct (sample_cancel_round_trip watched [0; 0] (λ get, get 0)
              watched_wf) as (_ & H2 & H3 & _).
  split; [exact H2|]. split; [reflexivity|exact (H3 0)].
Defined.

(** *** Subscribing *)

Lemma observe_caller (w : World) (i o k : nat) :
  observerTable w !! o = Some (OCaller k) →
  observe i o w
  = (inr (Unobserve i o),
     set_observers i (set_add o (observers_of i w))
       (record (EvObserved k (getValue i w)) w)).
Proof. intros Ho. unfold observe, bind, run_observer. by rewrite Ho. Qed.

(** X16.  [observe] calls the observer at once with the current value and
    then lists it.  Subscribing the same function a second time calls it
    again but lists it once, and the cancel function of either
    subscription takes it off the list. *)
Theorem observe_twice_lists_once (w : World) (i o k : nat) :
  observerTable w !! o = Some (OCaller k) →
  is_Some (signals w !! i) →
  o ∉ observers_of i w →
  let w1 := snd (observe i o w) in
  let w2 := snd (observe i o w1) in
  log w1 = log w ++ [EvObserved k (getValue i w)]
  ∧ observers_of i w1 = observers_of i w ++ [o]
  ∧ log w2 = log w1 ++ [EvObserved k (getValue i w)]
  ∧ observers_of i w2 = observers_of i w ++ [o]
  ∧ fst (observe i o w1) = inr (Unobserve i o)
  ∧ observers_of i (call_cancel (Unobserve i o) w2) = observers_of i w.
Proof.
  intros Ho Hi Hnin. cbv zeta.
  rewrite (observe_caller w i o k Ho). cbn [fst snd].
  set (w1 := set_observers i _ _).
  assert (observers_of i w1 = observers_of i w ++ [o]) as H1.
  { unfold w1. rewrite observers_of_set_observers, decide_True by done.
    by apply set_add_fresh. }
  assert (getValue i w1 = getValue i w) as Hg.
  { unfold w1. by rewrite getValue_set_observers. }
  assert (is_Some (signals w1 !! i)) as Hi1.
  { unfold w1, set_observers. simpl. apply lookup_lt_is_Some.
    rewrite length_alter. by apply lookup_lt_is_Some. }
  rewrite (observe_caller w1 i o k Ho). cbn [fst snd].
  set (w2 := set_observers i _ _).
  assert (observers_of i w2 = observers_of i w ++ [o]) as H2.
  { unfold w2. rewrite observers_of_set_observers, decide_True by done.
    change (observers_of i (record _ w1)) with (observers_of i w1).
    rewrite H1. unfold set_add. rewrite bool_decide_eq_true_2; [done|].
    set_solver. }
  split; [done|]. split; [done|]. split.
  { change (log w1 ++ [EvObserved k (getValue i w1)]
            = log w1 ++ [EvObserved k (getValue i w)]). by rewrite Hg. }
  split; [done|]. split; [done|].
  simpl. rewrite observers_of_set_observers, decide_True.
  - rewrite H2. by apply set_delete_fresh.
  - split; [done|]. unfold w2, set_observers. simpl.
    apply lookup_lt_is_Some. rewrite length_alter.
    by apply lookup_lt_is_Some.
Qed.

Lemma observe_twice_lists_once_witness :
  let w := snd (signal (VNum 4) watched) in
  observers_of 1 (snd (observe 1 1 (snd (observe 1 1 w)))) = [1]
  ∧ observers_of 1
      (call_cancel (Unobserve 1 1) (snd (observe 1 1 (snd (observe 1 1 w)))))
    = [].
Proof.
  cbv zeta.
  destruct (observe_twice_lists_once (snd (signal (VNum 4) watched)) 1 1 1
              eq_refl (mk_is_Some _ _ eq_refl) (not_elem_of_nil 1))
    as (_ & _ & _ & H4 & _ & H6).
  split; [exact H4|exact H6].
Defined.

End ObservedMoreFacts.

(** ** Reachable worlds of the observer-based engine *)

Module ObservedReachFacts.
Import Observed ObservedSpec ObservedMore ObservedReach.
Import ObservedFacts ObservedMoreFacts.

(** *** Flags and queue *)

Lemma flag_lt (w : World) (sch : nat) :
  flag w sch = true → sch < length (schedulers w).
Proof.
  unfold flag. destruct (schedulers w !! sch) eqn:E; [|done].
  intros _. by apply lookup_lt_Some in E.
Qed.

Lemma sched_ok_ext (x : option nat) (w w' : World) :
  microtasks w' = microtasks w → (∀ j, flag w' j = flag w j) →
  sched_ok x w → sched_ok x w'.
Proof.
  intros Hm Hf (H1 & H2 & H3). unfold sched_ok. rewrite Hm.
  split; [done|]. split.
  - intros sch Hx. rewrite Hf. by apply H2.
  - intros sch Hx. rewrite Hf. by apply H3.
Qed.

Lemma throttle_call_length (w : World) (sch : nat) (t : Thunk) :
  length (schedulers (throttle_call sch t w)) = length (schedulers w).
Proof.
  unfold throttle_call. destruct (schedulers w !! sch) as [s|]; [|done].
  destruct (isUpdateScheduled s); simpl; by rewrite ?length_insert.
Qed.

Lemma throttle_call_flag (w : World) (sch : nat) (t : Thunk) (j : nat) :
  flag (throttle_call sch t w) j
  = if decide (j = sch ∧ is_Some (schedulers w !! sch)) then true
    else flag w j.
Proof.
  unfold throttle_call, flag.
  destruct (schedulers w !! sch) as [s|] eqn:E.
  - pose proof (lookup_lt_Some _ _ _ E) as Hlt.
    destruct (isUpdateScheduled s) eqn:Es; simpl.
    + case_decide as Hd.
      * destruct Hd as [-> _]. by rewrite list_lookup_insert_eq.
      * rewrite list_lookup_insert_ne; [done|]. intros ->. apply Hd.
        split; [done|by eexists].
    + rewrite list_insert_insert_eq. case_decide as Hd.
      * destruct Hd as [-> _]. by rewrite list_lookup_insert_eq.
      * rewrite list_lookup_insert_ne; [done|]. intros ->. apply Hd.
        split; [done|by eexists].
  - rewrite decide_False; [done|]. by intros [_ [??]].
Qed.

Lemma throttle_call_microtasks (w : World) (sch : nat) (t : Thunk) :
  microtasks (throttle_call sch t w)
  = if decide (is_Some (schedulers w !! sch) ∧ flag w sch = false)
    then microtasks w ++ [sch] else microtasks w.
Proof.
  unfold throttle_call, flag.
  destruct (schedulers w !! sch) as [s|] eqn:E.
  - by destruct (isUpdateScheduled s) eqn:Es.
  - rewrite decide_False; [done|]. by intros [[??] _].
Qed.

Lemma throttle_call_perform (w : World) (sch : nat) (t : Thunk) (j : nat)
    (s : Scheduler) :
  schedulers (throttle_call sch t w) !! j = Some s →
  (j = sch ∧ perform s = Some t)
  ∨ (∃ s', schedulers w !! j = Some s' ∧ perform s = perform s').
Proof.
  unfold throttle_call.
  destruct (schedulers w !! sch) as [s0|] eqn:E; [|intros H; right; eauto].
  pose proof (lookup_lt_Some _ _ _ E) as Hlt.
  assert (schedulers
            (if isUpdateScheduled s0
             then with_schedulers
                    (<[sch:=mkScheduler (Some t) (isUpdateScheduled s0)]>
                       (schedulers w)) w
             else with_microtasks
                    (microtasks
                       (with_schedulers
                          (<[sch:=mkScheduler (Some t) (isUpdateScheduled s0)]>
                             (schedulers w)) w) ++ [sch])
                    (with_schedulers
                       (<[sch:=mkScheduler (Some t) true]>
                          (schedulers
                             (with_schedulers
                                (<[sch:=mkScheduler (Some t)
                                          (isUpdateScheduled s0)]>
                                   (schedulers w)) w)))
                       (with_schedulers
                          (<[sch:=mkScheduler (Some t) (isUpdateScheduled s0)]>
                             (schedulers w)) w)))
          = <[sch := mkScheduler (Some t) true]> (schedulers w)) as ->.
  { destruct (isUpdateScheduled s0); simpl; [done|].
    by rewrite list_insert_insert_eq. }
  destruct (decide (j = sch)) as [->|Hne].
  - rewrite list_lookup_insert_eq by done. intros [= <-]. by left.
  - rewrite list_lookup_insert_ne by done. intros H. right. eauto.
Qed.

Lemma throttle_call_sched_ok (x : option nat) (w : World) (sch : nat)
    (t : Thunk) :
  sched_ok x w → sched_ok x (throttle_call sch t w).
Proof.
  intros Hok.
  destruct (decide (is_Some (schedulers w !! sch) ∧ flag w sch = false))
    as [[Hs Hf]|Hn].
  - destruct Hok as (H1 & H2 & H3).
    assert (x ≠ Some sch) as Hx.
    { intros ->. destruct (H3 sch eq_refl) as [_ ?]. congruence. }
    assert (sch ∉ microtasks w) as Hnin.
    { rewrite (H2 sch Hx). congruence. }
    unfold sched_ok. rewrite throttle_call_microtasks.
    rewrite decide_True by done.
    split; [|split].
    + apply NoDup_app. split; [done|]. split; [|apply NoDup_singleton].
      intros y Hy ->%list_elem_of_singleton. done.
    + intros j Hj. rewrite throttle_call_flag, elem_of_app,
        list_elem_of_singleton.
      case_decide as Hd.
      * destruct Hd as [Hj' _]. subst j. split; [done|]. intros _. by right.
      * rewrite <- (H2 j Hj). split; [|by left].
        intros [?| ->]; [done|]. exfalso. by apply Hd.
    + intros j Hj. destruct (H3 j Hj) as [Hnj Hfj].
      rewrite throttle_call_flag. split.
      * rewrite elem_of_app, list_elem_of_singleton. intros [?| ->]; [done|].
        congruence.
      * by case_decide.
  - apply (sched_ok_ext x w); [|intros j|done].
    + rewrite throttle_call_microtasks. by rewrite decide_False.
    + rewrite throttle_call_flag. case_decide as Hd; [|done].
      destruct Hd as [-> Hs]. destruct (flag w sch) eqn:Ef; [done|].
      exfalso. by apply Hn.
Qed.

(** *** Writing a signal *)

Lemma setValue_length (w : World) (i : nat) (v : Value) :
  length (signals (setValue i v w)) = length (signals w)
  ∧ length (schedulers (setValue i v w)) = length (schedulers w).
Proof.
  unfold setValue. destruct (signals w !! i) as [s|]; [|done].
  destruct (strict_neq (value s) v); [|done].
  rewrite throttle_call_length.
  destruct (throttle_call_frame
              (with_signals
                 (<[i := mkSignal v (observers s) (throttle s)]> (signals w)) w)
              (throttle s) (Dispatch i)) as (-> & _).
  simpl. by rewrite length_insert.
Qed.

Lemma setValue_throttle (w : World) (i : nat) (v : Value) (t : nat) :
  throttle <$> signals (setValue i v w) !! t = throttle <$> signals w !! t.
Proof.
  unfold setValue. destruct (signals w !! i) as [s|] eqn:E; [|done].
  destruct (strict_neq (value s) v); [|done].
  destruct (throttle_call_frame
              (with_signals
                 (<[i := mkSignal v (observers s) (throttle s)]> (signals w)) w)
              (throttle s) (Dispatch i)) as (-> & _).
  simpl. destruct (decide (i = t)) as [->|Hne].
  - rewrite list_lookup_insert_eq by (by apply lookup_lt_Some in E).
    by rewrite E.
  - by rewrite list_lookup_insert_ne.
Qed.

Lemma setValue_sched_ok (x : option nat) (w : World) (i : nat) (v : Value) :
  sched_ok x w → sched_ok x (setValue i v w).
Proof.
  intros H. unfold setValue. destruct (signals w !! i) as [s|]; [|done].
  destruct (strict_neq (value s) v); [|done].
  by apply throttle_call_sched_ok.
Qed.

Lemma setValue_flag_up (w : World) (i : nat) (v : Value) (j : nat) :
  flag w j = true → flag (setValue i v w) j = true.
Proof.
  intros H. unfold setValue. destruct (signals w !! i) as [s|]; [|done].
  destruct (strict_neq (value s) v); [|done].
  rewrite throttle_call_flag. by case_decide.
Qed.

Lemma setValue_flag_ne (w : World) (i : nat) (v : Value) (j : nat) :
  own_schedulers w → j ≠ i → flag (setValue i v w) j = flag w j.
Proof.
  intros (_ & Hown & _) Hne. unfold setValue.
  destruct (signals w !! i) as [s|] eqn:E; [|done].
  destruct (strict_neq (value s) v); [|done].
  rewrite throttle_call_flag. rewrite (Hown i s E).
  rewrite decide_False; [done|]. by intros [? _].
Qed.

Lemma setValue_own (w : World) (i : nat) (v : Value) :
  own_schedulers w → own_schedulers (setValue i v w).
Proof.
  intros (H1 & H2 & H3).
  destruct (setValue_length w i v) as [L1 L2].
  split; [lia|]. split.
  - intros t s Ht. pose proof (setValue_throttle w i v t) as Hthr.
    rewrite Ht in Hthr. simpl in Hthr.
    destruct (signals w !! t) as [s'|] eqn:E; [|done].
    injection Hthr as ->. by apply H2.
  - unfold setValue. destruct (signals w !! i) as [s|] eqn:E; [|done].
    destruct (strict_neq (value s) v); [|done].
    intros sch s' t Hs Hp.
    apply throttle_call_perform in Hs as [[-> Hs]|(s0 & Hs & Hq)].
    + rewrite (H2 i s E). congruence.
    + apply (H3 sch s0); [done|congruence].
Qed.

(** *** What running observers leaves alone *)

Lemma quiet_refl (i : nat) (w : World) : quiet i w w.
Proof. by constructor. Qed.

Lemma quiet_trans (i : nat) (w1 w2 w3 : World) :
  quiet i w1 w2 → quiet i w2 w3 → quiet i w1 w3.
Proof.
  intros [A1 A2 A3 A4 A5 A6 A7 A8 A9 A10] [B1 B2 B3 B4 B5 B6 B7 B8 B9 B10].
  constructor; try congruence; try lia; auto.
  - intros t Ht. rewrite B7, A7; auto.
  - intros t Ht. rewrite B8, A8; auto.
Qed.

Lemma quiet_le (i j : nat) (w w' : World) :
  i ≤ j → quiet j w w' → quiet i w w'.
Proof.
  intros Hij [A1 A2 A3 A4 A5 A6 A7 A8 A9 A10].
  constructor; auto.
  - intros t Ht. apply A7. lia.
  - intros t Ht. apply A8. lia.
Qed.

Lemma quiet_wired (i : nat) (w w' : World) :
  quiet i w w' → wired w → wired w'.
Proof.
  intros [A1 A2 A3 _ _ _ _ _ _ _] Hw t o Hin.
  specialize (Hw t o (A3 t o Hin)). unfold downstream_of in *.
  by rewrite A1, A2.
Qed.

Lemma quiet_setValue (i d : nat) (v : Value) (w : World) :
  own_schedulers w → i < d → quiet i w (setValue d v w).
Proof.
  intros Hown Hlt. destruct (setValue_tables w d v) as (T1 & T2 & _).
  destruct (setValue_length w d v) as [L1 L2].
  constructor; try done.
  - intros t o. by rewrite observers_of_setValue.
  - intros _. by apply setValue_own.
  - intros t Ht. apply getValue_setValue_ne. lia.
  - intros t Ht. apply setValue_flag_ne; [done|lia].
  - intros t. apply setValue_flag_up.
  - intros x. apply setValue_sched_ok.
Qed.

Lemma quiet_record (i : nat) (e : Event) (w : World) : quiet i w (record e w).
Proof. by constructor. Qed.

Lemma set_observers_own (w : World) (i : nat) (os : list nat) :
  own_schedulers w → own_schedulers (set_observers i os w).
Proof.
  intros (H1 & H2 & H3). split; [|split; [|done]].
  - simpl. by rewrite length_alter.
  - intros t s. simpl. rewrite list_lookup_alter. case_decide as Hd.
    + subst t. destruct (signals w !! i) as [s'|] eqn:E; [|done].
      simpl. intros [= <-]. simpl. by apply H2.
    + apply H2.
Qed.

Lemma quiet_call_cancel (i : nat) (c : Cancel) (w : World) :
  quiet i w (call_cancel c w).
Proof.
  destruct c as [t o|k]; [|apply quiet_record].
  simpl. constructor; try done.
  - intros t' o'. rewrite observers_of_set_observers. case_decide as Hd.
    + destruct Hd as [-> _]. unfold set_delete.
      by intros [_ ?]%list_elem_of_filter.
    + done.
  - simpl. by rewrite length_alter.
  - apply set_observers_own.
  - intros t' _. apply getValue_set_observers.
Qed.

Lemma quiet_run_cancels (i : nat) (cs : list Cancel) (w : World) :
  quiet i w (foldl (λ w' c, call_cancel c w') w cs).
Proof.
  revert w. induction cs as [|c cs IH]; intros w; [apply quiet_refl|].
  simpl. eapply quiet_trans; [apply quiet_call_cancel|apply IH].
Qed.

Lemma quiet_call (i : nat) (f : Fn) (w : World) : quiet i w (call f w).
Proof.
  destruct f as [c|b]; [apply quiet_call_cancel|].
  simpl. destruct (batches w !! b) as [batch|]; [|apply quiet_refl].
  eapply quiet_trans; [apply quiet_run_cancels|]. by constructor.
Qed.

(** *** Running the observers of a signal *)

Lemma run_observer_quiet (w : World) (i o : nat) (v : Value) :
  wired w → own_schedulers w → o ∈ observers_of i w →
  fst (run_observer o v w) = inr tt ∧ quiet i w (snd (run_observer o v w)).
Proof.
  intros Hw Hown Hin. specialize (Hw i o Hin). unfold downstream_of in Hw.
  unfold run_observer.
  destruct (observerTable w !! o) as [[r|d resample|k]|] eqn:Eo; [| | |done].
  - destruct Hw as (red & Er & Hlt & [f Hf]). rewrite Er.
    destruct (r_step red (getValue (r_state red) w) v) as [next|final].
    + split; [done|]. by apply quiet_setValue.
    + rewrite Hf. split; [done|]. simpl.
      eapply quiet_trans; [apply quiet_call|].
      apply quiet_setValue; [|done].
      by apply (quiet_own i w (call f w) (quiet_call i f w)).
  - split; [done|]. simpl.
    eapply quiet_trans; [apply quiet_record|]. by apply quiet_setValue.
  - split; [done|]. apply quiet_record.
Qed.

Lemma dispatch_loop_quiet (i : nat) (os : list nat) (w : World) :
  wired w → own_schedulers w →
  fst (dispatch_loop i os w) = inr tt
  ∧ quiet i w (snd (dispatch_loop i os w)).
Proof.
  revert w. induction os as [|o os IH]; intros w Hw Hown.
  - split; [done|apply quiet_refl].
  - cbn [dispatch_loop]. case_bool_decide as Hin; [|by apply IH].
    unfold bind.
    destruct (run_observer_quiet w i o (getValue i w) Hw Hown Hin)
      as [Hr Hq].
    destruct (run_observer o (getValue i w) w) as [[e|[]] w1]; [done|].
    simpl in Hq.
    destruct (IH w1 (quiet_wired i w w1 Hq Hw) (quiet_own i w w1 Hq Hown))
      as [Hr' Hq'].
    split; [done|]. by eapply quiet_trans.
Qed.

Lemma dispatch_quiet (i : nat) (w : World) :
  wired w → own_schedulers w →
  fst (dispatch i w) = inr tt ∧ quiet i w (snd (dispatch i w)).
Proof. intros. by apply dispatch_loop_quiet. Qed.

(** *** One turn of the microtask queue *)

Lemma lower_flag_flag (w : World) (sch j : nat) :
  flag (lower_flag sch w) j = if decide (j = sch) then false else flag w j.
Proof.
  unfold flag, lower_flag. simpl. rewrite list_lookup_alter.
  case_decide as Hd; case_decide as Hd'; try congruence.
  by destruct (schedulers w !! sch).
Qed.

Lemma lower_flag_sched_ok (w : World) (sch : nat) :
  sched_ok (Some sch) w → sched_ok None (lower_flag sch w).
Proof.
  intros (H1 & H2 & H3). destruct (H3 sch eq_refl) as [Hnin Hf].
  split; [done|]. split; [|done].
  intros j _. rewrite lower_flag_flag. change (microtasks (lower_flag sch w))
    with (microtasks w).
  case_decide as Hd.
  - subst j. split; [done|done].
  - apply H2. congruence.
Qed.

Lemma lower_flag_own (w : World) (sch : nat) :
  own_schedulers w → own_schedulers (lower_flag sch w).
Proof.
  intros (H1 & H2 & H3). split; [|split; [done|]].
  - simpl. by rewrite length_alter.
  - intros j s t. simpl. rewrite list_lookup_alter. case_decide as Hd.
    + subst j. destruct (schedulers w !! sch) as [s'|] eqn:E; [|done].
      simpl. intros [= <-]. simpl. by apply H3.
    + apply H3.
Qed.

Lemma performUpdate_quiet (w : World) (sch : nat) :
  wired w → own_schedulers w → flag w sch = true →
  ∃ w1, quiet sch w w1 ∧ performUpdate sch w = (inr tt, lower_flag sch w1).
Proof.
  intros Hw Hown Hf. unfold performUpdate. unfold flag in Hf.
  destruct (schedulers w !! sch) as [s|] eqn:E; [|done].
  destruct (perform s) as [t|] eqn:Ep.
  - destruct Hown as (H1 & H2 & H3). rewrite (H3 sch s t E Ep).
    destruct (dispatch_quiet sch w Hw (conj H1 (conj H2 H3))) as [Hr Hq].
    exists (snd (dispatch sch w)). split; [done|].
    unfold bind. simpl.
    destruct (dispatch sch w) as [[e|[]] w1]; [done|]. done.
  - exists w. split; [apply quiet_refl|done].
Qed.

Lemma tick_quiet (w : World) (sch : nat) (rest : list nat) :
  settled_between w → microtasks w = sch :: rest →
  ∃ w1, quiet sch (with_microtasks rest w) w1
        ∧ performUpdate sch (with_microtasks rest w)
          = (inr tt, lower_flag sch w1)
        ∧ tick w = lower_flag sch w1
        ∧ settled_between (lower_flag sch w1).
Proof.
  intros ((H1 & H2 & H3) & Hw & Hown) Hm.
  assert (sched_ok (Some sch) (with_microtasks rest w)) as Hok.
  { rewrite Hm in H1, H2. apply NoDup_cons in H1 as [Hnin Hnd].
    split; [done|]. split.
    - intros j Hj. change (j ∈ rest ↔ flag w j = true).
      rewrite <- (H2 j) by done. rewrite elem_of_cons.
      split; [by right|]. intros [->|?]; [congruence|done].
    - intros j [= <-]. split; [done|]. change (flag w sch = true).
      apply H2; [done|]. by left. }
  destruct (performUpdate_quiet (with_microtasks rest w) sch Hw Hown)
    as (w1 & Hq & Hp).
  { by apply Hok. }
  exists w1. split; [done|]. split; [done|]. split.
  - unfold tick. rewrite Hm. by rewrite Hp.
  - split; [|split].
    + apply lower_flag_sched_ok. by apply (quiet_sched _ _ _ Hq).
    + apply (quiet_wired sch (with_microtasks rest w) w1 Hq) in Hw.
      exact Hw.
    + apply lower_flag_own. by apply (quiet_own _ _ _ Hq).
Qed.

(** *** The weight of the queue *)

Lemma weight_bound (fs : list bool) : weight fs < 2 ^ length fs.
Proof.
  induction fs as [|b fs IH]; simpl; [lia|].
  destruct b; lia.
Qed.

Lemma weight_lt (fs fs' : list bool) (i : nat) :
  length fs' = length fs →
  (∀ j, j < i → fs' !! j = fs !! j) →
  fs !! i = Some true → fs' !! i = Some false →
  weight fs' < weight fs.
Proof.
  revert fs' i. induction fs as [|b fs IH]; intros fs' i Hl Hlow Ht Hf.
  - done.
  - destruct fs' as [|b' fs']; [done|]. simpl in Hl.
    destruct i as [|i].
    + simpl in Ht, Hf. injection Ht as ->. injection Hf as ->. simpl.
      pose proof (weight_bound fs'). replace (length fs) with (length fs')
        by lia. lia.
    + pose proof (Hlow 0 ltac:(lia)) as H0. simpl in H0. injection H0 as ->.
      simpl. replace (length fs') with (length fs) by lia.
      assert (weight fs' < weight fs); [|lia].
      apply (IH fs' i); [lia| |done|done].
      intros j Hj. apply (Hlow (S j)). lia.
Qed.

Lemma weight_zero (fs : list bool) (i : nat) :
  weight fs = 0 → fs !! i = Some true → False.
Proof.
  revert i. induction fs as [|b fs IH]; intros i Hz Hi; [done|].
  simpl in Hz. destruct i as [|i].
  - simpl in Hi. injection Hi as ->.
    assert (2 ^ length fs ≠ 0) by (apply Nat.pow_nonzero; lia). lia.
  - apply (IH i); [lia|done].
Qed.

Lemma flags_lookup (w : World) (j : nat) :
  j < length (schedulers w) →
  (isUpdateScheduled <$> schedulers w) !! j = Some (flag w j).
Proof.
  intros Hj. rewrite list_lookup_fmap. unfold flag.
  destruct (schedulers w !! j) eqn:E; [done|].
  apply lookup_ge_None in E. lia.
Qed.

Lemma tick_weight (w : World) :
  settled_between w → microtasks w ≠ [] →
  pending_weight (tick w) < pending_weight w.
Proof.
  intros Hs Hne. destruct (microtasks w) as [|sch rest] eqn:Hm; [done|].
  destruct (tick_quiet w sch rest Hs Hm) as (w1 & Hq & _ & -> & _).
  destruct Hs as ((H1 & H2 & H3) & _).
  assert (flag w sch = true) as Hf.
  { apply H2; [done|]. rewrite Hm. by left. }
  pose proof (flag_lt w sch Hf) as Hlt.
  pose proof (quiet_schedulers _ _ _ Hq) as Hl. simpl in Hl.
  assert (length (schedulers (lower_flag sch w1)) = length (schedulers w))
    as Hl'.
  { simpl. by rewrite length_alter. }
  apply (weight_lt _ _ sch).
  - by rewrite !length_fmap.
  - intros j Hj. rewrite !flags_lookup by lia.
    rewrite lower_flag_flag, decide_False by lia.
    by rewrite (quiet_flag_below _ _ _ Hq j) by lia.
  - rewrite flags_lookup by lia. by rewrite Hf.
  - rewrite flags_lookup by lia. by rewrite lower_flag_flag, decide_True.
Qed.

Lemma weight_zero_empty (w : World) :
  sched_ok None w → pending_weight w = 0 → microtasks w = [].
Proof.
  intros (H1 & H2 & H3) Hz.
  destruct (microtasks w) as [|sch rest] eqn:Hm; [done|]. exfalso.
  assert (flag w sch = true) as Hf.
  { apply H2; [done|]. by left. }
  apply (weight_zero _ sch Hz). rewrite flags_lookup; [by rewrite Hf|].
  by apply flag_lt.
Qed.

Lemma tick_settled (w : World) : settled_between w → settled_between (tick w).
Proof.
  intros Hs. destruct (microtasks w) as [|sch rest] eqn:Hm.
  - unfold tick. by rewrite Hm.
  - by destruct (tick_quiet w sch rest Hs Hm) as (w1 & _ & _ & -> & ?).
Qed.

Lemma flush_settles (n : nat) (w : World) :
  settled_between w → pending_weight w ≤ n → microtasks (flush n w) = [].
Proof.
  revert w. induction n as [|n IH]; intros w Hs Hle.
  - simpl. apply weight_zero_empty; [apply Hs|lia].
  - simpl. apply IH; [by apply tick_settled|].
    destruct (microtasks w) as [|sch rest] eqn:Hm.
    + unfold tick. rewrite Hm.
      destruct (decide (pending_weight w = 0)) as [->|Hnz]; [lia|].
      destruct Hs as ((H1 & H2 & H3) & _).
      exfalso. unfold pending_weight in Hnz.
      assert (∃ j, (isUpdateScheduled <$> schedulers w) !! j = Some true)
        as [j Hj].
      { clear -Hnz. induction (isUpdateScheduled <$> schedulers w)
          as [|b fs IHfs]; [done|].
        destruct b; [by exists 0|].
        destruct IHfs as [j Hj]; [simpl in Hnz; lia|]. by exists (S j). }
      assert (flag w j = true) as Hf.
      { pose proof (lookup_lt_Some _ _ _ Hj) as Hlt.
        rewrite length_fmap in Hlt. rewrite flags_lookup in Hj by done.
        congruence. }
      apply H2 in Hf; [|done]. rewrite Hm in Hf. by apply elem_of_nil in Hf.
    + pose proof (tick_weight w Hs) as Hlt. rewrite Hm in Hlt.
      specialize (Hlt ltac:(done)). lia.
Qed.

(** *** What every operation maintains *)

Lemma grows_refl (w : World) : grows w w.
Proof. split; [done|]. intros r red H. by exists red. Qed.

Lemma grows_trans (w1 w2 w3 : World) : grows w1 w2 → grows w2 w3 → grows w1 w3.
Proof.
  intros [A1 A2] [B1 B2]. split; [by auto|].
  intros r red H. destruct (A2 r red H) as (red' & H' & S' & C').
  destruct (B2 r red' H') as (red'' & H'' & S'' & C'').
  exists red''. split; [done|]. split; [congruence|auto].
Qed.

Lemma downstream_grows (w w' : World) (i o : nat) :
  grows w w' → downstream_of w i o → downstream_of w' i o.
Proof.
  intros [G1 G2]. unfold downstream_of.
  destruct (observerTable w !! o) as [ob|] eqn:E; [|done].
  rewrite (G1 o ob E). destruct ob as [r|d f|k]; [|done|done].
  intros (red & Hr & Hlt & Hc). destruct (G2 r red Hr) as (red' & Hr' & S' & C').
  exists red'. split; [done|]. split; [lia|auto].
Qed.

Lemma wired_step (w w' : World) :
  wired w → grows w w' →
  (∀ i o, o ∈ observers_of i w' →
          o ∈ observers_of i w ∨ downstream_of w' i o) →
  wired w'.
Proof.
  intros Hw Hg Hin i o Ho. destruct (Hin i o Ho) as [H|H]; [|done].
  apply (downstream_grows w w'); [done|]. by apply Hw.
Qed.

Lemma quiet_settled (i : nat) (w w' : World) :
  quiet i w w' → settled_between w → settled_between w'.
Proof.
  intros Hq (H1 & H2 & H3). split; [|split].
  - by apply (quiet_sched _ _ _ Hq).
  - by apply (quiet_wired i w w' Hq).
  - by apply (quiet_own _ _ _ Hq).
Qed.

Lemma setValue_settled (w : World) (i : nat) (v : Value) :
  settled_between w → settled_between (setValue i v w).
Proof.
  intros (H1 & H2 & H3). split; [|split].
  - by apply setValue_sched_ok.
  - destruct (setValue_tables w i v) as (T1 & T2 & _).
    intros t o. rewrite observers_of_setValue. intros Hin.
    specialize (H2 t o Hin). unfold downstream_of in *. by rewrite T1, T2.
  - by apply setValue_own.
Qed.

Lemma signal_observers (v : Value) (w : World) (t : nat) :
  observers_of t (snd (signal v w)) = observers_of t w.
Proof.
  unfold observers_of. simpl.
  destruct (signals w !! t) as [sg|] eqn:Et.
  - by rewrite (lookup_app_l_Some _ _ _ _ Et).
  - apply lookup_ge_None in Et. rewrite lookup_app_r by done.
    destruct (t - length (signals w)) as [|k]; [done|]. by destruct k.
Qed.

Lemma signal_flag (v : Value) (w : World) (j : nat) :
  flag (snd (signal v w)) j = flag w j.
Proof.
  unfold flag. simpl.
  destruct (schedulers w !! j) as [s|] eqn:Ej.
  - by rewrite (lookup_app_l_Some _ _ _ _ Ej).
  - apply lookup_ge_None in Ej. rewrite lookup_app_r by done.
    destruct (j - length (schedulers w)) as [|k]; [done|]. by destruct k.
Qed.

Lemma signal_own (v : Value) (w : World) :
  own_schedulers w → own_schedulers (snd (signal v w)).
Proof.
  intros (H1 & H2 & H3). split; [|split].
  - simpl. rewrite !length_app. simpl. lia.
  - intros i s. simpl. intros [Hs|[Hi Hs]]%lookup_app_Some; [by apply H2|].
    destruct (i - length (signals w)) as [|k] eqn:Ek; [|by destruct k].
    simpl in Hs. injection Hs as <-. simpl. lia.
  - intros sch s t. simpl.
    intros [Hs|[Hi Hs]]%lookup_app_Some; [by apply H3|].
    destruct (sch - length (schedulers w)) as [|k] eqn:Ek; [|by destruct k].
    simpl in Hs. by injection Hs as <-.
Qed.

Lemma signal_settled (v : Value) (w : World) :
  settled_between w → settled_between (snd (signal v w)).
Proof.
  intros (H1 & H2 & H3). split; [|split].
  - apply (sched_ok_ext None w); [done| |done]. apply signal_flag.
  - intros t o. rewrite signal_observers. apply H2.
  - by apply signal_own.
Qed.

(** The observer [o] is added to the set of signal [i]. *)
Lemma subscribe_settled (w : World) (i o : nat) :
  settled_between w → downstream_of w i o →
  settled_between (set_observers i (set_add o (observers_of i w)) w).
Proof.
  intros (H1 & H2 & H3) Hd. split; [done|]. split.
  - intros t o'. rewrite observers_of_set_observers. case_decide as Hdec.
    + destruct Hdec as [-> _].
      intros [->|Hin]%TrackedFacts.elem_of_set_add; [done|by apply H2].
    + apply H2.
  - by apply set_observers_own.
Qed.

Lemma new_observer_settled (w : World) (ob : Observer) :
  settled_between w →
  settled_between (with_observerTable (observerTable w ++ [ob]) w).
Proof.
  intros (H1 & H2 & H3). split; [done|]. split; [|done].
  apply (wired_step w); [done| |by left].
  split; [|intros r red H; by exists red].
  intros o ob' H. simpl. by apply lookup_app_l_Some.
Qed.

Lemma observe_caller_settled (w : World) (i o k : nat) :
  settled_between w → observerTable w !! o = Some (OCaller k) →
  settled_between (snd (observe i o w)).
Proof.
  intros Hs Ho. rewrite (observe_caller w i o k Ho). simpl.
  apply (subscribe_settled (record (EvObserved k (getValue i w)) w));
    [done|].
  unfold downstream_of. simpl. by rewrite Ho.
Qed.

(** *** [reductions] *)

Lemma reductions_reduced (w : World) (step : Step) (i : nat)
    (init v : Value) :
  i < length (signals w) →
  step init (getValue i w) = Reduced v →
  reductions step i init w
  = (inl (ReferenceError "Cannot access 'cancel' before initialization"),
     subscribing step init w).
Proof.
  intros Hi Hstep.
  change (reductions step i init w)
    with ((let* cancel := observe i (length (observerTable w)) in
           modify (set_reduction_cancel (length (reductionTable w))
                     (FCancel cancel)) >>
           setCancel (OSignal (length (signals w))) (AFn (FCancel cancel)) >>
           ret (length (signals w))) (subscribing step init w)).
  unfold bind at 1. unfold observe. unfold bind at 1. unfold bind at 1.
  assert (run_observer (length (observerTable w))
            (getValue i (subscribing step init w)) (subscribing step init w)
          = (inl (ReferenceError
                    "Cannot access 'cancel' before initialization"),
             subscribing step init w)) as ->; [|done].
  unfold run_observer. simpl. rewrite !list_lookup_middle by done.
  simpl. unfold getValue. simpl. rewrite list_lookup_middle by done.
  simpl. rewrite lookup_app_l by done.
  unfold getValue in Hstep. by rewrite Hstep.
Qed.

Lemma subscribing_settled (w : World) (step : Step) (init : Value) :
  settled_between w → settled_between (subscribing step init w).
Proof.
  intros Hs. pose proof (signal_settled init w Hs) as (H1 & H2 & H3).
  split; [done|]. split; [|done].
  apply (wired_step (snd (signal init w))); [done| |by left].
  split.
  - intros o ob H. simpl. by apply lookup_app_l_Some.
  - intros r red H. exists red. split; [|done]. simpl.
    by apply lookup_app_l_Some.
Qed.

Lemma reductions_settled (w : World) (step : Step) (i : nat) (init : Value) :
  i < length (signals w) → settled_between w →
  settled_between (snd (reductions step i init w)).
Proof.
  intros Hi Hs. pose proof (subscribing_settled w step init Hs) as HW.
  destruct (step init (getValue i w)) as [v|v] eqn:Hstep.
  - rewrite (reductions_plain w step i init v Hi Hstep). cbn [snd].
    set (d := length (signals w)). set (o := length (observerTable w)).
    set (r := length (reductionTable w)).
    set (W := subscribing step init w) in *.
    pose proof (setValue_settled W d v HW) as (H1 & H2 & H3).
    destruct (setValue_tables W d v) as (T1 & T2 & _).
    set (w4 := setValue d v W) in *.
    split; [done|]. split.
    + set (w5 := set_observers i (set_add o (observers_of i w4)) w4).
      set (w6 := set_reduction_cancel r (FCancel (Unobserve i o)) w5).
      assert (grows w4 w6) as Hg.
      { split; [done|]. intros r' red Hr. simpl.
        rewrite list_lookup_alter. case_decide as Hd.
        - subst r'. rewrite Hr. simpl. eexists. split; [done|].
          split; [done|]. intros _. by eexists.
        - exists red. by rewrite Hr. }
      apply (wired_step w4); [done|exact Hg|].
      intros t o'. change (o' ∈ observers_of t w5 →
                           o' ∈ observers_of t w4 ∨ downstream_of w6 t o').
      unfold w5. rewrite observers_of_set_observers. case_decide as Hdec.
      * destruct Hdec as [-> _].
        intros [->|Hin]%TrackedFacts.elem_of_set_add; [|by left].
        right. unfold downstream_of.
        change (observerTable w6) with (observerTable w4). rewrite T1.
        simpl. rewrite list_lookup_middle by done.
        rewrite list_lookup_alter, decide_True by done.
        rewrite T2. simpl. rewrite list_lookup_middle by done. simpl.
        eexists. split; [done|]. simpl. split; [done|by eexists].
      * by left.
    + by apply (set_observers_own w4).
  - by rewrite (reductions_reduced w step i init v Hi Hstep).
Qed.

(** *** [sample] *)

Lemma observe_triggers_settled (ts : list nat) (d : nat) (resample : Resample)
    (w : World) :
  settled_between w → (∀ t, t ∈ ts → t < d) →
  ∃ cs w', observe_triggers ts d resample w = (inr cs, w')
           ∧ settled_between w'.
Proof.
  revert w. induction ts as [|t ts IH]; intros w Hs Hts.
  - by exists [], w.
  - cbn [observe_triggers]. unfold new_observer. cbv beta iota zeta.
    unfold bind at 1. rewrite (observe_sample w t d resample).
    set (n := length (observerTable w)).
    set (w1 := with_observerTable (observerTable w ++ [OSample d resample]) w).
    set (w2 := record (EvResample d) w1).
    set (w3 := setValue d (resample (λ i, getValue i w2)) w2).
    set (w4 := set_observers t (set_add n (observers_of t w3)) w3).
    assert (settled_between w3) as H3.
    { apply setValue_settled. by apply (new_observer_settled w). }
    assert (settled_between w4) as H4.
    { apply subscribe_settled; [done|]. unfold downstream_of.
      destruct (setValue_tables w2 d (resample (λ i, getValue i w2)))
        as (T1 & _).
      fold w3 in T1. rewrite T1. simpl. rewrite list_lookup_middle by done.
      apply Hts. by left. }
    destruct (IH w4 H4) as (cs & w' & E & Hs').
    { intros t' Ht'. apply Hts. by right. }
    exists (Unobserve t n :: cs), w'. unfold bind. by rewrite E.
Qed.

Lemma sample_settled (w : World) (triggers : list nat) (resample : Resample) :
  (∀ t, t ∈ triggers → t < length (signals w)) → settled_between w →
  settled_between (snd (sample triggers resample w)).
Proof.
  intros Hts Hs. unfold sample.
  set (w0 := record (EvResample (length (signals w))) w).
  set (v := resample (λ i, getValue i w0)).
  change (useSignal v w0) with (length (signals w), snd (signal v w0)).
  cbv beta iota zeta.
  assert (settled_between (snd (signal v w0))) as H1.
  { by apply (signal_settled v w0). }
  destruct (observe_triggers_settled triggers (length (signals w)) resample
              (snd (signal v w0)) H1 Hts) as (cs & w' & E & Hs').
  unfold bind at 1. rewrite E. done.
Qed.

(** *** The store *)

Lemma console_debug_settled (b : bool) (label : string) (v : Value)
    (w : World) :
  settled_between w → settled_between (console_debug b label v w).
Proof. by destruct b. Qed.

Lemma store_send_settled (w : World) (st : nat) (msg : Value) :
  settled_between w → settled_between (store_send st msg w).
Proof.
  intros Hs. unfold store_send. destruct (stores w !! st) as [s|]; [|done].
  cbv zeta.
  match goal with
  | |- settled_between (set_pending _ _ ?w') =>
      change (settled_between w')
  end.
  repeat (first [apply console_debug_settled | apply setValue_settled]).
  exact Hs.
Qed.

Lemma settle_settled (w : World) (st k : nat) :
  settled_between w → settled_between (settle st k w).
Proof.
  intros Hs. unfold settle. destruct (stores w !! st) as [s|]; [|done].
  destruct (st_pending s !! k) as [[msg|]|]; [|done|done].
  simpl. by apply store_send_settled.
Qed.

(** *** Programs *)

Lemma empty_settled : settled_between empty.
Proof.
  split; [|split].
  - split; [apply NoDup_nil_2|]. split; [|done].
    intros sch _. unfold flag. simpl. split; [by intros ?%elem_of_nil|done].
  - intros i o. unfold observers_of. simpl. by intros ?%elem_of_nil.
  - split; [done|]. split; by intros ???.
Qed.

Lemma apply_op_settled (op : Op) (w : World) :
  valid_op op w = true → settled_between w → settled_between (apply_op op w).
Proof.
  intros Hv Hs. destruct op as [v|i v|i k|i o|step i init|i f|ts f|ob c|ob|c|
                                 init upd dbg|st msg|st k|]; simpl in *.
  - by apply signal_settled.
  - by apply setValue_settled.
  - apply (observe_caller_settled _ i _ k).
    + by apply (new_observer_settled w).
    + simpl. by rewrite list_lookup_middle.
  - apply andb_prop in Hv as [_ Hv].
    destruct (observerTable w !! o) as [[r|d f|k]|] eqn:Eo; try done.
    by apply (observe_caller_settled w i o k).
  - apply reductions_settled; [|done]. by apply bool_decide_eq_true_1 in Hv.
  - apply (reductions_settled w (mapping f stepForward) i
             (f (getValue i w))); [|done].
    by apply bool_decide_eq_true_1 in Hv.
  - apply sample_settled; [|done]. intros t Ht.
    rewrite forallb_forall in Hv. apply list_elem_of_In, Hv in Ht.
    by apply bool_decide_eq_true_1 in Ht.
  - by destruct c.
  - unfold cancel. destruct (cancelOf w ob) as [f|]; [|done].
    by apply (quiet_settled 0 w _ (quiet_call 0 f w)).
  - by apply (quiet_settled 0 w _ (quiet_call_cancel 0 c w)).
  - by apply (signal_settled (t_state init) w).
  - by apply store_send_settled.
  - by apply settle_settled.
  - by apply tick_settled.
Qed.

Lemma reachable_settled (w : World) : Reachable w → settled_between w.
Proof.
  induction 1 as [|w op _ IH Hv]; [apply empty_settled|].
  by apply apply_op_settled.
Qed.

Lemma observed_ops_reachable (ops : list Op) (w : World) :
  Reachable w → valid_ops ops w = true → Reachable (run_ops ops w).
Proof.
  revert w. induction ops as [|op ops IH]; intros w Hr Hv; [done|].
  simpl in Hv. apply andb_prop in Hv as [Hv1 Hv2].
  simpl. apply IH; [|done]. by apply reach_step.
Qed.

Lemma failed_reduction_reachable : Reachable failed_reduction.
Proof. apply observed_ops_reachable; [apply reach_empty|by vm_compute]. Qed.

Lemma diamond_reachable : Reachable diamond.
Proof. apply observed_ops_reachable; [apply reach_empty|by vm_compute]. Qed.

(** X24.  Between two operations of a program the microtask queue holds
    no scheduler twice, and it holds exactly the schedulers whose
    [isUpdateScheduled] is true: no signal is left flagged without an
    update waiting for it. *)
Theorem reachable_queue_matches_flags (w : World) :
  Reachable w →
  NoDup (microtasks w)
  ∧ ∀ sch, sch ∈ microtasks w ↔ flag w sch = true.
Proof.
  intros Hr. destruct (reachable_settled w Hr) as ((H1 & H2 & _) & _).
  split; [done|]. intros sch. by apply H2.
Qed.

Lemma reachable_queue_matches_flags_witness :
  NoDup (microtasks diamond)
  ∧ ∀ sch, sch ∈ microtasks diamond ↔ flag diamond sch = true.
Proof. exact (reachable_queue_matches_flags diamond diamond_reachable). Defined.

(** X25.  In a world that a program reaches no dispatch throws, at any
    signal, and so no microtask does: the closure of a [reductions] call
    is in the set of observers only once its [cancel] is initialised.
    The [ReferenceError] of [reductions] can arise inside the
    [reductions] call only. *)
Theorem dispatch_never_throws (w : World) :
  Reachable w →
  (∀ i, fst (dispatch i w) = inr tt)
  ∧ ∀ sch rest, microtasks w = sch :: rest →
                fst (performUpdate sch (with_microtasks rest w)) = inr tt.
Proof.
  intros Hr. pose proof (reachable_settled w Hr) as Hs. split.
  - intros i. destruct Hs as (_ & Hw & Hown).
    by destruct (dispatch_quiet i w Hw Hown).
  - intros sch rest Hm.
    by destruct (tick_quiet w sch rest Hs Hm) as (w1 & _ & -> & _).
Qed.

Lemma dispatch_never_throws_witness :
  (∀ i, fst (dispatch i failed_reduction) = inr tt)
  ∧ ∀ sch rest, microtasks failed_reduction = sch :: rest →
                fst (performUpdate sch (with_microtasks rest failed_reduction))
                = inr tt.
Proof.
  exact (dispatch_never_throws failed_reduction failed_reduction_reachable).
Defined.

(** X26.  Propagation ends: from a world that a program reaches, with
    [n] signals, [2 ^ n] turns of the microtask queue or more leave the
    queue empty.  The observers that write a signal are those of
    [reductions] and [sample], and they write to a signal made after the
    one they observe. *)
Theorem propagation_settles (w : World) (n : nat) :
  Reachable w → 2 ^ length (signals w) ≤ n → microtasks (flush n w) = [].
Proof.
  intros Hr Hn. pose proof (reachable_settled w Hr) as Hs.
  apply flush_settles; [done|].
  pose proof (weight_bound (isUpdateScheduled <$> schedulers w)) as Hb.
  rewrite length_fmap in Hb. destruct Hs as (_ & _ & Hl & _).
  rewrite Hl in Hb. unfold pending_weight. lia.
Qed.

Lemma propagation_settles_witness : microtasks (flush 16 diamond) = [].
Proof.
  apply (propagation_settles diamond 16 diamond_reachable).
  vm_compute. lia.
Defined.

(** X27.  The microtask of signal [i] changes no signal made before [i],
    nor [i] itself; it takes [i] out of the queue, keeps the rest of the
    queue, and what it adds to the queue are signals made after [i]. *)
Theorem tick_writes_later_signals (w : World) (i : nat) (rest : list nat) :
  Reachable w → microtasks w = i :: rest →
  (∀ j, j ≤ i → getValue j (tick w) = getValue j w)
  ∧ (i ∉ microtasks (tick w))
  ∧ (∀ j, j ∈ rest → j ∈ microtasks (tick w))
  ∧ (∀ j, j ∈ microtasks (tick w) → j ∈ rest ∨ i < j).
Proof.
  intros Hr Hm. pose proof (reachable_settled w Hr) as Hs.
  destruct (tick_quiet w i rest Hs Hm) as (w1 & Hq & _ & -> & Hs').
  destruct Hs as ((N1 & N2 & _) & _). destruct Hs' as ((_ & M2 & _) & _).
  rewrite Hm in N1, N2. apply NoDup_cons in N1 as [Hnin _].
  split; [|split; [|split]].
  - intros j Hj. change (getValue j w1 = getValue j (with_microtasks rest w)).
    by apply (quiet_value _ _ _ Hq).
  - rewrite (M2 i) by done. rewrite lower_flag_flag, decide_True by done. done.
  - intros j Hj. rewrite (M2 j) by done. rewrite lower_flag_flag.
    rewrite decide_False by (intros ->; done).
    apply (quiet_flag_up _ _ _ Hq). change (flag w j = true).
    apply N2; [done|]. by right.
  - intros j Hj. rewrite (M2 j) in Hj by done. rewrite lower_flag_flag in Hj.
    case_decide as Hd; [done|].
    destruct (decide (j < i)) as [Hlt|Hge]; [|right; lia].
    left. rewrite (quiet_flag_below _ _ _ Hq j) in Hj by lia.
    change (flag w j = true) in Hj. apply N2 in Hj; [|done].
    apply elem_of_cons in Hj as [->|?]; [done|done].
Qed.

Lemma tick_writes_later_signals_witness :
  (∀ j, j ≤ 0 → getValue j (tick diamond) = getValue j diamond)
  ∧ (0 ∉ microtasks (tick diamond))
  ∧ (∀ j, j ∈ [] → j ∈ microtasks (tick diamond))
  ∧ (∀ j, j ∈ microtasks (tick diamond) → j ∈ [] ∨ 0 < j).
Proof.
  apply (tick_writes_later_signals diamond 0 [] diamond_reachable).
  by vm_compute.
Defined.

End ObservedReachFacts.

(** ** Maps follow their upstream *)

Module ObservedMapsFacts.
Import Observed ObservedSpec ObservedMore ObservedReach.
Import ObservedFacts ObservedMoreFacts ObservedReachFacts.

(** *** States of [reductions] calls *)

Lemma is_state_lookup (w : World) (r : nat) (red : Reduction) :
  reductionTable w !! r = Some red → is_state w (r_state red) = true.
Proof.
  intros H. unfold is_state. apply existsb_exists. exists red. split.
  - apply list_elem_of_In. by eapply list_elem_of_lookup_2.
  - by apply bool_decide_eq_true_2.
Qed.

Lemma is_state_true (w : World) (d : nat) :
  is_state w d = true →
  ∃ r red, reductionTable w !! r = Some red ∧ r_state red = d.
Proof.
  unfold is_state. intros (red & Hin & Hd)%existsb_exists.
  apply list_elem_of_In, list_elem_of_lookup_1 in Hin as [r Hr].
  apply bool_decide_eq_true_1 in Hd. by exists r, red.
Qed.

Lemma is_state_fresh (w : World) :
  shaped w → is_state w (length (signals w)) = false.
Proof.
  intros Hsh. destruct (is_state w (length (signals w))) eqn:E; [|done].
  apply is_state_true in E as (r & red & Hr & Hd).
  pose proof (shaped_states w Hsh r red Hr). lia.
Qed.

Lemma maps_is_state (w : World) (i : nat) (f : Value → Value) (s : nat) :
  maps w i f s → is_state w s = true.
Proof.
  intros (o & r & red & _ & _ & Hr & _ & <-). by eapply is_state_lookup.
Qed.

(** *** Cancelling *)

Lemma unlisting_refl (w : World) : unlisting w w.
Proof. by constructor. Qed.

Lemma unlisting_trans (w1 w2 w3 : World) :
  unlisting w1 w2 → unlisting w2 w3 → unlisting w1 w3.
Proof.
  intros [A1 A2 A3 A4 A5 A6 A7 A8 A9] [B1 B2 B3 B4 B5 B6 B7 B8 B9].
  constructor; try congruence; auto.
Qed.

Lemma unlisting_record (e : Event) (w : World) : unlisting w (record e w).
Proof. by constructor. Qed.

Lemma unlisting_call_cancel (c : Cancel) (w : World) :
  unlisting w (call_cancel c w).
Proof.
  destruct c as [t o|k]; [|apply unlisting_record].
  simpl. constructor; try done.
  - simpl. by rewrite length_alter.
  - intros j. apply getValue_set_observers.
  - intros t' o'. rewrite observers_of_set_observers. case_decide as Hd.
    + destruct Hd as [-> _]. unfold set_delete.
      by intros [_ ?]%list_elem_of_filter.
    + done.
  - apply set_observers_own.
Qed.

Lemma unlisting_run_cancels (cs : list Cancel) (w : World) :
  unlisting w (foldl (λ w' c, call_cancel c w') w cs).
Proof.
  revert w. induction cs as [|c cs IH]; intros w; [apply unlisting_refl|].
  simpl. eapply unlisting_trans; [apply unlisting_call_cancel|apply IH].
Qed.

Lemma unlisting_call (f : Fn) (w : World) : unlisting w (call f w).
Proof.
  destruct f as [c|b]; [apply unlisting_call_cancel|].
  simpl. destruct (batches w !! b) as [batch|]; [|apply unlisting_refl].
  eapply unlisting_trans; [apply unlisting_run_cancels|]. by constructor.
Qed.

Lemma unlisting_flag (w w' : World) (j : nat) :
  unlisting w w' → flag w' j = flag w j.
Proof. intros H. unfold flag. by rewrite (unl_schedulers _ _ H). Qed.

Lemma unlisting_maps (w w' : World) (i : nat) (f : Value → Value) (s : nat) :
  unlisting w w' → maps w' i f s → maps w i f s.
Proof.
  intros H (o & r & red & Hin & Ho & Hr & Hs & Hst).
  exists o, r, red. rewrite <- (unl_observerTable _ _ H),
    <- (unl_reductionTable _ _ H).
  split; [by apply (unl_observers _ _ H)|done].
Qed.

Lemma unlisting_is_state (w w' : World) (d : nat) :
  unlisting w w' → is_state w' d = is_state w d.
Proof. intros H. unfold is_state. by rewrite (unl_reductionTable _ _ H). Qed.

Lemma unlisting_shaped (w w' : World) :
  unlisting w w' → shaped w → shaped w'.
Proof.
  intros H [S1 S2 S3 S4 S5 S6 S7 S8].
  pose proof (unl_observerTable _ _ H) as T1.
  pose proof (unl_reductionTable _ _ H) as T2.
  constructor; rewrite ?T1, ?T2, ?(unl_signals _ _ H); try done.
  - intros o d f Ho. rewrite (unlisting_is_state w w' d H). by eapply S5.
  - intros st s. rewrite (unl_stores _ _ H).
    rewrite (unlisting_is_state w w' _ H). apply S6.
  - intros i i' o r Hi Hi'. apply S7; by apply (unl_observers _ _ H).
  - rewrite (unl_schedulers _ _ H). apply S8.
Qed.

Lemma unlisting_wired (w w' : World) : unlisting w w' → wired w → wired w'.
Proof.
  intros H Hw t o Hin.
  specialize (Hw t o (unl_observers _ _ H t o Hin)). unfold downstream_of in *.
  by rewrite (unl_observerTable _ _ H), (unl_reductionTable _ _ H).
Qed.

Lemma unlisting_settled (w w' : World) :
  unlisting w w' → settled_between w → settled_between w'.
Proof.
  intros H (H1 & H2 & H3). split; [|split].
  - apply (sched_ok_ext None w); [apply (unl_microtasks _ _ H)| |done].
    intros j. by apply unlisting_flag.
  - by apply (unlisting_wired w).
  - by apply (unl_own _ _ H).
Qed.

Lemma unlisting_follows (x : option nat) (w w' : World) :
  unlisting w w' → follows_at x w → follows_at x w'.
Proof.
  intros H Hf i f s Hm Hx.
  rewrite (unlisting_flag w w' i H), !(unl_value _ _ H).
  apply Hf; [|done]. by apply (unlisting_maps w w').
Qed.

Lemma unlisting_caught_up (x : nat) (os : list nat) (w w' : World) :
  unlisting w w' → caught_up x os w → caught_up x os w'.
Proof.
  intros H Hc o r red f Hin Ho Hr Hs.
  rewrite !(unl_value _ _ H).
  rewrite (unl_observerTable _ _ H) in Ho.
  rewrite (unl_reductionTable _ _ H) in Hr.
  apply (Hc o r red f); [|done|done|done]. by apply (unl_observers _ _ H).
Qed.

Lemma unlisting_mapped (w w' : World) : unlisting w w' → mapped w → mapped w'.
Proof.
  intros H [H1 H2]. split; [by apply (unlisting_shaped w)|].
  by apply (unlisting_follows None w).
Qed.

(** *** Writing *)

Lemma throttle_call_armed (w : World) (sch : nat) (t : Thunk) (j : nat)
    (s : Scheduler) :
  (∀ s', schedulers w !! j = Some s' → isUpdateScheduled s' = true →
         is_Some (perform s')) →
  schedulers (throttle_call sch t w) !! j = Some s →
  isUpdateScheduled s = true → is_Some (perform s).
Proof.
  intros Ha Hs Hf.
  destruct (throttle_call_perform w sch t j s Hs) as [[_ Hp]|(s' & Hs' & Hp)].
  - rewrite Hp. by eexists.
  - destruct (decide (j = sch)) as [->|Hne].
    + revert Hs. unfold throttle_call. rewrite Hs'.
      destruct (isUpdateScheduled s'); simpl;
        rewrite ?list_insert_insert_eq, list_lookup_insert_eq
          by (by apply lookup_lt_Some in Hs');
        intros [= <-]; by eexists.
    + assert (s = s') as ->; [|by apply Ha].
      revert Hs. unfold throttle_call.
      destruct (schedulers w !! sch) as [s0|]; [|congruence].
      destruct (isUpdateScheduled s0); simpl;
        rewrite ?list_insert_insert_eq, list_lookup_insert_ne by done;
        congruence.
Qed.

Lemma setValue_schedulers_armed (w : World) (d : nat) (v : Value) :
  (∀ sch s, schedulers w !! sch = Some s → isUpdateScheduled s = true →
            is_Some (perform s)) →
  ∀ sch s, schedulers (setValue d v w) !! sch = Some s →
           isUpdateScheduled s = true → is_Some (perform s).
Proof.
  intros Ha sch s. unfold setValue.
  destruct (signals w !! d) as [sg|]; [|apply Ha].
  destruct (strict_neq (value sg) v); [|apply Ha].
  apply throttle_call_armed. apply Ha.
Qed.

Lemma setValue_is_state (w : World) (d : nat) (v : Value) (j : nat) :
  is_state (setValue d v w) j = is_state w j.
Proof.
  unfold is_state. by destruct (setValue_tables w d v) as (_ & -> & _).
Qed.

Lemma setValue_shaped (w : World) (d : nat) (v : Value) :
  shaped w → shaped (setValue d v w).
Proof.
  intros [S1 S2 S3 S4 S5 S6 S7 S8].
  destruct (setValue_tables w d v) as (T1 & T2 & _).
  destruct (setValue_length w d v) as [L1 L2].
  destruct (setValue_frame w d v) as [F1 _].
  constructor; rewrite ?T1, ?T2, ?L1, ?F1; try done.
  - intros o d' f. rewrite setValue_is_state. apply S5.
  - intros st s. rewrite setValue_is_state. apply S6.
  - intros i i' o r. rewrite !observers_of_setValue. apply S7.
  - by apply setValue_schedulers_armed.
Qed.

Lemma setValue_maps (w : World) (d : nat) (v : Value) (i : nat)
    (f : Value → Value) (s : nat) :
  maps (setValue d v w) i f s ↔ maps w i f s.
Proof.
  destruct (setValue_tables w d v) as (T1 & T2 & _).
  unfold maps. setoid_rewrite observers_of_setValue.
  by rewrite T1, T2.
Qed.

Lemma setValue_value_or_flag (w : World) (d : nat) (v : Value) (j : nat) :
  own_schedulers w →
  getValue j (setValue d v w) = getValue j w ∨ flag (setValue d v w) j = true.
Proof.
  intros (H1 & H2 & _).
  destruct (decide (d = j)) as [->|Hne];
    [|left; by apply getValue_setValue_ne].
  unfold setValue. destruct (signals w !! j) as [sg|] eqn:E; [|by left].
  destruct (strict_neq (value sg) v); [|by left].
  right. rewrite throttle_call_flag. rewrite (H2 j sg E).
  rewrite decide_True; [done|]. split; [done|]. simpl.
  apply lookup_lt_is_Some. rewrite H1. by apply lookup_lt_Some in E.
Qed.

Lemma setValue_follows (x : option nat) (w : World) (d : nat) (v : Value) :
  own_schedulers w → follows_at x w →
  (∀ i f s, maps w i f s → x ≠ Some i → s ≠ d) →
  follows_at x (setValue d v w).
Proof.
  intros Hown Hf Hd i f s Hm Hx. apply setValue_maps in Hm.
  destruct (Hf i f s Hm Hx) as [Hfl|Hv];
    [left; by apply setValue_flag_up|].
  destruct (setValue_value_or_flag w d v i Hown) as [Hi|Hi]; [|by left].
  right. rewrite Hi, getValue_setValue_ne; [done|].
  intros ->. by apply (Hd i f s).
Qed.

Lemma setValue_mapped (w : World) (d : nat) (v : Value) :
  own_schedulers w → mapped w → is_state w d = false →
  mapped (setValue d v w).
Proof.
  intros Hown [H1 H2] Hd. split; [by apply setValue_shaped|].
  apply setValue_follows; [done|done|].
  intros i f s Hm _ ->. apply maps_is_state in Hm. congruence.
Qed.

(** *** What an observer does *)

Lemma run_observer_effect (w : World) (x o : nat) (v : Value) :
  wired w → o ∈ observers_of x w →
  ∃ w0, unlisting w w0
        ∧ ((target w o = None ∧ run_observer o v w = (inr tt, w0))
           ∨ ∃ d v', x < d ∧ target w o = Some d
                     ∧ run_observer o v w = (inr tt, setValue d v' w0)
                     ∧ ∀ r red f,
                         observerTable w !! o = Some (OReduction r) →
                         reductionTable w !! r = Some red →
                         r_step red = mapping f stepForward →
                         w0 = w ∧ v' = f v).
Proof.
  intros Hw Hin. specialize (Hw x o Hin). unfold downstream_of in Hw.
  unfold run_observer, target.
  destruct (observerTable w !! o) as [[r|d resample|k]|] eqn:Eo; [| | |done].
  - destruct Hw as (red & Er & Hlt & [c Hc]). rewrite Er. simpl.
    destruct (r_step red (getValue (r_state red) w) v) as [next|final] eqn:Es.
    + exists w. split; [apply unlisting_refl|]. right.
      exists (r_state red), next. split; [done|]. split; [done|].
      split; [done|]. intros r' red' f [= <-] Hr' Hstep.
      rewrite Er in Hr'. injection Hr' as <-. split; [done|].
      rewrite Hstep in Es. unfold mapping, stepForward in Es. congruence.
    + rewrite Hc. exists (call c w). split; [apply unlisting_call|]. right.
      exists (r_state red), final. split; [done|]. split; [done|].
      split; [done|]. intros r' red' f [= <-] Hr' Hstep.
      rewrite Er in Hr'. injection Hr' as <-.
      rewrite Hstep in Es. unfold mapping, stepForward in Es. congruence.
  - exists (record (EvResample d) w). split; [apply unlisting_record|].
    right. eexists d, _. split; [done|]. split; [done|]. split; [done|].
    intros r red f. congruence.
  - exists (record (EvObserved k v) w). split; [apply unlisting_record|].
    by left.
Qed.

(** Two observers that write the same state are the same observer of the
    same signal. *)
Lemma target_state (w : World) (x o i : nat) (f : Value → Value) (s : nat) :
  shaped w → o ∈ observers_of x w → target w o = Some s → maps w i f s →
  x = i
  ∧ ∃ r red, observerTable w !! o = Some (OReduction r)
             ∧ reductionTable w !! r = Some red
             ∧ r_step red = mapping f stepForward ∧ r_state red = s.
Proof.
  intros Hsh Hin Ht (o' & r' & red' & Hin' & Ho' & Hr' & Hs' & Hst').
  unfold target in Ht.
  destruct (observerTable w !! o) as [[r|d resample|k]|] eqn:Eo; try done.
  - destruct (reductionTable w !! r) as [red|] eqn:Er; [|done].
    simpl in Ht. injection Ht as Ht.
    assert (r = r') as <-.
    { apply (shaped_states_inj w Hsh r r' red red'); [done|done|congruence]. }
    assert (o = o') as <- by (by apply (shaped_observers w Hsh o o' r)).
    rewrite Er in Hr'. injection Hr' as <-.
    split; [by apply (shaped_upstream w Hsh x i o r)|].
    by exists r, red.
  - injection Ht as ->.
    destruct (shaped_samples w Hsh o s resample Eo) as [_ Hn].
    rewrite <- Hst', (is_state_lookup w r' red') in Hn by done. done.
Qed.

(** *** The observers of a signal run *)

Lemma run_observer_follows (w : World) (x o : nat) (rest : list nat) :
  wired w → own_schedulers w → shaped w → o ∈ observers_of x w →
  follows_at (Some x) w → caught_up x (o :: rest) w →
  shaped (snd (run_observer o (getValue x w) w))
  ∧ follows_at (Some x) (snd (run_observer o (getValue x w) w))
  ∧ caught_up x rest (snd (run_observer o (getValue x w) w)).
Proof.
  intros Hw Hown Hsh Hin Hf Hc.
  destruct (run_observer_effect w x o (getValue x w) Hw Hin)
    as (w0 & Hu & [[Ht ->]|(d & v' & Hlt & Ht & -> & Hmap)]); cbn [snd].
  - split; [by apply (unlisting_shaped w)|].
    split; [by apply (unlisting_follows _ w)|].
    intros o2 r2 red2 f2 Hin2 Ho2 Hr2 Hs2. rewrite !(unl_value _ _ Hu).
    rewrite (unl_observerTable _ _ Hu) in Ho2.
    rewrite (unl_reductionTable _ _ Hu) in Hr2.
    apply (unl_observers _ _ Hu) in Hin2.
    destruct (Hc o2 r2 red2 f2 Hin2 Ho2 Hr2 Hs2) as [Hel|Hv]; [|by right].
    apply elem_of_cons in Hel as [->|Hel]; [|by left].
    unfold target in Ht. by rewrite Ho2, Hr2 in Ht.
  - pose proof (unlisting_shaped w w0 Hu Hsh) as Hsh0.
    split; [by apply setValue_shaped|]. split.
    + apply setValue_follows;
        [by apply (unl_own _ _ Hu)|by apply (unlisting_follows _ w)|].
      intros i f s Hm Hx ->. apply (unlisting_maps w w0) in Hm; [|done].
      destruct (target_state w x o i f d Hsh Hin Ht Hm) as [-> _]. done.
    + destruct (setValue_tables w0 d v') as (T1 & T2 & _).
      intros o2 r2 red2 f2. rewrite observers_of_setValue, T1, T2.
      rewrite (unl_observerTable _ _ Hu), (unl_reductionTable _ _ Hu).
      intros Hin2 Ho2 Hr2 Hs2. apply (unl_observers _ _ Hu) in Hin2.
      assert (getValue x (setValue d v' w0) = getValue x w) as Hx.
      { rewrite getValue_setValue_ne by lia. apply (unl_value _ _ Hu). }
      rewrite Hx.
      destruct (decide (o2 = o)) as [->|Hne].
      * right. destruct (Hmap r2 red2 f2 Ho2 Hr2 Hs2) as [-> ->].
        unfold target in Ht. rewrite Ho2, Hr2 in Ht. simpl in Ht.
        injection Ht as <-. apply getValue_setValue.
        apply lookup_lt_is_Some. by apply (shaped_states w Hsh r2).
      * destruct (Hc o2 r2 red2 f2 Hin2 Ho2 Hr2 Hs2) as [Hel|Hv].
        { apply elem_of_cons in Hel as [->|Hel]; [done|by left]. }
        right. rewrite getValue_setValue_ne; [by rewrite (unl_value _ _ Hu)|].
        intros ->.
        assert (maps w x f2 (r_state red2)) as Hm by (by exists o2, r2, red2).
        destruct (target_state w x o x f2 (r_state red2) Hsh Hin Ht Hm)
          as (_ & r & red & Ho & Hr & _ & Hst).
        assert (r = r2) as ->
            by (by apply (shaped_states_inj w Hsh r r2 red red2)).
        apply Hne. by apply (shaped_observers w Hsh o2 o r2).
Qed.

Lemma dispatch_loop_follows (x : nat) (os : list nat) (w : World) :
  wired w → own_schedulers w → shaped w →
  follows_at (Some x) w → caught_up x os w →
  shaped (snd (dispatch_loop x os w))
  ∧ follows_at (Some x) (snd (dispatch_loop x os w))
  ∧ caught_up x [] (snd (dispatch_loop x os w)).
Proof.
  revert w. induction os as [|o os IH]; intros w Hw Hown Hsh Hf Hc; [done|].
  cbn [dispatch_loop]. case_bool_decide as Hin.
  - unfold bind.
    destruct (run_observer_quiet w x o (getValue x w) Hw Hown Hin)
      as [Hr Hq].
    destruct (run_observer_follows w x o os Hw Hown Hsh Hin Hf Hc)
      as (Hsh1 & Hf1 & Hc1).
    destruct (run_observer o (getValue x w) w) as [[e|[]] w1]; [done|].
    cbn [snd] in *.
    apply IH; try done.
    + by apply (quiet_wired x w w1).
    + by apply (quiet_own _ _ _ Hq).
  - apply IH; try done.
    intros o2 r2 red2 f2 Hin2 Ho2 Hr2 Hs2.
    destruct (Hc o2 r2 red2 f2 Hin2 Ho2 Hr2 Hs2) as [Hel|Hv]; [|by right].
    apply elem_of_cons in Hel as [->|Hel]; [done|by left].
Qed.

Lemma lower_flag_shaped (w : World) (sch : nat) :
  shaped w → shaped (lower_flag sch w).
Proof.
  intros [S1 S2 S3 S4 S5 S6 S7 S8]. constructor; try done.
  intros j s. simpl. rewrite list_lookup_alter. case_decide as Hd.
  - subst j. destruct (schedulers w !! sch) as [s'|]; [|done].
    simpl. by intros [= <-].
  - apply S8.
Qed.

Lemma with_microtasks_shaped (w : World) (ms : list nat) :
  shaped w → shaped (with_microtasks ms w).
Proof. intros [S1 S2 S3 S4 S5 S6 S7 S8]. by constructor. Qed.

Lemma tick_dispatch (w : World) (x : nat) (rest : list nat) :
  settled_between w → shaped w → microtasks w = x :: rest →
  tick w = lower_flag x (snd (dispatch x (with_microtasks rest w))).
Proof.
  intros ((H1 & H2 & H3) & Hw & Hown) Hsh Hm.
  assert (flag w x = true) as Hf.
  { apply H2; [done|]. rewrite Hm. by left. }
  unfold tick. rewrite Hm. unfold performUpdate. unfold flag in Hf.
  change (schedulers (with_microtasks rest w)) with (schedulers w).
  destruct (schedulers w !! x) as [s|] eqn:E; [|done].
  destruct (shaped_armed w Hsh x s E Hf) as [t Ht]. rewrite Ht.
  destruct Hown as (O1 & O2 & O3). rewrite (O3 x s t E Ht).
  unfold bind. simpl.
  destruct (dispatch_quiet x (with_microtasks rest w) Hw
              (conj O1 (conj O2 O3))) as [Hr _].
  by destruct (dispatch x (with_microtasks rest w)) as [[e|[]] w1].
Qed.

Lemma tick_mapped (w : World) :
  settled_between w → mapped w → mapped (tick w).
Proof.
  intros Hs [Hsh Hf]. destruct (microtasks w) as [|x rest] eqn:Hm.
  - unfold tick. by rewrite Hm.
  - rewrite (tick_dispatch w x rest Hs Hsh Hm).
    destruct Hs as (_ & Hw & Hown).
    destruct (dispatch_loop_follows x
                (observers_of x (with_microtasks rest w))
                (with_microtasks rest w) Hw Hown
                (with_microtasks_shaped w rest Hsh))
      as (Hsh1 & Hf1 & Hc1).
    { intros i f s Hmp _. by apply Hf. }
    { intros o r red f Hin _ _ _. by left. }
    fold (dispatch x (with_microtasks rest w)) in Hsh1, Hf1, Hc1.
    set (w1 := snd (dispatch x (with_microtasks rest w))) in *.
    split; [by apply lower_flag_shaped|].
    intros i f s Hmp _.
    change (getValue s (lower_flag x w1)) with (getValue s w1).
    change (getValue i (lower_flag x w1)) with (getValue i w1).
    destruct (decide (i = x)) as [->|Hne].
    + right. destruct Hmp as (o & r & red & Hin & Ho & Hr & Hst & <-).
      destruct (Hc1 o r red f Hin Ho Hr Hst) as [Hel|Hv]; [|done].
      by apply elem_of_nil in Hel.
    + rewrite lower_flag_flag, decide_False by done.
      apply Hf1; [exact Hmp|congruence].
Qed.

(** *** Making signals and subscribing *)

Lemma listed_lt (w : World) (i o : nat) :
  o ∈ observers_of i w → i < length (signals w).
Proof.
  unfold observers_of. destruct (signals w !! i) eqn:E.
  - intros _. by apply lookup_lt_Some in E.
  - by intros ?%elem_of_nil.
Qed.

Lemma signal_value (v : Value) (w : World) (j : nat) :
  j < length (signals w) → getValue j (snd (signal v w)) = getValue j w.
Proof. intros Hj. unfold getValue. simpl. by rewrite lookup_app_l. Qed.

Lemma maps_lt (w : World) (i : nat) (f : Value → Value) (s : nat) :
  shaped w → maps w i f s →
  i < length (signals w) ∧ s < length (signals w).
Proof.
  intros Hsh (o & r & red & Hin & _ & Hr & _ & <-). split.
  - by apply (listed_lt w i o).
  - by apply (shaped_states w Hsh r).
Qed.

Lemma signal_mapped (v : Value) (w : World) :
  mapped w → mapped (snd (signal v w)).
Proof.
  intros [Hsh Hf]. pose proof Hsh as [S1 S2 S3 S4 S5 S6 S7 S8]. split.
  - constructor; try done.
    + intros r red Hr. simpl. rewrite length_app. simpl.
      pose proof (S1 r red Hr). lia.
    + intros o d f Ho. destruct (S5 o d f Ho) as [Hd ?]. split; [|done].
      simpl. rewrite length_app. lia.
    + intros st s Hst. destruct (S6 st s Hst) as [Hd ?]. split; [|done].
      simpl. rewrite length_app. lia.
    + intros i i' o r. rewrite !signal_observers. apply S7.
    + intros sch s. simpl.
      intros [Hs|[_ Hs]]%lookup_app_Some; [by apply (S8 sch)|].
      destruct (sch - length (schedulers w)) as [|k]; [|by destruct k].
      simpl in Hs. by injection Hs as <-.
  - intros i f s Hm _.
    assert (maps w i f s) as Hm'.
    { destruct Hm as (o & r & red & Hin & Hrest). exists o, r, red.
      rewrite signal_observers in Hin. by split. }
    destruct (maps_lt w i f s Hsh Hm') as [Hi Hs].
    rewrite signal_flag, !signal_value by done. by apply Hf.
Qed.

(** An observer that is no closure of [reductions] is added to the set
    of signal [i]. *)
Lemma subscribe_other_mapped (w : World) (i o : nat) :
  (∀ r, observerTable w !! o ≠ Some (OReduction r)) → mapped w →
  mapped (set_observers i (set_add o (observers_of i w)) w).
Proof.
  intros Ho [Hsh Hf]. pose proof Hsh as [S1 S2 S3 S4 S5 S6 S7 S8].
  set (w' := set_observers i (set_add o (observers_of i w)) w).
  assert (∀ t o' r, o' ∈ observers_of t w' →
                    observerTable w !! o' = Some (OReduction r) →
                    o' ∈ observers_of t w) as Hold.
  { intros t o' r. unfold w'. rewrite observers_of_set_observers.
    case_decide as Hd; [|done]. destruct Hd as [-> _].
    intros [->|Hin]%TrackedFacts.elem_of_set_add; [|done].
    intros Ho'. by destruct (Ho r). }
  assert (length (signals w') = length (signals w)) as Hl.
  { simpl. by rewrite length_alter. }
  split.
  - constructor; rewrite ?Hl; try done.
    intros t t' o' r Ht Ht' Ho'.
    apply (S7 t t' o' r); [by apply (Hold t o' r)|by apply (Hold t' o' r)|done].
  - intros t f s (o' & r & red & Hin & Ho' & Hrest) _.
    unfold w'. rewrite !getValue_set_observers.
    apply Hf; [|done]. exists o', r, red. split; [|done].
    by apply (Hold t o' r).
Qed.

Lemma new_observer_mapped (w : World) (ob : Observer) :
  settled_between w →
  (∀ r, ob ≠ OReduction r) →
  (∀ d f, ob = OSample d f → d < length (signals w) ∧ is_state w d = false) →
  mapped w → mapped (with_observerTable (observerTable w ++ [ob]) w).
Proof.
  intros (_ & Hw & _) Hob Hsam [Hsh Hf].
  pose proof Hsh as [S1 S2 S3 S4 S5 S6 S7 S8].
  assert (∀ o r, (observerTable w ++ [ob]) !! o = Some (OReduction r) →
                 observerTable w !! o = Some (OReduction r)) as Hold.
  { intros o r [H|[_ H]]%lookup_app_Some; [done|].
    destruct (o - length (observerTable w)) as [|k]; [|by destruct k].
    simpl in H. injection H as ->. by destruct (Hob r). }
  split.
  - constructor; try done.
    + intros o r Ho. by apply (S3 o r), Hold.
    + intros o o' r Ho Ho'. apply (S4 o o' r); by apply Hold.
    + intros o d f. simpl. intros [H|[_ H]]%lookup_app_Some; [by apply (S5 o d f)|].
      destruct (o - length (observerTable w)) as [|k]; [|by destruct k].
      simpl in H. injection H as ->. by apply (Hsam d f).
    + intros i i' o r Hi Hi' Ho. apply (S7 i i' o r); [done|done|].
      by apply Hold.
  - intros i f s (o & r & red & Hin & Ho & Hrest) _.
    apply Hf; [|done]. exists o, r, red. split; [done|].
    split; [by apply Hold|done].
Qed.

(** *** The store *)

Lemma set_pending_mapped (w : World) (st : nat) (p : list Outcome) :
  mapped w → mapped (set_pending st p w).
Proof.
  intros [Hsh Hf]. pose proof Hsh as [S1 S2 S3 S4 S5 S6 S7 S8]. split.
  - constructor; try done.
    intros st' s. simpl. rewrite list_lookup_alter. case_decide as Hd.
    + subst st'. destruct (stores w !! st) as [s'|] eqn:E; [|done].
      simpl. intros [= <-]. simpl. by apply (S6 st).
    + apply S6.
  - exact Hf.
Qed.

Lemma console_debug_unlisting (b : bool) (label : string) (v : Value)
    (w : World) :
  unlisting w (console_debug b label v w).
Proof. destruct b; [apply unlisting_record|apply unlisting_refl]. Qed.

Lemma store_send_mapped (w : World) (st : nat) (msg : Value) :
  settled_between w → mapped w → mapped (store_send st msg w).
Proof.
  intros Hs Hm. unfold store_send.
  destruct (stores w !! st) as [s|] eqn:E; [|done].
  cbv zeta. apply set_pending_mapped.
  set (w1 := console_debug (st_debug s) "store.msg" msg
               (record (EvStoreSend st msg) w)).
  assert (unlisting w w1) as Hu.
  { eapply unlisting_trans; [apply unlisting_record|].
    apply console_debug_unlisting. }
  set (t := st_update s (getValue (st_signal s) w1) msg).
  eapply unlisting_mapped; [apply console_debug_unlisting|].
  eapply unlisting_mapped; [apply console_debug_unlisting|].
  apply setValue_mapped.
  - apply (unlisting_settled w w1 Hu Hs).
  - by apply (unlisting_mapped w).
  - rewrite (unlisting_is_state w w1 _ Hu).
    by apply (shaped_stores w (proj1 Hm) st s).
Qed.

Lemma set_pending_settled (w : World) (st : nat) (p : list Outcome) :
  settled_between w → settled_between (set_pending st p w).
Proof. done. Qed.

Lemma settle_mapped (w : World) (st k : nat) :
  settled_between w → mapped w → mapped (settle st k w).
Proof.
  intros Hs Hm. unfold settle. destruct (stores w !! st) as [s|]; [|done].
  destruct (st_pending s !! k) as [[msg|]|]; [| |done].
  - simpl. apply store_send_mapped; [done|]. by apply set_pending_mapped.
  - simpl. by apply set_pending_mapped.
Qed.

Lemma useStore_mapped (w : World) (init : Transaction)
    (update : Value → Value → Transaction) (debug : bool) :
  mapped w → mapped (snd (useStore init update debug w)).
Proof.
  intros Hm. pose proof (is_state_fresh w (proj1 Hm)) as Hfresh.
  destruct (signal_mapped (t_state init) w Hm) as [Hsh Hf].
  pose proof Hsh as [S1 S2 S3 S4 S5 S6 S7 S8]. split; [|exact Hf].
  constructor; try done.
  intros st s. simpl. intros [H|[_ H]]%lookup_app_Some; [by apply (S6 st)|].
  destruct (st - length (stores w)) as [|k]; [|by destruct k].
  simpl in H. injection H as <-. simpl. split; [|done].
  rewrite length_app. simpl. lia.
Qed.

(** *** [reductions] *)

Lemma subscribing_reduction (w : World) (step : Step) (init : Value)
    (r : nat) (red : Reduction) :
  reductionTable (subscribing step init w) !! r = Some red →
  reductionTable w !! r = Some red
  ∨ (r = length (reductionTable w)
     ∧ red = mkReduction step (length (signals w)) None).
Proof.
  simpl. intros [H|[Hr H]]%lookup_app_Some; [by left|]. right.
  destruct (r - length (reductionTable w)) as [|k] eqn:E; [|by destruct k].
  simpl in H. injection H as <-. split; [lia|done].
Qed.

Lemma subscribing_observer (w : World) (step : Step) (init : Value)
    (o : nat) (ob : Observer) :
  observerTable (subscribing step init w) !! o = Some ob →
  observerTable w !! o = Some ob
  ∨ (o = length (observerTable w)
     ∧ ob = OReduction (length (reductionTable w))).
Proof.
  simpl. intros [H|[Hr H]]%lookup_app_Some; [by left|]. right.
  destruct (o - length (observerTable w)) as [|k] eqn:E; [|by destruct k].
  simpl in H. injection H as <-. split; [lia|done].
Qed.

Lemma subscribing_observers (w : World) (step : Step) (init : Value)
    (t : nat) :
  observers_of t (subscribing step init w) = observers_of t w.
Proof.
  change (observers_of t (subscribing step init w))
    with (observers_of t (snd (signal init w))).
  apply signal_observers.
Qed.

Lemma listed_observer (w : World) (t o : nat) :
  wired w → o ∈ observers_of t w → o < length (observerTable w).
Proof.
  intros Hw Hin. specialize (Hw t o Hin). unfold downstream_of in Hw.
  destruct (observerTable w !! o) eqn:E; [|done].
  by apply lookup_lt_Some in E.
Qed.

Lemma subscribing_is_state (w : World) (step : Step) (init : Value)
    (j : nat) :
  j < length (signals w) →
  is_state (subscribing step init w) j = is_state w j.
Proof.
  intros Hj. unfold is_state. simpl. rewrite existsb_app. simpl.
  rewrite bool_decide_eq_false_2 by lia. by rewrite !orb_false_r.
Qed.

Lemma subscribing_maps (w : World) (step : Step) (init : Value) (i : nat)
    (f : Value → Value) (s : nat) :
  wired w → shaped w →
  maps (subscribing step init w) i f s → maps w i f s.
Proof.
  intros Hw Hsh (o & r & red & Hin & Ho & Hr & Hrest).
  rewrite subscribing_observers in Hin.
  pose proof (listed_observer w i o Hw Hin) as Hlt.
  apply subscribing_observer in Ho as [Ho|[-> _]]; [|lia].
  pose proof (shaped_reductions w Hsh o r Ho) as Hr'.
  apply subscribing_reduction in Hr as [Hr|[-> _]]; [|lia].
  by exists o, r, red.
Qed.

Lemma subscribing_mapped (w : World) (step : Step) (init : Value) :
  settled_between w → mapped w → mapped (subscribing step init w).
Proof.
  intros (_ & Hw & _) [Hsh Hf].
  pose proof Hsh as [S1 S2 S3 S4 S5 S6 S7 S8].
  set (W := subscribing step init w).
  assert (length (signals W) = S (length (signals w))) as Hl.
  { simpl. rewrite length_app. simpl. lia. }
  assert (length (reductionTable W) = S (length (reductionTable w))) as Hlr.
  { simpl. rewrite length_app. simpl. lia. }
  split.
  - constructor; rewrite ?Hl, ?Hlr.
    + intros r red [Hr|[-> ->]]%subscribing_reduction.
      * pose proof (S1 r red Hr). lia.
      * simpl. lia.
    + intros r r' red red' Hr Hr' He.
      apply subscribing_reduction in Hr as [Hr|[-> ->]];
        apply subscribing_reduction in Hr' as [Hr'|[-> ->]].
      * by apply (S2 r r' red red').
      * pose proof (S1 r red Hr). simpl in He. lia.
      * pose proof (S1 r' red' Hr'). simpl in He. lia.
      * done.
    + intros o r [Ho|[-> [= ->]]]%subscribing_observer.
      * pose proof (S3 o r Ho). lia.
      * lia.
    + intros o o' r Ho Ho'.
      apply subscribing_observer in Ho as [Ho|[-> [= ->]]];
        apply subscribing_observer in Ho' as [Ho'|[-> He]].
      * by apply (S4 o o' r).
      * injection He as ->. pose proof (S3 o _ Ho). lia.
      * pose proof (S3 o' _ Ho'). lia.
      * done.
    + intros o d f [Ho|[_ ?]]%subscribing_observer; [|done].
      destruct (S5 o d f Ho) as [Hd Hn]. split; [lia|].
      unfold W. by rewrite subscribing_is_state.
    + intros st s Hst. destruct (S6 st s Hst) as [Hd Hn]. split; [lia|].
      unfold W. by rewrite subscribing_is_state.
    + intros i i' o r. unfold W. rewrite !subscribing_observers.
      intros Hi Hi' Ho. pose proof (listed_observer w i o Hw Hi) as Hlt.
      apply subscribing_observer in Ho as [Ho|[-> _]]; [|lia].
      by apply (S7 i i' o r).
    + intros sch s. simpl.
      intros [Hs|[_ Hs]]%lookup_app_Some; [by apply (S8 sch)|].
      destruct (sch - length (schedulers w)) as [|k]; [|by destruct k].
      simpl in Hs. by injection Hs as <-.
  - intros i f s Hm _. apply subscribing_maps in Hm; [|done|done].
    destruct (maps_lt w i f s Hsh Hm) as [Hi Hs].
    change (flag W i) with (flag (snd (signal init w)) i).
    change (getValue s W) with (getValue s (snd (signal init w))).
    change (getValue i W) with (getValue i (snd (signal init w))).
    rewrite signal_flag, !signal_value by done. by apply Hf.
Qed.

Lemma is_state_alter (tbl : list Reduction) (g : Reduction → Reduction)
    (r j : nat) :
  (∀ red, r_state (g red) = r_state red) →
  existsb (λ red, bool_decide (r_state red = j)) (alter g r tbl)
  = existsb (λ red, bool_decide (r_state red = j)) tbl.
Proof.
  intros Hg. revert r. induction tbl as [|red tbl IH]; intros r; [done|].
  destruct r as [|r]; simpl.
  - by rewrite Hg.
  - f_equal. apply IH.
Qed.

(** The closure [o] of the [reductions] call [r] is added to the set of
    signal [i], and the [cancel] of the call is initialised. *)
Lemma subscribed_mapped (w : World) (i o r : nat) (red : Reduction) (c : Fn) :
  mapped w →
  observerTable w !! o = Some (OReduction r) →
  reductionTable w !! r = Some red →
  (∀ t, o ∉ observers_of t w) →
  (∀ f, r_step red = mapping f stepForward →
        getValue (r_state red) w = f (getValue i w)) →
  mapped (set_reduction_cancel r c
            (set_observers i (set_add o (observers_of i w)) w)).
Proof.
  intros [Hsh Hf] Ho Hr Hfresh Hval.
  pose proof Hsh as [S1 S2 S3 S4 S5 S6 S7 S8].
  set (w5 := set_observers i (set_add o (observers_of i w)) w).
  set (w6 := set_reduction_cancel r c w5).
  assert (∀ t o', o' ∈ observers_of t w6 →
                  o' ∈ observers_of t w ∨ (o' = o ∧ t = i)) as Hlist.
  { intros t o'. change (observers_of t w6) with (observers_of t w5).
    unfold w5. rewrite observers_of_set_observers.
    case_decide as Hd; [|by left]. destruct Hd as [-> _].
    intros [->|Hin]%TrackedFacts.elem_of_set_add; [by right|by left]. }
  assert (∀ r' red', reductionTable w6 !! r' = Some red' →
                     ∃ red0, reductionTable w !! r' = Some red0
                             ∧ r_state red' = r_state red0
                             ∧ r_step red' = r_step red0
                             ∧ (r' ≠ r → red' = red0)) as Htbl.
  { intros r' red'. simpl. rewrite list_lookup_alter. case_decide as Hd.
    - subst r'. rewrite Hr. simpl. intros [= <-]. by exists red.
    - intros H. by exists red'. }
  assert (length (signals w6) = length (signals w)) as Hl.
  { simpl. by rewrite length_alter. }
  assert (∀ j, is_state w6 j = is_state w j) as Hst.
  { intros j. unfold is_state. simpl. by apply is_state_alter. }
  assert (∀ j, getValue j w6 = getValue j w) as Hv.
  { intros j. change (getValue j w6) with (getValue j w5).
    apply getValue_set_observers. }
  split.
  - constructor; rewrite ?Hl.
    + intros r' red' (red0 & H0 & -> & _)%Htbl. by apply (S1 r').
    + intros r1 r2 red1 red2 (red1' & H1 & -> & _)%Htbl
        (red2' & H2 & -> & _)%Htbl. by apply (S2 r1 r2).
    + intros o' r' Ho'. simpl. rewrite length_alter. by apply (S3 o').
    + exact S4.
    + intros o' d f Ho'. rewrite Hst. by apply (S5 o' d f).
    + intros st s Hs. rewrite Hst. by apply (S6 st).
    + intros t t' o' r' Ht Ht' Ho'.
      destruct (Hlist t o' Ht) as [H1|[E1 F1]];
        destruct (Hlist t' o' Ht') as [H2|[E2 F2]].
      * by apply (S7 t t' o' r').
      * subst o'. by destruct (Hfresh t).
      * subst o'. by destruct (Hfresh t').
      * congruence.
    + exact S8.
  - intros t f s (o' & r' & red' & Hin & Ho' & Hr' & Hstep & <-) _.
    change (flag w6 t) with (flag w t). rewrite !Hv.
    change (observerTable w6) with (observerTable w) in Ho'.
    destruct (Htbl r' red' Hr') as (red0 & H0 & -> & E & Hne).
    destruct (Hlist t o' Hin) as [Hold|[-> ->]].
    + apply Hf; [|done]. exists o', r', red0.
      split; [done|]. split; [done|]. split; [done|].
      split; [congruence|done].
    + right. rewrite Ho in Ho'. injection Ho' as <-.
      rewrite Hr in H0. injection H0 as <-. apply Hval. congruence.
Qed.

Lemma reductions_mapped (w : World) (step : Step) (i : nat) (init : Value) :
  i < length (signals w) → settled_between w → mapped w →
  mapped (snd (reductions step i init w)).
Proof.
  intros Hi Hs Hm. pose proof (subscribing_settled w step init Hs) as HsW.
  pose proof (subscribing_mapped w step init Hs Hm) as HmW.
  destruct (step init (getValue i w)) as [v|v] eqn:Hstep;
    [|by rewrite (reductions_reduced w step i init v Hi Hstep)].
  rewrite (reductions_plain w step i init v Hi Hstep). cbn [snd].
  set (d := length (signals w)). set (o := length (observerTable w)).
  set (r := length (reductionTable w)).
  set (W := subscribing step init w) in *.
  destruct (setValue_tables W d v) as (T1 & T2 & _).
  assert (mapped (setValue d v W)) as Hm4.
  { split; [apply setValue_shaped, HmW|].
    apply setValue_follows; [apply HsW|apply HmW|].
    intros t f s Hmp _ ->. apply subscribing_maps in Hmp;
      [|apply Hs|apply Hm].
    destruct (maps_lt w t f d (proj1 Hm) Hmp) as [_ Hd]. unfold d in Hd. lia. }
  set (w4 := setValue d v W) in *.
  eapply unlisting_mapped;
    [|apply (subscribed_mapped w4 i o r (mkReduction step d None)
               (FCancel (Unobserve i o)) Hm4)].
  - by constructor.
  - rewrite T1. simpl. by rewrite list_lookup_middle.
  - rewrite T2. simpl. by rewrite list_lookup_middle.
  - intros t. unfold w4. rewrite observers_of_setValue. unfold W.
    rewrite subscribing_observers. intros Hin.
    destruct Hs as (_ & Hw & _).
    pose proof (listed_observer w t o Hw Hin). unfold o in *. lia.
  - simpl. intros f ->. unfold w4.
    rewrite getValue_setValue
      by (simpl; rewrite list_lookup_middle by done; by eexists).
    rewrite getValue_setValue_ne by (unfold d; lia).
    change (getValue i W) with (getValue i (snd (signal init w))).
    rewrite signal_value by done.
    unfold mapping, stepForward in Hstep. congruence.
Qed.

(** *** [sample] *)

Lemma observe_triggers_mapped (ts : list nat) (d : nat) (resample : Resample)
    (w : World) :
  settled_between w → mapped w →
  d < length (signals w) → is_state w d = false → (∀ t, t ∈ ts → t < d) →
  ∃ cs w', observe_triggers ts d resample w = (inr cs, w') ∧ mapped w'.
Proof.
  revert w. induction ts as [|t ts IH]; intros w Hs Hm Hd Hn Hts.
  - by exists [], w.
  - cbn [observe_triggers]. unfold new_observer. cbv beta iota zeta.
    unfold bind at 1. rewrite (observe_sample w t d resample).
    set (n := length (observerTable w)).
    set (w1 := with_observerTable (observerTable w ++ [OSample d resample]) w).
    set (w2 := record (EvResample d) w1).
    set (w3 := setValue d (resample (λ i, getValue i w2)) w2).
    set (w4 := set_observers t (set_add n (observers_of t w3)) w3).
    destruct (setValue_tables w2 d (resample (λ i, getValue i w2)))
      as (T1 & T2 & _).
    destruct (setValue_length w2 d (resample (λ i, getValue i w2)))
      as [L1 _].
    fold w3 in T1, T2, L1.
    assert (settled_between w2) as Hs2 by (by apply (new_observer_settled w)).
    assert (mapped w2) as Hm2.
    { apply (unlisting_mapped w1); [apply unlisting_record|].
      apply new_observer_mapped; [done|done| |done].
      by intros d' f' [= -> ->]. }
    assert (settled_between w3) as Hs3 by (by apply setValue_settled).
    assert (mapped w3) as Hm3.
    { apply setValue_mapped; [apply Hs2|done|done]. }
    assert (observerTable w3 !! n = Some (OSample d resample)) as Hn3.
    { rewrite T1. simpl. by rewrite list_lookup_middle. }
    assert (settled_between w4) as Hs4.
    { apply subscribe_settled; [done|]. unfold downstream_of.
      rewrite Hn3. apply Hts. by left. }
    assert (mapped w4) as Hm4.
    { apply subscribe_other_mapped; [|done]. intros r. by rewrite Hn3. }
    destruct (IH w4 Hs4 Hm4) as (cs & w' & E & Hm').
    { change (d < length (signals w4)).
      unfold w4, set_observers. simpl. rewrite length_alter, L1. exact Hd. }
    { change (is_state w3 d = false). unfold w3.
      by rewrite setValue_is_state. }
    { intros t' Ht'. apply Hts. by right. }
    exists (Unobserve t n :: cs), w'. unfold bind. by rewrite E.
Qed.

Lemma sample_mapped (w : World) (triggers : list nat) (resample : Resample) :
  (∀ t, t ∈ triggers → t < length (signals w)) →
  settled_between w → mapped w →
  mapped (snd (sample triggers resample w)).
Proof.
  intros Hts Hs Hm. unfold sample.
  set (w0 := record (EvResample (length (signals w))) w).
  set (v := resample (λ i, getValue i w0)).
  change (useSignal v w0) with (length (signals w), snd (signal v w0)).
  cbv beta iota zeta.
  assert (mapped w0) as Hm0.
  { apply (unlisting_mapped w); [apply unlisting_record|done]. }
  destruct (observe_triggers_mapped triggers (length (signals w)) resample
              (snd (signal v w0))) as (cs & w' & E & Hm').
  - by apply (signal_settled v w0).
  - by apply signal_mapped.
  - simpl. rewrite length_app. simpl. lia.
  - apply (is_state_fresh w0), Hm0.
  - exact Hts.
  - unfold bind at 1. rewrite E. simpl.
    eapply unlisting_mapped; [|exact Hm']. by constructor.
Qed.

(** *** Programs *)

Lemma empty_mapped : mapped empty.
Proof.
  split.
  - by constructor.
  - intros i f s (o & r & red & Hin & _). unfold observers_of in Hin.
    simpl in Hin. by apply elem_of_nil in Hin.
Qed.

Lemma observe_caller_mapped (w : World) (i o k : nat) :
  mapped w → observerTable w !! o = Some (OCaller k) →
  mapped (snd (observe i o w)).
Proof.
  intros Hm Ho. rewrite (observe_caller w i o k Ho). simpl.
  apply (subscribe_other_mapped (record (EvObserved k (getValue i w)) w)).
  - intros r. simpl. by rewrite Ho.
  - apply (unlisting_mapped w); [apply unlisting_record|done].
Qed.

Lemma apply_op_mapped (op : Op) (w : World) :
  valid_op op w = true → settled_between w → mapped w →
  mapped (apply_op op w).
Proof.
  intros Hv Hs Hm. destruct op as [v|i v|i k|i o|step i init|i f|ts f|ob c|ob|c|
                                    init upd dbg|st msg|st k|]; simpl in *.
  - by apply signal_mapped.
  - apply andb_prop in Hv as [Hv _]. apply andb_prop in Hv as [_ Hv].
    apply negb_true_iff in Hv.
    apply setValue_mapped; [apply Hs|done|done].
  - apply (observe_caller_mapped _ i _ k).
    + apply new_observer_mapped; [done|done|done|done].
    + simpl. by rewrite list_lookup_middle.
  - apply andb_prop in Hv as [_ Hv].
    destruct (observerTable w !! o) as [[r|d f|k]|] eqn:Eo; try done.
    by apply (observe_caller_mapped w i o k).
  - apply reductions_mapped; [|done|done].
    by apply bool_decide_eq_true_1 in Hv.
  - apply (reductions_mapped w (mapping f stepForward) i
             (f (getValue i w))); [|done|done].
    by apply bool_decide_eq_true_1 in Hv.
  - apply sample_mapped; [|done|done]. intros t Ht.
    rewrite forallb_forall in Hv. apply list_elem_of_In, Hv in Ht.
    by apply bool_decide_eq_true_1 in Ht.
  - destruct c as [fn|v]; [|done]. simpl.
    eapply unlisting_mapped; [|exact Hm]. by constructor.
  - unfold cancel. destruct (cancelOf w ob) as [f|]; [|done].
    by apply (unlisting_mapped w _ (unlisting_call f w)).
  - by apply (unlisting_mapped w _ (unlisting_call_cancel c w)).
  - by apply useStore_mapped.
  - by apply store_send_mapped.
  - by apply settle_mapped.
  - by apply tick_mapped.
Qed.

Lemma reachable_mapped (w : World) : Reachable w → mapped w.
Proof.
  induction 1 as [|w op Hr IH Hv]; [apply empty_mapped|].
  apply apply_op_mapped; [done|by apply reachable_settled|done].
Qed.

Lemma diamond_ticked_reachable : Reachable diamond_ticked.
Proof. apply observed_ops_reachable; [apply reach_empty|by vm_compute]. Qed.

Lemma diamond_ticked_maps : maps diamond_ticked 0 double 1.
Proof.
  exists 0, 0,
    (mkReduction (mapping double stepForward) 1
       (Some (FCancel (Unobserve 0 0)))).
  split; [vm_compute; by left|]. by vm_compute.
Qed.

(** X28.  A signal made by [map] follows its upstream: in every world
    that a program reaches, a map [s] of signal [i] by [f] that is still
    subscribed holds [f] of the value of [i], unless [i] has its update
    waiting in the microtask queue.  The program writes with the setters it
    holds, and [reductions] hands out none for its state. *)
Theorem map_follows_upstream (w : World) (i : nat) (f : Value → Value)
    (s : nat) :
  Reachable w → maps w i f s → i ∉ microtasks w →
  getValue s w = f (getValue i w).
Proof.
  intros Hr Hm Hq.
  destruct (reachable_settled w Hr) as ((_ & H2 & _) & _).
  destruct (reachable_mapped w Hr) as [_ Hf].
  destruct (Hf i f s Hm) as [Hfl|Hv]; [done| |done].
  exfalso. apply Hq. by apply H2.
Qed.

Lemma map_follows_upstream_witness :
  getValue 1 diamond_ticked = double (getValue 0 diamond_ticked).
Proof.
  apply (map_follows_upstream diamond_ticked 0 double 1
           diamond_ticked_reachable diamond_ticked_maps).
  apply (bool_decide_unpack _). by vm_compute.
Defined.

End ObservedMapsFacts.

(** ** Samples follow their triggers *)

Module ObservedSamplesFacts.
Import Observed ObservedSpec ObservedMore ObservedReach.
Import ObservedFacts ObservedMoreFacts ObservedReachFacts ObservedMapsFacts.

(** *** Signals of [sample] calls *)

Lemma is_sampled_lookup (w : World) (o d : nat) (f : Resample) :
  observerTable w !! o = Some (OSample d f) → is_sampled w d = true.
Proof.
  intros H. unfold is_sampled. apply existsb_exists. exists (OSample d f).
  split.
  - apply list_elem_of_In. by eapply list_elem_of_lookup_2.
  - by apply bool_decide_eq_true_2.
Qed.

Lemma is_sampled_true (w : World) (d : nat) :
  is_sampled w d = true → ∃ o f, observerTable w !! o = Some (OSample d f).
Proof.
  unfold is_sampled. intros (ob & Hin & Hd)%existsb_exists.
  apply list_elem_of_In, list_elem_of_lookup_1 in Hin as [o Ho].
  destruct ob as [r|d' f|k]; try done.
  apply bool_decide_eq_true_1 in Hd. subst d'. by exists o, f.
Qed.

Lemma is_sampled_same (w w' : World) (d : nat) :
  (∀ o f, observerTable w' !! o = Some (OSample d f) →
          ∃ o', observerTable w !! o' = Some (OSample d f)) →
  is_sampled w d = false → is_sampled w' d = false.
Proof.
  intros H Hn. destruct (is_sampled w' d) eqn:E; [|done].
  apply is_sampled_true in E as (o & f & Ho).
  destruct (H o f Ho) as [o' Ho']. apply is_sampled_lookup in Ho'. congruence.
Qed.

Lemma samples_sampled (w : World) (ts : list nat) (f : Resample) (d : nat) :
  samples w ts f d → is_sampled w d = true.
Proof.
  intros [Hne Hall]. destruct ts as [|t ts]; [done|].
  destruct (Hall t) as (o & _ & Ho); [by left|].
  by apply (is_sampled_lookup w o d f).
Qed.

Lemma samples_lt (w : World) (ts : list nat) (f : Resample) (d t : nat) :
  wired w → shaped w → samples w ts f d → t ∈ ts →
  t < d ∧ d < length (signals w).
Proof.
  intros Hw Hsh [_ Hall] Ht. destruct (Hall t Ht) as (o & Hin & Ho).
  specialize (Hw t o Hin). unfold downstream_of in Hw. rewrite Ho in Hw.
  split; [done|]. by apply (shaped_samples w Hsh o d f).
Qed.

Lemma samples_not_trigger (w : World) (ts : list nat) (f : Resample)
    (d : nat) :
  wired w → shaped w → samples w ts f d → d ∉ ts.
Proof.
  intros Hw Hsh Hs Hd. destruct (samples_lt w ts f d d Hw Hsh Hs Hd). lia.
Qed.

(** *** Being current *)

Lemma current_same (x : option nat) (w w' : World) (ts : list nat)
    (f : Resample) (d : nat) :
  reads_only ts f →
  (∀ t, t ∈ ts → flag w t = true → flag w' t = true) →
  (∀ t, t ∈ ts → getValue t w' = getValue t w) →
  getValue d w' = getValue d w →
  current_at x w ts f d → current_at x w' ts f d.
Proof.
  intros Hro Hfl Hv Hd [(t & Ht & Hx & Hf)|Hc].
  - left. exists t. split; [done|]. split; [done|]. by apply Hfl.
  - right. rewrite Hd, Hc. apply Hro. intros t Ht. symmetry. by apply Hv.
Qed.

Lemma current_setValue (x : option nat) (w : World) (i : nat) (v : Value)
    (ts : list nat) (f : Resample) (d : nat) :
  own_schedulers w → reads_only ts f → d ≠ i → x ≠ Some i →
  current_at x w ts f d → current_at x (setValue i v w) ts f d.
Proof.
  intros Hown Hro Hd Hx Hc.
  destruct (setValue_value_or_flag w i v i Hown) as [Hi|Hi].
  - apply (current_same x w); [done| | |by apply getValue_setValue_ne|done].
    + intros t _. apply setValue_flag_up.
    + intros t _. destruct (decide (i = t)) as [<-|Hne]; [done|].
      by apply getValue_setValue_ne.
  - destruct (decide (i ∈ ts)) as [Hin|Hnin].
    + left. by exists i.
    + apply (current_same x w); [done| | |by apply getValue_setValue_ne|done].
      * intros t _. apply setValue_flag_up.
      * intros t Ht. apply getValue_setValue_ne. by intros ->.
Qed.

Lemma current_resampled (x : option nat) (w : World) (ts : list nat)
    (f : Resample) (d : nat) :
  reads_only ts f → d ∉ ts → is_Some (signals w !! d) →
  current_at x (setValue d (f (λ i, getValue i w)) w) ts f d.
Proof.
  intros Hro Hd Hs. right. rewrite getValue_setValue by done.
  apply Hro. intros t Ht. symmetry. apply getValue_setValue_ne.
  by intros ->.
Qed.

(** *** Cancelling *)

Lemma unlisting_samples (w w' : World) (ts : list nat) (f : Resample)
    (d : nat) :
  unlisting w w' → samples w' ts f d → samples w ts f d.
Proof.
  intros H [Hne Hall]. split; [done|]. intros t Ht.
  destruct (Hall t Ht) as (o & Hin & Ho). exists o.
  rewrite <- (unl_observerTable _ _ H). split; [|done].
  by apply (unl_observers _ _ H).
Qed.

Lemma unlisting_is_sampled (w w' : World) (d : nat) :
  unlisting w w' → is_sampled w' d = is_sampled w d.
Proof. intros H. unfold is_sampled. by rewrite (unl_observerTable _ _ H). Qed.

Lemma unlisting_sample_shaped (w w' : World) :
  unlisting w w' → sample_shaped w → sample_shaped w'.
Proof.
  intros H [V1 V2]. constructor.
  - rewrite (unl_observerTable _ _ H). exact V1.
  - intros st s. rewrite (unl_stores _ _ H), (unlisting_is_sampled w w' _ H).
    apply V2.
Qed.

Lemma unlisting_current (x : option nat) (w w' : World) (ts : list nat)
    (f : Resample) (d : nat) :
  unlisting w w' → reads_only ts f →
  current_at x w ts f d → current_at x w' ts f d.
Proof.
  intros H Hro. apply current_same; [done| | |apply (unl_value _ _ H)].
  - intros t _. by rewrite (unlisting_flag w w' t H).
  - intros t _. apply (unl_value _ _ H).
Qed.

Lemma unlisting_sampled_at (x : option nat) (w w' : World) :
  unlisting w w' → sampled_at x w → sampled_at x w'.
Proof.
  intros H Hs ts f d Hsm Hro Hx. apply (unlisting_current x w w'); [done|done|].
  apply Hs; [|done|done]. by apply (unlisting_samples w w').
Qed.

Lemma unlisting_resampled (x : nat) (os : list nat) (w w' : World) :
  unlisting w w' → resampled x os w → resampled x os w'.
Proof.
  intros H Hr ts f d o Hsm Hro Hx Hin Ho.
  rewrite (unl_observerTable _ _ H) in Ho.
  destruct (Hr ts f d o) as [?|Hc]; try done.
  - by apply (unlisting_samples w w').
  - by apply (unl_observers _ _ H).
  - by left.
  - right. by apply (unlisting_current _ w w').
Qed.

Lemma unlisting_sampled (w w' : World) :
  unlisting w w' → sampled w → sampled w'.
Proof.
  intros H [H1 H2]. split; [by apply (unlisting_sample_shaped w)|].
  by apply (unlisting_sampled_at None w).
Qed.

(** *** Writing *)

Lemma setValue_samples (w : World) (i : nat) (v : Value) (ts : list nat)
    (f : Resample) (d : nat) :
  samples (setValue i v w) ts f d ↔ samples w ts f d.
Proof.
  destruct (setValue_tables w i v) as (T1 & _).
  unfold samples. setoid_rewrite observers_of_setValue. by rewrite T1.
Qed.

Lemma setValue_is_sampled (w : World) (i : nat) (v : Value) (j : nat) :
  is_sampled (setValue i v w) j = is_sampled w j.
Proof.
  unfold is_sampled. by destruct (setValue_tables w i v) as (-> & _).
Qed.

Lemma setValue_sample_shaped (w : World) (i : nat) (v : Value) :
  sample_shaped w → sample_shaped (setValue i v w).
Proof.
  intros [V1 V2]. destruct (setValue_tables w i v) as (T1 & _).
  destruct (setValue_frame w i v) as [F1 _].
  constructor.
  - rewrite T1. exact V1.
  - intros st s. rewrite F1, setValue_is_sampled. apply V2.
Qed.

Lemma setValue_sampled_at (x : option nat) (w : World) (i : nat) (v : Value) :
  own_schedulers w → sampled_at x w → x ≠ Some i → is_sampled w i = false →
  sampled_at x (setValue i v w).
Proof.
  intros Hown Hs Hx Hn ts f d Hsm Hro Hxt.
  apply (proj1 (setValue_samples w i v ts f d)) in Hsm.
  apply current_setValue; [done|done| |done|by apply Hs].
  intros ->. apply samples_sampled in Hsm. congruence.
Qed.

Lemma setValue_sampled (w : World) (i : nat) (v : Value) :
  own_schedulers w → sampled w → is_sampled w i = false →
  sampled (setValue i v w).
Proof.
  intros Hown [H1 H2] Hn. split; [by apply setValue_sample_shaped|].
  by apply setValue_sampled_at.
Qed.

(** *** Changes that leave the samples alone *)

Lemma sample_same_is_sampled (w w' : World) (j : nat) :
  sample_same w w' → is_sampled w' j = is_sampled w j.
Proof.
  intros H. destruct (is_sampled w j) eqn:E.
  - apply is_sampled_true in E as (o & f & Ho).
    apply (same_closures _ _ H) in Ho. by apply (is_sampled_lookup w' o j f).
  - apply (is_sampled_same w); [|done]. intros o f Ho. exists o.
    by apply (same_closures _ _ H).
Qed.

Lemma sample_same_samples (w w' : World) (ts : list nat) (f : Resample)
    (d : nat) :
  sample_same w w' → samples w' ts f d → samples w ts f d.
Proof.
  intros H [Hne Hall]. split; [done|]. intros t Ht.
  destruct (Hall t Ht) as (o & Hin & Ho). exists o.
  apply (same_closures _ _ H) in Ho. split; [|done].
  by apply (same_listed _ _ H t o d f).
Qed.

Lemma sample_same_sampled (w w' : World) :
  wired w → shaped w → sample_same w w' → sampled w → sampled w'.
Proof.
  intros Hw Hsh H [[V1 V2] Hs]. split.
  - constructor.
    + intros o o' d f f' Ho Ho'. apply (same_closures _ _ H) in Ho, Ho'.
      by apply (V1 o o' d).
    + intros st s Hst. rewrite (sample_same_is_sampled w w' _ H).
      pose proof (same_stores _ _ H st) as Hsame. rewrite Hst in Hsame.
      simpl in Hsame. destruct (stores w !! st) as [s0|] eqn:E; [|done].
      injection Hsame as ->. by apply (V2 st).
  - intros ts f d Hsm Hro Hx. apply (sample_same_samples w w') in Hsm; [|done].
    apply (current_same None w); [done| | | |by apply Hs].
    + intros t _. by rewrite (same_flag _ _ H).
    + intros t Ht. apply (same_value _ _ H).
      destruct Hsm as [_ Hall]. destruct (Hall t Ht) as (o & Hin & _).
      by apply (listed_lt w t o).
    + apply (same_value _ _ H).
      destruct ts as [|t ts]; [by destruct Hsm|].
      by destruct (samples_lt w (t :: ts) f d t Hw Hsh Hsm) as [_ ?];
        [left|].
Qed.

Lemma sample_same_trans (w1 w2 w3 : World) :
  length (signals w1) ≤ length (signals w2) →
  sample_same w1 w2 → sample_same w2 w3 → sample_same w1 w3.
Proof.
  intros Hl [A1 A2 A3 A4 A5] [B1 B2 B3 B4 B5]. constructor.
  - intros o d f. by rewrite B1.
  - intros t o d f Ho. rewrite <- (A2 t o d f Ho). apply (B2 t o d f).
    by apply A1.
  - intros j. by rewrite B3.
  - intros j Hj. rewrite B4 by lia. by apply A4.
  - intros st. by rewrite B5.
Qed.

(** *** The observers of a signal run *)

Lemma run_observer_sample (w : World) (o d : nat) (f : Resample) (v : Value) :
  observerTable w !! o = Some (OSample d f) →
  run_observer o v w
  = (inr tt,
     setValue d (f (λ i, getValue i (record (EvResample d) w)))
       (record (EvResample d) w)).
Proof. intros H. unfold run_observer. by rewrite H. Qed.

Lemma run_observer_shaped (w : World) (x o : nat) (v : Value) :
  wired w → shaped w → o ∈ observers_of x w →
  shaped (snd (run_observer o v w)).
Proof.
  intros Hw Hsh Hin.
  destruct (run_observer_effect w x o v Hw Hin)
    as (w0 & Hu & [[_ ->]|(d & v' & _ & _ & -> & _)]); cbn [snd].
  - by apply (unlisting_shaped w).
  - apply setValue_shaped. by apply (unlisting_shaped w).
Qed.

Lemma target_not_sampled (w : World) (o r tg : nat) :
  shaped w → observerTable w !! o = Some (OReduction r) →
  target w o = Some tg → is_sampled w tg = false.
Proof.
  intros Hsh Ho Ht. unfold target in Ht. rewrite Ho in Ht.
  destruct (reductionTable w !! r) as [red|] eqn:Er; [|done].
  simpl in Ht. injection Ht as <-.
  destruct (is_sampled w (r_state red)) eqn:E; [|done].
  apply is_sampled_true in E as (o' & f & Ho').
  destruct (shaped_samples w Hsh o' _ f Ho') as [_ Hn].
  by rewrite (is_state_lookup w r red) in Hn.
Qed.

Lemma resampled_tail (x o : nat) (rest : list nat) (w : World) :
  (∀ d f, observerTable w !! o ≠ Some (OSample d f)) ∨ o ∉ observers_of x w →
  resampled x (o :: rest) w → resampled x rest w.
Proof.
  intros Ho Hr ts f d o2 Hsm Hro Hx Hin2 Ho2.
  destruct (Hr ts f d o2 Hsm Hro Hx Hin2 Ho2) as [Hel|Hc]; [|by right].
  apply elem_of_cons in Hel as [->|Hel]; [|by left].
  destruct Ho as [Ho|Ho]; [by destruct (Ho d f)|done].
Qed.

Lemma run_observer_sampled (w : World) (x o : nat) (rest : list nat) :
  wired w → own_schedulers w → shaped w → sample_shaped w →
  o ∈ observers_of x w →
  sampled_at (Some x) w → resampled x (o :: rest) w →
  sample_shaped (snd (run_observer o (getValue x w) w))
  ∧ sampled_at (Some x) (snd (run_observer o (getValue x w) w))
  ∧ resampled x rest (snd (run_observer o (getValue x w) w)).
Proof.
  intros Hw Hown Hsh Hss Hin Hs Hr.
  destruct (observerTable w !! o) as [ob|] eqn:Eo;
    [|specialize (Hw x o Hin); unfold downstream_of in Hw; by rewrite Eo in Hw].
  assert ((∃ d0 f0, ob = OSample d0 f0) ∨ ∀ d f, ob ≠ OSample d f)
    as [(d0 & f0 & ->)|Hob].
  { destruct ob as [r|d f|k]; [by right|left; by exists d, f|by right]. }
  - rewrite (run_observer_sample w o d0 f0 _ Eo). cbn [snd].
    set (w1 := record (EvResample d0) w).
    assert (unlisting w w1) as Hu by apply unlisting_record.
    pose proof (Hw x o Hin) as Hlt. unfold downstream_of in Hlt.
    rewrite Eo in Hlt.
    destruct (shaped_samples w Hsh o d0 f0 Eo) as [Hd0 _].
    assert (∀ ts f d, samples (setValue d0 (f0 (λ i, getValue i w1)) w1) ts f d
                      → samples w ts f d) as Hback.
    { intros ts f d Hsm.
      apply (proj1 (setValue_samples w1 d0 _ ts f d)) in Hsm.
      by apply (unlisting_samples w w1). }
    assert (∀ ts f, samples w ts f d0 → reads_only ts f →
                    current_at (Some x)
                      (setValue d0 (f0 (λ i, getValue i w1)) w1) ts f d0)
      as Hnow.
    { intros ts f Hsm Hro.
      assert (f = f0) as ->.
      { destruct Hsm as [Hne Hall]. destruct ts as [|t ts]; [done|].
        destruct (Hall t) as (o' & _ & Ho'); [by left|].
        by apply (ss_resample w Hss o' o d0). }
      apply current_resampled; [done| |].
      - by apply (samples_not_trigger w ts f0 d0).
      - apply lookup_lt_is_Some. by rewrite (unl_signals _ _ Hu). }
    split; [|split].
    + apply setValue_sample_shaped. by apply (unlisting_sample_shaped w).
    + intros ts f d Hsm Hro Hx. apply Hback in Hsm.
      destruct (decide (d = d0)) as [->|Hne]; [by apply Hnow|].
      apply current_setValue;
        [by apply (unl_own _ _ Hu)|done|done|intros [= ->]; lia|].
      apply (unlisting_current _ w w1); [done|done|]. by apply Hs.
    + intros ts f d o2 Hsm Hro Hx Hin2 Ho2. apply Hback in Hsm.
      destruct (decide (d = d0)) as [->|Hne]; [right; by apply Hnow|].
      destruct (setValue_tables w1 d0 (f0 (λ i, getValue i w1))) as (T1 & _).
      rewrite T1 in Ho2. rewrite observers_of_setValue in Hin2.
      destruct (Hr ts f d o2 Hsm Hro Hx Hin2 Ho2) as [Hel|Hc].
      * apply elem_of_cons in Hel as [->|Hel]; [|by left].
        change (observerTable w1) with (observerTable w) in Ho2. congruence.
      * right. apply current_setValue;
          [by apply (unl_own _ _ Hu)|done|done|intros [= ->]; lia|].
        by apply (unlisting_current _ w w1).
  - assert (∀ d f, observerTable w !! o ≠ Some (OSample d f)) as Hno.
    { intros d f He. apply (Hob d f). congruence. }
    destruct (run_observer_effect w x o (getValue x w) Hw Hin)
      as (w0 & Hu & [[_ ->]|(tg & v' & Hlt & Ht & -> & _)]); cbn [snd].
    + split; [by apply (unlisting_sample_shaped w)|].
      split; [by apply (unlisting_sampled_at _ w)|].
      apply (unlisting_resampled x rest w w0 Hu).
      apply (resampled_tail x o); [by left|done].
    + assert (is_sampled w0 tg = false) as Hn.
      { rewrite (unlisting_is_sampled w w0 tg Hu).
        destruct ob as [r|d f|k].
        - by apply (target_not_sampled w o r).
        - by destruct (Hno d f).
        - unfold target in Ht. by rewrite Eo in Ht. }
      split; [|split].
      * apply setValue_sample_shaped. by apply (unlisting_sample_shaped w).
      * apply setValue_sampled_at;
          [by apply (unl_own _ _ Hu)|by apply (unlisting_sampled_at _ w)|
           intros [= ->]; lia|done].
      * intros ts f d o2 Hsm Hro Hx Hin2 Ho2.
        apply (proj1 (setValue_samples w0 tg v' ts f d)) in Hsm.
        destruct (setValue_tables w0 tg v') as (T1 & _).
        rewrite T1 in Ho2. rewrite observers_of_setValue in Hin2.
        pose proof (unlisting_resampled x rest w w0 Hu
                      (resampled_tail x o rest w (or_introl Hno) Hr))
          as Hr0.
        destruct (Hr0 ts f d o2 Hsm Hro Hx Hin2 Ho2) as [Hel|Hc];
          [by left|].
        right. apply current_setValue;
          [by apply (unl_own _ _ Hu)|done| |intros [= ->]; lia|done].
        intros ->. apply samples_sampled in Hsm. congruence.
Qed.

Lemma dispatch_loop_sampled (x : nat) (os : list nat) (w : World) :
  wired w → own_schedulers w → shaped w → sample_shaped w →
  sampled_at (Some x) w → resampled x os w →
  sample_shaped (snd (dispatch_loop x os w))
  ∧ sampled_at (Some x) (snd (dispatch_loop x os w))
  ∧ resampled x [] (snd (dispatch_loop x os w)).
Proof.
  revert w. induction os as [|o os IH]; intros w Hw Hown Hsh Hss Hs Hr;
    [done|].
  cbn [dispatch_loop]. case_bool_decide as Hin.
  - unfold bind.
    destruct (run_observer_quiet w x o (getValue x w) Hw Hown Hin)
      as [Hres Hq].
    pose proof (run_observer_shaped w x o (getValue x w) Hw Hsh Hin) as Hsh1.
    destruct (run_observer_sampled w x o os Hw Hown Hsh Hss Hin Hs Hr)
      as (Hss1 & Hs1 & Hr1).
    destruct (run_observer o (getValue x w) w) as [[e|[]] w1]; [done|].
    cbn [snd] in *.
    apply IH; try done.
    + by apply (quiet_wired x w w1).
    + by apply (quiet_own _ _ _ Hq).
  - apply IH; try done. apply (resampled_tail x o); [by right|done].
Qed.

Lemma with_microtasks_sample_shaped (w : World) (ms : list nat) :
  sample_shaped w → sample_shaped (with_microtasks ms w).
Proof. intros [V1 V2]. by constructor. Qed.

Lemma lower_flag_sample_shaped (w : World) (sch : nat) :
  sample_shaped w → sample_shaped (lower_flag sch w).
Proof. intros [V1 V2]. by constructor. Qed.

Lemma tick_sampled (w : World) :
  settled_between w → shaped w → sampled w → sampled (tick w).
Proof.
  intros Hs Hsh [Hss Hsa]. destruct (microtasks w) as [|x rest] eqn:Hm.
  - unfold tick. by rewrite Hm.
  - rewrite (tick_dispatch w x rest Hs Hsh Hm).
    destruct Hs as (_ & Hw & Hown).
    destruct (dispatch_loop_sampled x
                (observers_of x (with_microtasks rest w))
                (with_microtasks rest w) Hw Hown
                (with_microtasks_shaped w rest Hsh)
                (with_microtasks_sample_shaped w rest Hss))
      as (Hss1 & Hs1 & Hr1).
    { intros ts f d Hsm Hro Hx.
      destruct (Hsa ts f d Hsm Hro) as [(t & Ht & _ & Hf)|Hc]; [done| |].
      - left. exists t. split; [done|]. split; [|done].
        intros [= <-]. by apply (Hx x).
      - by right. }
    { intros ts f d o _ _ _ Hin _. by left. }
    fold (dispatch x (with_microtasks rest w)) in Hss1, Hs1, Hr1.
    set (w1 := snd (dispatch x (with_microtasks rest w))) in *.
    split; [by apply lower_flag_sample_shaped|].
    intros ts f d Hsm Hro _.
    assert (samples w1 ts f d) as Hsm1 by exact Hsm.
    assert (current_at (Some x) w1 ts f d) as Hc.
    { destruct (decide (x ∈ ts)) as [Hx|Hx].
      - destruct Hsm1 as [Hne Hall]. destruct (Hall x Hx) as (o & Hin & Ho).
        destruct (Hr1 ts f d o (conj Hne Hall) Hro Hx Hin Ho) as [Hel|Hc];
          [by apply elem_of_nil in Hel|done].
      - apply Hs1; [done|done|]. by intros t [= <-]. }
    destruct Hc as [(t & Ht & Hxt & Hf)|Hc]; [|by right].
    left. exists t. split; [done|]. split; [done|].
    rewrite lower_flag_flag, decide_False; [done|]. congruence.
Qed.

(** *** Making signals and subscribing *)

Lemma sample_same_signal (v : Value) (w : World) :
  sample_same w (snd (signal v w)).
Proof.
  constructor; try done.
  - intros t o d f _. by rewrite signal_observers.
  - apply signal_flag.
  - intros j Hj. by apply signal_value.
Qed.

Lemma sample_same_new_observer (w : World) (ob : Observer) :
  (∀ d f, ob ≠ OSample d f) →
  sample_same w (with_observerTable (observerTable w ++ [ob]) w).
Proof.
  intros Hob. constructor; try done.
  intros o d f. simpl. split.
  - intros [H|[_ H]]%lookup_app_Some; [done|].
    destruct (o - length (observerTable w)) as [|k]; [|by destruct k].
    simpl in H. injection H as ->. by destruct (Hob d f).
  - apply lookup_app_l_Some.
Qed.

Lemma sample_same_subscribing (w : World) (step : Step) (init : Value) :
  sample_same w (subscribing step init w).
Proof.
  constructor; try done.
  - intros o d f. split.
    + by intros [H|[_ ?]]%subscribing_observer.
    + simpl. apply lookup_app_l_Some.
  - intros t o d f _. by rewrite subscribing_observers.
  - intros j. change (flag (subscribing step init w) j)
      with (flag (snd (signal init w)) j). apply signal_flag.
  - intros j Hj. change (getValue j (subscribing step init w))
      with (getValue j (snd (signal init w))). by apply signal_value.
Qed.

(** An observer that is no closure of [sample] is added to the set of
    signal [i]. *)
Lemma sample_same_subscribe (w : World) (i o : nat) :
  (∀ d f, observerTable w !! o ≠ Some (OSample d f)) →
  sample_same w (set_observers i (set_add o (observers_of i w)) w).
Proof.
  intros Ho. constructor; try done.
  - intros t o' d f Ho'. rewrite observers_of_set_observers.
    case_decide as Hd; [|done]. destruct Hd as [-> _].
    rewrite TrackedFacts.elem_of_set_add. split; [|by right].
    intros [->|?]; [|done]. by destruct (Ho d f).
  - intros j _. apply getValue_set_observers.
Qed.

Lemma sample_same_set_pending (w : World) (st : nat) (p : list Outcome) :
  sample_same w (set_pending st p w).
Proof.
  constructor; try done.
  intros st'. simpl. rewrite list_lookup_alter. case_decide as Hd; [|done].
  subst st'. by destruct (stores w !! st).
Qed.

Lemma observe_caller_sampled (w : World) (i o k : nat) :
  settled_between w → shaped w → sampled w →
  observerTable w !! o = Some (OCaller k) →
  sampled (snd (observe i o w)).
Proof.
  intros Hs Hsh Hsa Ho. rewrite (observe_caller w i o k Ho). simpl.
  set (w1 := record (EvObserved k (getValue i w)) w).
  assert (unlisting w w1) as Hu by apply unlisting_record.
  change (sampled (set_observers i (set_add o (observers_of i w1)) w1)).
  apply (sample_same_sampled w1).
  - apply (unlisting_wired w w1 Hu), Hs.
  - by apply (unlisting_shaped w).
  - apply sample_same_subscribe. intros d f. simpl. by rewrite Ho.
  - by apply (unlisting_sampled w).
Qed.

(** *** [reductions] *)

Lemma reductions_sampled (w : World) (step : Step) (i : nat) (init : Value) :
  i < length (signals w) → settled_between w → mapped w → sampled w →
  sampled (snd (reductions step i init w)).
Proof.
  intros Hi Hs Hm Hsa.
  pose proof (subscribing_settled w step init Hs) as HsW.
  pose proof (subscribing_mapped w step init Hs Hm) as HmW.
  assert (sampled (subscribing step init w)) as HsaW.
  { apply (sample_same_sampled w); [apply Hs|apply Hm| |done].
    apply sample_same_subscribing. }
  destruct (step init (getValue i w)) as [v|v] eqn:Hstep;
    [|by rewrite (reductions_reduced w step i init v Hi Hstep)].
  rewrite (reductions_plain w step i init v Hi Hstep). cbn [snd].
  set (d := length (signals w)). set (o := length (observerTable w)).
  set (r := length (reductionTable w)).
  set (W := subscribing step init w) in *.
  destruct (setValue_tables W d v) as (T1 & T2 & _).
  assert (sampled (setValue d v W)) as Hsa4.
  { apply setValue_sampled; [apply HsW|done|].
    rewrite (sample_same_is_sampled w W d (sample_same_subscribing _ _ _)).
    destruct (is_sampled w d) eqn:E; [|done].
    apply is_sampled_true in E as (o' & f & Ho').
    destruct (shaped_samples w (proj1 Hm) o' d f Ho') as [Hd _].
    unfold d in Hd. lia. }
  pose proof (setValue_settled W d v HsW) as Hs4.
  pose proof (setValue_shaped W d v (proj1 HmW)) as Hsh4.
  set (w4 := setValue d v W) in *.
  apply (sample_same_sampled w4); [apply Hs4|done| |done].
  pose proof (sample_same_subscribe w4 i o) as [A1 A2 A3 A4 A5].
  { intros d' f'. rewrite T1. simpl. by rewrite list_lookup_middle. }
  by constructor.
Qed.

(** *** [sample] *)

Lemma observe_triggers_sampled (ts : list nat) (d : nat) (resample : Resample)
    (w : World) :
  settled_between w → mapped w → sampled w →
  d < length (signals w) → is_state w d = false →
  (∀ o f, observerTable w !! o = Some (OSample d f) → f = resample) →
  (∀ st s, stores w !! st = Some s → st_signal s ≠ d) →
  (∀ t, t ∈ ts → t < d) →
  ∃ cs w', observe_triggers ts d resample w = (inr cs, w') ∧ sampled w'.
Proof.
  revert w. induction ts as [|t ts IH];
    intros w Hs Hm Hsa Hd Hn Hone Hsto Hts.
  - by exists [], w.
  - cbn [observe_triggers]. unfold new_observer. cbv beta iota zeta.
    unfold bind at 1. rewrite (observe_sample w t d resample).
    set (n := length (observerTable w)).
    set (w1 := with_observerTable (observerTable w ++ [OSample d resample]) w).
    set (w2 := record (EvResample d) w1).
    set (w3 := setValue d (resample (λ i, getValue i w2)) w2).
    set (w4 := set_observers t (set_add n (observers_of t w3)) w3).
    destruct (setValue_tables w2 d (resample (λ i, getValue i w2)))
      as (T1 & T2 & _).
    destruct (setValue_length w2 d (resample (λ i, getValue i w2)))
      as [L1 _].
    destruct (setValue_frame w2 d (resample (λ i, getValue i w2)))
      as [F1 _].
    fold w3 in T1, T2, L1, F1.
    assert (settled_between w2) as Hs2 by (by apply (new_observer_settled w)).
    assert (mapped w2) as Hm2.
    { apply (unlisting_mapped w1); [apply unlisting_record|].
      apply new_observer_mapped; [done|done| |done].
      by intros d' f' [= -> ->]. }
    assert (settled_between w3) as Hs3 by (by apply setValue_settled).
    assert (mapped w3) as Hm3.
    { apply setValue_mapped; [apply Hs2|done|done]. }
    assert (observerTable w3 !! n = Some (OSample d resample)) as Hn3.
    { rewrite T1. simpl. by rewrite list_lookup_middle. }
    assert (settled_between w4) as Hs4.
    { apply subscribe_settled; [done|]. unfold downstream_of.
      rewrite Hn3. apply Hts. by left. }
    assert (mapped w4) as Hm4.
    { apply subscribe_other_mapped; [|done]. intros r. by rewrite Hn3. }
    assert (∀ o d' f, observerTable w4 !! o = Some (OSample d' f) →
                      observerTable w !! o = Some (OSample d' f)
                      ∨ (o = n ∧ d' = d ∧ f = resample)) as Htbl.
    { intros o d' f. change (observerTable w4) with (observerTable w3).
      rewrite T1. simpl. intros [H|[Hge H]]%lookup_app_Some; [by left|].
      destruct (o - length (observerTable w)) as [|k] eqn:E;
        [|by destruct k].
      simpl in H. injection H as -> ->. right. unfold n. split; [lia|done]. }
    assert (∀ o f, observerTable w4 !! o = Some (OSample d f) → f = resample)
      as Hone4.
    { intros o f [Ho|(_ & _ & ->)]%Htbl; [by apply (Hone o)|done]. }
    assert (∀ t' o, o ∈ observers_of t' w4 →
                    o ∈ observers_of t' w ∨ o = n) as Hlist.
    { assert (∀ t', observers_of t' w3 = observers_of t' w) as Ho3.
      { intros t'. unfold w3. by rewrite observers_of_setValue. }
      intros t' o. unfold w4. rewrite observers_of_set_observers.
      rewrite !Ho3. case_decide as Hdec; [|by left].
      destruct Hdec as [-> _].
      intros [->|?]%TrackedFacts.elem_of_set_add; [by right|by left]. }
    assert (∀ j, getValue j w4 = getValue j w3) as Hv4.
    { intros j. apply getValue_set_observers. }
    assert (sampled w4) as Hsa4.
    { destruct Hsa as [[V1 V2] Hcur]. split; [constructor|].
      - intros o o' d' f f' Ho Ho'.
        apply Htbl in Ho as [Ho|(_ & -> & ->)];
          apply Htbl in Ho' as [Ho'|(_ & E & ->)].
        + by apply (V1 o o' d').
        + subst d'. by apply (Hone o).
        + symmetry. by apply (Hone o').
        + done.
      - intros st s. change (stores w4) with (stores w3). rewrite F1.
        change (stores w2) with (stores w). intros Hst.
        destruct (is_sampled w4 (st_signal s)) eqn:E; [|done].
        apply is_sampled_true in E as (o & f & Ho).
        apply Htbl in Ho as [Ho|(_ & E & _)].
        * apply is_sampled_lookup in Ho. by rewrite (V2 st s Hst) in Ho.
        * by destruct (Hsto st s Hst).
      - intros ts' f' d' Hsm Hro _.
        assert (∀ t', t' ∈ ts' → getValue t' w4 = getValue t' w3) as Hvt
            by (intros; apply Hv4).
        destruct (decide (d' = d)) as [->|Hne].
        + assert (f' = resample) as ->.
          { destruct Hsm as [Hne Hall]. destruct ts' as [|t' ts']; [done|].
            destruct (Hall t') as (o & _ & Ho); [by left|].
            by apply (Hone4 o). }
          apply (current_same None w3); [done|done|done|apply Hv4|].
          apply (current_resampled None w2); [done| |].
          * apply (samples_not_trigger w4 ts' resample d); [apply Hs4| |done].
            apply Hm4.
          * apply lookup_lt_is_Some. exact Hd.
        + assert (samples w ts' f' d') as Hsm0.
          { destruct Hsm as [Hnil Hall]. split; [done|]. intros t' Ht'.
            destruct (Hall t' Ht') as (o & Hin & Ho). exists o.
            apply Htbl in Ho as [Ho|(_ & ? & _)]; [|done].
            split; [|done]. destruct (Hlist t' o Hin) as [?| ->]; [done|].
            apply lookup_lt_Some in Ho. unfold n in Ho. lia. }
          apply (current_same None w3); [done|done|done|apply Hv4|].
          apply current_setValue; [apply Hs2|done|done|done|].
          by apply Hcur. }
    destruct (IH w4 Hs4 Hm4 Hsa4) as (cs & w' & E & Hsa').
    { change (d < length (signals w4)).
      unfold w4, set_observers. simpl. rewrite length_alter, L1. exact Hd. }
    { change (is_state w3 d = false). unfold w3.
      by rewrite setValue_is_state. }
    { exact Hone4. }
    { change (stores w4) with (stores w3). rewrite F1. exact Hsto. }
    { intros t' Ht'. apply Hts. by right. }
    exists (Unobserve t n :: cs), w'. unfold bind. by rewrite E.
Qed.

Lemma sample_sampled (w : World) (triggers : list nat) (resample : Resample) :
  (∀ t, t ∈ triggers → t < length (signals w)) →
  settled_between w → mapped w → sampled w →
  sampled (snd (sample triggers resample w)).
Proof.
  intros Hts Hs Hm Hsa. unfold sample.
  set (w0 := record (EvResample (length (signals w))) w).
  set (v := resample (λ i, getValue i w0)).
  change (useSignal v w0) with (length (signals w), snd (signal v w0)).
  cbv beta iota zeta.
  assert (unlisting w w0) as Hu by apply unlisting_record.
  assert (mapped w0) as Hm0 by (by apply (unlisting_mapped w)).
  destruct (observe_triggers_sampled triggers (length (signals w)) resample
              (snd (signal v w0))) as (cs & w' & E & Hsa').
  - by apply (signal_settled v w0).
  - by apply signal_mapped.
  - apply (sample_same_sampled w0);
      [apply Hs|apply Hm0|apply sample_same_signal|].
    by apply (unlisting_sampled w).
  - simpl. rewrite length_app. simpl. lia.
  - apply (is_state_fresh w0), Hm0.
  - intros o f Ho. change (observerTable w !! o = Some (OSample (length (signals w)) f)) in Ho.
    destruct (shaped_samples w (proj1 Hm) o _ f Ho) as [Hlt _]. lia.
  - intros st s Hst. change (stores w !! st = Some s) in Hst.
    destruct (shaped_stores w (proj1 Hm) st s Hst) as [Hlt _]. lia.
  - exact Hts.
  - unfold bind at 1. rewrite E. simpl.
    eapply unlisting_sampled; [|exact Hsa']. by constructor.
Qed.

(** *** The store *)

Lemma store_send_sampled (w : World) (st : nat) (msg : Value) :
  settled_between w → shaped w → sampled w → sampled (store_send st msg w).
Proof.
  intros Hs Hsh Hsa. unfold store_send.
  destruct (stores w !! st) as [s|] eqn:E; [|done].
  cbv zeta.
  set (w1 := console_debug (st_debug s) "store.msg" msg
               (record (EvStoreSend st msg) w)).
  assert (unlisting w w1) as Hu.
  { eapply unlisting_trans; [apply unlisting_record|].
    apply console_debug_unlisting. }
  set (t := st_update s (getValue (st_signal s) w1) msg).
  set (w2 := setValue (st_signal s) (t_state t) w1).
  assert (sampled w2) as Hsa2.
  { apply setValue_sampled.
    - apply (unlisting_settled w w1 Hu Hs).
    - by apply (unlisting_sampled w).
    - rewrite (unlisting_is_sampled w w1 _ Hu).
      by apply (ss_stores w (proj1 Hsa) st s). }
  set (w3 := console_debug (st_debug s) "store.state" (t_state t) w2).
  set (w4 := console_debug (st_debug s) "store.effects"
               (VNum (Z.of_nat (length (t_effects t)))) w3).
  assert (unlisting w2 w4) as Hu4.
  { eapply unlisting_trans; apply console_debug_unlisting. }
  apply (sample_same_sampled w4).
  - apply (unlisting_wired w2 w4 Hu4). apply setValue_settled.
    apply (unlisting_settled w w1 Hu Hs).
  - apply (unlisting_shaped w2 w4 Hu4). apply setValue_shaped.
    by apply (unlisting_shaped w).
  - apply sample_same_set_pending.
  - by apply (unlisting_sampled w2).
Qed.

Lemma settle_sampled (w : World) (st k : nat) :
  settled_between w → mapped w → sampled w → sampled (settle st k w).
Proof.
  intros Hs Hm Hsa. unfold settle.
  destruct (stores w !! st) as [s|]; [|done].
  assert (sampled (set_pending st (delete k (st_pending s)) w)) as Hsa1.
  { apply (sample_same_sampled w); [apply Hs|apply Hm| |done].
    apply sample_same_set_pending. }
  destruct (st_pending s !! k) as [[msg|]|]; [| |done].
  - simpl. apply store_send_sampled; [done| |done].
    apply set_pending_mapped, Hm.
  - exact Hsa1.
Qed.

Lemma useStore_sampled (w : World) (init : Transaction)
    (update : Value → Value → Transaction) (debug : bool) :
  settled_between w → shaped w → sampled w →
  sampled (snd (useStore init update debug w)).
Proof.
  intros Hs Hsh Hsa.
  destruct (sample_same_sampled w (snd (signal (t_state init) w)))
    as [[V1 V2] Hcur]; [apply Hs|done|apply sample_same_signal|done|].
  split; [constructor|exact Hcur].
  - exact V1.
  - intros st s. simpl.
    intros [H|[_ H]]%lookup_app_Some; [by apply (V2 st)|].
    destruct (st - length (stores w)) as [|k]; [|by destruct k].
    simpl in H. injection H as <-. simpl.
    destruct (is_sampled w (length (signals w))) eqn:E; [|done].
    apply is_sampled_true in E as (o & f & Ho).
    destruct (shaped_samples w Hsh o _ f Ho) as [Hlt _]. lia.
Qed.

(** *** Programs *)

Lemma empty_sampled : sampled empty.
Proof.
  split; [by constructor|].
  intros ts f d [Hne Hall]. destruct ts as [|t ts]; [done|].
  destruct (Hall t) as (o & Hin & _); [by left|].
  unfold observers_of in Hin. simpl in Hin. by apply elem_of_nil in Hin.
Qed.

Lemma apply_op_sampled (op : Op) (w : World) :
  valid_op op w = true → settled_between w → mapped w → sampled w →
  sampled (apply_op op w).
Proof.
  intros Hv Hs Hm Hsa.
  destruct op as [v|i v|i k|i o|step i init|i f|ts f|ob c|ob|c|
                  init upd dbg|st msg|st k|]; simpl in *.
  - apply (sample_same_sampled w);
      [apply Hs|apply Hm|apply sample_same_signal|done].
  - apply andb_prop in Hv as [_ Hv]. apply negb_true_iff in Hv.
    apply setValue_sampled; [apply Hs|done|done].
  - apply (observe_caller_sampled _ i _ k).
    + by apply (new_observer_settled w).
    + by apply new_observer_mapped.
    + apply (sample_same_sampled w); [apply Hs|apply Hm| |done].
      by apply sample_same_new_observer.
    + simpl. by rewrite list_lookup_middle.
  - apply andb_prop in Hv as [_ Hv].
    destruct (observerTable w !! o) as [[r|d f|k]|] eqn:Eo; try done.
    apply (observe_caller_sampled w i o k); [done|apply Hm|done|done].
  - apply reductions_sampled; [|done|done|done].
    by apply bool_decide_eq_true_1 in Hv.
  - apply (reductions_sampled w (mapping f stepForward) i
             (f (getValue i w))); [|done|done|done].
    by apply bool_decide_eq_true_1 in Hv.
  - apply sample_sampled; [|done|done|done]. intros t Ht.
    rewrite forallb_forall in Hv. apply list_elem_of_In, Hv in Ht.
    by apply bool_decide_eq_true_1 in Ht.
  - destruct c as [fn|v]; [|done]. simpl.
    eapply unlisting_sampled; [|exact Hsa]. by constructor.
  - unfold cancel. destruct (cancelOf w ob) as [f|]; [|done].
    by apply (unlisting_sampled w _ (unlisting_call f w)).
  - by apply (unlisting_sampled w _ (unlisting_call_cancel c w)).
  - apply useStore_sampled; [done|apply Hm|done].
  - apply store_send_sampled; [done|apply Hm|done].
  - by apply settle_sampled.
  - apply tick_sampled; [done|apply Hm|done].
Qed.

Lemma reachable_sampled (w : World) : Reachable w → sampled w.
Proof.
  induction 1 as [|w op Hr IH Hv]; [apply empty_sampled|].
  apply apply_op_sampled;
    [done|by apply reachable_settled|by apply reachable_mapped|done].
Qed.

Lemma diamond_settled_reachable : Reachable diamond_settled.
Proof. apply observed_ops_reachable; [apply reach_empty|by vm_compute]. Qed.

Lemma diamond_settled_samples : samples diamond_settled [1; 2] sum_bc 3.
Proof.
  split; [done|]. intros t [->|Ht]%elem_of_cons.
  - exists 2. split; [vm_compute; by left|by vm_compute].
  - apply list_elem_of_singleton in Ht as ->.
    exists 3. split; [vm_compute; by left|by vm_compute].
Qed.

Lemma sum_bc_reads : reads_only [1; 2] sum_bc.
Proof.
  intros g g' H. unfold sum_bc. rewrite (H 1), (H 2); [done| |].
  - right. by left.
  - by left.
Qed.

(** X29.  A signal made by [sample] follows its triggers: in every world
    that a program reaches, a sample [d] of the triggers [ts] whose
    subscriptions are all still there, and whose [resample] reads the
    triggers only, holds what [resample] gives now, unless one of the
    triggers has its update waiting in the microtask queue.  The program
    writes with the setters it holds, and [sample] hands out none. *)
Theorem sample_follows_triggers (w : World) (ts : list nat)
    (resample : Resample) (d : nat) :
  Reachable w → samples w ts resample d → reads_only ts resample →
  (∀ t, t ∈ ts → t ∉ microtasks w) →
  getValue d w = resample (λ i, getValue i w).
Proof.
  intros Hr Hsm Hro Hq.
  destruct (reachable_settled w Hr) as ((_ & H2 & _) & _).
  destruct (reachable_sampled w Hr) as [_ Hs].
  destruct (Hs ts resample d Hsm Hro) as [(t & Ht & _ & Hf)|Hc];
    [done| |done].
  exfalso. apply (Hq t Ht). by apply H2.
Qed.

Lemma sample_follows_triggers_witness :
  getValue 3 diamond_settled = sum_bc (λ i, getValue i diamond_settled).
Proof.
  apply (sample_follows_triggers diamond_settled [1; 2] sum_bc 3
           diamond_settled_reachable diamond_settled_samples sum_bc_reads).
  intros t Ht. apply (bool_decide_unpack _).
  apply elem_of_cons in Ht as [->|Ht]; [by vm_compute|].
  apply list_elem_of_singleton in Ht as ->. by vm_compute.
Defined.

End ObservedSamplesFacts.

(** ** Cancelled subscriptions *)

Module ObservedCancelFacts.
Import Observed ObservedSpec ObservedMore ObservedReach.
Import ObservedFacts ObservedMoreFacts ObservedReachFacts ObservedMapsFacts.

Lemma quiet_target (x : nat) (w w' : World) (o : nat) :
  quiet x w w' → target w' o = target w o.
Proof.
  intros Hq. unfold target.
  by rewrite (quiet_observerTable _ _ _ Hq), (quiet_reductionTable _ _ _ Hq).
Qed.

Lemma quiet_unwritten (x : nat) (w w' : World) (s : nat) :
  quiet x w w' → ¬ written_by_observer w s → ¬ written_by_observer w' s.
Proof.
  intros Hq Hn (t & o & Hin & Ht). apply Hn. exists t, o.
  split; [by apply (quiet_observers _ _ _ Hq)|].
  by rewrite <- (quiet_target x w w' o Hq).
Qed.

Lemma run_observer_unwritten (w : World) (x o : nat) (v : Value) (s : nat) :
  wired w → o ∈ observers_of x w → ¬ written_by_observer w s →
  getValue s (snd (run_observer o v w)) = getValue s w.
Proof.
  intros Hw Hin Hn.
  destruct (run_observer_effect w x o v Hw Hin)
    as (w0 & Hu & [[_ ->]|(d & v' & _ & Ht & -> & _)]); cbn [snd].
  - apply (unl_value _ _ Hu).
  - rewrite getValue_setValue_ne; [apply (unl_value _ _ Hu)|].
    intros ->. apply Hn. by exists x, o.
Qed.

Lemma dispatch_loop_unwritten (x : nat) (os : list nat) (w : World) (s : nat) :
  wired w → own_schedulers w → ¬ written_by_observer w s →
  getValue s (snd (dispatch_loop x os w)) = getValue s w.
Proof.
  revert w. induction os as [|o os IH]; intros w Hw Hown Hn; [done|].
  cbn [dispatch_loop]. case_bool_decide as Hin; [|by apply IH].
  unfold bind.
  destruct (run_observer_quiet w x o (getValue x w) Hw Hown Hin) as [Hr Hq].
  pose proof (run_observer_unwritten w x o (getValue x w) s Hw Hin Hn) as Hv.
  destruct (run_observer o (getValue x w) w) as [[e|[]] w1]; [done|].
  cbn [snd] in *. rewrite <- Hv. apply IH.
  - by apply (quiet_wired x w w1).
  - by apply (quiet_own _ _ _ Hq).
  - by apply (quiet_unwritten x w w1).
Qed.

Lemma tick_unwritten (w : World) (s : nat) :
  Reachable w → ¬ written_by_observer w s →
  getValue s (tick w) = getValue s w ∧ ¬ written_by_observer (tick w) s.
Proof.
  intros Hr Hn. pose proof (reachable_settled w Hr) as Hs.
  destruct (reachable_mapped w Hr) as [Hsh _].
  destruct (microtasks w) as [|x rest] eqn:Hm.
  - unfold tick. by rewrite Hm.
  - rewrite (tick_dispatch w x rest Hs Hsh Hm).
    destruct Hs as (_ & Hw & Hown).
    destruct (dispatch_quiet x (with_microtasks rest w) Hw Hown) as [_ Hq].
    split.
    + change (getValue s (snd (dispatch x (with_microtasks rest w)))
              = getValue s (with_microtasks rest w)).
      by apply dispatch_loop_unwritten.
    + exact (quiet_unwritten x (with_microtasks rest w) _ s Hq Hn).
Qed.

Lemma map_cancelled_reachable : Reachable map_cancelled.
Proof. apply observed_ops_reachable; [apply reach_empty|by vm_compute]. Qed.

Lemma map_cancelled_unwritten : ¬ written_by_observer map_cancelled 1.
Proof.
  intros (t & o & Hin & _).
  destruct t as [|[|t]]; vm_compute in Hin; by apply elem_of_nil in Hin.
Qed.

(** X30.  Cancelling is final: in a world that a program reaches, a
    signal that none of the subscribed closures of [reductions] and
    [sample] writes keeps its value through any number of turns of the
    microtask queue, whatever has been written upstream; and no turn
    subscribes such a closure again. *)
Theorem unwritten_signal_keeps_value (w : World) (s n : nat) :
  Reachable w → ¬ written_by_observer w s →
  getValue s (flush n w) = getValue s w
  ∧ ¬ written_by_observer (flush n w) s.
Proof.
  revert w. induction n as [|n IH]; intros w Hr Hn; [done|].
  destruct (tick_unwritten w s Hr Hn) as [Hv Hn'].
  simpl. rewrite <- Hv. apply IH; [|done].
  by apply (reach_step w OpTick).
Qed.

Lemma unwritten_signal_keeps_value_witness :
  getValue 1 (flush 3 map_cancelled) = getValue 1 map_cancelled
  ∧ ¬ written_by_observer (flush 3 map_cancelled) 1.
Proof.
  exact (unwritten_signal_keeps_value map_cancelled 1 3
           map_cancelled_reachable map_cancelled_unwritten).
Defined.

End ObservedCancelFacts.

(** ** Properties of indexing, of [insertElementAt] and of [cid] *)

Module CollectionsFacts.
Import Collections.

(** *** [index] *)

Lemma map_get_set {V} (k k' : Value) (v : V) (m : JsMap V) :
  map_get k (map_set k' v m)
  = if decide (k' = k) then Some v else map_get k m.
Proof.
  induction m as [|[k0 v0] m IH]; simpl.
  - by destruct (decide (k' = k)).
  - destruct (decide (k0 = k')) as [->|Hne]; simpl.
    + by destruct (decide (k' = k)).
    + rewrite IH. destruct (decide (k0 = k)) as [->|Hne']; [|done].
      by rewrite decide_False.
Qed.

Lemma map_keys_set {V} (k : Value) (v : V) (m : JsMap V) :
  map_keys (map_set k v m) = set_add k (map_keys m).
Proof.
  unfold map_keys, set_add. induction m as [|[k0 v0] m IH]; [done|].
  cbn [map_set]. destruct (decide (k0 = k)) as [->|Hne];
    rewrite !fmap_cons; cbn [fst].
  - rewrite bool_decide_eq_true_2 by set_solver. done.
  - rewrite IH. case_bool_decide as H1; case_bool_decide as H2; try done;
      exfalso; set_solver.
Qed.

Lemma map_set_fresh {V} (k : Value) (v : V) (m : JsMap V) :
  k ∉ map_keys m → map_set k v m = m ++ [(k, v)].
Proof.
  unfold map_keys. induction m as [|[k0 v0] m IH]; intros H; [done|].
  rewrite fmap_cons in H. cbn [fst] in H. cbn [map_set].
  rewrite decide_False by set_solver.
  rewrite IH by set_solver. done.
Qed.

Lemma last_keyed_snoc (getKey : Props → Value) (k : Value)
    (vs : list Props) (v : Props) :
  last (keyed getKey k (vs ++ [v]))
  = if decide (getKey v = k) then Some v else last (keyed getKey k vs).
Proof.
  unfold keyed. rewrite filter_app.
  destruct (decide (getKey v = k)) as [H|H].
  - rewrite filter_cons_True by done. by rewrite filter_nil, last_snoc.
  - rewrite filter_cons_False by done. by rewrite filter_nil, app_nil_r.
Qed.

Lemma index_with_lookup (getKey : Props → Value) (values : list Props)
    (k : Value) :
  map_get k (foldl (λ m v, map_set (getKey v) v m) [] values)
  = last (keyed getKey k values).
Proof.
  induction values as [|v vs IH] using rev_ind; [done|].
  by rewrite foldl_snoc, map_get_set, last_keyed_snoc, IH.
Qed.

Lemma index_with_keys (getKey : Props → Value) (values : list Props) :
  map_keys (foldl (λ m v, map_set (getKey v) v m) [] values)
  = foldl (λ s v, set_add (getKey v) s) [] values.
Proof.
  induction values as [|v vs IH] using rev_ind; [done|].
  by rewrite !foldl_snoc, map_keys_set, IH.
Qed.

Lemma index_with_distinct (getKey : Props → Value) (values : list Props) :
  NoDup (getKey <$> values) →
  foldl (λ m v, map_set (getKey v) v m) [] values
  = (λ v, (getKey v, v)) <$> values.
Proof.
  induction values as [|v vs IH] using rev_ind; intros Hnd; [done|].
  rewrite fmap_app in Hnd. apply NoDup_app in Hnd as (H1 & H2 & _).
  rewrite foldl_snoc, IH by done. rewrite map_set_fresh.
  - by rewrite fmap_app.
  - unfold map_keys. rewrite <- list_fmap_compose.
    intros Hin. apply (H2 _ Hin). simpl. set_solver.
Qed.

Lemma set_adds_NoDup `{EqDecision A} {B} (f : B → A) (xs : list B)
    (acc : list A) :
  NoDup acc → NoDup (foldl (λ s v, set_add (f v) s) acc xs).
Proof.
  revert acc. induction xs as [|x xs IH]; intros acc H; [done|].
  simpl. apply IH. unfold set_add. case_bool_decide; [done|].
  apply NoDup_app. split; [done|]. split; [|apply NoDup_singleton].
  intros z Hz Hz'. apply list_elem_of_singleton in Hz' as ->. done.
Qed.

(** X17.  A lookup in [index(values, getKey)] gives the last item of the
    array whose key it is, and nothing for a key that no item has: the
    index has a key exactly when some item has it. *)
Theorem index_lookup (values : list Props)
    (getKey : option (Props → Value)) (k : Value) :
  map_get k (index values getKey)
  = last (keyed (default getId getKey) k values)
  ∧ (map_has k (index values getKey) = true
     ↔ ∃ v, v ∈ values ∧ default getId getKey v = k).
Proof.
  unfold map_has, index. cbv zeta. rewrite index_with_lookup.
  split; [done|]. rewrite bool_decide_eq_true.
  set (gk := default getId getKey). split.
  - intros [v Hv]. exists v.
    assert (v ∈ keyed gk k values) as Hin.
    { apply last_Some in Hv as [l' ->]. set_solver. }
    unfold keyed in Hin. apply list_elem_of_filter in Hin. naive_solver.
  - intros (v & Hin & Hk).
    assert (v ∈ keyed gk k values) as Hin'.
    { unfold keyed. apply list_elem_of_filter. naive_solver. }
    destruct (keyed gk k values) as [|x l] eqn:E using rev_ind.
    + by apply elem_of_nil in Hin'.
    + rewrite last_snoc. by eexists.
Qed.

(** X18.  The keys of [index(values, getKey)] are the keys of the items
    in the order in which they first occur, each once; and when no two
    items share a key, the values of the index are the array itself. *)
Theorem index_order (values : list Props)
    (getKey : option (Props → Value)) :
  map_keys (index values getKey)
  = foldl (λ s v, set_add (default getId getKey v) s) [] values
  ∧ NoDup (map_keys (index values getKey))
  ∧ (NoDup (default getId getKey <$> values) →
     map_values (index values getKey) = values).
Proof.
  unfold index. cbv zeta. rewrite index_with_keys.
  split; [done|]. split.
  - apply set_adds_NoDup, NoDup_nil_2.
  - intros Hnd. rewrite index_with_distinct by done.
    unfold map_values. rewrite <- list_fmap_compose.
    by rewrite list_fmap_id.
Qed.

(** X19.  [index] of [hyperscript.js] keys every item by its [id],
    whatever [getKey] it is given: a lookup gives the last item whose
    [id] is the key. *)
Theorem hyperscript_index_uses_id (iter : list Props)
    (getKey : option (Props → Value)) (k : Value) :
  map_get k (hyperscript_index iter getKey) = last (keyed getId k iter)
  ∧ hyperscript_index iter getKey = index iter None.
Proof. split; [apply index_with_lookup|done]. Qed.

(** *** [insertElementAt] *)

Lemma without_absent (e : nat) (l : list nat) : e ∉ l → without e l = l.
Proof.
  intros H. unfold without. induction l as [|x l IH]; [done|].
  rewrite filter_cons_True by set_solver. f_equal. apply IH. set_solver.
Qed.

Lemma without_app (e : nat) (l1 l2 : list nat) :
  without e (l1 ++ l2) = without e l1 ++ without e l2.
Proof. apply filter_app. Qed.

Lemma without_head (e : nat) (l : list nat) :
  e ∉ l → without e (e :: l) = l.
Proof.
  intros H. unfold without. rewrite filter_cons_False by naive_solver.
  by apply without_absent.
Qed.

Lemma not_elem_of_without (e : nat) (l : list nat) : e ∉ without e l.
Proof. unfold without. rewrite list_elem_of_filter. naive_solver. Qed.

Lemma before_middle (r e : nat) (l1 l2 : list nat) :
  r ∉ l1 → before r e (l1 ++ r :: l2) = l1 ++ e :: r :: l2.
Proof.
  intros H. induction l1 as [|x l1 IH]; simpl.
  - by rewrite decide_True.
  - rewrite decide_False by set_solver. f_equal. apply IH. set_solver.
Qed.

Lemma insertElementAt_spec (p : Parent) (e i : nat) :
  NoDup (children p) →
  let rest := without e (children p) in
  let k := length (without e (take i (children p))) in
  insertElementAt p e i
  = Some (if decide (children p !! i = Some e) then p
          else mkParent (take k rest ++ e :: drop k rest)
                 (inserted p ++ [e]))
  ∧ take k rest ++ e :: drop k rest
    = without e (take i (children p)) ++ e :: without e (drop i (children p)).
Proof.
  intros Hnd. cbv zeta.
  assert (children p = take i (children p) ++ drop i (children p)) as Hsplit
    by (by rewrite take_drop).
  assert (take (length (without e (take i (children p))))
            (without e (children p))
          ++ e :: drop (length (without e (take i (children p))))
                    (without e (children p))
          = without e (take i (children p))
            ++ e :: without e (drop i (children p))) as Hshape.
  { rewrite Hsplit at 2 4. rewrite without_app.
    rewrite take_app_length, drop_app_length. done. }
  split; [|exact Hshape]. rewrite Hshape.
  unfold insertElementAt. cbv zeta.
  destruct (decide (children p !! i = Some e)) as [He|He]; [done|].
  unfold insertBefore.
  destruct (children p !! i) as [r|] eqn:Er.
  - assert (r ≠ e) as Hre by congruence.
    rewrite decide_True by (by eapply list_elem_of_lookup_2).
    rewrite decide_False by done. do 2 f_equal.
    pose proof (take_drop_middle _ _ _ Er) as Hmid.
    rewrite <- Hmid in Hnd. apply NoDup_app in Hnd as (N1 & N2 & N3).
    rewrite <- Hmid at 1. rewrite without_app.
    assert (drop i (children p) = r :: drop (S i) (children p)) as Hd.
    { by apply drop_S in Er. }
    rewrite Hd. unfold without at 2 4. rewrite filter_cons_True by done.
    apply before_middle. unfold without. rewrite list_elem_of_filter.
    intros [_ Hin]. apply (N2 _ Hin). set_solver.
  - apply lookup_ge_None in Er.
    rewrite drop_ge by done. rewrite take_ge by done.
    by change (without e []) with (@nil nat).
Qed.

Lemma length_without_present (e : nat) (l : list nat) :
  NoDup l → e ∈ l → S (length (without e l)) = length l.
Proof.
  intros Hnd Hin. induction l as [|x l IH]; [by apply elem_of_nil in Hin|].
  apply NoDup_cons in Hnd as [Hx Hnd].
  destruct (decide (x = e)) as [->|Hne].
  - by rewrite without_head.
  - unfold without in *. rewrite filter_cons_True by done. simpl.
    rewrite IH; [done|done|set_solver].
Qed.

(** X20.  [insertElementAt(parent, element, index)] never fails on a
    parent whose children are distinct.  Afterwards the element is a
    child, once, and the other children are those there were, in their
    order.  An element that was absent, or at [index] or behind it, stands
    at [index]; one that stood before [index] ends one place short, at
    [index - 1]; an index past the end puts the element last; and an
    element that is at [index] already is not touched: [insertBefore] is
    not called. *)
Theorem insertElementAt_places (p : Parent) (e i : nat) :
  NoDup (children p) →
  ∃ p', insertElementAt p e i = Some p'
    ∧ NoDup (children p')
    ∧ (∀ x, x ∈ children p' ↔ x = e ∨ x ∈ children p)
    ∧ without e (children p') = without e (children p)
    ∧ (e ∉ take i (children p) → i ≤ length (without e (children p)) →
       children p' !! i = Some e)
    ∧ (e ∈ take i (children p) → i ≤ length (children p) →
       children p' !! (i - 1) = Some e)
    ∧ (length (children p) ≤ i → last (children p') = Some e)
    ∧ (children p !! i = Some e → p' = p).
Proof.
  intros Hnd. destruct (insertElementAt_spec p e i Hnd) as [Hs Hshape].
  cbv zeta in Hs, Hshape. rewrite Hshape in Hs. clear Hshape.
  set (a := take i (children p)) in *. set (b := drop i (children p)) in *.
  assert (children p = a ++ b) as Hab by (unfold a, b; by rewrite take_drop).
  assert (NoDup (a ++ b)) as Hnd' by (by rewrite <- Hab).
  apply NoDup_app in Hnd' as (Na & Nab & Nb).
  set (c := without e a ++ e :: without e b).
  assert (NoDup c) as Hc.
  { unfold c. apply NoDup_app. split; [by apply NoDup_filter|]. split.
    - intros x Hx Hx'. apply elem_of_cons in Hx' as [->|Hx'].
      + by apply not_elem_of_without in Hx.
      + unfold without in *. apply list_elem_of_filter in Hx as [_ Hx].
        apply list_elem_of_filter in Hx' as [_ Hx']. by apply (Nab x).
    - apply NoDup_cons. split; [apply not_elem_of_without|].
      by apply NoDup_filter. }
  assert (∀ x, x ∈ c ↔ x = e ∨ x ∈ children p) as Hmem.
  { intros x. unfold c. rewrite Hab, !elem_of_app, elem_of_cons.
    unfold without. rewrite !list_elem_of_filter.
    destruct (decide (x = e)); naive_solver. }
  assert (without e c = without e (children p)) as Hwo.
  { unfold c. rewrite Hab, !without_app.
    change (e :: without e b) with ([e] ++ without e b).
    rewrite without_app.
    assert (without e [e] = []) as ->.
    { unfold without. by rewrite filter_cons_False by naive_solver. }
    unfold without. by rewrite !list_filter_filter_l by done. }
  assert (children p !! i = Some e → c = children p) as Hsame.
  { intros Hi. pose proof (take_drop_middle _ _ _ Hi) as Hmid.
    fold a in Hmid. unfold c.
    assert (b = e :: drop (S i) (children p)) as Hb by (by apply drop_S).
    rewrite <- Hmid in Hnd. apply NoDup_app in Hnd as (_ & N2 & N3).
    apply NoDup_cons in N3 as [N3 _].
    rewrite Hb, without_head by done.
    rewrite without_absent; [done|]. intros Hin. apply (N2 _ Hin). set_solver. }
  exists (if decide (children p !! i = Some e) then p
          else mkParent c (inserted p ++ [e])).
  split; [exact Hs|].
  assert (children (if decide (children p !! i = Some e) then p
                    else mkParent c (inserted p ++ [e])) = c) as Hch.
  { case_decide as Hd; [|done]. symmetry. by apply Hsame. }
  rewrite Hch.
  split; [done|]. split; [done|]. split; [done|].
  split; [|split; [|split]].
  - intros Hnin Hle. unfold c. rewrite (without_absent e a) by done.
    assert (length a = i) as Hla.
    { unfold a. rewrite length_take. rewrite Hab, without_app in Hle.
      rewrite (without_absent e a) in Hle by done.
      rewrite length_app in Hle. unfold a in Hle. rewrite length_take in Hle.
      pose proof (length_filter (λ x, x ≠ e) b). unfold without in Hle.
      unfold b in *. rewrite length_drop in *. lia. }
    rewrite <- Hla. by rewrite list_lookup_middle.
  - intros Hin Hle. unfold c.
    pose proof (length_without_present e a Na Hin) as Hl.
    assert (length a = i) as Hla by (unfold a; rewrite length_take; lia).
    rewrite list_lookup_middle; [done|]. lia.
  - intros Hge. unfold c.
    assert (b = []) as -> by (unfold b; by rewrite drop_ge).
    change (without e []) with (@nil nat). by rewrite last_snoc.
  - intros Hi. by rewrite decide_True.
Qed.

Lemma insertElementAt_next (P R log : list nat) (e : nat) :
  NoDup (P ++ R) → e ∉ P →
  ∃ log', insertElementAt (mkParent (P ++ R) log) e (length P)
          = Some (mkParent ((P ++ [e]) ++ without e R) log')
    ∧ (log' = log ∨ log' = log ++ [e])
    ∧ (head R = Some e → log' = log).
Proof.
  intros Hnd He.
  destruct (insertElementAt_spec (mkParent (P ++ R) log) e (length P) Hnd)
    as [Hs Hshape].
  cbv zeta in Hs, Hshape. rewrite Hshape in Hs. clear Hshape. simpl in Hs.
  rewrite take_app_length, drop_app_length in Hs.
  rewrite (without_absent e P) in Hs by done.
  assert ((P ++ R) !! length P = head R) as Hh.
  { rewrite lookup_app_r by done. rewrite Nat.sub_diag. by rewrite head_lookup. }
  rewrite Hh in Hs. rewrite <- app_assoc. simpl.
  destruct (decide (head R = Some e)) as [Hd|Hd].
  - exists log. rewrite Hs. split; [|split; [by left|done]].
    apply head_Some in Hd as [R' ->]. do 2 f_equal.
    apply NoDup_app in Hnd as (_ & _ & Hnd). apply NoDup_cons in Hnd as [Hn _].
    by rewrite without_head.
  - exists (log ++ [e]). rewrite Hs. split; [done|]. split; [by right|done].
Qed.

Lemma placeFrom_gen (els : list nat) :
  ∀ P R log, NoDup (P ++ R) → NoDup els → (∀ e, e ∈ els → e ∉ P) →
    ∃ log', placeFrom (length P) els (mkParent (P ++ R) log)
            = Some (mkParent (P ++ els ++ filter (λ x, x ∉ els) R) log')
      ∧ (∀ x, x ∈ log' → x ∈ log ∨ x ∈ els)
      ∧ (take (length els) R = els → log' = log).
Proof.
  induction els as [|e els IH]; intros P R log Hnd Hels HP.
  - exists log. cbn [placeFrom]. split; [|split; [by left|done]].
    assert (filter (λ x, x ∉ []) R = R) as ->; [|done].
    clear Hnd. induction R as [|x R IHR]; [done|].
    rewrite filter_cons_True by apply not_elem_of_nil. by f_equal.
  - apply NoDup_cons in Hels as [He Hels].
    destruct (insertElementAt_next P R log e Hnd) as (log1 & E1 & L1 & L2).
    { apply HP. set_solver. }
    cbn [placeFrom]. rewrite E1.
    assert (NoDup ((P ++ [e]) ++ without e R)) as Hnd1.
    { apply NoDup_app in Hnd as (H1 & H2 & H3).
      apply NoDup_app. split; [|split].
      - apply NoDup_app. split; [done|]. split; [|apply NoDup_singleton].
        intros y Hy Hy'. apply list_elem_of_singleton in Hy' as ->.
        apply (HP e); [set_solver|done].
      - intros y Hy Hy'. unfold without in Hy'.
        apply list_elem_of_filter in Hy' as [Hne Hy'].
        apply elem_of_app in Hy as [Hy|Hy]; [by apply (H2 y)|set_solver].
      - by apply NoDup_filter. }
    destruct (IH (P ++ [e]) (without e R) log1 Hnd1 Hels)
      as (log' & E2 & L3 & L4).
    { intros x Hx Hin. apply elem_of_app in Hin as [Hin|Hin].
      - apply (HP x); [set_solver|done].
      - apply list_elem_of_singleton in Hin as ->. done. }
    replace (length (P ++ [e])) with (S (length P)) in E2
      by (rewrite length_app; simpl; lia).
    exists log'. rewrite E2. split; [|split].
    + do 2 f_equal. rewrite <- !app_assoc. simpl. do 3 f_equal.
      unfold without. rewrite list_filter_filter.
      apply list_filter_iff. intros x. rewrite not_elem_of_cons. naive_solver.
    + intros x Hx. destruct (L3 x Hx) as [H|H]; [|set_solver].
      destruct L1 as [->| ->]; [by left|]. set_solver.
    + intros Ht. simpl in Ht. destruct R as [|r R]; [done|].
      simpl in Ht. injection Ht as -> Ht.
      rewrite L2 in * by done. apply L4.
      apply NoDup_app in Hnd as (_ & _ & Hnd).
      apply NoDup_cons in Hnd as [Hn _]. by rewrite without_head.
Qed.

Lemma insertElementAt_places_witness :
  ∃ p', insertElementAt (mkParent [5; 6; 7] []) 5 2 = Some p'
        ∧ children p' !! 1 = Some 5.
Proof.
  destruct (insertElementAt_places (mkParent [5; 6; 7] []) 5 2)
    as (p' & H1 & _ & _ & _ & _ & H2 & _).
  { repeat constructor; set_solver. }
  exists p'. split; [exact H1|]. apply H2; [set_solver|simpl; lia].
Defined.

(** X21.  Placing distinct elements at the indices 0, 1, 2, ... in turn,
    as the render loops do, never fails; afterwards they are the first
    children, in that order, and the children that were not placed follow
    in the order they had.  Only placed elements are handed to
    [insertBefore], and when the parent starts with these elements in
    this order nothing is moved at all. *)
Theorem placeFrom_orders (p : Parent) (elements : list nat) :
  NoDup (children p) →
  NoDup elements →
  ∃ p', placeFrom 0 elements p = Some p'
    ∧ children p' = elements ++ filter (λ x, x ∉ elements) (children p)
    ∧ (∀ x, x ∈ inserted p' → x ∈ inserted p ∨ x ∈ elements)
    ∧ (take (length elements) (children p) = elements → p' = p).
Proof.
  intros Hp He. destruct p as [ch log]. simpl in *.
  destruct (placeFrom_gen elements [] ch log Hp He) as (log' & E & L1 & L2).
  { intros e _. apply not_elem_of_nil. }
  simpl in E. eexists. split; [exact E|]. simpl.
  split; [done|]. split; [done|].
  intros Ht. rewrite (L2 Ht). f_equal.
  assert (ch = elements ++ drop (length elements) ch) as Hch.
  { rewrite <- Ht at 1. by rewrite take_drop. }
  set (d := drop (length elements) ch) in *. clearbody d. subst ch.
  apply NoDup_app in Hp as (_ & Hd & _).
  f_equal. rewrite filter_app.
  assert (filter (λ x, x ∉ elements) elements = []) as ->.
  { assert (∀ l, (∀ y, y ∈ l → y ∈ elements) →
                 filter (λ x, x ∉ elements) l = []) as Hnone.
    { induction l as [|y l IH]; intros Hl; [done|].
      rewrite filter_cons_False by (intros Hy; apply Hy, Hl; set_solver).
      apply IH. intros z Hz. apply Hl. set_solver. }
    by apply Hnone. }
  simpl. clear -Hd.
  induction d as [|x l IH]; [done|].
  rewrite filter_cons_True by (intros Hin; apply (Hd _ Hin); set_solver).
  f_equal. apply IH. intros y Hy Hy'. apply (Hd y Hy). set_solver.
Qed.

Lemma placeFrom_orders_witness :
  ∃ p', placeFrom 0 [7; 9; 5] (mkParent [5; 6; 7] []) = Some p'
        ∧ children p' = [7; 9; 5; 6].
Proof.
  destruct (placeFrom_orders (mkParent [5; 6; 7] []) [7; 9; 5])
    as (p' & H1 & H2 & _).
  { repeat constructor; set_solver. }
  { repeat constructor; set_solver. }
  exists p'. split; [exact H1|]. rewrite H2. reflexivity.
Defined.

(** *** [children] *)

Lemma remove_dups_snoc (cs : list nat) (c : nat) :
  remove_dups (cs ++ [c]) = without c (remove_dups cs) ++ [c].
Proof.
  induction cs as [|x cs IH]; [done|].
  cbn [app remove_dups]. unfold decide_rel.
  destruct (list_elem_of_dec x (cs ++ [c])) as [H1|H1],
           (list_elem_of_dec x cs) as [H2|H2]; rewrite IH.
  - done.
  - assert (x = c) as -> by set_solver.
    unfold without. by rewrite filter_cons_False by naive_solver.
  - exfalso. set_solver.
  - assert (x ≠ c) as Hne by set_solver.
    unfold without. by rewrite filter_cons_True by done.
Qed.

(** X23.  [children(c1, ..., cn)(parent)] leaves the parent with the
    children it had that are not among the arguments, in their order,
    followed by the arguments in the order given; an argument given more
    than once stands where its last occurrence puts it.  Every argument is
    handed to the host once per occurrence. *)
Theorem appendChildren_orders (cs : list nat) (p : Parent) :
  children (appendChildren cs p)
  = filter (λ x, x ∉ cs) (children p) ++ remove_dups cs
  ∧ inserted (appendChildren cs p) = inserted p ++ cs.
Proof.
  unfold appendChildren. induction cs as [|c cs IH] using rev_ind.
  - simpl. rewrite !app_nil_r. split; [|done].
    symmetry. induction (children p) as [|x l IHl]; [done|].
    rewrite filter_cons_True by apply not_elem_of_nil. by f_equal.
  - rewrite foldl_snoc. destruct IH as [IH1 IH2]. cbn [children inserted].
    rewrite IH1, IH2, remove_dups_snoc. split; [|by rewrite app_assoc].
    rewrite without_app, <- app_assoc. f_equal.
    unfold without. rewrite list_filter_filter.
    apply list_filter_iff. intros x. rewrite not_elem_of_app.
    rewrite list_elem_of_singleton. naive_solver.
Qed.

(** *** [cid] *)

Lemma cid_inj (a b : N) :
  "cid" +:+ pretty a = "cid" +:+ pretty b → a = b.
Proof. intros H. apply String.app_inj in H. by apply (inj pretty). Qed.

Lemma increment_ge (c : N) : (c ≤ increment c)%N.
Proof. unfold increment. destruct (c <? cid_limit)%N; lia. Qed.

Lemma cids_members (k : nat) (c : N) (s : string) :
  s ∈ cids k c → ∃ m, (c ≤ m)%N ∧ s = "cid" +:+ pretty m.
Proof.
  revert c. induction k as [|k IH]; intros c Hin.
  - by apply elem_of_nil in Hin.
  - cbn [cids] in Hin. apply elem_of_cons in Hin as [->|Hin].
    + exists c. split; [lia|done].
    + destruct (IH _ Hin) as (m & Hm & ->). exists m. split; [|done].
      pose proof (increment_ge c). simpl in Hm. lia.
Qed.

(** X22.  The ids that [cid()] hands out are pairwise distinct as long
    as the counter has not passed [2^53]: any [k] calls in a row that start
    at counter [c] with [c + k <= 2^53 + 1] give [k] different ids.  At
    [2^53] the counter stays where it is, and every further call returns
    the id ["cid9007199254740992"] again. *)
Theorem cid_unique_up_to_limit (k : nat) (c : N) :
  (c + N.of_nat k ≤ cid_limit + 1)%N →
  NoDup (cids k c)
  ∧ cids k cid_limit = replicate k "cid9007199254740992".
Proof.
  intros Hle. split.
  - revert c Hle. induction k as [|k IH]; intros c Hle; [apply NoDup_nil_2|].
    cbn [cids]. apply NoDup_cons. simpl.
    assert (increment c = (c + 1)%N ∨ k = 0) as [Hinc| ->].
    { unfold increment. destruct (c <? cid_limit)%N eqn:E; [by left|].
      right. apply N.ltb_ge in E. lia. }
    + rewrite Hinc. split.
      * intros Hin. apply cids_members in Hin as (m & Hm & Heq).
        apply cid_inj in Heq. lia.
      * apply IH. lia.
    + split; [apply not_elem_of_nil|apply NoDup_nil_2].
  - clear. induction k as [|k IH]; [done|].
    cbn [cids replicate].
    assert (fst (cid cid_limit) = "cid9007199254740992") as ->
      by (by vm_compute).
    assert (snd (cid cid_limit) = cid_limit) as -> by (by vm_compute).
    by rewrite IH.
Qed.

Lemma cid_unique_up_to_limit_witness :
  NoDup (cids 3 0) ∧ cids 3 0 = ["cid0"; "cid1"; "cid2"].
Proof.
  split; [|by vm_compute].
  apply (cid_unique_up_to_limit 3 0). by vm_compute.
Defined.

End CollectionsFacts.

(** ** Laws that hold of both engines *)

(** *** A write of the value already held *)

(** C6.  In both engines a write of a value that is not [!==] to the one
    held returns the world as it was: the value is the same, no listener or
    observer is told, nothing is queued.  Conversely a write that changes
    anything at all was given a value [!==] to the one held. *)
Theorem write_same_value_noop :
  (∀ (w : Tracked.World) (i : nat) (v : Value),
     strict_neq (TrackedSpec.peek w (Tracked.Sig i)) v = false →
     Tracked.send i v w = w)
  ∧ (∀ (w : Tracked.World) (i : nat) (v : Value),
       Tracked.send i v w ≠ w →
       strict_neq (TrackedSpec.peek w (Tracked.Sig i)) v = true)
  ∧ (∀ (w : Observed.World) (i : nat) (v : Value),
       strict_neq (Observed.getValue i w) v = false →
       Observed.setValue i v w = w)
  ∧ (∀ (w : Observed.World) (i : nat) (v : Value),
       Observed.setValue i v w ≠ w →
       strict_neq (Observed.getValue i w) v = true).
Proof.
  assert (∀ (w : Tracked.World) (i : nat) (v : Value),
            strict_neq (TrackedSpec.peek w (Tracked.Sig i)) v = false →
            Tracked.send i v w = w) as H1.
  { intros w i v H. rewrite TrackedFacts.send_publish, TrackedFacts.publish_spec.
    case_decide as Hd; [|done]. destruct Hd as [_ Hd]. congruence. }
  repeat split.
  - exact H1.
  - intros w i v H.
    destruct (strict_neq (TrackedSpec.peek w (Tracked.Sig i)) v) eqn:E; [done|].
    by apply H1 in E.
  - exact ObservedFacts.setValue_same.
  - exact ObservedFacts.setValue_changes.
Qed.

Lemma write_same_value_noop_witness :
  Tracked.send 0 (VNum 0) TrackedExamples.watch_start
  = TrackedExamples.watch_start
  ∧ Observed.setValue 0 (VNum 1) ObservedSpec.sum_start = ObservedSpec.sum_start.
Proof.
  destruct write_same_value_noop as (H1 & _ & H3 & _).
  split.
  - apply H1. reflexivity.
  - apply H3. reflexivity.
Defined.

(** [NaN] is [!==] to itself: writing it over itself is a change. *)
Example write_NaN_over_NaN :
  Tracked.microtasks
    (Tracked.send 0 VNaN
       (TrackedExamples.script
          [TrackedExamples.mk_signal VNaN;
           Tracked.useEffect TrackedExamples.watch_fn] Tracked.empty))
  = [0].
Proof. reflexivity. Qed.

(** *** Stores *)

(** C4, the statement that fails on the observer-based store: its [run]
    sends whatever the effect resolves to, [undefined] included. *)
Lemma observed_store_sends_nothing :
  ¬ ObservedSpec.settle_law_at ObservedSpec.adder_waiting 0 0.
Proof.
  intros H. specialize (H (Observed.Resolves VUndefined) eq_refl).
  vm_compute in H. discriminate.
Qed.

(** C4, as the code has it.  In both stores [send] stores the state that
    [update] returns for the state held and the message, so that a read
    right after it returns that state, and every effect of the transaction
    joins the calls waiting for their promise.  When the promise of a
    waiting call settles, the tracking-based store calls [send] once more
    if the promise resolved to a message that is neither [null] nor
    [undefined], and not at all otherwise; the observer-based store calls
    [send] once more with whatever the promise resolved to, and not at all
    if it was rejected. *)
Theorem store_send_round_trip :
  (∀ (w : Tracked.World) (st : nat) (s : Tracked.Store) (msg : Value),
     Tracked.stores w !! st = Some s →
     is_Some (Tracked.signals w !! Tracked.st_signal s) →
     let t := Tracked.st_update s
                (TrackedSpec.peek w (Tracked.Sig (Tracked.st_signal s))) msg in
     fst (Tracked.read (Tracked.Sig (Tracked.st_signal s))
            (Tracked.store_send st msg w))
     = Tracked.t_state t
     ∧ TrackedSpec.pending (Tracked.store_send st msg w) st
       = TrackedSpec.pending w st ++ Tracked.t_effects t)
  ∧ (∀ (w : Tracked.World) (st k : nat) (o : Tracked.Outcome),
       TrackedSpec.pending w st !! k = Some o →
       let w' := Tracked.set_pending st (delete k (TrackedSpec.pending w st)) w in
       match o with
       | Tracked.Resolves msg =>
           if nullish msg
           then Tracked.settle st k w = w'
           else Tracked.settle st k w = Tracked.store_send st msg w'
                ∧ TrackedSpec.store_sends st (Tracked.log (Tracked.settle st k w))
                  = S (TrackedSpec.store_sends st (Tracked.log w))
       | Tracked.Rejects => Tracked.settle st k w = w'
       end)
  ∧ (∀ (w : Observed.World) (st : nat) (s : Observed.Store) (msg : Value),
       Observed.stores w !! st = Some s →
       is_Some (Observed.signals w !! Observed.st_signal s) →
       let t := Observed.st_update s
                  (Observed.getValue (Observed.st_signal s) w) msg in
       Observed.getValue (Observed.st_signal s) (Observed.store_send st msg w)
       = Observed.t_state t
       ∧ ObservedSpec.pending (Observed.store_send st msg w) st
         = ObservedSpec.pending w st ++ Observed.t_effects t)
  ∧ (∀ (w : Observed.World) (st k : nat) (o : Observed.Outcome),
       ObservedSpec.pending w st !! k = Some o →
       let w' := Observed.set_pending st
                   (delete k (ObservedSpec.pending w st)) w in
       match o with
       | Observed.Resolves msg =>
           Observed.settle st k w = Observed.store_send st msg w'
           ∧ ObservedSpec.store_sends st (Observed.log (Observed.settle st k w))
             = S (ObservedSpec.store_sends st (Observed.log w))
       | Observed.Rejects => Observed.settle st k w = w'
       end).
Proof.
  repeat split.
  - rewrite TrackedFacts.read_value.
    destruct (TrackedFacts.store_send_spec w st s msg H) as (P1 & _).
    by apply P1.
  - destruct (TrackedFacts.store_send_spec w st s msg H) as (_ & P2 & _).
    unfold TrackedSpec.pending. by rewrite P2, H.
  - intros w st k o Hk. rewrite (TrackedFacts.settle_spec w st k o Hk).
    destruct o as [msg|]; simpl; [|done].
    destruct (nullish msg); simpl; [done|]. split; [done|].
    apply TrackedFacts.pending_is_Some in Hk as [s Hs].
    rewrite TrackedFacts.store_sends_store_send; [done|].
    simpl. rewrite list_lookup_alter_eq, Hs. by eexists.
  - destruct (ObservedFacts.observed_store_send_spec w st s msg H) as (P1 & _).
    by apply P1.
  - destruct (ObservedFacts.observed_store_send_spec w st s msg H) as (_ & P2 & _).
    unfold ObservedSpec.pending. by rewrite P2, H.
  - intros w st k o Hk. rewrite (ObservedFacts.observed_settle_spec w st k o Hk).
    destruct o as [msg|]; simpl; [|done]. split; [done|].
    apply ObservedFacts.observed_pending_is_Some in Hk as [s Hs].
    set (w' := Observed.set_pending st _ w).
    assert (Observed.stores w' !! st
            = Some (Observed.mkStore (Observed.st_signal s)
                      (Observed.st_update s) (Observed.st_debug s)
                      (delete k (ObservedSpec.pending w st)))) as Hs'.
    { unfold w'; simpl. by rewrite list_lookup_alter_eq, Hs. }
    by destruct (ObservedFacts.observed_store_send_spec w' st _ msg Hs') as (_ & _ & ->).
Qed.

Lemma store_send_round_trip_witness :
  fst (Tracked.read (Tracked.Sig 0)
         (Tracked.store_send 0 (VNum 4)
            (Tracked.store_send 0 (VNum 3) (TrackedExamples.adder_store []))))
  = VNum 7
  ∧ Tracked.settle 0 0 TrackedExamples.adder_waiting
    = Tracked.set_pending 0 [Tracked.Resolves (VNum 4)]
        TrackedExamples.adder_waiting
  ∧ TrackedSpec.store_sends 0
      (Tracked.log (Tracked.settle 0 1 TrackedExamples.adder_waiting))
    = 2
  ∧ Observed.getValue 0
      (Observed.store_send 0 (VNum 3) (ObservedSpec.adder_store []))
    = VNum 3
  ∧ ObservedSpec.store_sends 0
      (Observed.log (Observed.settle 0 0 ObservedSpec.adder_waiting))
    = 2.
Proof.
  destruct store_send_round_trip as (H1 & H2 & H3 & H4).
  split; [|split; [|split; [|split]]].
  - refine (proj1 (H1 (Tracked.store_send 0 (VNum 3)
                           (TrackedExamples.adder_store []))
                      0 _ (VNum 4) eq_refl _)).
    by eexists.
  - exact (H2 TrackedExamples.adder_waiting 0 0 (Tracked.Resolves VUndefined)
             eq_refl).
  - exact (proj2 (H2 TrackedExamples.adder_waiting 0 1
                    (Tracked.Resolves (VNum 4)) eq_refl)).
  - refine (proj1 (H3 (ObservedSpec.adder_store []) 0 _ (VNum 3) eq_refl _)).
    by eexists.
  - exact (proj2 (H4 ObservedSpec.adder_waiting 0 0
                    (Observed.Resolves VUndefined) eq_refl)).
Defined.
